(** * pylLoopLauncher: the loop mixer of [src/src/LoopLauncher.cpp]

    A shallow embedding of [LoopLauncher::Track] and [LoopLauncher]
    (declared in the header kept as [src/unnamed/part_000]) and the
    properties of the rendering, crossfade and pending-clip hand-off code;
    and of the parts of the binding layer [pyl] ([src/pyl/pyliason.cpp])
    that do not call into the Python interpreter: the null-terminated
    tables of methods and members and the path handling of [from_script].

    Conventions of the embedding.
    - [int], [sf::Int16], [sf::Uint64] and [std::size_t] values are integers
      of [Z]; every conversion between them is written out ([Cxx.to_int],
      [Cxx.to_u64], [Cxx.to_i16]).
    - [float] is IEEE-754 binary32, given by the operations of the standard
      library's [SpecFloat] at precision 24 and maximal exponent 128, with
      round-to-nearest-even.  Every operation is rounded to binary32 on its
      own: no wider intermediate format, no fused multiply-add.
    - [std::map<std::string, V>] is an association list kept sorted by key
      ([StdMap]); [begin()] and the iteration order are those of the keys.
    - A [Clip *] into [m_mapClips] is the key of the node it points to; a
      node of a [std::map] never moves and is never erased by this program.
    - Behaviour the C++ standard leaves undefined, and a thrown exception,
      end the computation with a [Cxx.Fault].
    - The rounding policy of the crossfade as the specification words it
      is written over the rational numbers ([Claimed]); the binary32 code
      is compared with it.
    - [UpdatePendingClips], [NeedsAudio] and [postPendingTracks] hold
      [m_muTrackUpdate] from their first statement to their last: each is
      one step on the state of the mixer. *)

From Stdlib Require Import ZArith String List Bool Lia.
From Stdlib Require Import Floats.SpecFloat.
From Stdlib Require QArith.QArith QArith.Qround.
Import ListNotations.
Local Open Scope Z_scope.

(** ** Machine integers, raw buffers and abnormal termination *)

Module Cxx.

Definition INT_MAX : Z := 2147483647.

(** Conversion to [int] (32 bits, two's complement). *)
Definition to_int (z : Z) : Z := (z + 2 ^ 31) mod 2 ^ 32 - 2 ^ 31.

(** Conversion to [sf::Uint64] / [std::size_t]. *)
Definition to_u64 (z : Z) : Z := z mod 2 ^ 64.

(** Conversion to [unsigned int]. *)
Definition to_uint (z : Z) : Z := z mod 2 ^ 32.

(** Conversion to [sf::Int16]. *)
Definition to_i16 (z : Z) : Z := (z + 2 ^ 15) mod 2 ^ 16 - 2 ^ 15.

Definition is_i16 (z : Z) : Prop := -32768 <= z <= 32767.
Definition is_i16b (z : Z) : bool := (-32768 <=? z) && (z <=? 32767).

(** Saturation to the range of [sf::Int16]. *)
Definition clamp_i16 (z : Z) : Z := Z.max (-32768) (Z.min 32767 z).

Inductive region : Type :=
  | ClipSamples   (* the sample array of a sf::SoundBuffer *)
  | MixBuffer.    (* the array behind pMixBuffer *)

Inductive fault : Type :=
  | OutOfBounds (r : region) (index : Z)
  | InvalidPointer
  | DivisionByZero
  | FloatToIntOverflow
  | LengthError.

Inductive outcome (A : Type) : Type :=
  | Done (a : A)
  | Fault (f : fault).
Arguments Done {A} a.
Arguments Fault {A} f.

Definition bind {A B : Type} (c : outcome A) (k : A -> outcome B) : outcome B :=
  match c with
  | Done a => k a
  | Fault f => Fault f
  end.

Definition lift {A : Type} (f : fault) (o : option A) : outcome A :=
  match o with
  | Some a => Done a
  | None => Fault f
  end.

Definition in_bounds (l : list Z) (i : Z) : bool :=
  (0 <=? i) && (i <? Z.of_nat (length l)).

(** [l[i]] for an index that is known to be valid. *)
Definition zth (l : list Z) (i : Z) : Z := nth (Z.to_nat i) l 0.

Fixpoint set_nth (n : nat) (v : Z) (l : list Z) : list Z :=
  match l, n with
  | [], _ => []
  | _ :: l', O => v :: l'
  | x :: l', S n' => x :: set_nth n' v l'
  end.

(** Reading [p[i]] through a raw pointer [p] to the first of [length l]
    elements. *)
Definition load (r : region) (l : list Z) (i : Z) : outcome Z :=
  if in_bounds l i then Done (zth l i) else Fault (OutOfBounds r i).

(** Writing [p[i] = v]. *)
Definition store (r : region) (l : list Z) (i : Z) (v : Z) : outcome (list Z) :=
  if in_bounds l i then Done (set_nth (Z.to_nat i) v l)
  else Fault (OutOfBounds r i).

(** [std::vector<sf::Int16>::resize (n)] with an [int] argument: the
    argument is converted to [size_type]; a negative one becomes a size
    above [max_size ()] and the call throws. *)
Definition resize (n : Z) (l : list Z) : outcome (list Z) :=
  if n <? 0 then Fault LengthError
  else Done (firstn (Z.to_nat n) l ++ repeat 0 (Z.to_nat n - length l)).

End Cxx.

Import Cxx.

Notation "x <- c ;; k" := (Cxx.bind c (fun x => k))
  (at level 61, c at next level, right associativity).
Notation "' pat <- c ;; k" := (Cxx.bind c (fun x => match x with pat => k end))
  (at level 61, pat pattern, c at next level, right associativity).

(** ** IEEE-754 binary32 *)

Module F32.

Definition prec : Z := 24.
Definition emax : Z := 128.

Definition float : Type := spec_float.

(** Conversion of an integer to [float]. *)
Definition of_int (z : Z) : float := binary_normalize prec emax z 0 false.

Definition add : float -> float -> float := SFadd prec emax.
Definition sub : float -> float -> float := SFsub prec emax.
Definition mul : float -> float -> float := SFmul prec emax.
Definition div : float -> float -> float := SFdiv prec emax.

Definition one : float := of_int 1.

(** Truncation toward zero, the value of a float-to-integer conversion. *)
Definition trunc (x : float) : option Z :=
  match x with
  | S754_zero _ => Some 0
  | S754_finite s m e =>
      let a := if 0 <=? e then Zpos m * 2 ^ e else Zpos m / 2 ^ (- e) in
      Some (if s then - a else a)
  | _ => None
  end.

(** [(sf::Int16) x]: undefined when the truncated value does not fit. *)
Definition to_i16 (x : float) : option Z :=
  match trunc x with
  | Some z => if is_i16b z then Some z else None
  | None => None
  end.

(** [(int) x]. *)
Definition to_int (x : float) : option Z :=
  match trunc x with
  | Some z => if (- 2 ^ 31 <=? z) && (z <=? INT_MAX) then Some z else None
  | None => None
  end.

(** The integer [ceilf] rounds a finite [x] up to. *)
Definition ceilZ (s : bool) (m : positive) (e : Z) : Z :=
  if 0 <=? e then (if s then - (Zpos m * 2 ^ e) else Zpos m * 2 ^ e)
  else
    let q := Zpos m / 2 ^ (- e) in
    if s then - q
    else if Zpos m mod 2 ^ (- e) =? 0 then q else q + 1.

(** [ceilf]. *)
Definition ceil (x : float) : float :=
  match x with
  | S754_finite s m e =>
      if 0 <=? e then x else binary_normalize prec emax (ceilZ s m e) 0 s
  | _ => x
  end.

End F32.

(** ** [std::map<std::string, V>] *)

Module StdMap.
Section WithValue.
Context {V : Type}.

Definition t : Type := list (string * V).

Fixpoint find (k : string) (m : t) : option V :=
  match m with
  | [] => None
  | (k', v) :: m' => if String.eqb k k' then Some v else find k m'
  end.

(** [m[k] = v]. *)
Fixpoint assign (k : string) (v : V) (m : t) : t :=
  match m with
  | [] => [(k, v)]
  | (k', v') :: m' =>
      match String.compare k k' with
      | Lt => (k, v) :: (k', v') :: m'
      | Eq => (k, v) :: m'
      | Gt => (k', v') :: assign k v m'
      end
  end.

(** [m.emplace (k, v)]: nothing changes when the key is present. *)
Definition emplace (k : string) (v : V) (m : t) : t :=
  match find k m with
  | Some _ => m
  | None => assign k v m
  end.

Definition empty (m : t) : bool :=
  match m with
  | [] => true
  | _ :: _ => false
  end.

(** [m.begin ()], the entry with the least key. *)
Definition begin (m : t) : option (string * V) := hd_error m.

(** The invariant of a [std::map]: along the iteration the keys increase
    strictly. *)
Fixpoint ordered (m : t) : Prop :=
  match m with
  | [] => True
  | (k, _) :: m' =>
      match m' with
      | [] => True
      | (k', _) :: _ => String.compare k k' = Lt
      end
      /\ ordered m'
  end.

End WithValue.
Arguments t V : clear implicits.
End StdMap.

(** ** [sf::SoundBuffer], the clip *)

Record SoundBuffer : Type := {
  getChannelCount : Z;
  getSampleRate : Z;
  getSamples : list Z
}.

Definition getSampleCount (b : SoundBuffer) : Z :=
  Z.of_nat (length (getSamples b)).

(** ** [LoopLauncher::Track] *)

Module Track.

Record t : Type := {
  m_nFadeSamples : Z;
  m_nSampleCount : Z;
  m_mapClips : StdMap.t SoundBuffer;
  m_pPendingTrack : option string;  (* the active clip *)
  m_pPendingClip : option string    (* the pending clip *)
}.

(** [Track::Track ()]. *)
Definition default : t :=
  {| m_nFadeSamples := 0; m_nSampleCount := 0; m_mapClips := [];
     m_pPendingTrack := None; m_pPendingClip := None |}.

Definition with_active (p : option string) (tr : t) : t :=
  {| m_nFadeSamples := m_nFadeSamples tr; m_nSampleCount := m_nSampleCount tr;
     m_mapClips := m_mapClips tr;
     m_pPendingTrack := p; m_pPendingClip := m_pPendingClip tr |}.

Definition with_pending (p : option string) (tr : t) : t :=
  {| m_nFadeSamples := m_nFadeSamples tr; m_nSampleCount := m_nSampleCount tr;
     m_mapClips := m_mapClips tr;
     m_pPendingTrack := m_pPendingTrack tr; m_pPendingClip := p |}.

(** [*p] for a non-null [Clip * p]. *)
Definition deref (tr : t) (p : string) : outcome SoundBuffer :=
  lift InvalidPointer (StdMap.find p (m_mapClips tr)).

Definition GetChannelCount (tr : t) : Z :=
  match StdMap.begin (m_mapClips tr) with
  | None => 1
  | Some (_, c) => to_int (getChannelCount c)
  end.

Definition GetSampleRate (tr : t) : Z :=
  match StdMap.begin (m_mapClips tr) with
  | None => 1
  | Some (_, c) => to_int (getSampleRate c)
  end.

Definition GetSampleCount (tr : t) : Z :=
  match StdMap.begin (m_mapClips tr) with
  | None => 1
  | Some (_, c) => to_int (getSampleCount c)
  end.

(** The fade duration of [AddClip]: [(int) (mS * samplesPerMS)]. *)
Definition fadeSamples (sBuf : SoundBuffer) : option Z :=
  let mS := F32.of_int 5 in
  let samplesPerMS := F32.div (F32.of_int (getSampleRate sBuf)) (F32.of_int 1000) in
  F32.to_int (F32.mul mS samplesPerMS).

Section Loader.

(** [sf::SoundBuffer::loadFromFile]: the decoded file, or a failure. *)
Variable loadFromFile : string -> option SoundBuffer.

Definition AddClip (fileName : string) (tr : t) : outcome (bool * t) :=
  match loadFromFile fileName with
  | Some sBuf =>
      let count :=
        if m_nSampleCount tr =? 0 then to_int (getSampleCount sBuf)
        else m_nSampleCount tr in
      fade <- (if m_nFadeSamples tr =? 0
               then lift FloatToIntOverflow (fadeSamples sBuf)
               else Done (m_nFadeSamples tr)) ;;
      Done (true,
            {| m_nFadeSamples := fade; m_nSampleCount := count;
               m_mapClips := StdMap.assign fileName sBuf (m_mapClips tr);
               m_pPendingTrack := m_pPendingTrack tr;
               m_pPendingClip := m_pPendingClip tr |})
  | None => Done (false, tr)
  end.

(** The loop of [Track::Track (std::list<std::string>)]. *)
Fixpoint AddClips (liFileNames : list string) (tr : t) : outcome t :=
  match liFileNames with
  | [] => Done tr
  | file :: rest => '(_, tr') <- AddClip file tr ;; AddClips rest tr'
  end.

Definition of_files (liFileNames : list string) : outcome t :=
  AddClips liFileNames default.

End Loader.

Definition SetPendingTrack (trackName : string) (tr : t) : bool * t :=
  match StdMap.find trackName (m_mapClips tr) with
  | Some _ => (true, with_pending (Some trackName) tr)
  | None => (false, with_pending None tr)
  end.

Definition HasClip (clipName : string) (tr : t) : bool :=
  match StdMap.find clipName (m_mapClips tr) with
  | Some _ => true
  | None => false
  end.

(** [const float vol_1 = 1.f / 2]. *)
Definition vol_1 : F32.float := F32.div F32.one (F32.of_int 2).

(** [*pSoundBuf * vol_1]. *)
Definition scaled (s : Z) : F32.float := F32.mul (F32.of_int s) vol_1.

(** The value [pMixBuffer[i] += *pSoundBuf++ * vol_1] leaves in
    [pMixBuffer[i]], from the old value [m] and the sample [s]. *)
Definition mix_plain (m s : Z) : option Z :=
  F32.to_i16 (F32.add (F32.of_int m) (scaled s)).

(** [1.f - float (j) / float (m_nFadeSamples)]. *)
Definition fade_weight (nFadeSamples j : Z) : F32.float :=
  F32.sub F32.one (F32.div (F32.of_int j) (F32.of_int nFadeSamples)).

(** [a * val + (1.f - a) * nextSample]. *)
Definition weighted_sum (a : F32.float) (val nextSample : Z) : F32.float :=
  F32.add (F32.mul a (F32.of_int val))
          (F32.mul (F32.sub F32.one a) (F32.of_int nextSample)).

(** [sf::Int16 val = *pSoundBuf++ * vol_1]. *)
Definition fade_val (s : Z) : option Z := F32.to_i16 (scaled s).

(** [(sf::Int16) ceilf (a * val + (1.f - a) * nextSample)]. *)
Definition fade_iVal (a : F32.float) (val nextSample : Z) : option Z :=
  F32.to_i16 (F32.ceil (weighted_sum a val nextSample)).

(** [for (int i = 0; i < lastSample; i++)], entered with [n] iterations
    left, at index [i] and with [pSoundBuf] at sample [p]. *)
Fixpoint copy_loop (samples : list Z) (n : nat) (i p : Z) (mix : list Z)
  : outcome (Z * list Z) :=
  match n with
  | O => Done (p, mix)
  | S n' =>
      s <- load ClipSamples samples p ;;
      m <- load MixBuffer mix i ;;
      v <- lift FloatToIntOverflow (mix_plain m s) ;;
      mix' <- store MixBuffer mix i v ;;
      copy_loop samples n' (i + 1) (p + 1) mix'
  end.

(** [for (int i = lastSample, j = 0; i < nSamplesDesired; i++)]. *)
Fixpoint fade_loop (samples : list Z) (nFadeSamples nextSample : Z)
    (n : nat) (i p j : Z) (mix : list Z) : outcome (list Z) :=
  match n with
  | O => Done mix
  | S n' =>
      let j' := j + 1 in
      let a := fade_weight nFadeSamples j' in
      s <- load ClipSamples samples p ;;
      val <- lift FloatToIntOverflow (fade_val s) ;;
      iVal <- lift FloatToIntOverflow (fade_iVal a val nextSample) ;;
      m <- load MixBuffer mix i ;;
      mix' <- store MixBuffer mix i (to_i16 (m + iVal)) ;;
      fade_loop samples nFadeSamples nextSample n' (i + 1) (p + 1) j' mix'
  end.

(** The bootstrap at the head of [GetAudio]: a null active clip takes the
    pending one. *)
Definition bootstrap (tr : t) : t :=
  match m_pPendingTrack tr, m_pPendingClip tr with
  | None, Some p => with_active (Some p) tr
  | _, _ => tr
  end.

(** [nextSample]: the first sample of the pending clip, or 0. *)
Definition nextSample (tr : t) : outcome Z :=
  match m_pPendingClip tr with
  | None => Done 0
  | Some p => c <- deref tr p ;; load ClipSamples (getSamples c) 0
  end.

(** [Track::GetAudio].  [pMixBuffer] is [None] for a null pointer, or the
    array it points to. *)
Definition GetAudio (pMixBuffer : option (list Z))
    (nSamplesDesired nCurSamplePos : Z) (tr : t)
  : outcome (bool * t * option (list Z)) :=
  match pMixBuffer with
  | None => Done (false, tr, None)
  | Some mix =>
      let tr1 := bootstrap tr in
      match m_pPendingTrack tr1 with
      | None => Done (false, tr1, Some mix)
      | Some active =>
          soundBuf <- deref tr1 active ;;
          let count := getSampleCount soundBuf in
          if count =? 0 then Fault DivisionByZero
          else
            let sampleOffset := to_int (to_u64 nCurSamplePos mod count) in
            let bLoop :=
              count <=? to_u64 (to_int (sampleOffset + nSamplesDesired)) in
            let lastSample :=
              if bLoop then to_int (nSamplesDesired - m_nFadeSamples tr1)
              else nSamplesDesired in
            '(p, mix1) <- copy_loop (getSamples soundBuf) (Z.to_nat lastSample)
                                    0 sampleOffset mix ;;
            if bLoop then
              next <- nextSample tr1 ;;
              mix2 <- fade_loop (getSamples soundBuf) (m_nFadeSamples tr1) next
                                (Z.to_nat (nSamplesDesired - lastSample))
                                lastSample p 0 mix1 ;;
              Done (true, with_active (m_pPendingClip tr1) tr1, Some mix2)
            else Done (true, tr1, Some mix1)
      end
  end.

(** [m + s / 2], truncated toward zero: what [mix_plain] computes when it
    fits a [sf::Int16]. *)
Definition mixed (m s : Z) : Z := Z.quot (2 * m + s) 2.

(** [iVal] in the [j]-th pass of the crossfade loop, on the sample [s]. *)
Definition fade_step (nFadeSamples nextSample j s : Z) : option Z :=
  match fade_val s with
  | Some val => fade_iVal (fade_weight nFadeSamples j) val nextSample
  | None => None
  end.

End Track.

(** ** [LoopLauncher] *)

Module LoopLauncher.

Record t : Type := {
  m_nLastSamplePos : Z;
  m_nMaxSampleCount : Z;
  m_mapTracks : StdMap.t Track.t;
  m_vMixBuffer : list Z;
  m_bNeedsAudio : bool;
  m_mapPendingTracks : StdMap.t string;
  (* the channel count and sample rate given to sf::SoundStream::initialize *)
  m_stream : option (Z * Z)
}.

(** [LoopLauncher::LoopLauncher ()]. *)
Definition default : t :=
  {| m_nLastSamplePos := 0; m_nMaxSampleCount := 0; m_mapTracks := [];
     m_vMixBuffer := []; m_bNeedsAudio := true; m_mapPendingTracks := [];
     m_stream := None |}.

Definition with_tracks (tracks : StdMap.t Track.t) (ll : t) : t :=
  {| m_nLastSamplePos := m_nLastSamplePos ll;
     m_nMaxSampleCount := m_nMaxSampleCount ll;
     m_mapTracks := tracks;
     m_vMixBuffer := m_vMixBuffer ll;
     m_bNeedsAudio := m_bNeedsAudio ll;
     m_mapPendingTracks := m_mapPendingTracks ll;
     m_stream := m_stream ll |}.

(** The loop over the tracks of [Initialize]: the running maximum and
    minimum of the sample counts. *)
Fixpoint sample_count_range (tracks : StdMap.t Track.t) (nMax nMin : Z)
  : Z * Z :=
  match tracks with
  | [] => (nMax, nMin)
  | (_, tr) :: rest =>
      sample_count_range rest
        (Z.max nMax (Track.GetSampleCount tr))
        (Z.min nMin (Track.GetSampleCount tr))
  end.

Section Loader.

Variable loadFromFile : string -> option SoundBuffer.

(** [for (auto& it : mapTracks) m_mapTracks.emplace (it.first, it.second)]:
    each track is constructed from its list of files. *)
Fixpoint emplace_tracks (mapTracks : StdMap.t (list string))
    (tracks : StdMap.t Track.t) : outcome (StdMap.t Track.t) :=
  match mapTracks with
  | [] => Done tracks
  | (name, files) :: rest =>
      tr <- Track.of_files loadFromFile files ;;
      emplace_tracks rest (StdMap.emplace name tr tracks)
  end.

Definition Initialize (mapTracks : StdMap.t (list string)) (ll : t)
  : outcome (bool * t) :=
  tracks <- emplace_tracks mapTracks (m_mapTracks ll) ;;
  if StdMap.empty tracks then Done (false, with_tracks tracks ll)
  else
    let '(nMax, nMin) :=
      sample_count_range tracks (m_nMaxSampleCount ll) INT_MAX in
    buf <- resize (Z.quot nMin 64) (m_vMixBuffer ll) ;;
    '(_, first) <- lift InvalidPointer (StdMap.begin tracks) ;;
    Done (true,
          {| m_nLastSamplePos := m_nLastSamplePos ll;
             m_nMaxSampleCount := nMax;
             m_mapTracks := tracks;
             m_vMixBuffer := buf;
             m_bNeedsAudio := m_bNeedsAudio ll;
             m_mapPendingTracks := m_mapPendingTracks ll;
             m_stream := Some (to_uint (Track.GetChannelCount first),
                               to_uint (Track.GetSampleRate first)) |}).

Definition AddTrack (trackName : string) (liFileNames : list string) (ll : t)
  : outcome (bool * t) :=
  tr <- Track.of_files loadFromFile liFileNames ;;
  Done (true, with_tracks (StdMap.emplace trackName tr (m_mapTracks ll)) ll).

End Loader.

(** [LoopLauncher::LoopLauncher (LoopLauncher&&)].  The new mixer takes the
    position, the cycle length, the tracks, the mix buffer and the flag of
    [other]; its map of staged requests and its stream are those of a new
    object. *)
Definition move (other : t) : t :=
  {| m_nLastSamplePos := m_nLastSamplePos other;
     m_nMaxSampleCount := m_nMaxSampleCount other;
     m_mapTracks := m_mapTracks other;
     m_vMixBuffer := m_vMixBuffer other;
     m_bNeedsAudio := m_bNeedsAudio other;
     m_mapPendingTracks := [];
     m_stream := None |}.

(** [LoopLauncher::operator= (LoopLauncher&&)]: the same five members are
    assigned, the staged requests and the stream of [*this] stay. *)
Definition move_assign (this other : t) : t :=
  {| m_nLastSamplePos := m_nLastSamplePos other;
     m_nMaxSampleCount := m_nMaxSampleCount other;
     m_mapTracks := m_mapTracks other;
     m_vMixBuffer := m_vMixBuffer other;
     m_bNeedsAudio := m_bNeedsAudio other;
     m_mapPendingTracks := m_mapPendingTracks this;
     m_stream := m_stream this |}.

Definition GetTrack (trackName : string) (ll : t) : option Track.t :=
  StdMap.find trackName (m_mapTracks ll).

(** The inner loop of [UpdatePendingClips]: the first track, in key order,
    that has the clip. *)
Fixpoint first_track_with (clip : string) (tracks : StdMap.t Track.t)
  : option string :=
  match tracks with
  | [] => None
  | (name, tr) :: rest =>
      if Track.HasClip clip tr then Some name else first_track_with clip rest
  end.

(** The outer loop of [UpdatePendingClips], on the staged map and the
    needs-audio flag. *)
Fixpoint stage (tracks : StdMap.t Track.t) (liNewActiveClips : list string)
    (pending : StdMap.t string) (bNeedsAudio : bool)
  : StdMap.t string * bool :=
  match liNewActiveClips with
  | [] => (pending, bNeedsAudio)
  | clip :: rest =>
      match first_track_with clip tracks with
      | Some name => stage tracks rest (StdMap.assign name clip pending) false
      | None => stage tracks rest pending bNeedsAudio
      end
  end.

Definition UpdatePendingClips (liNewActiveClips : list string) (ll : t)
  : bool * t :=
  let '(pending, bNeedsAudio) :=
    stage (m_mapTracks ll) liNewActiveClips
          (m_mapPendingTracks ll) (m_bNeedsAudio ll) in
  (Bool.eqb bNeedsAudio false,
   {| m_nLastSamplePos := m_nLastSamplePos ll;
      m_nMaxSampleCount := m_nMaxSampleCount ll;
      m_mapTracks := m_mapTracks ll;
      m_vMixBuffer := m_vMixBuffer ll;
      m_bNeedsAudio := bNeedsAudio;
      m_mapPendingTracks := pending;
      m_stream := m_stream ll |}).

Definition NeedsAudio (ll : t) : bool := m_bNeedsAudio ll.

(** [for (auto& track : m_mapTracks) track.second.SetPendingTrack ("silence")]. *)
Definition silence_all (tracks : StdMap.t Track.t) : StdMap.t Track.t :=
  map (fun entry => (fst entry, snd (Track.SetPendingTrack "silence" (snd entry))))
      tracks.

(** [it->second.SetPendingTrack (clip)] on the track found under [name];
    nothing when [find] fails. *)
Fixpoint set_pending_on (name clip : string) (tracks : StdMap.t Track.t)
  : StdMap.t Track.t :=
  match tracks with
  | [] => []
  | (k, tr) :: rest =>
      if String.eqb name k
      then (k, snd (Track.SetPendingTrack clip tr)) :: rest
      else (k, tr) :: set_pending_on name clip rest
  end.

(** [for (auto& itTrack : m_mapPendingTracks) ...]. *)
Fixpoint apply_pending (pending : StdMap.t string) (tracks : StdMap.t Track.t)
  : StdMap.t Track.t :=
  match pending with
  | [] => tracks
  | (trackName, clip) :: rest =>
      apply_pending rest (set_pending_on trackName clip tracks)
  end.

Definition postPendingTracks (ll : t) : t :=
  {| m_nLastSamplePos := m_nLastSamplePos ll;
     m_nMaxSampleCount := m_nMaxSampleCount ll;
     m_mapTracks :=
       apply_pending (m_mapPendingTracks ll) (silence_all (m_mapTracks ll));
     m_vMixBuffer := m_vMixBuffer ll;
     m_bNeedsAudio := true;
     m_mapPendingTracks := [];
     m_stream := m_stream ll |}.

(** [Play]: the staged clips are flushed; starting the stream is the
    playback library's business. *)
Definition Play (ll : t) : t := postPendingTracks ll.

(** [for (auto& track : m_mapTracks) track.second.GetAudio (...)]: the
    tracks render one after the other into the same buffer. *)
Fixpoint render_tracks (tracks : StdMap.t Track.t) (mix : list Z)
    (nSamples nPos : Z) : outcome (StdMap.t Track.t * list Z) :=
  match tracks with
  | [] => Done ([], mix)
  | (name, tr) :: rest =>
      '(_, tr', pMix) <- Track.GetAudio (Some mix) nSamples nPos tr ;;
      mix' <- lift InvalidPointer pMix ;;
      '(rest', mix'') <- render_tracks rest mix' nSamples nPos ;;
      Done ((name, tr') :: rest', mix'')
  end.

(** [LoopLauncher::onGetData].  The chunk handed to the stream is the mix
    buffer of the state returned. *)
Definition onGetData (ll : t) : outcome (bool * t) :=
  match m_vMixBuffer ll with
  | [] => Done (false, ll)
  | _ :: _ =>
      let size := Z.of_nat (length (m_vMixBuffer ll)) in
      let zeroed := repeat 0 (length (m_vMixBuffer ll)) in
      let bLoop :=
        to_u64 (m_nMaxSampleCount ll)
        <=? to_u64 (size + to_u64 (m_nLastSamplePos ll)) in
      let ll1 := if bLoop then postPendingTracks ll else ll in
      '(tracks, mix) <- render_tracks (m_mapTracks ll1) zeroed (to_int size)
                                      (m_nLastSamplePos ll1) ;;
      let pos := to_int (to_u64 (to_u64 (m_nLastSamplePos ll1) + size)) in
      Done (true,
            {| m_nLastSamplePos :=
                 if m_nMaxSampleCount ll1 <=? pos then 0 else pos;
               m_nMaxSampleCount := m_nMaxSampleCount ll1;
               m_mapTracks := tracks;
               m_vMixBuffer := mix;
               m_bNeedsAudio := m_bNeedsAudio ll1;
               m_mapPendingTracks := m_mapPendingTracks ll1;
               m_stream := m_stream ll1 |})
  end.

(** The least of [INT_MAX] and the sample counts of the tracks. *)
Definition min_sample_count (tracks : StdMap.t Track.t) : Z :=
  fold_right Z.min INT_MAX (map (fun e => Track.GetSampleCount (snd e)) tracks).

End LoopLauncher.

(** ** [pyl]: the null-terminated tables of [src/pyl/pyliason.cpp]

    The tables [pyl] hands to the Python interpreter.  A [char *] into
    one of the lists of names or docs is the string it points to (the
    lists are [std::list]s, whose elements never move, and no string is
    modified once stored), [None] when the pointer is null; a function
    pointer is its address. *)

Module Pyl.

(** How a call of the binding layer ends: with a value, with a thrown
    [std::runtime_error] and its message, or in undefined behaviour. *)
Inductive result (A : Type) : Type :=
  | Ok (a : A)
  | Throw (what : string)
  | Undefined.
Arguments Ok {A} a.
Arguments Throw {A} what.
Arguments Undefined {A}.

(** [std::string::empty]. *)
Definition empty (s : string) : bool :=
  match s with
  | EmptyString => true
  | String _ _ => false
  end.

(** [_NullTermBuf<D>::_insert]:
    [v_Data.insert (v_Data.end () - 1, data)].  On an empty vector
    [end () - 1] is no iterator of the vector. *)
Definition _insert {D : Type} (data : D) (v_Data : list D) : result (list D) :=
  match v_Data with
  | [] => Undefined
  | d :: rest => Ok (removelast (d :: rest) ++ [data; last rest d])
  end.

(** [PyMethodDef]. *)
Record PyMethodDef : Type := {
  ml_name : option string;
  ml_meth : Z;
  ml_flags : Z;
  ml_doc : option string
}.

(** [PyMethodDef method{ 0 }], the terminator of the table. *)
Definition null_method : PyMethodDef :=
  {| ml_name := None; ml_meth := 0; ml_flags := 0; ml_doc := None |}.

Record MethodDefinitions : Type := {
  v_Data : list PyMethodDef;
  MethodNames : list string;
  MethodDocs : list string
}.

(** [MethodDefinitions::MethodDefinitions ()]: [v_Data (1, { 0 })]. *)
Definition MethodDefinitions_new : MethodDefinitions :=
  {| v_Data := [null_method]; MethodNames := []; MethodDocs := [] |}.

(** The entry [AddMethod] builds: [{ namePtr, fnPtr, flags, NULL }], or
    with the pointer to the stored docs when there are some. *)
Definition method_def (name : string) (fnPtr flags : Z) (docs : string)
  : PyMethodDef :=
  {| ml_name := Some name; ml_meth := fnPtr; ml_flags := flags;
     ml_doc := if empty docs then None else Some docs |}.

(** [MethodDefinitions::AddMethod]. *)
Definition AddMethod (name : string) (fnPtr flags : Z) (docs : string)
    (md : MethodDefinitions) : result MethodDefinitions :=
  if existsb (String.eqb name) (MethodNames md)
  then Throw "Error: Attempting to overwrite exisiting exposed python function"
  else
    match _insert (method_def name fnPtr flags docs) (v_Data md) with
    | Ok v =>
        Ok {| v_Data := v;
              MethodNames := MethodNames md ++ [name];
              MethodDocs := if empty docs then MethodDocs md
                            else MethodDocs md ++ [docs] |}
    | Throw what => Throw what
    | Undefined => Undefined
    end.

(** One call of [AddMethod] after the other, as a module registers its
    functions: name, function pointer, flags and docs of each. *)
Fixpoint AddMethods (calls : list (string * Z * Z * string))
    (md : MethodDefinitions) : result MethodDefinitions :=
  match calls with
  | [] => Ok md
  | (name, fnPtr, flags, docs) :: rest =>
      match AddMethod name fnPtr flags docs md with
      | Ok md' => AddMethods rest md'
      | Throw what => Throw what
      | Undefined => Undefined
      end
  end.

(** [PyMemberDef]. *)
Record PyMemberDef : Type := {
  name : option string;
  type : Z;
  offset : Z;
  flags : Z;
  doc : option string
}.

Definition null_member : PyMemberDef :=
  {| name := None; type := 0; offset := 0; flags := 0; doc := None |}.

Record MemberDefinitions : Type := {
  m_Data : list PyMemberDef;   (* v_Data *)
  MemberNames : list string;
  MemberDocs : list string
}.

(** [T_OBJECT_EX] of Python's [structmember.h]. *)
Definition T_OBJECT_EX : Z := 16.

(** [MemberDefinitions::MemberDefinitions ()]: every class gets the member
    [c_ptr], at [capsule_offset = offsetof (GenericPyClass, capsule)]. *)
Definition MemberDefinitions_new (capsule_offset : Z)
  : result MemberDefinitions :=
  match _insert {| name := Some "c_ptr"%string; type := T_OBJECT_EX;
                   offset := capsule_offset; flags := 0;
                   doc := Some "pointer to a c object"%string |}
                [null_member] with
  | Ok v => Ok {| m_Data := v; MemberNames := ["c_ptr"%string];
                  MemberDocs := ["pointer to a c object"%string] |}
  | Throw what => Throw what
  | Undefined => Undefined
  end.

Definition member_def (memberName : string) (memberType memberOffset memberFlags : Z)
    (docs : string) : PyMemberDef :=
  {| name := Some memberName; type := memberType; offset := memberOffset;
     flags := memberFlags;
     doc := if empty docs then None else Some docs |}.

(** [MemberDefinitions::AddMember]. *)
Definition AddMember (memberName : string)
    (memberType memberOffset memberFlags : Z) (docs : string)
    (md : MemberDefinitions) : result MemberDefinitions :=
  if existsb (String.eqb memberName) (MemberNames md)
  then Throw "Error: Attempting to overwrite exisiting exposed python class member"
  else
    match _insert (member_def memberName memberType memberOffset memberFlags docs)
                  (m_Data md) with
    | Ok v =>
        Ok {| m_Data := v;
              MemberNames := MemberNames md ++ [memberName];
              MemberDocs := if empty docs then MemberDocs md
                            else MemberDocs md ++ [docs] |}
    | Throw what => Throw what
    | Undefined => Undefined
    end.

(** One call of [AddMember] after the other: name, type, offset, flags and
    docs of each. *)
Fixpoint AddMembers (calls : list (string * Z * Z * Z * string))
    (md : MemberDefinitions) : result MemberDefinitions :=
  match calls with
  | [] => Ok md
  | (memberName, memberType, memberOffset, memberFlags, docs) :: rest =>
      match AddMember memberName memberType memberOffset memberFlags docs md with
      | Ok md' => AddMembers rest md'
      | Throw what => Throw what
      | Undefined => Undefined
      end
  end.

(** *** [Object::from_script]: where the script is looked for *)

(** [std::string::npos]. *)
Definition npos : Z := 2 ^ 64 - 1.

(** [s.size ()]. *)
Definition size (s : string) : Z := Z.of_nat (String.length s).

(** The last position at which [pat] occurs in [s]. *)
Fixpoint rfind_nat (pat s : string) : option nat :=
  match s with
  | EmptyString => if String.prefix pat s then Some O else None
  | String _ s' =>
      match rfind_nat pat s' with
      | Some i => Some (S i)
      | None => if String.prefix pat s then Some O else None
      end
  end.

(** [s.rfind (pat)]. *)
Definition rfind (s pat : string) : Z :=
  match rfind_nat pat s with
  | Some i => Z.of_nat i
  | None => npos
  end.

(** [s.substr (pos, n)], for [pos <= s.size ()]: the characters from [pos]
    on, [n] of them or as many as there are. *)
Definition substr (s : string) (pos n : Z) : string :=
  String.substring (Z.to_nat pos) (Z.to_nat (Z.min n (size s - pos))) s.

Section Interpreter.

(** [pyl::Object]. *)
Variable Object : Type.

(** The second half of [from_script], which is the interpreter's business:
    the import of the module [file_path], with [base_path] appended to
    [sys.path] for a second attempt when the first one fails. *)
Variable import_module : string -> string -> result Object.

(** [Object::from_script]: the directory and the name of the module are
    cut out of the path of the script, then the module is imported. *)
Definition from_script (script_path : string) : result Object :=
  let last_slash := rfind script_path "/" in
  match
    (if last_slash =? npos then Ok ("."%string, script_path)
     else if to_u64 (size script_path - 2) <=? last_slash
          then Throw "Invalid script path"
          else Ok (substr script_path 0 last_slash,
                   substr script_path (last_slash + 1) npos))
  with
  | Ok (base_path, file_path) =>
      import_module base_path
        (if rfind file_path ".py" =? to_u64 (size file_path - 3)
         then substr file_path 0 (to_u64 (size file_path - 3))
         else file_path)
  | Throw what => Throw what
  | Undefined => Undefined
  end.

End Interpreter.

End Pyl.

(** ** Values of binary32 numbers

    The vocabulary of the statements about [float] arithmetic.  Every
    finite binary32 number is an integer multiple of [2 ^ -149]. *)

Module F32Spec.

(** The exponent of the last place of a number of magnitude [2 ^ e]. *)
Definition fexp32 (e : Z) : Z := Z.max (e - 24) (-149).

(** The value of [x] in units of [2 ^ -149]. *)
Definition value (x : F32.float) : Z :=
  match x with
  | S754_finite s m e => (if s then - Zpos m else Zpos m) * 2 ^ (e + 149)
  | _ => 0
  end.

(** A zero, or a finite number no finer than [2 ^ -149]. *)
Definition fin (x : F32.float) : Prop :=
  match x with
  | S754_finite _ m e => -149 <= e
  | S754_zero _ => True
  | _ => False
  end.

(** A finite number has a mantissa of at most 24 bits and an exponent of
    at least -149. *)
Definition valid (x : F32.float) : Prop :=
  match x with
  | S754_finite _ m e => Zpos m < 2 ^ 24 /\ -149 <= e
  | _ => True
  end.

(** A normal number in canonical form, or a zero. *)
Definition canonical (x : F32.float) : Prop :=
  match x with
  | S754_finite _ m e => Zpos (digits2_pos m) = 24 /\ -148 <= e <= 104
  | S754_zero _ => True
  | _ => False
  end.

(** [m * 2 ^ e] is a binary32 number: no bit is lost by rounding it. *)
Definition representable (m : positive) (e : Z) : Prop :=
  let f := fexp32 (Zpos (digits2_pos m) + e) in
  f <= 104 /\ (f <= e \/ Zpos m mod 2 ^ (f - e) = 0).

(** [c] is the ceiling of [x]: the least integer not below its value. *)
Definition is_ceiling (c : Z) (x : F32.float) : Prop :=
  (c - 1) * 2 ^ 149 < value x <= c * 2 ^ 149.

End F32Spec.

Import F32Spec.

(** ** The crossfade in exact arithmetic

    The rounding policy as the specification words it, over the rational
    numbers: the weight [a = 1 - j / F] of pass [j] of a fade of [F]
    samples, the weighted sum [a * val + (1 - a) * nextSample], its ceiling
    and the clamp to the range of a sample.  Nothing here is taken from the
    code; the code is compared with it. *)

Module Claimed.

Import QArith.QArith Qround.
Local Open Scope Q_scope.

Definition fade_weight (nFadeSamples j : Z) : Q :=
  1 - inject_Z j / inject_Z nFadeSamples.

Definition weighted_sum (a : Q) (val nextSample : Z) : Q :=
  a * inject_Z val + (1 - a) * inject_Z nextSample.

Definition crossfaded (nFadeSamples j val nextSample : Z) : Z :=
  clamp_i16
    (Qceiling (weighted_sum (fade_weight nFadeSamples j) val nextSample)).

(** [c] is the ceiling of a number that is within [1 / 32] of [x]. *)
Definition tolerance : Q := 1 # 32.

Definition ceiling_near (c : Z) (x : Q) : Prop :=
  inject_Z c - 1 - tolerance < x /\ x <= inject_Z c + tolerance.

End Claimed.

(** ** Concrete tracks and mixers *)

Module Scenario.

Local Open Scope string_scope.

(** Eight samples at 1000 Hz: the fade of 5 ms is 5 samples long. *)
Definition tone : SoundBuffer :=
  {| getChannelCount := 1; getSampleRate := 1000;
     getSamples := [1000; 1000; 1000; 1000; 1000; 1000; 1000; 1000] |}.

Definition ramp : SoundBuffer :=
  {| getChannelCount := 1; getSampleRate := 1000;
     getSamples := [-800; -600; -400; -200; 200; 400; 600; 801] |}.

(** 128 samples at 1000 Hz. *)
Definition loop128 (v : Z) : SoundBuffer :=
  {| getChannelCount := 2; getSampleRate := 1000;
     getSamples := repeat v 128 |}.

(** 321 samples at 1000 Hz: blocks of [321 / 64 = 5] samples, as long as
    the fade. *)
Definition loop321 : SoundBuffer :=
  {| getChannelCount := 1; getSampleRate := 1000;
     getSamples := repeat 1000 321 |}.

(** 320 samples at 1000 Hz: 64 blocks of 5 samples, the last one fading. *)
Definition loop320 : SoundBuffer :=
  {| getChannelCount := 1; getSampleRate := 1000;
     getSamples := repeat 1000 320 |}.

(** The files the decoder knows. *)
Definition files (name : string) : option SoundBuffer :=
  if String.eqb name "a" then Some tone
  else if String.eqb name "b" then Some ramp
  else if String.eqb name "silence" then Some ramp
  else if String.eqb name "x" then Some (loop128 3000)
  else if String.eqb name "y" then Some (loop128 (-2000))
  else if String.eqb name "long" then Some loop321
  else if String.eqb name "pad" then Some loop320
  else None.

(** Three files of 128 samples at full scale, and one track for each. *)
Definition loud_files (name : string) : option SoundBuffer :=
  if String.eqb name "l1" then Some (loop128 32767)
  else if String.eqb name "l2" then Some (loop128 32767)
  else if String.eqb name "l3" then Some (loop128 32767)
  else None.

Definition three_loud_tracks : StdMap.t (list string) :=
  [("t1", ["l1"]); ("t2", ["l2"]); ("t3", ["l3"])].

(** The track of the files "a" and "b". *)
Definition track_ab : Track.t :=
  {| Track.m_nFadeSamples := 5; Track.m_nSampleCount := 8;
     Track.m_mapClips := [("a", tone); ("b", ramp)];
     Track.m_pPendingTrack := None; Track.m_pPendingClip := None |}.

(** The same track once "a" plays and nothing is pending: "a" was
    requested, a first render made it active, and a flush of the staged
    requests (none for this track) cleared the pending clip. *)
Definition playing_a : Track.t :=
  snd (Track.SetPendingTrack "silence"
         (Track.bootstrap (snd (Track.SetPendingTrack "a" track_ab)))).

(** The same track while "a" plays and "b" is pending. *)
Definition playing_a_then_b : Track.t :=
  snd (Track.SetPendingTrack "b" playing_a).

(** The track of the one file "a", and the same track once "a" plays
    and nothing is pending. *)
Definition track_a : Track.t :=
  {| Track.m_nFadeSamples := 5; Track.m_nSampleCount := 8;
     Track.m_mapClips := [("a", tone)];
     Track.m_pPendingTrack := None; Track.m_pPendingClip := None |}.

Definition solo_a : Track.t :=
  snd (Track.SetPendingTrack "silence"
         (Track.bootstrap (snd (Track.SetPendingTrack "a" track_a)))).


(** The tracks a driver script asks for. *)
Definition two_tracks : StdMap.t (list string) :=
  [("bass", ["x"]); ("drums", ["y"])].

Definition with_empty_track : StdMap.t (list string) :=
  [("bass", ["x"]); ("ghost", ["no such file"])].

(** The tracks [Initialize] builds from [two_tracks]. *)
Definition built_tracks : StdMap.t Track.t :=
  [("bass",
    {| Track.m_nFadeSamples := 5; Track.m_nSampleCount := 128;
       Track.m_mapClips := [("x", loop128 3000)];
       Track.m_pPendingTrack := None; Track.m_pPendingClip := None |});
   ("drums",
    {| Track.m_nFadeSamples := 5; Track.m_nSampleCount := 128;
       Track.m_mapClips := [("y", loop128 (-2000))];
       Track.m_pPendingTrack := None; Track.m_pPendingClip := None |})].

(** The tracks [Initialize] builds from [with_empty_track]. *)
Definition built_with_empty : StdMap.t Track.t :=
  [("bass",
    {| Track.m_nFadeSamples := 5; Track.m_nSampleCount := 128;
       Track.m_mapClips := [("x", loop128 3000)];
       Track.m_pPendingTrack := None; Track.m_pPendingClip := None |});
   ("ghost", Track.default)].

(** The mixer after [Initialize (two_tracks)]. *)
Definition mixer : LoopLauncher.t :=
  {| LoopLauncher.m_nLastSamplePos := 0;
     LoopLauncher.m_nMaxSampleCount := 128;
     LoopLauncher.m_mapTracks := built_tracks;
     LoopLauncher.m_vMixBuffer := [0; 0];
     LoopLauncher.m_bNeedsAudio := true;
     LoopLauncher.m_mapPendingTracks := [];
     LoopLauncher.m_stream := Some (2, 1000) |}.


(** A driver: [Initialize] with the tracks, a first request, [Play]. *)
Definition launch (mapTracks : StdMap.t (list string)) (clips : list string)
  : outcome LoopLauncher.t :=
  '(_, ll) <- LoopLauncher.Initialize files mapTracks LoopLauncher.default ;;
  Done (LoopLauncher.Play (snd (LoopLauncher.UpdatePendingClips clips ll))).

(** The playback thread asks for one chunk after another: [k] calls of
    [onGetData], fewer when a call returns false. *)
Fixpoint stream (k : nat) (ll : LoopLauncher.t) : outcome LoopLauncher.t :=
  match k with
  | O => Done ll
  | S k' =>
      '(more, ll') <- LoopLauncher.onGetData ll ;;
      if more then stream k' ll' else Done ll'
  end.

End Scenario.

(** ** A mixer of one track whose clips fill a whole number of buffers *)

Module Steady.

(** The clips of the track have [q * b] samples each, the fade fits a
    buffer of [b] samples, and the active and the pending clip, when set,
    are clips of the track. *)
Definition track_ok (b q : Z) (tr : Track.t) : Prop :=
  0 <= Track.m_nFadeSamples tr <= b
  /\ Track.m_nFadeSamples tr <= 2 ^ 21
  /\ Forall (fun e => getSampleCount (snd e) = q * b
                      /\ Forall is_i16 (getSamples (snd e)))
            (Track.m_mapClips tr)
  /\ (forall act, Track.m_pPendingTrack tr = Some act ->
        Track.HasClip act tr = true)
  /\ (forall p, Track.m_pPendingClip tr = Some p -> Track.HasClip p tr = true).

(** The mixer has that one track, a buffer of [b] samples and a cycle of
    [q] buffers, of which [i] have been played. *)
Definition mixer_ok (b q i : Z) (ll : LoopLauncher.t) : Prop :=
  1 <= b /\ 1 <= q /\ q * b <= INT_MAX /\ 0 <= i < q
  /\ Z.of_nat (length (LoopLauncher.m_vMixBuffer ll)) = b
  /\ LoopLauncher.m_nMaxSampleCount ll = q * b
  /\ LoopLauncher.m_nLastSamplePos ll = i * b
  /\ exists name tr,
       LoopLauncher.m_mapTracks ll = [(name, tr)] /\ track_ok b q tr.

End Steady.

(** * Properties *)

(** ** Binary32 arithmetic: exact operations *)


Lemma fexp_eq e : fexp F32.prec F32.emax e = fexp32 e.
Proof. reflexivity. Qed.

Lemma digits2_pos_bounds (m : positive) :
  2 ^ (Zpos (digits2_pos m) - 1) <= Zpos m < 2 ^ Zpos (digits2_pos m).
Proof.
  induction m as [p IH | p IH | ]; cbn [digits2_pos].
  - rewrite Pos2Z.inj_succ, (Pos2Z.inj_xI p).
    replace (Z.succ (Zpos (digits2_pos p)) - 1) with (Z.succ (Zpos (digits2_pos p) - 1)) by lia.
    rewrite !Z.pow_succ_r by lia.
    set (lo := 2 ^ (Zpos (digits2_pos p) - 1)) in *. set (hi := 2 ^ Zpos (digits2_pos p)) in *. clearbody lo hi. lia.
  - rewrite Pos2Z.inj_succ, (Pos2Z.inj_xO p).
    replace (Z.succ (Zpos (digits2_pos p)) - 1) with (Z.succ (Zpos (digits2_pos p) - 1)) by lia.
    rewrite !Z.pow_succ_r by lia.
    set (lo := 2 ^ (Zpos (digits2_pos p) - 1)) in *. set (hi := 2 ^ Zpos (digits2_pos p)) in *. clearbody lo hi. lia.
  - cbn. lia.
Qed.

Lemma digits2_pos_unique (m : positive) (d : Z) :
  2 ^ (d - 1) <= Zpos m < 2 ^ d -> Zpos (digits2_pos m) = d.
Proof.
  intros [Hlo Hhi].
  destruct (digits2_pos_bounds m) as [Blo Bhi].
  assert (0 <= d).
  { destruct (Z.le_gt_cases 0 d) as [|Hneg]; [assumption|].
    rewrite (Z.pow_neg_r 2 d) in Hhi by lia. lia. }
  assert (Zpos (digits2_pos m) - 1 < d).
  { apply (Z.pow_lt_mono_r_iff 2); lia. }
  assert (d - 1 < Zpos (digits2_pos m)).
  { apply (Z.pow_lt_mono_r_iff 2); lia. }
  lia.
Qed.

Lemma digits2_pos_shift (m m' : positive) (k : Z) :
  0 <= k -> Zpos m' = Zpos m * 2 ^ k ->
  Zpos (digits2_pos m') = Zpos (digits2_pos m) + k.
Proof.
  intros Hk E. apply digits2_pos_unique. rewrite E.
  destruct (digits2_pos_bounds m) as [Blo Bhi].
  replace (Zpos (digits2_pos m) + k - 1) with (Zpos (digits2_pos m) - 1 + k) by lia.
  rewrite !Z.pow_add_r by lia.
  assert (0 < 2 ^ k) by (apply Z.pow_pos_nonneg; lia).
  split; [apply Z.mul_le_mono_nonneg_r | apply Z.mul_lt_mono_pos_r]; lia.
Qed.

Lemma iter_xO_value (m d : positive) :
  Zpos (Pos.iter xO m d) = Zpos m * 2 ^ Zpos d.
Proof.
  induction d as [|d IH] using Pos.peano_ind.
  - cbn. lia.
  - rewrite Pos.iter_succ, Pos2Z.inj_xO, IH, Pos2Z.inj_succ, Z.pow_succ_r by lia. lia.
Qed.

Lemma iter_pos_nat {A : Type} (f : A -> A) (p : positive) (x : A) :
  iter_pos f p x = Nat.iter (Pos.to_nat p) f x.
Proof.
  revert x. induction p as [p IH | p IH | ]; intros x; cbn [iter_pos].
  - rewrite !IH, Pos2Nat.inj_xI.
    replace (S (2 * Pos.to_nat p))%nat with (Pos.to_nat p + (Pos.to_nat p + 1))%nat by lia.
    rewrite !Nat.iter_add. reflexivity.
  - rewrite !IH, Pos2Nat.inj_xO.
    replace (2 * Pos.to_nat p)%nat with (Pos.to_nat p + Pos.to_nat p)%nat by lia.
    rewrite Nat.iter_add. reflexivity.
  - reflexivity.
Qed.

Lemma shr_1_even (m : Z) (s : bool) :
  0 <= m -> Z.even m = true ->
  shr_1 (Build_shr_record m false s) = Build_shr_record (m / 2) false s.
Proof.
  intros Hm He. destruct m as [|[p|p|]|p]; try discriminate; try lia.
  - reflexivity.
  - cbn [shr_1 orb]. f_equal. rewrite (Pos2Z.inj_xO p).
    rewrite Z.mul_comm, Z.div_mul by lia. reflexivity.
Qed.

Lemma iter_shr_1_exact (n : nat) (m : Z) :
  0 <= m -> m mod 2 ^ Z.of_nat n = 0 ->
  Nat.iter n shr_1 (Build_shr_record m false false)
  = Build_shr_record (m / 2 ^ Z.of_nat n) false false.
Proof.
  intros Hm. induction n as [|n IH]; intros Hdiv.
  - cbn. rewrite Z.div_1_r. reflexivity.
  - rewrite Nat2Z.inj_succ, Z.pow_succ_r in * by lia.
    assert (P : 0 < 2 ^ Z.of_nat n) by (apply Z.pow_pos_nonneg; lia).
    assert (D : m = 2 * 2 ^ Z.of_nat n * (m / (2 * 2 ^ Z.of_nat n))).
    { apply Z.div_exact; lia. }
    set (q := m / (2 * 2 ^ Z.of_nat n)) in *.
    assert (Q : m / 2 ^ Z.of_nat n = 2 * q).
    { rewrite D at 1. replace (2 * 2 ^ Z.of_nat n * q) with (2 * q * 2 ^ Z.of_nat n) by ring.
      apply Z.div_mul. lia. }
    rewrite Nat.iter_succ, IH.
    + rewrite Q. rewrite shr_1_even.
      * f_equal. rewrite Z.mul_comm, Z.div_mul by lia. reflexivity.
      * nia.
      * rewrite Z.even_mul. reflexivity.
    + rewrite D. replace (2 * 2 ^ Z.of_nat n * q) with (2 * q * 2 ^ Z.of_nat n) by ring.
      apply Z.mod_mul. lia.
Qed.

Lemma shr_exact (m e k : Z) :
  0 <= m -> 0 <= k -> m mod 2 ^ k = 0 ->
  shr (Build_shr_record m false false) e k
  = (Build_shr_record (m / 2 ^ k) false false, e + k).
Proof.
  intros Hm Hk Hdiv. unfold shr. destruct k as [|p|p]; try lia.
  - cbn. rewrite Z.div_1_r, Z.add_0_r. reflexivity.
  - rewrite iter_pos_nat, iter_shr_1_exact; rewrite ?positive_nat_Z; auto.
Qed.



Lemma binary_round_aux_exact (s : bool) (m m1 : positive) (e k : Z) :
  0 <= k -> Zpos m = Zpos m1 * 2 ^ k ->
  fexp32 (Zpos (digits2_pos m) + e) = e + k ->
  e + k <= 104 ->
  binary_round_aux 24 128 s (Zpos m) e loc_Exact = S754_finite s m1 (e + k).
Proof.
  intros Hk Hm Hf Hle.
  assert (P : 0 < 2 ^ k) by (apply Z.pow_pos_nonneg; lia).
  unfold binary_round_aux, shr_fexp.
  change (fexp 24 128) with fexp32.
  cbn [Zdigits2 shr_record_of_loc]. rewrite Hf.
  replace (e + k - e) with k by lia.
  rewrite shr_exact; try lia.
  2:{ rewrite Hm. apply Z.mod_mul. lia. }
  assert (Q : Zpos m / 2 ^ k = Zpos m1) by (rewrite Hm; apply Z.div_mul; lia).
  rewrite Q.
  cbn [shr_m loc_of_shr_record round_nearest_even Zdigits2 shr_record_of_loc].
  rewrite (digits2_pos_shift m1 m k Hk Hm) in Hf.
  replace (Zpos (digits2_pos m1) + (e + k)) with (Zpos (digits2_pos m1) + k + e) by lia.
  rewrite Hf, Z.sub_diag. cbn [shr shr_m].
  change (128 - 24) with 104.
  destruct (Z.leb_spec (e + k) 104); [reflexivity | lia].
Qed.

Lemma shl_align_spec (m : positive) (e e' : Z) :
  exists m', shl_align m e e' = (m', Z.min e e')
             /\ Zpos m' = Zpos m * 2 ^ (e - Z.min e e').
Proof.
  unfold shl_align. destruct (e' - e) as [|d|d] eqn:E.
  - exists m. replace (Z.min e e') with e by lia. rewrite Z.sub_diag. split; [reflexivity | cbn; lia].
  - exists m. replace (Z.min e e') with e by lia. rewrite Z.sub_diag. split; [reflexivity | cbn; lia].
  - exists (Pos.iter xO m d). replace (Z.min e e') with e' by lia. split; [reflexivity|].
    rewrite iter_xO_value. f_equal. f_equal. lia.
Qed.


Lemma binary_round_exact (s : bool) (m : positive) (e : Z) :
  representable m e ->
  exists m', binary_round 24 128 s m e
             = S754_finite s m' (fexp32 (Zpos (digits2_pos m) + e))
             /\ Zpos (digits2_pos m') + fexp32 (Zpos (digits2_pos m) + e) = Zpos (digits2_pos m) + e
             /\ forall c, c <= e -> c <= fexp32 (Zpos (digits2_pos m) + e) ->
                  Zpos m' * 2 ^ (fexp32 (Zpos (digits2_pos m) + e) - c) = Zpos m * 2 ^ (e - c).
Proof.
  unfold representable. set (f := fexp32 (Zpos (digits2_pos m) + e)).
  intros [Hf Hrep]. unfold binary_round. change (fexp 24 128) with fexp32. fold f.
  destruct (shl_align_spec m e f) as (mz & Eal & Emz). rewrite Eal.
  destruct (Z.le_gt_cases f e) as [Hle | Hgt].
  - (* the mantissa is shifted left to the canonical exponent *)
    replace (Z.min e f) with f in * by lia.
    assert (D : Zpos (digits2_pos mz) = Zpos (digits2_pos m) + (e - f)).
    { apply digits2_pos_shift; [lia | assumption]. }
    exists mz.
    pose proof (binary_round_aux_exact s mz mz f 0) as R.
    rewrite Z.add_0_r in R. rewrite R; try lia.
    + split; [reflexivity|]. split; [lia|].
      intros c Hc1 Hc2. rewrite Emz, <- Z.mul_assoc, <- Z.pow_add_r by lia.
      f_equal. f_equal. lia.
    + rewrite D. replace (Zpos (digits2_pos m) + (e - f) + f) with (Zpos (digits2_pos m) + e) by lia.
      reflexivity.
  - (* the low bits shifted out are all zero *)
    replace (Z.min e f) with e in * by lia.
    rewrite Z.sub_diag, Z.pow_0_r, Z.mul_1_r in Emz. injection Emz as ->.
    destruct Hrep as [|Hdiv]; [lia|].
    assert (P : 0 < 2 ^ (f - e)) by (apply Z.pow_pos_nonneg; lia).
    assert (E : Zpos m = 2 ^ (f - e) * (Zpos m / 2 ^ (f - e))).
    { apply Z.div_exact; lia. }
    destruct (Zpos m / 2 ^ (f - e)) as [|q|q] eqn:Q; try lia.
    exists q.
    pose proof (binary_round_aux_exact s m q e (f - e)) as R.
    replace (e + (f - e)) with f in R by lia. rewrite R; try lia.
    split; [reflexivity|].
    assert (D : Zpos (digits2_pos m) = Zpos (digits2_pos q) + (f - e)).
    { apply digits2_pos_shift; lia. }
    split; [lia|].
    intros c Hc1 Hc2. rewrite E.
    replace (f - c) with ((f - e) + (e - c)) by lia.
    rewrite Z.pow_add_r by lia. ring.
Qed.

Lemma fexp32_ge (x : Z) : -149 <= fexp32 x.
Proof. unfold fexp32. lia. Qed.

Lemma binary_round_value (s : bool) (m : positive) (e : Z) :
  -149 <= e -> representable m e ->
  fin (binary_round 24 128 s m e)
  /\ value (binary_round 24 128 s m e)
     = (if s then - Zpos m else Zpos m) * 2 ^ (e + 149).
Proof.
  intros He Hrep.
  destruct (binary_round_exact s m e Hrep) as (m' & -> & _ & Hval).
  pose proof (fexp32_ge (Zpos (digits2_pos m) + e)) as Hge.
  split; [exact Hge|].
  specialize (Hval (-149) He Hge). cbn [value].
  replace (fexp32 (Zpos (digits2_pos m) + e) - -149)
    with (fexp32 (Zpos (digits2_pos m) + e) + 149) in Hval by lia.
  replace (e - -149) with (e + 149) in Hval by lia.
  destruct s; lia.
Qed.

Lemma representable_grid (m : positive) (e g : Z) :
  -149 <= e -> 0 <= g <= 253 ->
  (2 ^ g | Zpos m * 2 ^ (e + 149)) ->
  Zpos m * 2 ^ (e + 149) < 2 ^ (g + 24) ->
  representable m e.
Proof.
  intros He Hg [t Ht] Hlt. unfold representable.
  destruct (digits2_pos_bounds m) as [Blo _].
  set (d := Zpos (digits2_pos m)) in *.
  assert (Hd : d + e - 24 <= g - 149).
  { assert (L : 2 ^ (d - 1 + (e + 149)) < 2 ^ (g + 24)).
    { rewrite Z.pow_add_r by lia.
      assert (0 < 2 ^ (e + 149)) by (apply Z.pow_pos_nonneg; lia).
      eapply Z.le_lt_trans; [|exact Hlt].
      apply Z.mul_le_mono_nonneg_r; lia. }
    apply Z.pow_lt_mono_r_iff in L; lia. }
  assert (Hf : fexp32 (d + e) <= g - 149) by (unfold fexp32; lia).
  split; [lia|].
  destruct (Z.le_gt_cases (fexp32 (d + e)) e) as [|Hgt]; [left; assumption | right].
  set (f := fexp32 (d + e)) in *.
  assert (P1 : 0 < 2 ^ (e + 149)) by (apply Z.pow_pos_nonneg; lia).
  assert (P2 : 0 < 2 ^ (f - e)) by (apply Z.pow_pos_nonneg; lia).
  assert (E : Zpos m = t * 2 ^ (g - 149 - f) * 2 ^ (f - e)).
  { apply (Z.mul_cancel_r _ _ (2 ^ (e + 149))); [lia|].
    rewrite Ht. rewrite <- !Z.mul_assoc, <- !Z.pow_add_r by lia.
    f_equal. f_equal. lia. }
  rewrite E. apply Z.mod_mul. lia.
Qed.

Lemma binary_normalize_value (z e g : Z) :
  -149 <= e -> 0 <= g <= 253 ->
  (2 ^ g | z * 2 ^ (e + 149)) ->
  Z.abs (z * 2 ^ (e + 149)) < 2 ^ (g + 24) ->
  fin (binary_normalize 24 128 z e false)
  /\ value (binary_normalize 24 128 z e false) = z * 2 ^ (e + 149).
Proof.
  intros He Hg Hdiv Hlt.
  assert (P : 0 < 2 ^ (e + 149)) by (apply Z.pow_pos_nonneg; lia).
  destruct z as [|m|m]; cbn [binary_normalize].
  - split; [exact I | reflexivity].
  - apply binary_round_value; [assumption|].
    apply (representable_grid m e g); try assumption. lia.
  - replace (Zneg m * 2 ^ (e + 149)) with (- Zpos m * 2 ^ (e + 149)) by lia.
    apply binary_round_value; [assumption|].
    apply (representable_grid m e g); try assumption.
    + apply Z.divide_opp_r in Hdiv.
      replace (- (Zneg m * 2 ^ (e + 149))) with (Zpos m * 2 ^ (e + 149)) in Hdiv by lia.
      exact Hdiv.
    + lia.
Qed.

Lemma aligned_value (s : bool) (m : positive) (e ez : Z) :
  -149 <= ez -> ez <= e ->
  cond_Zopp s (Zpos (fst (shl_align m e ez))) * 2 ^ (ez + 149)
  = value (S754_finite s m e).
Proof.
  intros H1 H2. destruct (shl_align_spec m e ez) as (m' & -> & E).
  replace (Z.min e ez) with ez in E by lia.
  cbn [fst value]. unfold cond_Zopp.
  replace (e + 149) with ((e - ez) + (ez + 149)) by lia.
  rewrite (Z.pow_add_r 2 (e - ez) (ez + 149)) by lia.
  destruct s; rewrite E; ring.
Qed.

Lemma add_value (x y : F32.float) (g : Z) :
  fin x -> fin y -> 0 <= g <= 253 ->
  (2 ^ g | value x + value y) ->
  Z.abs (value x + value y) < 2 ^ (g + 24) ->
  fin (F32.add x y) /\ value (F32.add x y) = value x + value y.
Proof.
  intros Fx Fy Hg Hdiv Hlt. unfold F32.add.
  destruct x as [sx| | |sx mx ex], y as [sy| | |sy my ey];
    try contradiction; cbn [SFadd].
  - destruct sx, sy; split; solve [exact I | reflexivity].
  - split; [assumption | reflexivity].
  - split; [assumption | cbn [value]; lia].
  - cbn [fin] in Fx, Fy.
    set (ez := Z.min ex ey).
    set (S := cond_Zopp sx (Zpos (fst (shl_align mx ex ez)))
              + cond_Zopp sy (Zpos (fst (shl_align my ey ez)))).
    assert (E : S * 2 ^ (ez + 149)
                = value (S754_finite sx mx ex) + value (S754_finite sy my ey)).
    { unfold S. rewrite Z.mul_add_distr_r, !aligned_value by lia. reflexivity. }
    rewrite <- E in *.
    assert (-149 <= ez) by (unfold ez; lia).
    apply (binary_normalize_value S ez g); assumption.
Qed.


Lemma canonical_fin (x : F32.float) : canonical x -> fin x.
Proof. destruct x; cbn; try tauto. lia. Qed.

Lemma of_int_spec (z : Z) :
  Z.abs z < 2 ^ 24 ->
  canonical (F32.of_int z) /\ value (F32.of_int z) = z * 2 ^ 149.
Proof.
  intros Hz. unfold F32.of_int.
  assert (R : forall m : positive, Zpos m < 2 ^ 24 -> representable m 0
              /\ fexp32 (Zpos (digits2_pos m) + 0) = Zpos (digits2_pos m) - 24).
  { intros m Hm. destruct (digits2_pos_bounds m) as [Blo _].
    assert (Zpos (digits2_pos m) - 1 < 24) by (apply (Z.pow_lt_mono_r_iff 2); lia).
    pose proof (Pos2Z.is_pos (digits2_pos m)).
    unfold representable, fexp32. split; lia. }
  assert (C : forall (s : bool) (m : positive), Zpos m < 2 ^ 24 ->
              canonical (binary_round 24 128 s m 0)
              /\ value (binary_round 24 128 s m 0)
                 = (if s then - Zpos m else Zpos m) * 2 ^ 149).
  { intros s m Hm. destruct (R m Hm) as [Hrep Hf].
    split; [|apply (binary_round_value s m 0); [lia | assumption]].
    destruct (binary_round_exact s m 0 Hrep) as (m' & -> & Hd & _).
    pose proof (Pos2Z.is_pos (digits2_pos m)).
    destruct (digits2_pos_bounds m) as [Blo _].
    assert (Zpos (digits2_pos m) - 1 < 24) by (apply (Z.pow_lt_mono_r_iff 2); lia).
    cbn [canonical]. lia. }
  destruct z as [|m|m]; cbn [binary_normalize].
  - split; [exact I | reflexivity].
  - apply (C false m). lia.
  - replace (Zneg m * 2 ^ 149) with (- Zpos m * 2 ^ 149) by lia.
    apply (C true m). lia.
Qed.

Lemma vol_1_eq : Track.vol_1 = S754_finite false 8388608 (-24).
Proof. reflexivity. Qed.

Lemma scaled_value (x : F32.float) :
  canonical x ->
  fin (F32.mul x Track.vol_1) /\ 2 * value (F32.mul x Track.vol_1) = value x.
Proof.
  rewrite vol_1_eq. unfold F32.mul.
  destruct x as [sx| | |sx mx ex]; cbn [canonical]; try contradiction.
  - intros _. cbn. split; [exact I | reflexivity].
  - intros [Hd He]. cbn [SFmul].
    change F32.prec with 24. change F32.emax with 128.
    pose proof (binary_round_aux_exact (xorb sx false) (mx * 8388608) mx (ex + -24) 23) as R.
    replace (ex + -24 + 23) with (ex - 1) in R by lia.
    rewrite R; try lia.
    + rewrite xorb_false_r. cbn [fin value]. split; [lia|].
      replace (ex + 149) with (Z.succ (ex - 1 + 149)) by lia.
      rewrite Z.pow_succ_r by lia. destruct sx; ring.
    + rewrite (digits2_pos_shift mx (mx * 8388608) 23); [|lia|rewrite Pos2Z.inj_mul; reflexivity].
      rewrite Hd. unfold fexp32. lia.
Qed.

Lemma trunc_value (x : F32.float) :
  fin x -> F32.trunc x = Some (Z.quot (value x) (2 ^ 149)).
Proof.
  destruct x as [s| | |s m e]; cbn [fin F32.trunc value]; try contradiction.
  - reflexivity.
  - intros He. f_equal.
    assert (A : (if 0 <=? e then Zpos m * 2 ^ e else Zpos m / 2 ^ (- e))
                = (Zpos m * 2 ^ (e + 149)) / 2 ^ 149).
    { assert (P149 : 2 ^ 149 <> 0) by (apply Z.pow_nonzero; lia).
      destruct (Z.leb_spec 0 e).
      - rewrite Z.pow_add_r, Z.mul_assoc, Z.div_mul; [reflexivity | assumption | lia | lia].
      - replace 149 with ((e + 149) + (- e)) at 2 by lia.
        rewrite (Z.pow_add_r 2 (e + 149) (- e)) by lia.
        assert (0 < 2 ^ (e + 149)) by (apply Z.pow_pos_nonneg; lia).
        assert (0 < 2 ^ (- e)) by (apply Z.pow_pos_nonneg; lia).
        rewrite (Z.mul_comm (2 ^ (e + 149))), Z.div_mul_cancel_r by lia. reflexivity. }
    rewrite A.
    assert (0 <= Zpos m * 2 ^ (e + 149)) by (apply Z.mul_nonneg_nonneg; [lia | apply Z.pow_nonneg; lia]).
    destruct s.
    + rewrite Z.mul_opp_l, Z.quot_opp_l, Z.quot_div_nonneg by lia. reflexivity.
    + rewrite Z.quot_div_nonneg by lia. reflexivity.
Qed.


Lemma scaled_spec (s : Z) :
  is_i16 s -> fin (Track.scaled s) /\ 2 * value (Track.scaled s) = s * 2 ^ 149.
Proof.
  intros Hs. unfold Track.scaled.
  destruct (of_int_spec s) as [C V]; [unfold is_i16 in Hs; lia|].
  destruct (scaled_value _ C) as [F E]. split; [assumption|]. rewrite E. exact V.
Qed.

Lemma fade_val_spec (s : Z) :
  is_i16 s -> Track.fade_val s = Some (Z.quot s 2).
Proof.
  intros Hs. destruct (scaled_spec s Hs) as [F E].
  unfold Track.fade_val, F32.to_i16. rewrite (trunc_value _ F).
  assert (V : value (Track.scaled s) = s * 2 ^ 148).
  { change (2 ^ 149) with (2 * 2 ^ 148) in E. lia. }
  rewrite V. change (2 ^ 149) with (2 * 2 ^ 148).
  rewrite Z.quot_mul_cancel_r by lia.
  unfold is_i16 in Hs.
  assert (Q : -16384 <= Z.quot s 2 <= 16383).
  { Z.quot_rem_to_equations. lia. }
  unfold is_i16b.
  destruct (Z.leb_spec (-32768) (Z.quot s 2)); destruct (Z.leb_spec (Z.quot s 2) 32767);
    try lia. reflexivity.
Qed.

Lemma mix_plain_spec (m s : Z) :
  is_i16 m -> is_i16 s ->
  Track.mix_plain m s = if is_i16b (Track.mixed m s) then Some (Track.mixed m s) else None.
Proof.
  intros Hm Hs. unfold is_i16 in *.
  destruct (of_int_spec m) as [Cm Vm]; [lia|].
  destruct (scaled_spec s Hs) as [Fs Es].
  assert (Vs : value (Track.scaled s) = s * 2 ^ 148).
  { change (2 ^ 149) with (2 * 2 ^ 148) in Es. lia. }
  assert (Sum : value (F32.of_int m) + value (Track.scaled s) = (2 * m + s) * 2 ^ 148).
  { rewrite Vm, Vs. change (2 ^ 149) with (2 * 2 ^ 148). ring. }
  destruct (add_value (F32.of_int m) (Track.scaled s) 148) as [Fa Va].
  - apply canonical_fin, Cm.
  - exact Fs.
  - lia.
  - rewrite Sum. exists (2 * m + s). reflexivity.
  - rewrite Sum, Z.abs_mul. change (2 ^ (148 + 24)) with (2 ^ 24 * 2 ^ 148).
    rewrite (Z.abs_eq (2 ^ 148)) by lia.
    apply Z.mul_lt_mono_pos_r; lia.
  - unfold Track.mix_plain, F32.to_i16. rewrite (trunc_value _ Fa), Va, Sum.
    change (2 ^ 149) with (2 * 2 ^ 148).
    rewrite Z.quot_mul_cancel_r by lia. reflexivity.
Qed.

(** *** Rounding in general: what [binary_round_aux] returns *)

Lemma shr_1_m (r : shr_record) :
  0 <= shr_m r -> shr_m (shr_1 r) = shr_m r / 2.
Proof.
  destruct r as [m r s]. cbn [shr_m]. intros Hm.
  destruct m as [|[p|p|]|p]; cbn [shr_1 shr_m]; try lia.
  - reflexivity.
  - rewrite (Pos2Z.inj_xI p). apply (Z.div_unique _ _ _ 1); lia.
  - rewrite (Pos2Z.inj_xO p). apply (Z.div_unique _ _ _ 0); lia.
  - reflexivity.
Qed.

Lemma iter_shr_1_m (n : nat) (r : shr_record) :
  0 <= shr_m r -> shr_m (Nat.iter n shr_1 r) = shr_m r / 2 ^ Z.of_nat n.
Proof.
  intros Hm. induction n as [|n IH].
  - cbn. rewrite Z.div_1_r. reflexivity.
  - rewrite Nat.iter_succ, shr_1_m, IH.
    + rewrite Nat2Z.inj_succ, Z.pow_succ_r, (Z.mul_comm 2), Z.div_div by
        (try apply Z.pow_pos_nonneg; lia).
      reflexivity.
    + rewrite IH. apply Z.div_pos; [lia | apply Z.pow_pos_nonneg; lia].
Qed.

Lemma shr_m_of_loc (m : Z) (l : location) : shr_m (shr_record_of_loc m l) = m.
Proof. destruct l as [|[| |]]; reflexivity. Qed.

Lemma shr_general (m e k : Z) (l : location) :
  0 <= m ->
  shr_m (fst (shr (shr_record_of_loc m l) e k)) = m / 2 ^ Z.max 0 k
  /\ snd (shr (shr_record_of_loc m l) e k) = e + Z.max 0 k.
Proof.
  intros Hm. unfold shr. destruct k as [|p|p]; cbn [fst snd].
  - rewrite shr_m_of_loc. cbn. rewrite Z.div_1_r. lia.
  - rewrite iter_pos_nat, iter_shr_1_m, shr_m_of_loc, positive_nat_Z
      by (rewrite shr_m_of_loc; lia).
    replace (Z.max 0 (Zpos p)) with (Zpos p) by lia. split; reflexivity.
  - rewrite shr_m_of_loc. replace (Z.max 0 (Zneg p)) with 0 by lia.
    cbn. rewrite Z.div_1_r. lia.
Qed.

Lemma round_nearest_even_bounds (m : Z) (l : location) :
  m <= round_nearest_even m l <= m + 1.
Proof.
  destruct l as [|[| |]]; cbn [round_nearest_even]; try lia.
  destruct (Z.even m); lia.
Qed.

Lemma Zdigits2_bounds (m : Z) :
  0 <= m -> 0 <= Zdigits2 m /\ m < 2 ^ Zdigits2 m
            /\ (0 < m -> 2 ^ (Zdigits2 m - 1) <= m).
Proof.
  intros Hm. destruct m as [|p|p]; try lia.
  - cbn. lia.
  - cbn [Zdigits2]. pose proof (digits2_pos_bounds p). lia.
Qed.

(** The mantissa after the first shift and rounding, the second shift, and
    the result. *)
Lemma binary_round_aux_decompose (s : bool) (m e : Z) (l : location) :
  0 <= m ->
  exists m2 : Z,
    let k := Z.max 0 (fexp32 (Zdigits2 m + e) - e) in
    let k2 := Z.max 0 (fexp32 (Zdigits2 m2 + (e + k)) - (e + k)) in
    m / 2 ^ k <= m2 <= m / 2 ^ k + 1
    /\ (l = loc_Exact -> m mod 2 ^ k = 0 -> m2 = m / 2 ^ k)
    /\ binary_round_aux 24 128 s m e l
       = match m2 / 2 ^ k2 with
         | Z0 => S754_zero s
         | Zpos m' => if e + k + k2 <=? 104 then S754_finite s m' (e + k + k2)
                      else S754_infinity s
         | Zneg _ => S754_nan
         end.
Proof.
  intros Hm. unfold binary_round_aux, shr_fexp. change (fexp 24 128) with fexp32.
  set (n := fexp32 (Zdigits2 m + e) - e).
  destruct (shr_general m e n l Hm) as [M1 E1].
  destruct (shr (shr_record_of_loc m l) e n) as [mrs' e'] eqn:S1.
  cbn [fst snd] in M1, E1. subst e'.
  set (m2 := round_nearest_even (shr_m mrs') (loc_of_shr_record mrs')).
  assert (B2 : m / 2 ^ Z.max 0 n <= m2 <= m / 2 ^ Z.max 0 n + 1).
  { unfold m2. rewrite <- M1. apply round_nearest_even_bounds. }
  assert (P : 0 < 2 ^ Z.max 0 n) by (apply Z.pow_pos_nonneg; lia).
  assert (Hm2 : 0 <= m2).
  { assert (0 <= m / 2 ^ Z.max 0 n) by (apply Z.div_pos; lia). lia. }
  exists m2. cbv zeta. split; [exact B2|]. split.
  - intros -> Hdiv. unfold m2.
    destruct (Z.le_gt_cases n 0) as [Hn | Hn].
    + unfold shr in S1. destruct n as [|p|p]; try lia; injection S1 as <-;
        cbn [shr_record_of_loc shr_m loc_of_shr_record round_nearest_even];
        replace (Z.max 0 _) with 0 by lia; rewrite Z.div_1_r; reflexivity.
    + replace (Z.max 0 n) with n in * by lia.
      cbn [shr_record_of_loc] in S1. rewrite shr_exact in S1 by lia.
      injection S1 as <-. reflexivity.
  - set (n2 := fexp32 (Zdigits2 m2 + (e + Z.max 0 n)) - (e + Z.max 0 n)).
    destruct (shr_general m2 (e + Z.max 0 n) n2 loc_Exact Hm2) as [M3 E3].
    destruct (shr (shr_record_of_loc m2 loc_Exact) (e + Z.max 0 n) n2)
      as [mrs'' e''] eqn:S2.
    cbn [fst snd] in M3, E3. subst e''. rewrite M3.
    change (128 - 24) with 104. reflexivity.
Qed.


Lemma valid_fin (x : F32.float) :
  valid x -> (exists z, F32.trunc x = Some z) -> fin x.
Proof.
  destruct x; cbn; try tauto; intros _ [z H]; discriminate.
Qed.

Lemma binary_round_aux_valid (s : bool) (m e : Z) (l : location) :
  0 <= m -> valid (binary_round_aux 24 128 s m e l).
Proof.
  intros Hm.
  destruct (binary_round_aux_decompose s m e l Hm) as (m2 & B2 & _ & ->).
  cbv zeta in *.
  set (k := Z.max 0 (fexp32 (Zdigits2 m + e) - e)) in *.
  set (k2 := Z.max 0 (fexp32 (Zdigits2 m2 + (e + k)) - (e + k))) in *.
  destruct (Zdigits2_bounds m Hm) as (D0 & Dhi & _).
  assert (Pk : 0 < 2 ^ k) by (apply Z.pow_pos_nonneg; lia).
  assert (Pk2 : 0 < 2 ^ k2) by (apply Z.pow_pos_nonneg; lia).
  assert (M1 : m / 2 ^ k < 2 ^ 24).
  { apply Z.div_lt_upper_bound; [lia|].
    rewrite <- Z.pow_add_r by lia.
    eapply Z.lt_le_trans; [exact Dhi|].
    apply Z.pow_le_mono_r; [lia|]. unfold k, fexp32. lia. }
  assert (M3 : m2 / 2 ^ k2 < 2 ^ 24).
  { destruct (Z.eq_dec m2 (2 ^ 24)) as [-> | Hne].
    - apply Z.div_lt_upper_bound; [lia|].
      assert (1 <= k2).
      { unfold k2. change (Zdigits2 (2 ^ 24)) with 25. unfold fexp32. lia. }
      assert (2 ^ 1 <= 2 ^ k2) by (apply Z.pow_le_mono_r; lia).
      change (2 ^ 1) with 2 in *. lia.
    - apply Z.div_lt_upper_bound; [lia|]. nia. }
  destruct (m2 / 2 ^ k2) as [|m'|m'] eqn:E; try exact I.
  destruct (e + k + k2 <=? 104); [|exact I].
  cbn [valid]. split; [lia|]. unfold k, k2, fexp32. lia.
Qed.

Lemma binary_round_aux_le_pow2 (s : bool) (m e p : Z) (l : location) :
  0 <= m -> e <= p -> -149 <= p <= 104 ->
  m <= 2 ^ (p - e) -> (l = loc_Exact \/ m < 2 ^ (p - e)) ->
  let r := binary_round_aux 24 128 s m e l in
  fin r /\ Z.abs (value r) <= 2 ^ (p + 149)
  /\ (if s then value r <= 0 else 0 <= value r).
Proof.
  intros Hm Hep Hp Hle Hstrict.
  destruct (binary_round_aux_decompose s m e l Hm) as (m2 & B2 & Ex & R).
  cbv zeta in *. rewrite R. clear R.
  set (k := Z.max 0 (fexp32 (Zdigits2 m + e) - e)) in *.
  set (k2 := Z.max 0 (fexp32 (Zdigits2 m2 + (e + k)) - (e + k))) in *.
  destruct (Zdigits2_bounds m Hm) as (D0 & Dhi & Dlo).
  assert (Pk : 0 < 2 ^ k) by (apply Z.pow_pos_nonneg; lia).
  assert (Pk2 : 0 < 2 ^ k2) by (apply Z.pow_pos_nonneg; lia).
  assert (Hk : e + k <= p).
  { destruct (Z.eq_dec m 0) as [-> | Hne].
    - unfold k. change (Zdigits2 0) with 0. unfold fexp32. lia.
    - assert (L : 2 ^ (Zdigits2 m - 1) <= 2 ^ (p - e)) by lia.
      apply Z.pow_le_mono_r_iff in L; [|lia|lia].
      unfold k, fexp32. lia. }
  assert (Split : 2 ^ (p - e) = 2 ^ k * 2 ^ (p - e - k)).
  { rewrite <- Z.pow_add_r by lia. f_equal. lia. }
  assert (Pq : 0 < 2 ^ (p - e - k)) by (apply Z.pow_pos_nonneg; lia).
  assert (M2 : 0 <= m2 <= 2 ^ (p - e - k)).
  { assert (0 <= m / 2 ^ k) by (apply Z.div_pos; lia).
    split; [lia|].
    destruct (Z.eq_dec m (2 ^ (p - e))) as [Eq | Hne].
    - destruct Hstrict as [-> | ?]; [|lia].
      rewrite Ex; [| reflexivity |].
      + rewrite Eq, Split, Z.mul_comm, Z.div_mul by lia. lia.
      + rewrite Eq, Split, Z.mul_comm. apply Z.mod_mul. lia.
    - assert (m / 2 ^ k < 2 ^ (p - e - k)).
      { apply Z.div_lt_upper_bound; [lia|]. rewrite <- Split. lia. }
      lia. }
  assert (M3 : 0 <= m2 / 2 ^ k2 /\ m2 / 2 ^ k2 * 2 ^ k2 <= m2).
  { split; [apply Z.div_pos; lia|].
    rewrite Z.mul_comm. apply Z.mul_div_le. lia. }
  destruct (m2 / 2 ^ k2) as [|m'|m'] eqn:E; try lia.
  - cbn. split; [exact I|]. split; [|destruct s; lia].
    apply Z.pow_nonneg. lia.
  - assert (A149 : -149 <= e + k).
    { unfold k, fexp32. lia. }
    assert (V : Zpos m' * 2 ^ (e + k + k2 + 149) <= 2 ^ (p + 149)).
    { replace (e + k + k2 + 149) with (k2 + (e + k + 149)) by lia.
      rewrite Z.pow_add_r, Z.mul_assoc by lia.
      replace (p + 149) with ((p - e - k) + (e + k + 149)) by lia.
      rewrite (Z.pow_add_r 2 (p - e - k)) by lia.
      apply Z.mul_le_mono_nonneg_r; [apply Z.pow_nonneg; lia | lia]. }
    assert (Px : 0 < 2 ^ (e + k + k2 + 149)) by (apply Z.pow_pos_nonneg; lia).
    assert (L : e + k + k2 <= 104).
    { assert (L : 2 ^ (e + k + k2 + 149) <= 2 ^ (p + 149)) by nia.
      apply Z.pow_le_mono_r_iff in L; lia. }
    destruct (Z.leb_spec (e + k + k2) 104); [|lia].
    cbn [fin value]. split; [lia|].
    destruct s.
    + rewrite Z.mul_opp_l, Z.abs_opp, Z.abs_eq by lia. split; lia.
    + rewrite Z.abs_eq by lia. split; lia.
Qed.

Lemma binary_round_valid (s : bool) (m : positive) (e : Z) :
  valid (binary_round 24 128 s m e).
Proof.
  unfold binary_round.
  destruct (shl_align m e (fexp 24 128 (Zpos (digits2_pos m) + e))) as [mz ez].
  apply binary_round_aux_valid. lia.
Qed.

Lemma binary_normalize_valid (z e : Z) (sz : bool) :
  valid (binary_normalize 24 128 z e sz).
Proof.
  destruct z; cbn [binary_normalize]; [exact I | |]; apply binary_round_valid.
Qed.

Lemma mul_valid (x y : F32.float) : valid (F32.mul x y).
Proof.
  unfold F32.mul. destruct x, y; cbn [SFmul]; try exact I.
  apply binary_round_aux_valid. lia.
Qed.

Lemma add_valid (x y : F32.float) : valid x -> valid y -> valid (F32.add x y).
Proof.
  unfold F32.add. intros Vx Vy.
  destruct x as [sx|sx| |sx mx ex], y as [sy|sy| |sy my ey]; cbn [SFadd];
    try exact I; try assumption.
  - destruct sx, sy; exact I.
  - destruct sx, sy; exact I.
  - apply binary_normalize_valid.
Qed.

Lemma binary_round_le_pow2 (s : bool) (m : positive) (e p : Z) :
  -149 <= e <= p -> p <= 104 -> Zpos m <= 2 ^ (p - e) ->
  let r := binary_round 24 128 s m e in
  fin r /\ Z.abs (value r) <= 2 ^ (p + 149)
  /\ (if s then value r <= 0 else 0 <= value r).
Proof.
  intros He Hp Hm. unfold binary_round. change (fexp 24 128) with fexp32.
  destruct (shl_align_spec m e (fexp32 (Zpos (digits2_pos m) + e)))
    as (mz & -> & Emz).
  set (ez := Z.min e (fexp32 (Zpos (digits2_pos m) + e))) in *.
  assert (Hez : -149 <= ez <= e) by (unfold ez, fexp32; lia).
  apply binary_round_aux_le_pow2; try lia; [|left; reflexivity].
  rewrite Emz. replace (p - ez) with ((p - e) + (e - ez)) by lia.
  rewrite Z.pow_add_r by lia.
  apply Z.mul_le_mono_nonneg_r; [apply Z.pow_nonneg; lia | assumption].
Qed.

(** [binary_normalize] of an integer of at most 24 bits is exact. *)
Lemma binary_normalize_int (z : Z) (sz : bool) :
  Z.abs z < 2 ^ 24 ->
  canonical (binary_normalize 24 128 z 0 sz)
  /\ value (binary_normalize 24 128 z 0 sz) = z * 2 ^ 149.
Proof.
  intros Hz. destruct z as [|m|m].
  - split; [exact I | reflexivity].
  - apply (of_int_spec (Zpos m) Hz).
  - apply (of_int_spec (Zneg m) Hz).
Qed.


Lemma ceilZ_spec (s : bool) (m : positive) (e : Z) :
  -149 <= e -> is_ceiling (F32.ceilZ s m e) (S754_finite s m e).
Proof.
  intros He. unfold is_ceiling, F32.ceilZ. cbn [value].
  assert (P149 : 0 < 2 ^ 149) by (apply Z.pow_pos_nonneg; lia).
  destruct (Z.leb_spec 0 e).
  - rewrite Z.pow_add_r by lia. destruct s; nia.
  - assert (Pe : 0 < 2 ^ (- e)) by (apply Z.pow_pos_nonneg; lia).
    assert (Px : 0 < 2 ^ (e + 149)) by (apply Z.pow_pos_nonneg; lia).
    assert (S149 : 2 ^ 149 = 2 ^ (- e) * 2 ^ (e + 149)).
    { rewrite <- Z.pow_add_r by lia. f_equal. lia. }
    pose proof (Z.div_mod (Zpos m) (2 ^ (- e)) ltac:(lia)) as DM.
    pose proof (Z.mod_pos_bound (Zpos m) (2 ^ (- e)) Pe) as MB.
    set (q := Zpos m / 2 ^ (- e)) in *. set (r := Zpos m mod 2 ^ (- e)) in *.
    rewrite S149. rewrite DM at 2 3.
    destruct s.
    + split; nia.
    + destruct (Z.eqb_spec r 0) as [R0 | R0]; split; nia.
Qed.

Lemma ceilZ_small (s : bool) (m : positive) (e : Z) :
  Zpos m < 2 ^ 24 -> e < 0 -> Z.abs (F32.ceilZ s m e) < 2 ^ 24.
Proof.
  intros Hm He. unfold F32.ceilZ.
  destruct (Z.leb_spec 0 e); [lia|].
  assert (Pe : 2 ^ 1 <= 2 ^ (- e)) by (apply Z.pow_le_mono_r; lia).
  change (2 ^ 1) with 2 in Pe.
  assert (Q : 0 <= Zpos m / 2 ^ (- e) < 2 ^ 23).
  { split; [apply Z.div_pos; lia|].
    apply Z.div_lt_upper_bound; [lia|]. change (2 ^ 24) with (2 * 2 ^ 23) in Hm. nia. }
  destruct s; [|destruct (_ =? 0)]; lia.
Qed.

(** [ceilf] followed by a conversion to an integer gives the ceiling. *)
Lemma ceil_spec (x : F32.float) :
  valid x -> fin x ->
  exists c, F32.trunc (F32.ceil x) = Some c /\ is_ceiling c x.
Proof.
  destruct x as [s| | |s m e]; cbn [valid fin]; try contradiction.
  - intros _ _. exists 0. split; [reflexivity|]. unfold is_ceiling. cbn. lia.
  - intros [Hm _] He. exists (F32.ceilZ s m e). split; [|apply ceilZ_spec; assumption].
    unfold F32.ceil. destruct (Z.leb_spec 0 e) as [H0 | H0].
    + cbn [F32.trunc]. unfold F32.ceilZ.
      destruct (Z.leb_spec 0 e); [|lia]. destruct s; reflexivity.
    + destruct (binary_normalize_int (F32.ceilZ s m e) s (ceilZ_small s m e Hm H0))
        as [C V].
      change F32.prec with 24. change F32.emax with 128.
      rewrite (trunc_value _ (canonical_fin _ C)), V.
      rewrite Z.quot_mul by lia. reflexivity.
Qed.

Lemma fade_iVal_spec (a : F32.float) (val next v : Z) :
  Track.fade_iVal a val next = Some v ->
  is_i16 v /\ is_ceiling v (Track.weighted_sum a val next).
Proof.
  unfold Track.fade_iVal, F32.to_i16.
  set (w := Track.weighted_sum a val next).
  assert (Vw : valid w) by (apply add_valid; apply mul_valid).
  destruct (F32.trunc (F32.ceil w)) as [z|] eqn:T; [|discriminate].
  destruct (is_i16b z) eqn:R; [|discriminate]. intros [= ->].
  assert (Fw : fin w).
  { destruct w as [s| | |s m e]; cbn in T; try discriminate;
      [exact I | exact (proj2 Vw)]. }
  destruct (ceil_spec w Vw Fw) as (c & Tc & Hc).
  rewrite T in Tc. injection Tc as ->. split; [|assumption].
  unfold is_i16b in R. apply andb_prop in R. destruct R as [R1 R2].
  apply Z.leb_le in R1, R2. split; assumption.
Qed.

Lemma mant_le (m : positive) (e p : Z) :
  -149 <= e -> Zpos m * 2 ^ (e + 149) <= 2 ^ (p + 149) ->
  e <= p /\ Zpos m <= 2 ^ (p - e).
Proof.
  intros He H.
  assert (Px : 0 < 2 ^ (e + 149)) by (apply Z.pow_pos_nonneg; lia).
  assert (Hep : e <= p).
  { assert (L : 2 ^ (e + 149) <= 2 ^ (p + 149)) by nia.
    destruct (Z.le_gt_cases (p + 149) (-1)) as [Hneg|Hpos].
    - rewrite (Z.pow_neg_r 2 (p + 149)) in L by lia. lia.
    - apply Z.pow_le_mono_r_iff in L; lia. }
  split; [assumption|].
  replace (p + 149) with ((p - e) + (e + 149)) in H by lia.
  rewrite (Z.pow_add_r 2 (p - e) (e + 149)) in H by lia.
  apply Z.mul_le_mono_pos_r in H; assumption.
Qed.

Lemma value_abs (s : bool) (m : positive) (e : Z) :
  Z.abs (value (S754_finite s m e)) = Zpos m * 2 ^ (e + 149).
Proof.
  cbn [value].
  assert (0 <= 2 ^ (e + 149)) by (apply Z.pow_nonneg; lia).
  destruct s.
  - rewrite Z.mul_opp_l, Z.abs_opp, Z.abs_eq; [reflexivity | nia].
  - rewrite Z.abs_eq; [reflexivity | nia].
Qed.

Lemma mul_le_pow2 (x y : F32.float) (px py : Z) :
  fin x -> fin y -> -149 <= px + py <= 104 ->
  Z.abs (value x) <= 2 ^ (px + 149) -> Z.abs (value y) <= 2 ^ (py + 149) ->
  fin (F32.mul x y) /\ Z.abs (value (F32.mul x y)) <= 2 ^ (px + py + 149).
Proof.
  intros Fx Fy Hp Hx Hy. unfold F32.mul.
  assert (Z0 : 0 <= 2 ^ (px + py + 149)) by (apply Z.pow_nonneg; lia).
  destruct x as [sx| | |sx mx ex], y as [sy| | |sy my ey];
    try contradiction; cbn [SFmul]; try (split; [exact I | exact Z0]).
  cbn [fin] in Fx, Fy. rewrite value_abs in Hx, Hy.
  destruct (mant_le mx ex px Fx Hx) as [Ex Mx].
  destruct (mant_le my ey py Fy Hy) as [Ey My].
  change F32.prec with 24. change F32.emax with 128.
  destruct (binary_round_aux_le_pow2 (xorb sx sy) (Zpos (mx * my)) (ex + ey)
              (px + py) loc_Exact) as (F & B & _); try lia;
    [|left; reflexivity|].
  - rewrite Pos2Z.inj_mul.
    replace (px + py - (ex + ey)) with ((px - ex) + (py - ey)) by lia.
    rewrite Z.pow_add_r by lia.
    apply Z.mul_le_mono_nonneg; lia.
  - split; assumption.
Qed.

Lemma mul_zero_r (x : F32.float) :
  fin x -> exists s, F32.mul x (F32.of_int 0) = S754_zero s.
Proof.
  destruct x as [s| | |s m e]; cbn [fin]; try contradiction; intros _;
    eexists; reflexivity.
Qed.

Lemma add_zero_r (x : F32.float) (s : bool) :
  fin x -> fin (F32.add x (S754_zero s))
           /\ value (F32.add x (S754_zero s)) = value x.
Proof.
  destruct x as [sx| | |sx m e]; cbn [fin]; try contradiction; intros H.
  - unfold F32.add. cbn [SFadd]. destruct sx, s; split; solve [exact I | reflexivity].
  - unfold F32.add. cbn [SFadd]. split; [exact H | reflexivity].
Qed.

Lemma sub_range (x y : F32.float) (p : Z) :
  fin x -> fin y -> -149 <= p <= 104 ->
  0 <= value y <= value x -> value x <= 2 ^ (p + 149) ->
  fin (F32.sub x y) /\ 0 <= value (F32.sub x y) <= 2 ^ (p + 149).
Proof.
  intros Fx Fy Hp Hyx Hx. unfold F32.sub.
  assert (Z0 : 0 <= 2 ^ (p + 149)) by (apply Z.pow_nonneg; lia).
  destruct x as [sx| | |sx mx ex], y as [sy| | |sy my ey];
    try contradiction; cbn [SFsub].
  - destruct sx, sy; split; (exact I || (cbn; lia)).
  - exfalso. change (value (S754_zero sx)) with 0 in Hyx.
    cbn [fin] in Fy.
    assert (0 < 2 ^ (ey + 149)) by (apply Z.pow_pos_nonneg; lia).
    cbn [value] in Hyx. destruct sy; nia.
  - split; [exact Fx|]. lia.
  - cbn [fin] in Fx, Fy.
    set (ez := Z.min ex ey).
    set (S := cond_Zopp sx (Zpos (fst (shl_align mx ex ez)))
              - cond_Zopp sy (Zpos (fst (shl_align my ey ez)))).
    assert (Hez : -149 <= ez) by (unfold ez; lia).
    assert (E : S * 2 ^ (ez + 149)
                = value (S754_finite sx mx ex) - value (S754_finite sy my ey)).
    { unfold S. rewrite Z.mul_sub_distr_r, !aligned_value by (unfold ez; lia).
      reflexivity. }
    assert (Px : 0 < 2 ^ (ez + 149)) by (apply Z.pow_pos_nonneg; lia).
    change F32.prec with 24. change F32.emax with 128.
    destruct S as [|m|m] eqn:ES; cbn [binary_normalize].
    + split; [exact I | cbn; lia].
    + assert (B : Zpos m * 2 ^ (ez + 149) <= 2 ^ (p + 149)) by lia.
      destruct (mant_le m ez p Hez B) as [H1 H2].
      destruct (binary_round_le_pow2 false m ez p) as (F & A & Sg); try lia.
      split; [assumption|]. lia.
    + exfalso. nia.
Qed.

Lemma div_eucl_div_mod (a b : Z) : Z.div_eucl a b = (a / b, a mod b).
Proof. unfold Z.div, Z.modulo. destruct (Z.div_eucl a b). reflexivity. Qed.

Lemma new_location_0 (n : Z) : new_location n 0 = loc_Exact.
Proof. unfold new_location. destruct (Z.even n); reflexivity. Qed.

(** The quotient of two positive canonical numbers, the first not above the
    second, is at most 1. *)
Lemma div_le_one (mx my : positive) (ex ey : Z) :
  Zpos (digits2_pos mx) = 24 -> Zpos (digits2_pos my) = 24 ->
  -149 <= ex -> -149 <= ey -> -125 <= ex - ey ->
  value (S754_finite false mx ex) <= value (S754_finite false my ey) ->
  let q := F32.div (S754_finite false mx ex) (S754_finite false my ey) in
  fin q /\ 0 <= value q <= 2 ^ 149.
Proof.
  intros Dx Dy Hex Hey Hd Hle. cbn [value] in Hle.
  destruct (digits2_pos_bounds mx) as [Lx Ux].
  destruct (digits2_pos_bounds my) as [Ly Uy].
  rewrite Dx in Lx, Ux. rewrite Dy in Ly, Uy.
  assert (Hxy : ex <= ey).
  { destruct (Z.le_gt_cases ex ey) as [|Hgt]; [assumption | exfalso].
    assert (Py : 0 < 2 ^ (ey + 149)) by (apply Z.pow_pos_nonneg; lia).
    replace (ex + 149) with (Z.succ (ex - ey - 1) + (ey + 149)) in Hle by lia.
    rewrite Z.pow_add_r, Z.pow_succ_r in Hle by lia.
    assert (PA : 0 < 2 ^ (ex - ey - 1)) by (apply Z.pow_pos_nonneg; lia).
    rewrite Z.mul_assoc in Hle. apply Z.mul_le_mono_pos_r in Hle; [|assumption].
    change (2 ^ (24 - 1)) with 8388608 in *. change (2 ^ 24) with 16777216 in *.
    set (A := 2 ^ (ex - ey - 1)) in *. clearbody A. nia. }
  cbv zeta. unfold F32.div. cbn [SFdiv]. unfold SFdiv_core_binary.
  change (fexp F32.prec F32.emax) with fexp32. cbn [Zdigits2]. rewrite Dx, Dy.
  replace (24 + ex - (24 + ey)) with (ex - ey) by lia.
  replace (Z.min (fexp32 (ex - ey)) (ex - ey)) with (ex - ey - 24)
    by (unfold fexp32; lia).
  replace (ex - ey - (ex - ey - 24)) with 24 by lia.
  rewrite Z.shiftl_mul_pow2, div_eucl_div_mod by lia.
  cbn [xorb]. change F32.prec with 24. change F32.emax with 128.
  set (a := Zpos mx * 2 ^ 24).
  set (T := 2 ^ (0 - (ex - ey - 24))).
  assert (PT : 0 < T) by (apply Z.pow_pos_nonneg; lia).
  assert (A : a <= Zpos my * T).
  { unfold a, T.
    replace (0 - (ex - ey - 24)) with ((ey - ex) + 24) by lia.
    rewrite Z.pow_add_r, Z.mul_assoc by lia.
    apply Z.mul_le_mono_nonneg_r; [lia|].
    assert (Px : 0 < 2 ^ (ex + 149)) by (apply Z.pow_pos_nonneg; lia).
    replace (ey + 149) with ((ey - ex) + (ex + 149)) in Hle by lia.
    rewrite (Z.pow_add_r 2 (ey - ex)), Z.mul_assoc in Hle by lia.
    apply Z.mul_le_mono_pos_r in Hle; assumption. }
  pose proof (Z.div_mod a (Zpos my) ltac:(lia)) as DM.
  pose proof (Z.mod_pos_bound a (Zpos my) ltac:(lia)) as MB.
  assert (Q0 : 0 <= a / Zpos my) by (apply Z.div_pos; unfold a; lia).
  destruct (binary_round_aux_le_pow2 false (a / Zpos my) (ex - ey - 24) 0
              (new_location (Zpos my) (a mod Zpos my))) as (F & B & Sg);
    try lia.
  - fold T. nia.
  - fold T. destruct (Z.eq_dec (a mod Zpos my) 0) as [-> | Hr].
    + left. apply new_location_0.
    + right. nia.
  - split; [assumption|]. change (0 + 149) with 149 in B. lia.
Qed.

Lemma positive_float (x : F32.float) (z : Z) :
  canonical x -> value x = z * 2 ^ 149 -> 1 <= z < 2 ^ 24 ->
  exists m e, x = S754_finite false m e
              /\ Zpos (digits2_pos m) = 24 /\ -23 <= e <= 0.
Proof.
  intros C V Hz.
  destruct x as [s| | |s m e]; cbn [canonical] in C; try contradiction.
  - cbn in V. lia.
  - destruct C as [D He]. exists m, e.
    destruct (digits2_pos_bounds m) as [Lm Um]. rewrite D in Lm, Um.
    change (2 ^ (24 - 1)) with (2 ^ 23) in Lm.
    assert (Pe : 0 < 2 ^ (e + 149)) by (apply Z.pow_pos_nonneg; lia).
    cbn [value] in V.
    destruct s; [exfalso; nia|].
    split; [reflexivity|]. split; [assumption|].
    split.
    + destruct (Z.le_gt_cases (-23) e); [assumption | exfalso].
      assert (L : 2 ^ ((e + 149) + 24) <= 2 ^ 149) by (apply Z.pow_le_mono_r; lia).
      rewrite Z.pow_add_r in L by lia. nia.
    + destruct (Z.le_gt_cases e 0); [assumption | exfalso].
      assert (L : 2 ^ (149 + 1) <= 2 ^ (e + 149)) by (apply Z.pow_le_mono_r; lia).
      rewrite Z.pow_add_r in L by lia. change (2 ^ 1) with 2 in L.
      change (2 ^ 24) with (2 * 2 ^ 23) in *. nia.
Qed.

Lemma fade_weight_range (nFade j : Z) :
  1 <= j <= nFade -> nFade < 2 ^ 24 ->
  fin (Track.fade_weight nFade j)
  /\ 0 <= value (Track.fade_weight nFade j) <= 2 ^ 149.
Proof.
  intros Hj HF. unfold Track.fade_weight.
  destruct (of_int_spec j) as [Cj Vj]; [lia|].
  destruct (of_int_spec nFade) as [CF VF]; [lia|].
  destruct (positive_float _ j Cj Vj) as (mj & ej & Ej & Dj & Rj); [lia|].
  destruct (positive_float _ nFade CF VF) as (mF & eF & EF & DF & RF); [lia|].
  assert (Hle : value (F32.of_int j) <= value (F32.of_int nFade)).
  { rewrite Vj, VF. apply Z.mul_le_mono_nonneg_r; lia. }
  rewrite Ej, EF in *.
  destruct (div_le_one mj mF ej eF) as [Fq Vq]; try lia; try assumption.
  destruct (of_int_spec 1) as [C1 V1]; [lia|].
  apply (sub_range F32.one _ 0); try lia.
  - apply canonical_fin, C1.
  - exact Fq.
  - unfold F32.one. rewrite V1. lia.
  - unfold F32.one. rewrite V1. lia.
Qed.

(** Fading to silence never leaves the range of [sf::Int16]. *)
Lemma fade_iVal_silence (nFade j val : Z) :
  1 <= j <= nFade -> nFade < 2 ^ 24 -> -16384 <= val <= 16384 ->
  exists v, Track.fade_iVal (Track.fade_weight nFade j) val 0 = Some v
            /\ -16384 <= v <= 16384.
Proof.
  intros Hj HF Hv.
  destruct (fade_weight_range nFade j Hj HF) as [Fa Va].
  set (a := Track.fade_weight nFade j) in *.
  destruct (of_int_spec val) as [Cv Vv]; [lia|].
  destruct (of_int_spec 1) as [C1 V1]; [lia|].
  destruct (mul_le_pow2 a (F32.of_int val) 0 14) as [Fp Vp]; try lia;
    [assumption | apply canonical_fin, Cv |].
  destruct (sub_range F32.one a 0) as [Fb _]; try lia;
    [apply canonical_fin, C1 | assumption | unfold F32.one; lia .. |].
  destruct (mul_zero_r _ Fb) as [s Es].
  destruct (add_zero_r _ s Fp) as [Fw Vw].
  assert (Valid : valid (Track.weighted_sum a val 0)).
  { apply add_valid; apply mul_valid. }
  assert (Ew : Track.weighted_sum a val 0
               = F32.add (F32.mul a (F32.of_int val)) (S754_zero s)).
  { unfold Track.weighted_sum. rewrite Es. reflexivity. }
  rewrite Ew in Valid.
  destruct (ceil_spec _ Valid Fw) as (c & Tc & Hc).
  unfold is_ceiling in Hc. rewrite Vw in Hc.
  change (0 + 14 + 149) with (14 + 149) in Vp.
  change (2 ^ (14 + 149)) with (16384 * 2 ^ 149) in Vp.
  assert (P : 0 < 2 ^ 149) by lia.
  assert (Rc : -16384 <= c <= 16384) by (split; nia).
  exists c. split; [|assumption].
  unfold Track.fade_iVal, F32.to_i16. rewrite Ew, Tc.
  unfold is_i16b.
  destruct (Z.leb_spec (-32768) c); destruct (Z.leb_spec c 32767); try lia.
  reflexivity.
Qed.

(** ** Machine integers and buffers *)

Lemma to_int_id (z : Z) : - 2 ^ 31 <= z <= INT_MAX -> to_int z = z.
Proof.
  unfold to_int, INT_MAX. intros H.
  rewrite Z.mod_small by lia. lia.
Qed.

Lemma to_u64_id (z : Z) : 0 <= z < 2 ^ 64 -> to_u64 z = z.
Proof. unfold to_u64. intros H. apply Z.mod_small. lia. Qed.

Lemma to_i16_range (z : Z) : is_i16 (to_i16 z).
Proof.
  unfold is_i16, to_i16.
  pose proof (Z.mod_pos_bound (z + 2 ^ 15) (2 ^ 16) ltac:(lia)). lia.
Qed.

Lemma to_i16_id (z : Z) : is_i16 z -> to_i16 z = z.
Proof.
  unfold is_i16, to_i16. intros H. rewrite Z.mod_small by lia. lia.
Qed.

Lemma clamp_i16_id (z : Z) : is_i16 z -> clamp_i16 z = z.
Proof. unfold is_i16, clamp_i16. lia. Qed.

Lemma in_bounds_true (l : list Z) (i : Z) :
  in_bounds l i = true <-> 0 <= i < Z.of_nat (length l).
Proof.
  unfold in_bounds. rewrite andb_true_iff, Z.leb_le, Z.ltb_lt. tauto.
Qed.

Lemma set_nth_length (n : nat) (v : Z) (l : list Z) :
  length (set_nth n v l) = length l.
Proof.
  revert n. induction l as [|x l IH]; intros [|n]; cbn; auto.
Qed.

Lemma nth_set_nth (n k : nat) (v : Z) (l : list Z) :
  (n < length l)%nat ->
  nth k (set_nth n v l) 0 = if Nat.eqb k n then v else nth k l 0.
Proof.
  revert n k. induction l as [|x l IH]; intros n k Hn; cbn in Hn; [lia|].
  destruct n as [|n], k as [|k]; cbn; try reflexivity.
  apply IH. lia.
Qed.

Lemma zth_set_nth (i x v : Z) (l : list Z) :
  0 <= i < Z.of_nat (length l) -> 0 <= x ->
  zth (set_nth (Z.to_nat i) v l) x = if x =? i then v else zth l x.
Proof.
  intros Hi Hx. unfold zth. rewrite nth_set_nth by lia.
  destruct (Z.eqb_spec x i) as [-> | Hne].
  - rewrite Nat.eqb_refl. reflexivity.
  - destruct (Nat.eqb_spec (Z.to_nat x) (Z.to_nat i)); [lia | reflexivity].
Qed.

Lemma Forall_set_nth (P : Z -> Prop) (n : nat) (v : Z) (l : list Z) :
  P v -> Forall P l -> Forall P (set_nth n v l).
Proof.
  intros Hv H. revert n. induction H as [|x l Hx Hl IH]; intros [|n]; cbn;
    constructor; auto.
Qed.

Lemma Forall_zth (P : Z -> Prop) (l : list Z) (i : Z) :
  Forall P l -> 0 <= i < Z.of_nat (length l) -> P (zth l i).
Proof.
  intros H Hi. unfold zth. rewrite Forall_forall in H. apply H, nth_In. lia.
Qed.

Lemma load_in (r : region) (l : list Z) (i : Z) :
  0 <= i < Z.of_nat (length l) -> load r l i = Done (zth l i).
Proof.
  intros H. unfold load. apply in_bounds_true in H. rewrite H. reflexivity.
Qed.

Lemma store_in (r : region) (l : list Z) (i v : Z) :
  0 <= i < Z.of_nat (length l) ->
  store r l i v = Done (set_nth (Z.to_nat i) v l).
Proof.
  intros H. unfold store. apply in_bounds_true in H. rewrite H. reflexivity.
Qed.

Lemma load_done (r : region) (l : list Z) (i v : Z) :
  load r l i = Done v -> 0 <= i < Z.of_nat (length l).
Proof.
  unfold load. destruct (in_bounds l i) eqn:E; [|discriminate].
  intros _. apply in_bounds_true, E.
Qed.

Lemma store_done (r : region) (l l' : list Z) (i v : Z) :
  store r l i v = Done l' ->
  0 <= i < Z.of_nat (length l) /\ length l' = length l.
Proof.
  unfold store. destruct (in_bounds l i) eqn:E; [|discriminate].
  intros [= <-]. split; [apply in_bounds_true, E | apply set_nth_length].
Qed.

(** ** The two loops of [GetAudio] *)

Lemma copy_loop_spec (samples : list Z) :
  forall (n : nat) (i p : Z) (mix : list Z),
    Forall is_i16 mix -> Forall is_i16 samples ->
    0 <= i -> i + Z.of_nat n <= Z.of_nat (length mix) ->
    0 <= p -> p + Z.of_nat n <= Z.of_nat (length samples) ->
    (forall d, 0 <= d < Z.of_nat n ->
       is_i16 (Track.mixed (zth mix (i + d)) (zth samples (p + d)))) ->
    exists mix',
      Track.copy_loop samples n i p mix = Done (p + Z.of_nat n, mix')
      /\ length mix' = length mix
      /\ Forall is_i16 mix'
      /\ forall x, 0 <= x ->
           zth mix' x = if (i <=? x) && (x <? i + Z.of_nat n)
                        then Track.mixed (zth mix x) (zth samples (p + (x - i)))
                        else zth mix x.
Proof.
  induction n as [|n IH]; intros i p mix Hmix Hs Hi Hin Hp Hpn Hok.
  - exists mix. cbn [Track.copy_loop]. rewrite Z.add_0_r.
    repeat split; auto. intros x Hx.
    destruct (Z.leb_spec i x), (Z.ltb_spec x (i + Z.of_nat 0)); cbn; try reflexivity; lia.
  - rewrite Nat2Z.inj_succ in *.
    cbn [Track.copy_loop]. rewrite load_in by lia. cbn [bind].
    rewrite load_in by lia. cbn [bind].
    assert (Hm : is_i16 (zth mix i)) by (apply Forall_zth; [assumption | lia]).
    assert (Hsp : is_i16 (zth samples p)) by (apply Forall_zth; [assumption | lia]).
    rewrite (mix_plain_spec _ _ Hm Hsp).
    pose proof (Hok 0 ltac:(lia)) as H0. rewrite !Z.add_0_r in H0.
    assert (Hb : is_i16b (Track.mixed (zth mix i) (zth samples p)) = true).
    { unfold is_i16b. unfold is_i16 in H0. apply andb_true_iff.
      rewrite !Z.leb_le. lia. }
    rewrite Hb. cbn [lift bind]. rewrite store_in by lia. cbn [bind].
    set (v := Track.mixed (zth mix i) (zth samples p)) in *.
    set (mix1 := set_nth (Z.to_nat i) v mix).
    destruct (IH (i + 1) (p + 1) mix1) as (mix' & E & L & F & Z); try lia.
    + apply Forall_set_nth; assumption.
    + assumption.
    + unfold mix1. rewrite set_nth_length. lia.
    + intros d Hd. unfold mix1. rewrite zth_set_nth by lia.
      destruct (Z.eqb_spec (i + 1 + d) i); [lia|].
      replace (i + 1 + d) with (i + (1 + d)) by lia.
      replace (p + 1 + d) with (p + (1 + d)) by lia. apply Hok. lia.
    + exists mix'. rewrite E. split; [f_equal; f_equal; lia|].
      split; [rewrite L; apply set_nth_length|]. split; [assumption|].
      intros x Hx. rewrite (Z x Hx). unfold mix1. rewrite zth_set_nth by lia.
      destruct (Z.eqb_spec x i) as [-> | Hne].
      * destruct (Z.leb_spec (i + 1) i); [lia|]. cbn [andb].
        destruct (Z.leb_spec i i); [|lia].
        destruct (Z.ltb_spec i (i + Z.succ (Z.of_nat n))); [|lia].
        cbn [andb]. rewrite Z.sub_diag, Z.add_0_r. reflexivity.
      * replace (p + 1 + (x - (i + 1))) with (p + (x - i)) by lia.
        destruct (Z.leb_spec (i + 1) x), (Z.ltb_spec x (i + 1 + Z.of_nat n)),
          (Z.leb_spec i x), (Z.ltb_spec x (i + Z.succ (Z.of_nat n)));
          cbn [andb]; try lia; reflexivity.
Qed.

(** A loop that completes has stayed inside both arrays. *)
Lemma copy_loop_done (samples : list Z) :
  forall (n : nat) (i p p' : Z) (mix mix' : list Z),
    Track.copy_loop samples n i p mix = Done (p', mix') ->
    p' = p + Z.of_nat n /\ length mix' = length mix
    /\ (n <> O -> 0 <= i /\ i + Z.of_nat n <= Z.of_nat (length mix)
                  /\ 0 <= p /\ p + Z.of_nat n <= Z.of_nat (length samples)).
Proof.
  induction n as [|n IH]; intros i p p' mix mix' H.
  - cbn in H. injection H as <- <-. repeat split; lia.
  - cbn [Track.copy_loop] in H.
    destruct (load ClipSamples samples p) as [s|] eqn:Ls; [|discriminate].
    destruct (load MixBuffer mix i) as [m|] eqn:Lm; [|discriminate].
    cbn [bind] in H.
    destruct (Track.mix_plain m s) as [v|]; [|discriminate]. cbn [lift bind] in H.
    destruct (store MixBuffer mix i v) as [mix1|] eqn:St; [|discriminate].
    cbn [bind] in H.
    apply load_done in Ls. apply store_done in St. destruct St as [Hi L1].
    destruct (IH _ _ _ _ _ H) as (-> & L & B).
    rewrite Nat2Z.inj_succ. split; [lia|]. split; [congruence|].
    intros _. destruct n as [|n].
    + cbn. lia.
    + specialize (B ltac:(discriminate)). rewrite L1 in B. lia.
Qed.


Lemma fade_loop_spec (samples : list Z) (nFade next : Z) :
  forall (n : nat) (i p j : Z) (mix : list Z),
    Forall is_i16 mix ->
    0 <= i -> i + Z.of_nat n <= Z.of_nat (length mix) ->
    0 <= p -> p + Z.of_nat n <= Z.of_nat (length samples) ->
    (forall d, 0 <= d < Z.of_nat n ->
       Track.fade_step nFade next (j + 1 + d) (zth samples (p + d)) <> None) ->
    exists mix',
      Track.fade_loop samples nFade next n i p j mix = Done mix'
      /\ length mix' = length mix
      /\ Forall is_i16 mix'
      /\ forall x, 0 <= x ->
           if (i <=? x) && (x <? i + Z.of_nat n)
           then exists iVal,
                  Track.fade_step nFade next (j + 1 + (x - i))
                            (zth samples (p + (x - i))) = Some iVal
                  /\ zth mix' x = to_i16 (zth mix x + iVal)
           else zth mix' x = zth mix x.
Proof.
  induction n as [|n IH]; intros i p j mix Hmix Hi Hin Hp Hpn Hok.
  - exists mix. cbn [Track.fade_loop]. repeat split; auto. intros x Hx.
    destruct (Z.leb_spec i x), (Z.ltb_spec x (i + Z.of_nat 0)); cbn; try reflexivity; lia.
  - rewrite Nat2Z.inj_succ in *.
    cbn [Track.fade_loop]. cbv zeta. rewrite load_in by lia. cbn [bind].
    pose proof (Hok 0 ltac:(lia)) as H0. rewrite !Z.add_0_r in H0.
    unfold Track.fade_step in H0.
    destruct (Track.fade_val (zth samples p)) as [val|] eqn:Ev; [|congruence].
    destruct (Track.fade_iVal (Track.fade_weight nFade (j + 1)) val next)
      as [iVal|] eqn:Ei; [|congruence].
    cbn [lift bind]. rewrite Ei. cbn [lift bind].
    rewrite load_in by lia. cbn [bind].
    rewrite store_in by lia. cbn [bind].
    set (v := to_i16 (zth mix i + iVal)).
    set (mix1 := set_nth (Z.to_nat i) v mix).
    destruct (IH (i + 1) (p + 1) (j + 1) mix1) as (mix' & E & L & F & HZ); try lia.
    + apply Forall_set_nth; [apply to_i16_range | assumption].
    + unfold mix1. rewrite set_nth_length. lia.
    + intros d Hd.
      replace (j + 1 + 1 + d) with (j + 1 + (1 + d)) by lia.
      replace (p + 1 + d) with (p + (1 + d)) by lia. apply Hok. lia.
    + exists mix'. split; [exact E|].
      split; [rewrite L; apply set_nth_length|]. split; [assumption|].
      intros x Hx. specialize (HZ x Hx). unfold mix1 in HZ.
      rewrite zth_set_nth in HZ by lia.
      destruct (Z.eqb_spec x i) as [Exi | Hne]; [subst x|].
      * destruct (Z.leb_spec (i + 1) i); [lia|]. cbn [andb] in HZ.
        destruct (Z.leb_spec i i); [|lia].
        destruct (Z.ltb_spec i (i + Z.succ (Z.of_nat n))); [|lia].
        cbn [andb]. exists iVal. rewrite Z.sub_diag, !Z.add_0_r.
        unfold Track.fade_step. rewrite Ev, Ei. split; [reflexivity | exact HZ].
      * replace (j + 1 + 1 + (x - (i + 1))) with (j + 1 + (x - i)) in HZ by lia.
        replace (p + 1 + (x - (i + 1))) with (p + (x - i)) in HZ by lia.
        destruct (Z.leb_spec (i + 1) x), (Z.ltb_spec x (i + 1 + Z.of_nat n)),
          (Z.leb_spec i x), (Z.ltb_spec x (i + Z.succ (Z.of_nat n)));
          cbn [andb] in *; try lia; exact HZ.
Qed.

Lemma fade_loop_done (samples : list Z) (nFade next : Z) :
  forall (n : nat) (i p j : Z) (mix mix' : list Z),
    Track.fade_loop samples nFade next n i p j mix = Done mix' ->
    length mix' = length mix
    /\ (n <> O -> 0 <= i /\ i + Z.of_nat n <= Z.of_nat (length mix)
                  /\ 0 <= p /\ p + Z.of_nat n <= Z.of_nat (length samples)).
Proof.
  induction n as [|n IH]; intros i p j mix mix' H.
  - cbn in H. injection H as <-. split; [reflexivity | congruence].
  - cbn [Track.fade_loop] in H. cbv zeta in H.
    destruct (load ClipSamples samples p) as [s|] eqn:Ls; [|discriminate].
    cbn [bind] in H.
    destruct (Track.fade_val s) as [val|]; [|discriminate]. cbn [lift bind] in H.
    destruct (Track.fade_iVal _ val next) as [iVal|]; [|discriminate].
    cbn [lift bind] in H.
    destruct (load MixBuffer mix i) as [m|] eqn:Lm; [|discriminate].
    cbn [bind] in H.
    destruct (store MixBuffer mix i _) as [mix1|] eqn:St; [|discriminate].
    cbn [bind] in H.
    apply load_done in Ls. apply store_done in St. destruct St as [Hi L1].
    destruct (IH _ _ _ _ _ H) as (L & B).
    rewrite Nat2Z.inj_succ. split; [congruence|].
    intros _. destruct n as [|n].
    + cbn. lia.
    + specialize (B ltac:(discriminate)). rewrite L1 in B. lia.
Qed.

(** ** [Track::GetAudio] *)

(** The comparison [sampleOffset + nSamplesDesired >= getSampleCount ()],
    made on [sf::Uint64] values. *)
Lemma bLoop_spec (count off n : Z) :
  0 < count <= INT_MAX -> 0 <= off < count -> 0 <= n <= INT_MAX ->
  (count <=? to_u64 (to_int (off + n))) = (count <=? off + n).
Proof.
  intros Hc Ho Hn. unfold INT_MAX in *.
  destruct (Z.le_gt_cases (off + n) 2147483647) as [Hs | Hs].
  - rewrite to_int_id by (unfold INT_MAX; lia). rewrite to_u64_id by lia. reflexivity.
  - assert (E : to_int (off + n) = off + n - 2 ^ 32).
    { unfold to_int.
      replace (off + n + 2 ^ 31) with ((off + n - 2 ^ 31) + 1 * 2 ^ 32) by lia.
      rewrite Z.mod_add, Z.mod_small by lia. lia. }
    rewrite E. unfold to_u64.
    replace (off + n - 2 ^ 32) with ((off + n - 2 ^ 32 + 2 ^ 64) + (-1) * 2 ^ 64) by lia.
    rewrite Z.mod_add, Z.mod_small by lia.
    destruct (Z.leb_spec count (off + n - 2 ^ 32 + 2 ^ 64)),
      (Z.leb_spec count (off + n)); try reflexivity; lia.
Qed.

Lemma sampleOffset_spec (count pos : Z) :
  0 < count -> 0 <= pos <= INT_MAX ->
  to_int (to_u64 pos mod count) = pos mod count
  /\ 0 <= pos mod count < count /\ pos mod count <= INT_MAX.
Proof.
  intros Hc Hp. unfold INT_MAX in *.
  pose proof (Z.mod_pos_bound pos count Hc) as B.
  assert (pos mod count <= pos) by (apply Z.mod_le; lia).
  rewrite to_u64_id by lia. rewrite to_int_id by (unfold INT_MAX; lia). lia.
Qed.

(** [GetAudio] on a track whose active clip is set: the conversions are
    identities and the call is its two loops. *)
Lemma GetAudio_active (tr : Track.t) (act : string) (clip : SoundBuffer)
    (mix : list Z) (n pos : Z) :
  Track.m_pPendingTrack tr = Some act ->
  StdMap.find act (Track.m_mapClips tr) = Some clip ->
  0 < getSampleCount clip <= INT_MAX ->
  0 <= n <= INT_MAX -> 0 <= pos <= INT_MAX ->
  (getSampleCount clip <= pos mod getSampleCount clip + n ->
   0 <= Track.m_nFadeSamples tr <= INT_MAX) ->
  let off := pos mod getSampleCount clip in
  let bLoop := getSampleCount clip <=? off + n in
  let last := if bLoop then n - Track.m_nFadeSamples tr else n in
  Track.GetAudio (Some mix) n pos tr
  = ('(p, mix1) <- Track.copy_loop (getSamples clip) (Z.to_nat last) 0 off mix ;;
     if bLoop then
       next <- Track.nextSample tr ;;
       mix2 <- Track.fade_loop (getSamples clip) (Track.m_nFadeSamples tr) next
                 (Z.to_nat (n - last)) last p 0 mix1 ;;
       Done (true, Track.with_active (Track.m_pPendingClip tr) tr, Some mix2)
     else Done (true, tr, Some mix1)).
Proof.
  intros Ha Hf Hc Hn Hp HF off bLoop last.
  unfold Track.GetAudio.
  assert (Eb : Track.bootstrap tr = tr).
  { unfold Track.bootstrap. rewrite Ha. reflexivity. }
  rewrite Eb, Ha. unfold Track.deref. rewrite Hf. cbn [lift bind].
  destruct (Z.eqb_spec (getSampleCount clip) 0) as [E0 | _]; [lia|].
  destruct (sampleOffset_spec (getSampleCount clip) pos) as (Eo & Bo & _); try lia.
  rewrite Eo. fold off.
  rewrite (bLoop_spec (getSampleCount clip) off n) by (try assumption; lia).
  fold bLoop.
  assert (El : (if bLoop then to_int (n - Track.m_nFadeSamples tr) else n) = last).
  { unfold last, bLoop.
    destruct (Z.leb_spec (getSampleCount clip) (off + n)) as [Hb|]; [|reflexivity].
    specialize (HF Hb). apply to_int_id. unfold INT_MAX in *. lia. }
  rewrite El. reflexivity.
Qed.

(** A window that ends before the end of the active clip. *)
Lemma GetAudio_inside (tr : Track.t) (act : string) (clip : SoundBuffer)
    (mix : list Z) (n pos : Z) :
  Track.m_pPendingTrack tr = Some act ->
  StdMap.find act (Track.m_mapClips tr) = Some clip ->
  getSampleCount clip <= INT_MAX ->
  0 <= n <= INT_MAX -> 0 <= pos <= INT_MAX ->
  n <= Z.of_nat (length mix) ->
  Forall is_i16 mix -> Forall is_i16 (getSamples clip) ->
  pos mod getSampleCount clip + n < getSampleCount clip ->
  (forall x, 0 <= x < n ->
     is_i16 (Track.mixed (zth mix x)
                   (zth (getSamples clip) (pos mod getSampleCount clip + x)))) ->
  exists mix',
    Track.GetAudio (Some mix) n pos tr = Done (true, tr, Some mix')
    /\ length mix' = length mix
    /\ Forall is_i16 mix'
    /\ forall x, 0 <= x ->
         zth mix' x
         = if x <? n
           then Track.mixed (zth mix x)
                      (zth (getSamples clip) (pos mod getSampleCount clip + x))
           else zth mix x.
Proof.
  intros Ha Hf Hc Hn Hp Hlen Hmix Hs Hin Hok.
  set (count := getSampleCount clip) in *. set (off := pos mod count) in *.
  assert (Hc0 : 0 < count).
  { destruct (Z.le_gt_cases count 0) as [Hle|]; [|assumption].
    assert (E0 : count = 0) by (unfold count, getSampleCount in *; lia).
    assert (off = pos) by (unfold off; rewrite E0; apply Z.mod_0_r).
    lia. }
  assert (Bo : 0 <= off < count) by (apply Z.mod_pos_bound; assumption).
  rewrite (GetAudio_active tr act clip mix n pos)
    by (try assumption; fold count off; lia).
  cbv zeta. fold count off.
  destruct (Z.leb_spec count (off + n)) as [|_]; [lia|].
  destruct (copy_loop_spec (getSamples clip) (Z.to_nat n) 0 off mix)
    as (mix' & E & L & F & HZ); try assumption; try lia.
  - unfold count, getSampleCount in *. lia.
  - intros d Hd. rewrite Z.add_0_l. apply Hok. lia.
  - exists mix'. rewrite E. cbn [bind]. repeat split; try assumption.
    intros x Hx. rewrite (HZ x Hx). rewrite Z.sub_0_r, Z.add_0_l, Z2Nat.id by lia.
    destruct (Z.leb_spec 0 x); [|lia]. reflexivity.
Qed.

(** A window that ends exactly at the end of the active clip. *)
Lemma GetAudio_crossing (tr : Track.t) (act : string) (clip : SoundBuffer)
    (mix : list Z) (n pos next : Z) :
  Track.m_pPendingTrack tr = Some act ->
  StdMap.find act (Track.m_mapClips tr) = Some clip ->
  0 < getSampleCount clip <= INT_MAX ->
  0 <= n <= INT_MAX -> 0 <= pos <= INT_MAX ->
  0 <= Track.m_nFadeSamples tr <= n ->
  n <= Z.of_nat (length mix) ->
  Forall is_i16 mix -> Forall is_i16 (getSamples clip) ->
  pos mod getSampleCount clip + n = getSampleCount clip ->
  Track.nextSample tr = Done next ->
  (forall x, 0 <= x < n - Track.m_nFadeSamples tr ->
     is_i16 (Track.mixed (zth mix x)
                   (zth (getSamples clip) (pos mod getSampleCount clip + x)))) ->
  (forall x, n - Track.m_nFadeSamples tr <= x < n ->
     Track.fade_step (Track.m_nFadeSamples tr) next
               (x - (n - Track.m_nFadeSamples tr) + 1)
               (zth (getSamples clip) (pos mod getSampleCount clip + x))
     <> None) ->
  exists mix',
    Track.GetAudio (Some mix) n pos tr
    = Done (true, Track.with_active (Track.m_pPendingClip tr) tr, Some mix')
    /\ length mix' = length mix
    /\ Forall is_i16 mix'
    /\ forall x, 0 <= x ->
         (x < n - Track.m_nFadeSamples tr ->
            zth mix' x
            = Track.mixed (zth mix x)
                    (zth (getSamples clip) (pos mod getSampleCount clip + x)))
         /\ (n - Track.m_nFadeSamples tr <= x < n ->
               exists iVal,
                 Track.fade_step (Track.m_nFadeSamples tr) next
                           (x - (n - Track.m_nFadeSamples tr) + 1)
                           (zth (getSamples clip)
                                (pos mod getSampleCount clip + x))
                 = Some iVal
                 /\ zth mix' x = to_i16 (zth mix x + iVal))
         /\ (n <= x -> zth mix' x = zth mix x).
Proof.
  intros Ha Hf Hc Hn Hp HF Hlen Hmix Hs Hin Hnext Hplain Hfade.
  set (count := getSampleCount clip) in *. set (off := pos mod count) in *.
  set (nFade := Track.m_nFadeSamples tr) in *.
  assert (Bo : 0 <= off < count) by (apply Z.mod_pos_bound; lia).
  rewrite (GetAudio_active tr act clip mix n pos) by (try assumption; lia).
  cbv zeta. fold count off nFade.
  destruct (Z.leb_spec count (off + n)) as [_|]; [|lia].
  assert (Lc : Z.of_nat (length (getSamples clip)) = count) by reflexivity.
  destruct (copy_loop_spec (getSamples clip) (Z.to_nat (n - nFade)) 0 off mix)
    as (mix1 & E1 & L1 & F1 & Z1); try assumption; try lia.
  { intros d Hd. rewrite Z.add_0_l. apply Hplain. lia. }
  rewrite E1. cbn [bind]. rewrite Hnext. cbn [bind].
  replace (n - (n - nFade)) with nFade by lia.
  rewrite Z2Nat.id by lia.
  destruct (fade_loop_spec (getSamples clip) nFade next (Z.to_nat nFade)
              (n - nFade) (off + (n - nFade)) 0 mix1)
    as (mix2 & E2 & L2 & F2 & Z2); try assumption; try lia.
  { intros d Hd.
    replace (0 + 1 + d) with ((n - nFade + d) - (n - nFade) + 1) by lia.
    replace (off + (n - nFade) + d) with (off + (n - nFade + d)) by lia.
    apply Hfade. lia. }
  exists mix2. rewrite E2. cbn [bind].
  split; [reflexivity|]. split; [rewrite L2, L1; reflexivity|]. split; [assumption|].
  intros x Hx. specialize (Z1 x Hx). specialize (Z2 x Hx).
  rewrite Z2Nat.id in Z1, Z2 by lia.
  rewrite ?Z.add_0_l, ?Z.sub_0_r in Z1.
  replace (n - nFade + nFade) with n in Z2 by lia.
  replace (0 + 1 + (x - (n - nFade))) with (x - (n - nFade) + 1) in Z2 by lia.
  replace (off + (n - nFade) + (x - (n - nFade))) with (off + x) in Z2 by lia.
  destruct (Z.leb_spec 0 x); [|lia].
  destruct (Z.ltb_spec x (n - nFade)), (Z.leb_spec (n - nFade) x),
    (Z.ltb_spec x n); cbn [andb] in Z1, Z2; try lia.
  all: split; [|split]; intros Hcase; try lia; try congruence.
  destruct Z2 as (iVal & Ei & Ez). exists iVal.
  split; [assumption|]. rewrite Ez, Z1. reflexivity.
Qed.

(** A window that reaches past the end of the active clip reads past the
    end of its sample array: the call does not complete. *)
Lemma GetAudio_past_end (tr : Track.t) (act : string) (clip : SoundBuffer)
    (mix : list Z) (n pos : Z) :
  Track.m_pPendingTrack tr = Some act ->
  StdMap.find act (Track.m_mapClips tr) = Some clip ->
  0 < getSampleCount clip <= INT_MAX ->
  0 <= n <= INT_MAX -> 0 <= pos <= INT_MAX ->
  0 <= Track.m_nFadeSamples tr <= n ->
  getSampleCount clip < pos mod getSampleCount clip + n ->
  exists f, Track.GetAudio (Some mix) n pos tr = Fault f.
Proof.
  intros Ha Hf Hc Hn Hp HF Hpast.
  set (count := getSampleCount clip) in *. set (off := pos mod count) in *.
  set (nFade := Track.m_nFadeSamples tr) in *.
  assert (Bo : 0 <= off < count) by (apply Z.mod_pos_bound; lia).
  rewrite (GetAudio_active tr act clip mix n pos) by (try assumption; lia).
  cbv zeta. fold count off nFade.
  destruct (Z.leb_spec count (off + n)) as [_|]; [|lia].
  assert (Lc : Z.of_nat (length (getSamples clip)) = count) by reflexivity.
  destruct (Track.copy_loop _ _ _ _ _) as [[p mix1]|f] eqn:E1;
    [|exists f; reflexivity].
  apply copy_loop_done in E1. destruct E1 as (-> & L1 & B1).
  rewrite Z2Nat.id in * by lia. cbn [bind].
  destruct (Track.nextSample tr) as [next|f]; [|exists f; reflexivity].
  cbn [bind].
  destruct (Track.fade_loop _ _ _ _ _ _ _ _) as [mix2|f] eqn:E2;
    [|exists f; reflexivity].
  exfalso. apply fade_loop_done in E2. destruct E2 as (L2 & B2).
  replace (n - (n - nFade)) with nFade in B2 by lia.
  rewrite Z2Nat.id in B2 by lia.
  destruct (Z.eq_dec nFade 0) as [E0 | N0].
  - assert (Z.to_nat (n - nFade) <> 0%nat) by lia. specialize (B1 ltac:(assumption)). lia.
  - assert (Z.to_nat nFade <> 0%nat) by lia. specialize (B2 ltac:(assumption)). lia.
Qed.

(** A fade longer than the window makes the crossfade loop start at a
    negative index of the mix buffer: the call does not complete. *)
Lemma GetAudio_long_fade (tr : Track.t) (act : string) (clip : SoundBuffer)
    (mix : list Z) (n pos : Z) :
  Track.m_pPendingTrack tr = Some act ->
  StdMap.find act (Track.m_mapClips tr) = Some clip ->
  0 < getSampleCount clip <= INT_MAX ->
  0 <= n <= INT_MAX -> 0 <= pos <= INT_MAX ->
  n < Track.m_nFadeSamples tr <= INT_MAX ->
  getSampleCount clip <= pos mod getSampleCount clip + n ->
  exists f, Track.GetAudio (Some mix) n pos tr = Fault f.
Proof.
  intros Ha Hf Hc Hn Hp HF Hcross.
  set (count := getSampleCount clip) in *. set (off := pos mod count) in *.
  set (nFade := Track.m_nFadeSamples tr) in *.
  rewrite (GetAudio_active tr act clip mix n pos) by (try assumption; lia).
  cbv zeta. fold count off nFade.
  destruct (Z.leb_spec count (off + n)) as [_|]; [|lia].
  replace (Z.to_nat (n - nFade)) with 0%nat by lia.
  cbn [Track.copy_loop bind].
  destruct (Track.nextSample tr) as [next|f]; [|exists f; reflexivity].
  cbn [bind].
  destruct (Track.fade_loop _ _ _ _ _ _ _ _) as [mix2|f] eqn:E2;
    [|exists f; reflexivity].
  exfalso. apply fade_loop_done in E2. destruct E2 as (L2 & B2).
  assert (Z.to_nat (n - (n - nFade)) <> 0%nat) by lia.
  specialize (B2 ltac:(assumption)). lia.
Qed.

(** *** Fading to silence *)

Lemma zth_repeat_0 (k : nat) (x : Z) : zth (repeat 0 k) x = 0.
Proof.
  unfold zth. generalize (Z.to_nat x). induction k as [|k IH]; intros [|m]; cbn; auto.
Qed.

Lemma Forall_repeat_0 (k : nat) : Forall is_i16 (repeat 0 k).
Proof. apply Forall_forall. intros x Hx. apply repeat_spec in Hx. subst. unfold is_i16. lia. Qed.

Lemma quot2_range (s : Z) : is_i16 s -> -16384 <= Z.quot s 2 <= 16383.
Proof. unfold is_i16. intros H. Z.quot_rem_to_equations. lia. Qed.

Lemma mixed_0 (s : Z) : Track.mixed 0 s = Z.quot s 2.
Proof. unfold Track.mixed. f_equal. Qed.

Lemma fade_step_silence (nFade j s : Z) :
  is_i16 s -> 1 <= j <= nFade -> nFade < 2 ^ 24 ->
  exists v, Track.fade_step nFade 0 j s = Some v /\ is_i16 v.
Proof.
  intros Hs Hj HF. unfold Track.fade_step. rewrite (fade_val_spec s Hs).
  pose proof (quot2_range s Hs).
  destruct (fade_iVal_silence nFade j (Z.quot s 2)) as (v & E & R); try lia.
  exists v. split; [assumption|]. unfold is_i16. lia.
Qed.

(** A window that ends at the end of the active clip, with no pending clip
    and a zeroed mix buffer: the call completes. *)
Lemma GetAudio_crossing_silence (tr : Track.t) (act : string)
    (clip : SoundBuffer) (k : nat) (n pos : Z) :
  Track.m_pPendingTrack tr = Some act ->
  Track.m_pPendingClip tr = None ->
  StdMap.find act (Track.m_mapClips tr) = Some clip ->
  0 < getSampleCount clip <= INT_MAX ->
  0 <= n <= INT_MAX -> 0 <= pos <= INT_MAX ->
  0 <= Track.m_nFadeSamples tr <= n -> Track.m_nFadeSamples tr < 2 ^ 24 ->
  n <= Z.of_nat k ->
  Forall is_i16 (getSamples clip) ->
  pos mod getSampleCount clip + n = getSampleCount clip ->
  exists mix',
    Track.GetAudio (Some (repeat 0 k)) n pos tr
    = Done (true, Track.with_active None tr, Some mix')
    /\ length mix' = k
    /\ forall x, 0 <= x ->
         (x < n - Track.m_nFadeSamples tr ->
            zth mix' x
            = Z.quot (zth (getSamples clip) (pos mod getSampleCount clip + x)) 2)
         /\ (n - Track.m_nFadeSamples tr <= x < n ->
               Track.fade_step (Track.m_nFadeSamples tr) 0
                         (x - (n - Track.m_nFadeSamples tr) + 1)
                         (zth (getSamples clip)
                              (pos mod getSampleCount clip + x))
               = Some (zth mix' x))
         /\ (n <= x -> zth mix' x = 0).
Proof.
  intros Ha Hpend Hf Hc Hn Hp HF HF24 Hk Hs Hin.
  assert (Bo : 0 <= pos mod getSampleCount clip < getSampleCount clip)
    by (apply Z.mod_pos_bound; lia).
  assert (Lc : Z.of_nat (length (getSamples clip)) = getSampleCount clip)
    by reflexivity.
  destruct (GetAudio_crossing tr act clip (repeat 0 k) n pos 0)
    as (mix' & E & L & F & HZ); try assumption.
  - rewrite repeat_length. assumption.
  - apply Forall_repeat_0.
  - unfold Track.nextSample. rewrite Hpend. reflexivity.
  - intros x Hx. rewrite zth_repeat_0, mixed_0.
    pose proof (quot2_range (zth (getSamples clip) (pos mod getSampleCount clip + x))
                  ltac:(apply Forall_zth; [assumption | lia])).
    unfold is_i16. lia.
  - intros x Hx.
    destruct (fade_step_silence (Track.m_nFadeSamples tr)
                (x - (n - Track.m_nFadeSamples tr) + 1)
                (zth (getSamples clip) (pos mod getSampleCount clip + x)))
      as (v & Ev & _); try lia.
    + apply Forall_zth; [assumption | lia].
    + congruence.
  - exists mix'. rewrite E, Hpend. split; [reflexivity|].
    split; [rewrite L; apply repeat_length|].
    intros x Hx. destruct (HZ x Hx) as (H1 & H2 & H3).
    rewrite zth_repeat_0 in *. split; [|split].
    + intros Hlt. rewrite (H1 Hlt). apply mixed_0.
    + intros Hmid. destruct (H2 Hmid) as (iVal & Ei & Ez).
      destruct (fade_step_silence (Track.m_nFadeSamples tr)
                  (x - (n - Track.m_nFadeSamples tr) + 1)
                  (zth (getSamples clip) (pos mod getSampleCount clip + x)))
        as (v & Ev & Rv); try lia.
      * apply Forall_zth; [assumption | lia].
      * rewrite Ev in Ei. injection Ei as <-.
        rewrite Ez, Z.add_0_l, to_i16_id by assumption. assumption.
    + assumption.
Qed.

(** ** The pending clip *)

Lemma SetPendingTrack_idempotent (name : string) (tr : Track.t) :
  Track.SetPendingTrack name (snd (Track.SetPendingTrack name tr))
  = Track.SetPendingTrack name tr.
Proof.
  unfold Track.SetPendingTrack.
  destruct (StdMap.find name (Track.m_mapClips tr)) eqn:E; cbn; rewrite E; reflexivity.
Qed.

(** A call of [GetAudio] that completes on a window reaching the end of the
    active clip leaves the pending clip active. *)
Lemma GetAudio_promotes (tr tr' : Track.t) (act : string) (clip : SoundBuffer)
    (mix : list Z) (n pos : Z) (r : bool) (pMix : option (list Z)) :
  Track.m_pPendingTrack tr = Some act ->
  StdMap.find act (Track.m_mapClips tr) = Some clip ->
  0 < getSampleCount clip <= INT_MAX ->
  0 <= n <= INT_MAX -> 0 <= pos <= INT_MAX ->
  0 <= Track.m_nFadeSamples tr <= INT_MAX ->
  getSampleCount clip <= pos mod getSampleCount clip + n ->
  Track.GetAudio (Some mix) n pos tr = Done (r, tr', pMix) ->
  r = true /\ tr' = Track.with_active (Track.m_pPendingClip tr) tr.
Proof.
  intros Ha Hf Hc Hn Hp HF Hcross.
  rewrite (GetAudio_active tr act clip mix n pos) by (try assumption; lia).
  cbv zeta.
  destruct (Z.leb_spec (getSampleCount clip) (pos mod getSampleCount clip + n))
    as [_|]; [|lia].
  destruct (Track.copy_loop _ _ _ _ _) as [[p mix1]|f]; [|discriminate].
  cbn [bind]. destruct (Track.nextSample tr) as [next|f]; [|discriminate].
  cbn [bind].
  destruct (Track.fade_loop _ _ _ _ _ _ _ _) as [mix2|f]; [|discriminate].
  cbn [bind]. intros [= <- <- _]. split; reflexivity.
Qed.

(** ** [LoopLauncher::UpdatePendingClips] *)

Lemma stage_flag (tracks : StdMap.t Track.t) (clips : list string) :
  forall (pending : StdMap.t string) (needs : bool),
    snd (LoopLauncher.stage tracks clips pending needs)
    = needs && negb (existsb (fun c =>
                       match LoopLauncher.first_track_with c tracks with
                       | Some _ => true
                       | None => false
                       end) clips).
Proof.
  induction clips as [|c clips IH]; intros pending needs; cbn [LoopLauncher.stage existsb].
  - cbn. rewrite andb_true_r. reflexivity.
  - destruct (LoopLauncher.first_track_with c tracks); rewrite IH; cbn.
    + rewrite andb_false_r. reflexivity.
    + reflexivity.
Qed.

Lemma stage_nothing (tracks : StdMap.t Track.t) (clips : list string) :
  (forall c, In c clips -> LoopLauncher.first_track_with c tracks = None) ->
  forall pending needs,
    LoopLauncher.stage tracks clips pending needs = (pending, needs).
Proof.
  induction clips as [|c clips IH]; intros Hnone pending needs; cbn [LoopLauncher.stage].
  - reflexivity.
  - rewrite (Hnone c (or_introl eq_refl)). apply IH.
    intros c' Hc'. apply Hnone. right. assumption.
Qed.

(** ** [LoopLauncher::Initialize] *)


Lemma fold_min_init (a b : Z) (l : list Z) :
  fold_right Z.min (Z.min a b) l = Z.min a (fold_right Z.min b l).
Proof. induction l as [|x l IH]; cbn; [reflexivity|]. rewrite IH. lia. Qed.

Lemma sample_count_range_snd (tracks : StdMap.t Track.t) :
  forall nMax nMin,
    snd (LoopLauncher.sample_count_range tracks nMax nMin)
    = fold_right Z.min nMin
        (map (fun e => Track.GetSampleCount (snd e)) tracks).
Proof.
  induction tracks as [|[name tr] tracks IH]; intros nMax nMin;
    cbn [LoopLauncher.sample_count_range map fold_right snd].
  - reflexivity.
  - rewrite IH, Z.min_comm, fold_min_init. reflexivity.
Qed.

Lemma sample_count_range_is_min (tracks : StdMap.t Track.t) (nMax : Z) :
  snd (LoopLauncher.sample_count_range tracks nMax INT_MAX)
  = LoopLauncher.min_sample_count tracks.
Proof. apply sample_count_range_snd. Qed.

Lemma min_sample_count_const (tracks : StdMap.t Track.t) (c : Z) :
  tracks <> [] -> c <= INT_MAX ->
  Forall (fun e => Track.GetSampleCount (snd e) = c) tracks ->
  LoopLauncher.min_sample_count tracks = c.
Proof.
  intros Hne Hc H. unfold LoopLauncher.min_sample_count.
  induction H as [|e l He Hl IH]; [congruence|].
  cbn [map fold_right]. rewrite He.
  destruct l as [|e' l'].
  - cbn. lia.
  - rewrite IH by discriminate. lia.
Qed.

Lemma min_sample_count_le (tracks : StdMap.t Track.t) (e : string * Track.t) :
  In e tracks -> LoopLauncher.min_sample_count tracks <= Track.GetSampleCount (snd e).
Proof.
  unfold LoopLauncher.min_sample_count. induction tracks as [|e' l IH]; intros H; [contradiction|].
  cbn [map fold_right]. destruct H as [-> | H]; [lia|]. specialize (IH H). lia.
Qed.

Lemma min_sample_count_ge (tracks : StdMap.t Track.t) (c : Z) :
  c <= INT_MAX ->
  Forall (fun e => c <= Track.GetSampleCount (snd e)) tracks ->
  c <= LoopLauncher.min_sample_count tracks.
Proof.
  intros Hc H. unfold LoopLauncher.min_sample_count.
  induction H as [|e l He Hl IH]; cbn [map fold_right]; lia.
Qed.

Lemma resize_length (n : Z) (l l' : list Z) :
  resize n l = Done l' -> Z.of_nat (length l') = n.
Proof.
  unfold resize. destruct (Z.ltb_spec n 0); [discriminate|].
  intros [= <-]. rewrite length_app, length_firstn, repeat_length. lia.
Qed.

Lemma Initialize_spec (loadFromFile : string -> option SoundBuffer)
    (mapTracks : StdMap.t (list string)) (ll : LoopLauncher.t)
    (tracks : StdMap.t Track.t) :
  LoopLauncher.emplace_tracks loadFromFile mapTracks (LoopLauncher.m_mapTracks ll)
  = Done tracks ->
  LoopLauncher.Initialize loadFromFile mapTracks ll
  = match tracks with
    | [] => Done (false, LoopLauncher.with_tracks [] ll)
    | (_, first) :: _ =>
        buf <- resize (Z.quot (LoopLauncher.min_sample_count tracks) 64)
                      (LoopLauncher.m_vMixBuffer ll) ;;
        Done (true,
              {| LoopLauncher.m_nLastSamplePos := LoopLauncher.m_nLastSamplePos ll;
                 LoopLauncher.m_nMaxSampleCount :=
                   fst (LoopLauncher.sample_count_range tracks
                          (LoopLauncher.m_nMaxSampleCount ll) INT_MAX);
                 LoopLauncher.m_mapTracks := tracks;
                 LoopLauncher.m_vMixBuffer := buf;
                 LoopLauncher.m_bNeedsAudio := LoopLauncher.m_bNeedsAudio ll;
                 LoopLauncher.m_mapPendingTracks :=
                   LoopLauncher.m_mapPendingTracks ll;
                 LoopLauncher.m_stream :=
                   Some (to_uint (Track.GetChannelCount first),
                         to_uint (Track.GetSampleRate first)) |})
    end.
Proof.
  intros E. unfold LoopLauncher.Initialize. rewrite E. cbn [bind].
  destruct tracks as [|[name first] rest]; [reflexivity|].
  cbn [StdMap.empty].
  pose proof (sample_count_range_is_min ((name, first) :: rest)
                (LoopLauncher.m_nMaxSampleCount ll)) as M.
  destruct (LoopLauncher.sample_count_range ((name, first) :: rest)
              (LoopLauncher.m_nMaxSampleCount ll) INT_MAX) as [nMax nMin].
  cbn [snd fst] in *. subst nMin.
  destruct (resize _ _) as [buf|f]; reflexivity.
Qed.

(** ** [LoopLauncher::postPendingTracks] *)

Lemma find_silence_all (name : string) (tracks : StdMap.t Track.t) :
  StdMap.find name (LoopLauncher.silence_all tracks)
  = option_map (fun tr => snd (Track.SetPendingTrack "silence" tr))
               (StdMap.find name tracks).
Proof.
  induction tracks as [|[k tr] tracks IH]; cbn; [reflexivity|].
  destruct (String.eqb name k); [reflexivity | exact IH].
Qed.

Lemma find_set_pending_on_other (name k clip : string)
    (tracks : StdMap.t Track.t) :
  String.eqb name k = false ->
  StdMap.find name (LoopLauncher.set_pending_on k clip tracks)
  = StdMap.find name tracks.
Proof.
  intros Hne. induction tracks as [|[k' tr] tracks IH]; cbn; [reflexivity|].
  destruct (String.eqb k k') eqn:Ek; cbn.
  - apply String.eqb_eq in Ek. subst k'. rewrite Hne. reflexivity.
  - destruct (String.eqb name k'); [reflexivity | exact IH].
Qed.

Lemma find_apply_pending_other (name : string) (pending : StdMap.t string) :
  StdMap.find name pending = None ->
  forall tracks,
    StdMap.find name (LoopLauncher.apply_pending pending tracks)
    = StdMap.find name tracks.
Proof.
  induction pending as [|[k clip] pending IH]; intros Hnone tracks; cbn; [reflexivity|].
  cbn in Hnone. destruct (String.eqb name k) eqn:E; [discriminate|].
  rewrite IH by assumption. apply find_set_pending_on_other. assumption.
Qed.

(** ** Binary32 arithmetic: bounds that survive rounding *)

(** Rounding never crosses a number of the grid it rounds to: a magnitude
    of at most [n * 2 ^ g], below [2 ^ (g + 24)], is rounded to a magnitude
    of at most [n * 2 ^ g]. *)
Lemma binary_round_aux_le_grid (s : bool) (m e g n : Z) (l : location) :
  0 <= m -> e <= g -> -149 <= g -> 0 <= n ->
  m < 2 ^ (g + 24 - e) ->
  n * 2 ^ (g + 149) < 2 ^ 254 ->
  m <= n * 2 ^ (g - e) -> (l = loc_Exact \/ m < n * 2 ^ (g - e)) ->
  let r := binary_round_aux 24 128 s m e l in
  fin r /\ Z.abs (value r) <= n * 2 ^ (g + 149)
  /\ (if s then value r <= 0 else 0 <= value r).
Proof.
  intros Hm Heg Hg Hn Hmag Hov Hle Hstrict.
  destruct (binary_round_aux_decompose s m e l Hm) as (m2 & B2 & Ex & R).
  cbv zeta in *. rewrite R. clear R.
  set (k := Z.max 0 (fexp32 (Zdigits2 m + e) - e)) in *.
  set (k2 := Z.max 0 (fexp32 (Zdigits2 m2 + (e + k)) - (e + k))) in *.
  destruct (Zdigits2_bounds m Hm) as (D0 & Dhi & Dlo).
  assert (Pk : 0 < 2 ^ k) by (apply Z.pow_pos_nonneg; lia).
  assert (Pk2 : 0 < 2 ^ k2) by (apply Z.pow_pos_nonneg; lia).
  assert (Hk : e + k <= g).
  { destruct (Z.eq_dec m 0) as [-> | Hne].
    - unfold k. change (Zdigits2 0) with 0. unfold fexp32. lia.
    - assert (L : 2 ^ (Zdigits2 m - 1) < 2 ^ (g + 24 - e)) by lia.
      apply Z.pow_lt_mono_r_iff in L; [|lia|lia].
      unfold k, fexp32. lia. }
  assert (Split : 2 ^ (g - e) = 2 ^ k * 2 ^ (g - e - k)).
  { rewrite <- Z.pow_add_r by lia. f_equal. lia. }
  assert (Pq : 0 < 2 ^ (g - e - k)) by (apply Z.pow_pos_nonneg; lia).
  set (Q := 2 ^ (g - e - k)) in *. set (K := 2 ^ k) in *.
  assert (M2 : 0 <= m2 <= n * Q).
  { assert (0 <= m / K) by (apply Z.div_pos; lia).
    split; [lia|].
    destruct (Z.eq_dec m (n * 2 ^ (g - e))) as [Eq | Hne].
    - destruct Hstrict as [-> | ?]; [|lia].
      rewrite Ex; [| reflexivity |].
      + rewrite Eq, Split. replace (n * (K * Q)) with (n * Q * K) by ring.
        rewrite Z.div_mul by lia. lia.
      + rewrite Eq, Split. replace (n * (K * Q)) with (n * Q * K) by ring.
        apply Z.mod_mul. lia.
    - assert (m / K < n * Q).
      { apply Z.div_lt_upper_bound; [lia|]. rewrite Split in Hle, Hne. nia. }
      lia. }
  assert (M3 : 0 <= m2 / 2 ^ k2 /\ m2 / 2 ^ k2 * 2 ^ k2 <= m2).
  { split; [apply Z.div_pos; lia|].
    rewrite Z.mul_comm. apply Z.mul_div_le. lia. }
  destruct (m2 / 2 ^ k2) as [|m'|m'] eqn:E; try lia.
  - cbn. split; [exact I|]. split; [|destruct s; lia].
    apply Z.mul_nonneg_nonneg; [lia | apply Z.pow_nonneg; lia].
  - assert (A149 : -149 <= e + k).
    { unfold k, fexp32. lia. }
    assert (V : Zpos m' * 2 ^ (e + k + k2 + 149) <= n * 2 ^ (g + 149)).
    { replace (e + k + k2 + 149) with (k2 + (e + k + 149)) by lia.
      rewrite Z.pow_add_r, Z.mul_assoc by lia.
      replace (g + 149) with ((g - e - k) + (e + k + 149)) by lia.
      rewrite (Z.pow_add_r 2 (g - e - k)) by lia. fold Q.
      rewrite Z.mul_assoc.
      apply Z.mul_le_mono_nonneg_r; [apply Z.pow_nonneg; lia | lia]. }
    assert (Px : 0 < 2 ^ (e + k + k2 + 149)) by (apply Z.pow_pos_nonneg; lia).
    assert (L : e + k + k2 <= 104).
    { assert (L : 2 ^ (e + k + k2 + 149) < 2 ^ 254) by nia.
      apply Z.pow_lt_mono_r_iff in L; lia. }
    destruct (Z.leb_spec (e + k + k2) 104); [|lia].
    cbn [fin value]. split; [lia|].
    destruct s.
    + rewrite Z.mul_opp_l, Z.abs_opp, Z.abs_eq by lia. split; lia.
    + rewrite Z.abs_eq by lia. split; lia.
Qed.

Lemma pow2_split (a b : Z) : 0 <= a -> 0 <= b -> 2 ^ (a + b) = 2 ^ a * 2 ^ b.
Proof. intros. apply Z.pow_add_r; assumption. Qed.

Lemma fexp32_le (d g : Z) : -149 <= g -> d <= g + 24 -> fexp32 d <= g.
Proof. unfold fexp32. lia. Qed.

(** The number of digits of a mantissa whose magnitude is below
    [2 ^ (g + 24)]; [c] scales both sides to integers. *)
Lemma digits_of_magnitude (m : positive) (e g c : Z) :
  0 <= e + c ->
  Zpos m * 2 ^ (e + c) < 2 ^ (g + 24 + c) ->
  Zpos (digits2_pos m) + e <= g + 24.
Proof.
  intros He H.
  destruct (digits2_pos_bounds m) as [L _].
  set (d := Zpos (digits2_pos m)) in *.
  assert (d >= 1) by (unfold d; lia).
  assert (Pe : 0 < 2 ^ (e + c)) by (apply Z.pow_pos_nonneg; lia).
  assert (X : 2 ^ (d - 1 + (e + c)) < 2 ^ (g + 24 + c)).
  { rewrite pow2_split by lia. nia. }
  destruct (Z.le_gt_cases 0 (g + 24 + c)) as [Hpos | Hneg].
  - apply Z.pow_lt_mono_r_iff in X; lia.
  - rewrite (Z.pow_neg_r 2 (g + 24 + c)) in X by lia.
    assert (0 < 2 ^ (d - 1 + (e + c))) by (apply Z.pow_pos_nonneg; lia). lia.
Qed.

Lemma binary_round_le_grid (s : bool) (m : positive) (e g n : Z) :
  -149 <= e -> -149 <= g -> 0 <= n ->
  Zpos m * 2 ^ (e + 149) < 2 ^ (g + 24 + 149) ->
  n * 2 ^ (g + 149) < 2 ^ 254 ->
  Zpos m * 2 ^ (e + 149) <= n * 2 ^ (g + 149) ->
  let r := binary_round 24 128 s m e in
  fin r /\ Z.abs (value r) <= n * 2 ^ (g + 149)
  /\ (if s then value r <= 0 else 0 <= value r).
Proof.
  intros He Hg Hn Hmag Hov Hle. unfold binary_round.
  change (fexp 24 128) with fexp32.
  pose proof (digits_of_magnitude m e g 149 ltac:(lia) Hmag) as Hd.
  pose proof (fexp32_le _ g Hg Hd) as Hf.
  destruct (shl_align_spec m e (fexp32 (Zpos (digits2_pos m) + e)))
    as (mz & -> & Emz).
  set (ez := Z.min e (fexp32 (Zpos (digits2_pos m) + e))) in *.
  assert (Hez : -149 <= ez <= e) by (unfold ez, fexp32; lia).
  assert (Pz : 0 < 2 ^ (ez + 149)) by (apply Z.pow_pos_nonneg; lia).
  assert (V : Zpos mz * 2 ^ (ez + 149) = Zpos m * 2 ^ (e + 149)).
  { rewrite Emz, <- Z.mul_assoc, <- pow2_split by lia. do 2 f_equal. lia. }
  apply binary_round_aux_le_grid; try lia.
  - apply (Z.mul_lt_mono_pos_r (2 ^ (ez + 149))); [assumption|].
    rewrite V, <- pow2_split by lia.
    replace (g + 24 - ez + (ez + 149)) with (g + 24 + 149) by lia. assumption.
  - apply (Z.mul_le_mono_pos_r _ _ (2 ^ (ez + 149))); [assumption|].
    rewrite V, <- Z.mul_assoc, <- pow2_split by lia.
    replace (g - ez + (ez + 149)) with (g + 149) by lia. assumption.
  - left. reflexivity.
Qed.

(** The same for a signed integer, between two numbers of the grid. *)
Lemma binary_normalize_bounds (z e g lo hi : Z) :
  -149 <= e -> -149 <= g -> lo <= 0 <= hi ->
  Z.abs (z * 2 ^ (e + 149)) < 2 ^ (g + 24 + 149) ->
  hi * 2 ^ (g + 149) < 2 ^ 254 -> - lo * 2 ^ (g + 149) < 2 ^ 254 ->
  lo * 2 ^ (g + 149) <= z * 2 ^ (e + 149) <= hi * 2 ^ (g + 149) ->
  let r := binary_normalize 24 128 z e false in
  fin r /\ lo * 2 ^ (g + 149) <= value r <= hi * 2 ^ (g + 149).
Proof.
  intros He Hg Hlh Hmag Hhi Hlo Hb.
  assert (Pe : 0 < 2 ^ (e + 149)) by (apply Z.pow_pos_nonneg; lia).
  assert (Pg : 0 < 2 ^ (g + 149)) by (apply Z.pow_pos_nonneg; lia).
  destruct z as [|m|m]; cbn [binary_normalize].
  - split; [exact I|]. cbn [value]. nia.
  - rewrite Z.abs_eq in Hmag by nia.
    destruct (binary_round_le_grid false m e g hi) as (F & A & Sg); try lia.
    split; [assumption|]. cbv zeta in *. nia.
  - change (Zneg m) with (- Zpos m) in *.
    rewrite Z.mul_opp_l, Z.abs_opp, Z.abs_eq in Hmag by nia.
    destruct (binary_round_le_grid true m e g (- lo)) as (F & A & Sg); try lia.
    split; [assumption|]. cbv zeta in *. nia.
Qed.

Lemma add_bounds (x y : F32.float) (g lo hi : Z) :
  fin x -> fin y -> -149 <= g -> lo <= 0 <= hi ->
  Z.abs (value x + value y) < 2 ^ (g + 24 + 149) ->
  hi * 2 ^ (g + 149) < 2 ^ 254 -> - lo * 2 ^ (g + 149) < 2 ^ 254 ->
  lo * 2 ^ (g + 149) <= value x + value y <= hi * 2 ^ (g + 149) ->
  fin (F32.add x y)
  /\ lo * 2 ^ (g + 149) <= value (F32.add x y) <= hi * 2 ^ (g + 149).
Proof.
  intros Fx Fy Hg Hlh Hmag Hhi Hlo Hb. unfold F32.add.
  assert (Pg : 0 < 2 ^ (g + 149)) by (apply Z.pow_pos_nonneg; lia).
  destruct x as [sx| | |sx mx ex], y as [sy| | |sy my ey];
    try contradiction; cbn [SFadd].
  - destruct sx, sy; (split; [exact I | cbn [Bool.eqb value]; nia]).
  - split; [assumption|]. cbn [value] in *. lia.
  - split; [assumption|]. cbn [value] in *. lia.
  - cbn [fin] in Fx, Fy.
    set (ez := Z.min ex ey).
    set (S := cond_Zopp sx (Zpos (fst (shl_align mx ex ez)))
              + cond_Zopp sy (Zpos (fst (shl_align my ey ez)))).
    assert (E : S * 2 ^ (ez + 149)
                = value (S754_finite sx mx ex) + value (S754_finite sy my ey)).
    { unfold S. rewrite Z.mul_add_distr_r, !aligned_value by lia. reflexivity. }
    rewrite <- E in *.
    assert (-149 <= ez) by (unfold ez; lia).
    change F32.prec with 24. change F32.emax with 128.
    apply (binary_normalize_bounds S ez g lo hi); assumption.
Qed.

Lemma sub_bounds (x y : F32.float) (g lo hi : Z) :
  fin x -> fin y -> -149 <= g -> lo <= 0 <= hi ->
  Z.abs (value x - value y) < 2 ^ (g + 24 + 149) ->
  hi * 2 ^ (g + 149) < 2 ^ 254 -> - lo * 2 ^ (g + 149) < 2 ^ 254 ->
  lo * 2 ^ (g + 149) <= value x - value y <= hi * 2 ^ (g + 149) ->
  fin (F32.sub x y)
  /\ lo * 2 ^ (g + 149) <= value (F32.sub x y) <= hi * 2 ^ (g + 149).
Proof.
  intros Fx Fy Hg Hlh Hmag Hhi Hlo Hb. unfold F32.sub.
  assert (Pg : 0 < 2 ^ (g + 149)) by (apply Z.pow_pos_nonneg; lia).
  destruct x as [sx| | |sx mx ex], y as [sy| | |sy my ey];
    try contradiction; cbn [SFsub].
  - destruct sx, sy; (split; [exact I | cbn [Bool.eqb negb value]; nia]).
  - split; [assumption|]. cbn [SFopp value] in *.
    destruct sy; cbn [negb]; lia.
  - split; [assumption|]. cbn [value] in *. lia.
  - cbn [fin] in Fx, Fy.
    set (ez := Z.min ex ey).
    set (S := cond_Zopp sx (Zpos (fst (shl_align mx ex ez)))
              - cond_Zopp sy (Zpos (fst (shl_align my ey ez)))).
    assert (E : S * 2 ^ (ez + 149)
                = value (S754_finite sx mx ex) - value (S754_finite sy my ey)).
    { unfold S. rewrite Z.mul_sub_distr_r, !aligned_value by lia. reflexivity. }
    rewrite <- E in *.
    assert (-149 <= ez) by (unfold ez; lia).
    change F32.prec with 24. change F32.emax with 128.
    apply (binary_normalize_bounds S ez g lo hi); assumption.
Qed.

(** A mantissa that needs no rounding is kept as it is. *)
Lemma binary_round_aux_id (s : bool) (m : positive) (e : Z) :
  fexp32 (Zpos (digits2_pos m) + e) <= e -> e <= 104 ->
  binary_round_aux 24 128 s (Zpos m) e loc_Exact = S754_finite s m e.
Proof.
  intros Hf He.
  destruct (binary_round_aux_decompose s (Zpos m) e loc_Exact ltac:(lia))
    as (m2 & B2 & Ex & R).
  cbv zeta in *. cbn [Zdigits2] in *.
  replace (Z.max 0 (fexp32 (Zpos (digits2_pos m) + e) - e)) with 0 in * by lia.
  change (2 ^ 0) with 1 in *. rewrite Z.div_1_r in *.
  rewrite (Ex eq_refl (Z.mod_1_r _)) in R. cbn [Zdigits2] in R.
  replace (e + 0) with e in R by lia.
  replace (Z.max 0 (fexp32 (Zpos (digits2_pos m) + e) - e)) with 0 in R by lia.
  change (2 ^ 0) with 1 in R. rewrite Z.div_1_r in R.
  replace (e + 0) with e in R by lia.
  destruct (Z.leb_spec e 104); [exact R | lia].
Qed.

(** The product: its magnitude stays below a number of the grid that the
    exact product does not exceed; its sign is that of the exact product.
    The exact product of the scaled values is scaled by [2 ^ 298]. *)
Lemma mul_bounds (x y : F32.float) (g n : Z) :
  fin x -> fin y -> -149 <= g -> 0 <= n ->
  n * 2 ^ (g + 149) < 2 ^ 254 ->
  Z.abs (value x) * Z.abs (value y) < 2 ^ (g + 24 + 298) ->
  Z.abs (value x) * Z.abs (value y) <= n * 2 ^ (g + 298) ->
  fin (F32.mul x y)
  /\ Z.abs (value (F32.mul x y)) <= n * 2 ^ (g + 149)
  /\ (0 <= value x * value y -> 0 <= value (F32.mul x y))
  /\ (value x * value y <= 0 -> value (F32.mul x y) <= 0).
Proof.
  intros Fx Fy Hg Hn Hov Hmag Hle. unfold F32.mul.
  assert (Pg : 0 < 2 ^ (g + 149)) by (apply Z.pow_pos_nonneg; lia).
  assert (Z0 : 0 <= n * 2 ^ (g + 149)) by nia.
  destruct x as [sx| | |sx mx ex], y as [sy| | |sy my ey];
    try contradiction; cbn [SFmul];
    try (split; [exact I | cbn [value]; rewrite Z.abs_0; repeat split; lia]).
  cbn [fin] in Fx, Fy. rewrite !value_abs in Hmag, Hle.
  set (e := ex + ey) in *.
  assert (Px : 0 < 2 ^ (ex + 149)) by (apply Z.pow_pos_nonneg; lia).
  assert (Py : 0 < 2 ^ (ey + 149)) by (apply Z.pow_pos_nonneg; lia).
  assert (P : Zpos mx * 2 ^ (ex + 149) * (Zpos my * 2 ^ (ey + 149))
              = Zpos (mx * my) * 2 ^ (e + 298)).
  { rewrite Pos2Z.inj_mul. unfold e.
    replace (ex + ey + 298) with ((ex + 149) + (ey + 149)) by lia.
    rewrite (pow2_split (ex + 149) (ey + 149)) by lia. ring. }
  rewrite P in Hmag, Hle.
  assert (Pe : 0 < 2 ^ (e + 298)) by (apply Z.pow_pos_nonneg; unfold e; lia).
  assert (Sign : forall r : F32.float,
            (if xorb sx sy then value r <= 0 else 0 <= value r) ->
            (0 <= value (S754_finite sx mx ex) * value (S754_finite sy my ey)
             -> 0 <= value r)
            /\ (value (S754_finite sx mx ex) * value (S754_finite sy my ey) <= 0
                -> value r <= 0)).
  { intros r Hr. cbn [value]. destruct sx, sy; cbn [xorb] in Hr; split; nia. }
  change F32.prec with 24. change F32.emax with 128.
  destruct (Z.le_gt_cases e g) as [Heg | Heg].
  - destruct (binary_round_aux_le_grid (xorb sx sy) (Zpos (mx * my)) e g n
                loc_Exact) as (F & A & Sg); try lia.
    + apply (Z.mul_lt_mono_pos_r (2 ^ (e + 298))); [assumption|].
      rewrite <- pow2_split by (unfold e; lia).
      replace (g + 24 - e + (e + 298)) with (g + 24 + 298) by lia. assumption.
    + apply (Z.mul_le_mono_pos_r _ _ (2 ^ (e + 298))); [assumption|].
      rewrite <- Z.mul_assoc, <- pow2_split by (unfold e; lia).
      replace (g - e + (e + 298)) with (g + 298) by lia. assumption.
    + left. reflexivity.
    + split; [assumption|]. split; [assumption|]. apply Sign, Sg.
  - pose proof (digits_of_magnitude (mx * my) e g 298 ltac:(unfold e; lia) Hmag)
      as Hd.
    pose proof (fexp32_le _ g Hg Hd) as Hf.
    assert (V : Zpos (mx * my) * 2 ^ (e + 149) <= n * 2 ^ (g + 149)).
    { apply (Z.mul_le_mono_pos_r _ _ (2 ^ 149)); [lia|].
      rewrite <- !Z.mul_assoc, <- !pow2_split by lia.
      replace (e + 149 + 149) with (e + 298) by lia.
      replace (g + 149 + 149) with (g + 298) by lia. assumption. }
    assert (Pe1 : 0 < 2 ^ (e + 149)) by (apply Z.pow_pos_nonneg; lia).
    assert (L : e <= 104).
    { assert (L : 2 ^ (e + 149) < 2 ^ 254) by nia.
      apply Z.pow_lt_mono_r_iff in L; lia. }
    rewrite binary_round_aux_id by lia.
    split; [cbn [fin]; lia|]. split; [rewrite value_abs; assumption|].
    apply Sign. cbn [value]. destruct (xorb sx sy); nia.
Qed.

(** The quotient of two positive canonical numbers, the first not above the
    second: it stays below a number [n * 2 ^ g] that the exact quotient
    does not exceed. *)
Lemma div_le_grid (mx my : positive) (ex ey g n : Z) :
  Zpos (digits2_pos mx) = 24 -> Zpos (digits2_pos my) = 24 ->
  -149 <= ex -> -149 <= ey -> -125 <= ex - ey ->
  value (S754_finite false mx ex) <= value (S754_finite false my ey) ->
  -23 <= g <= 0 -> 0 <= n <= 2 ^ (- g) ->
  value (S754_finite false mx ex) * 2 ^ (- g)
  <= n * value (S754_finite false my ey) ->
  let q := F32.div (S754_finite false mx ex) (S754_finite false my ey) in
  fin q /\ 0 <= value q <= n * 2 ^ (g + 149).
Proof.
  intros Dx Dy Hex Hey Hd Hle Hg Hn Hb. cbn [value] in Hle, Hb.
  destruct (digits2_pos_bounds mx) as [Lx Ux].
  destruct (digits2_pos_bounds my) as [Ly Uy].
  rewrite Dx in Lx, Ux. rewrite Dy in Ly, Uy.
  assert (Hxy : ex <= ey).
  { destruct (Z.le_gt_cases ex ey) as [|Hgt]; [assumption | exfalso].
    assert (Py : 0 < 2 ^ (ey + 149)) by (apply Z.pow_pos_nonneg; lia).
    replace (ex + 149) with (Z.succ (ex - ey - 1) + (ey + 149)) in Hle by lia.
    rewrite Z.pow_add_r, Z.pow_succ_r in Hle by lia.
    assert (PA : 0 < 2 ^ (ex - ey - 1)) by (apply Z.pow_pos_nonneg; lia).
    rewrite Z.mul_assoc in Hle. apply Z.mul_le_mono_pos_r in Hle; [|assumption].
    change (2 ^ (24 - 1)) with 8388608 in *. change (2 ^ 24) with 16777216 in *.
    set (A := 2 ^ (ex - ey - 1)) in *. clearbody A. nia. }
  cbv zeta. unfold F32.div. cbn [SFdiv]. unfold SFdiv_core_binary.
  change (fexp F32.prec F32.emax) with fexp32. cbn [Zdigits2]. rewrite Dx, Dy.
  replace (24 + ex - (24 + ey)) with (ex - ey) by lia.
  replace (Z.min (fexp32 (ex - ey)) (ex - ey)) with (ex - ey - 24)
    by (unfold fexp32; lia).
  replace (ex - ey - (ex - ey - 24)) with 24 by lia.
  rewrite Z.shiftl_mul_pow2, div_eucl_div_mod by lia.
  cbn [xorb]. change F32.prec with 24. change F32.emax with 128.
  set (e' := ex - ey - 24).
  assert (Px : 0 < 2 ^ (ex + 149)) by (apply Z.pow_pos_nonneg; lia).
  assert (Py : 0 < 2 ^ (ey + 149)) by (apply Z.pow_pos_nonneg; lia).
  assert (PG : 0 < 2 ^ (- g)) by (apply Z.pow_pos_nonneg; lia).
  assert (PT : 0 < 2 ^ (g - e')) by (apply Z.pow_pos_nonneg; unfold e'; lia).
  assert (PT1 : 0 < 2 ^ (- e')) by (apply Z.pow_pos_nonneg; unfold e'; lia).
  assert (E1 : 2 ^ (- e') * 2 ^ (ex + 149) = 2 ^ 24 * 2 ^ (ey + 149)).
  { rewrite <- (pow2_split (- e') (ex + 149)), <- (pow2_split 24 (ey + 149))
      by (unfold e'; lia).
    f_equal. unfold e'. lia. }
  assert (E2 : 2 ^ (g - e') * 2 ^ (- g) = 2 ^ (- e')).
  { rewrite <- (pow2_split (g - e') (- g)) by (unfold e'; lia).
    f_equal. lia. }
  assert (G1 : 2 ^ (- e') < 2 ^ (g + 24 - e')).
  { apply Z.pow_lt_mono_r; unfold e'; lia. }
  assert (G2 : n * 2 ^ (g + 149) < 2 ^ 254).
  { assert (n * 2 ^ (g + 149) <= 2 ^ (- g) * 2 ^ (g + 149)).
    { apply Z.mul_le_mono_nonneg_r; [apply Z.pow_nonneg|]; lia. }
    rewrite <- pow2_split in H by lia.
    replace (- g + (g + 149)) with 149 in H by lia.
    assert (2 ^ 149 < 2 ^ 254) by (apply Z.pow_lt_mono_r; lia). lia. }
  change (2 ^ 24) with 16777216 in *.
  set (a := Zpos mx * 16777216) in *.
  assert (A : a <= Zpos my * 2 ^ (- e') /\ a <= Zpos my * (n * 2 ^ (g - e'))).
  { unfold a.
    set (X := 2 ^ (ex + 149)) in *. set (Y := 2 ^ (ey + 149)) in *.
    set (G := 2 ^ (- g)) in *. set (T := 2 ^ (g - e')) in *.
    set (T1 := 2 ^ (- e')) in *.
    clearbody X Y G T T1. split.
    - apply (Z.mul_le_mono_pos_r _ _ X); [assumption|]. nia.
    - apply (Z.mul_le_mono_pos_r _ _ (X * G)); [nia|].
      replace (Zpos my * (n * T) * (X * G)) with (n * Zpos my * (T * G * X))
        by ring.
      rewrite E2, E1. nia. }
  destruct A as [A1 A2].
  pose proof (Z.div_mod a (Zpos my) ltac:(lia)) as DM.
  pose proof (Z.mod_pos_bound a (Zpos my) ltac:(lia)) as MB.
  assert (Q0 : 0 <= a / Zpos my) by (apply Z.div_pos; unfold a; lia).
  destruct (binary_round_aux_le_grid false (a / Zpos my) e' g n
              (new_location (Zpos my) (a mod Zpos my))) as (F & B & Sg);
    try lia.
  - assert (a / Zpos my <= 2 ^ (- e')) by (apply Z.div_le_upper_bound; lia). lia.
  - apply Z.div_le_upper_bound; lia.
  - destruct (Z.eq_dec (a mod Zpos my) 0) as [-> | Hr].
    + left. apply new_location_0.
    + right. apply Z.div_lt_upper_bound; [lia|].
      destruct (Z.eq_dec a (Zpos my * (n * 2 ^ (g - e')))) as [Ea | Ea]; [|lia].
      exfalso. apply Hr. rewrite Ea, Z.mul_comm. apply Z.mod_mul. lia.
  - split; [assumption|]. lia.
Qed.

Lemma pow2_floor (y k m : Z) :
  0 <= k <= y -> 2 ^ y <= m -> 2 ^ y <= m / 2 ^ k * 2 ^ k.
Proof.
  intros Hk Hm.
  assert (Pk : 0 < 2 ^ k) by (apply Z.pow_pos_nonneg; lia).
  assert (E : 2 ^ y = 2 ^ (y - k) * 2 ^ k).
  { rewrite <- pow2_split by lia. f_equal. lia. }
  assert (2 ^ (y - k) <= m / 2 ^ k).
  { apply Z.div_le_lower_bound; [assumption|]. rewrite Z.mul_comm, <- E.
    assumption. }
  rewrite E. apply Z.mul_le_mono_nonneg_r; lia.
Qed.

(** Rounding never crosses a power of two from above either. *)
Lemma binary_round_aux_ge_pow2 (s : bool) (m e t : Z) (l : location) :
  0 <= m -> e <= t -> -149 <= t -> t + 24 <= 104 ->
  2 ^ (t - e) <= m < 2 ^ (t + 24 - e) ->
  let r := binary_round_aux 24 128 s m e l in
  fin r /\ 2 ^ (t + 149) <= Z.abs (value r).
Proof.
  intros Hm Het Ht Ht' [Hlo Hhi]. cbv zeta.
  destruct (binary_round_aux_le_pow2 s m e (t + 24) l) as (F & _);
    try lia; try (right; assumption).
  split; [exact F|].
  destruct (binary_round_aux_decompose s m e l Hm) as (m2 & B2 & _ & R).
  cbv zeta in *. rewrite R in *. clear R.
  set (k := Z.max 0 (fexp32 (Zdigits2 m + e) - e)) in *.
  set (k2 := Z.max 0 (fexp32 (Zdigits2 m2 + (e + k)) - (e + k))) in *.
  destruct (Zdigits2_bounds m Hm) as (D0 & Dhi & Dlo).
  assert (P0 : 0 < 2 ^ (t - e)) by (apply Z.pow_pos_nonneg; lia).
  assert (Pk : 0 < 2 ^ k) by (apply Z.pow_pos_nonneg; lia).
  assert (Pk2 : 0 < 2 ^ k2) by (apply Z.pow_pos_nonneg; lia).
  assert (Hk : e + k <= t).
  { assert (L : 2 ^ (Zdigits2 m - 1) < 2 ^ (t + 24 - e)) by lia.
    apply Z.pow_lt_mono_r_iff in L; [|lia|lia].
    unfold k, fexp32. lia. }
  assert (A149 : -149 <= e + k) by (unfold k, fexp32; lia).
  set (y0 := t - e - k) in *.
  assert (M2 : 2 ^ y0 <= m2).
  { assert (2 ^ y0 <= m / 2 ^ k); [|lia].
    apply Z.div_le_lower_bound; [assumption|].
    rewrite <- pow2_split by (unfold y0; lia).
    replace (k + y0) with (t - e) by (unfold y0; lia). assumption. }
  assert (Py0 : 0 < 2 ^ y0) by (apply Z.pow_pos_nonneg; unfold y0; lia).
  destruct (Zdigits2_bounds m2 ltac:(lia)) as (E0 & _ & Elo).
  specialize (Elo ltac:(lia)).
  set (y := Z.max y0 (Zdigits2 m2 - 1)).
  assert (Hy : 2 ^ y <= m2).
  { unfold y. destruct (Z.max_spec y0 (Zdigits2 m2 - 1)) as [[_ ->] | [_ ->]];
      assumption. }
  assert (Hk2 : 0 <= k2 <= y) by (unfold k2, y, y0, fexp32; lia).
  pose proof (pow2_floor y k2 m2 Hk2 Hy) as Fl.
  assert (Y0 : 2 ^ y0 <= 2 ^ y) by (apply Z.pow_le_mono_r; unfold y, y0; lia).
  destruct (m2 / 2 ^ k2) as [|m'|m'] eqn:E; try lia.
  destruct (Z.leb_spec (e + k + k2) 104); [|contradiction].
  rewrite value_abs.
  replace (e + k + k2 + 149) with (k2 + (e + k + 149)) by lia.
  rewrite (pow2_split k2 (e + k + 149)), Z.mul_assoc by lia.
  replace (t + 149) with (y0 + (e + k + 149)) by (unfold y0; lia).
  rewrite (pow2_split y0 (e + k + 149)) by (unfold y0; lia).
  apply Z.mul_le_mono_nonneg_r; [apply Z.pow_nonneg; lia | lia].
Qed.

Lemma binary_round_ge_pow2 (s : bool) (m : positive) (e t : Z) :
  -149 <= e -> -149 <= t -> t + 24 <= 104 ->
  2 ^ (t + 149) <= Zpos m * 2 ^ (e + 149) < 2 ^ (t + 24 + 149) ->
  let r := binary_round 24 128 s m e in
  fin r /\ 2 ^ (t + 149) <= Z.abs (value r).
Proof.
  intros He Ht Ht' [Hlo Hhi]. unfold binary_round.
  change (fexp 24 128) with fexp32.
  pose proof (digits_of_magnitude m e t 149 ltac:(lia) Hhi) as Hd.
  pose proof (fexp32_le _ t Ht Hd) as Hf.
  destruct (shl_align_spec m e (fexp32 (Zpos (digits2_pos m) + e)))
    as (mz & -> & Emz).
  set (ez := Z.min e (fexp32 (Zpos (digits2_pos m) + e))) in *.
  assert (Hez : -149 <= ez <= e) by (unfold ez, fexp32; lia).
  assert (Pz : 0 < 2 ^ (ez + 149)) by (apply Z.pow_pos_nonneg; lia).
  assert (V : Zpos mz * 2 ^ (ez + 149) = Zpos m * 2 ^ (e + 149)).
  { rewrite Emz, <- Z.mul_assoc, <- pow2_split by lia. do 2 f_equal. lia. }
  apply binary_round_aux_ge_pow2; try lia.
  split.
  - apply (Z.mul_le_mono_pos_r _ _ (2 ^ (ez + 149))); [assumption|].
    rewrite V, <- pow2_split by lia.
    replace (t - ez + (ez + 149)) with (t + 149) by lia. assumption.
  - apply (Z.mul_lt_mono_pos_r (2 ^ (ez + 149))); [assumption|].
    rewrite V, <- pow2_split by lia.
    replace (t + 24 - ez + (ez + 149)) with (t + 24 + 149) by lia. assumption.
Qed.

(** A difference of at least [2 ^ t], below [2 ^ (t + 24)], is rounded to
    at least [2 ^ t]. *)
Lemma sub_ge_pow2 (x y : F32.float) (t : Z) :
  fin x -> fin y -> -149 <= t -> t + 24 <= 104 ->
  2 ^ (t + 149) <= value x - value y < 2 ^ (t + 24 + 149) ->
  fin (F32.sub x y) /\ 2 ^ (t + 149) <= value (F32.sub x y).
Proof.
  intros Fx Fy Ht Ht' [Hlo Hhi]. unfold F32.sub.
  assert (Pt : 0 < 2 ^ (t + 149)) by (apply Z.pow_pos_nonneg; lia).
  destruct x as [sx| | |sx mx ex], y as [sy| | |sy my ey];
    try contradiction; cbn [SFsub].
  - cbn [value] in *. lia.
  - split; [assumption|]. cbn [SFopp value] in *. destruct sy; cbn [negb]; lia.
  - split; [assumption|]. cbn [value] in *. lia.
  - cbn [fin] in Fx, Fy.
    set (ez := Z.min ex ey).
    set (S := cond_Zopp sx (Zpos (fst (shl_align mx ex ez)))
              - cond_Zopp sy (Zpos (fst (shl_align my ey ez)))).
    assert (E : S * 2 ^ (ez + 149)
                = value (S754_finite sx mx ex) - value (S754_finite sy my ey)).
    { unfold S. rewrite Z.mul_sub_distr_r, !aligned_value by lia. reflexivity. }
    rewrite <- E in *.
    assert (Hez : -149 <= ez) by (unfold ez; lia).
    assert (Pz : 0 < 2 ^ (ez + 149)) by (apply Z.pow_pos_nonneg; lia).
    change F32.prec with 24. change F32.emax with 128.
    destruct S as [|m|m]; cbn [binary_normalize]; try lia.
    destruct (binary_round_ge_pow2 false m ez t) as [F A]; try lia.
    split; [assumption|].
    destruct (mant_le m ez (t + 24) Hez ltac:(lia)) as [H1 H2].
    destruct (binary_round_le_pow2 false m ez (t + 24)) as (_ & _ & Sg);
      lia.
Qed.

(** ** The crossfade never leaves the range of [sf::Int16] *)

(** The last weight of a fade is zero: [1.f - float (F) / float (F)]. *)
Lemma fade_weight_last (nFade : Z) :
  1 <= nFade < 2 ^ 24 -> Track.fade_weight nFade nFade = S754_zero false.
Proof.
  intros HF. unfold Track.fade_weight.
  destruct (of_int_spec nFade) as [CF VF]; [lia|].
  destruct (positive_float _ nFade CF VF) as (m & e & -> & D & R); [lia|].
  assert (Q : F32.div (S754_finite false m e) (S754_finite false m e) = F32.one).
  { unfold F32.div. cbn [SFdiv]. unfold SFdiv_core_binary.
    change (fexp F32.prec F32.emax) with fexp32. cbn [Zdigits2]. rewrite D.
    replace (24 + e - (24 + e)) with 0 by lia.
    replace (e - e) with 0 by lia.
    change (fexp32 0) with (-24).
    change (Z.min (-24) 0) with (-24). change (0 - -24) with 24.
    rewrite Z.shiftl_mul_pow2, div_eucl_div_mod by lia.
    rewrite (Z.mul_comm (Zpos m)), Z.div_mul, Z.mod_mul by lia.
    rewrite new_location_0. reflexivity. }
  rewrite Q. reflexivity.
Qed.

(** Before the last pass the weight is at least [2 ^ -21], for a fade of at
    most [2 ^ 21] samples. *)
Lemma fade_weight_lower (nFade j : Z) :
  1 <= j < nFade -> nFade <= 2 ^ 21 ->
  fin (Track.fade_weight nFade j)
  /\ 2 ^ 128 <= value (Track.fade_weight nFade j) <= 2 ^ 149.
Proof.
  intros Hj HF.
  destruct (fade_weight_range nFade j) as [Fa Va]; [lia | lia |].
  split; [assumption|]. split; [|lia].
  unfold Track.fade_weight in *.
  destruct (of_int_spec j) as [Cj Vj]; [lia|].
  destruct (of_int_spec nFade) as [CF VF]; [lia|].
  destruct (positive_float _ j Cj Vj) as (mj & ej & Ej & Dj & Rj); [lia|].
  destruct (positive_float _ nFade CF VF) as (mF & eF & EF & DF & RF); [lia|].
  rewrite Ej, EF in *.
  destruct (div_le_grid mj mF ej eF (-21) (2 ^ 21 - 1)) as [Fq Vq];
    try assumption; try lia.
  cbv zeta in Vq.
  destruct (of_int_spec 1) as [C1 V1]; [lia|].
  destruct (sub_ge_pow2 F32.one
              (F32.div (S754_finite false mj ej) (S754_finite false mF eF))
              (-21)) as [_ L]; try lia; try assumption.
  - apply canonical_fin, C1.
  - unfold F32.one. rewrite V1. lia.
Qed.

(** The product of a weight and a sample: the rounding adds less than
    [2 ^ -9] to its magnitude. *)
Lemma mul_int_bounds (x : F32.float) (z lo hi : Z) :
  fin x -> 0 <= value x ->
  lo <= z <= hi -> - 2 ^ 15 <= lo <= 0 -> 0 <= hi <= 2 ^ 15 ->
  value x * - lo < 2 ^ 164 -> value x * hi < 2 ^ 164 ->
  fin (F32.mul x (F32.of_int z))
  /\ - (value x * - lo + 2 ^ 140) <= value (F32.mul x (F32.of_int z))
     <= value x * hi + 2 ^ 140.
Proof.
  intros Fx Hx Hz Hlo Hhi Mlo Mhi.
  destruct (of_int_spec z) as [Cz Vz]; [lia|].
  set (v := value x) in *.
  assert (Hv : 0 <= v * Z.abs z < 2 ^ 164).
  { split; [apply Z.mul_nonneg_nonneg; lia|].
    destruct (Z.abs_spec z) as [[_ ->] | [_ ->]].
    - apply Z.le_lt_trans with (v * hi); [|assumption].
      apply Z.mul_le_mono_nonneg_l; lia.
    - apply Z.le_lt_trans with (v * - lo); [|assumption].
      apply Z.mul_le_mono_nonneg_l; lia. }
  set (p := v * Z.abs z) in *.
  pose proof (Z.div_mod p (2 ^ 140) ltac:(lia)) as DM.
  pose proof (Z.mod_pos_bound p (2 ^ 140) ltac:(lia)) as MB.
  assert (Q0 : 0 <= p / 2 ^ 140) by (apply Z.div_pos; lia).
  assert (E : Z.abs (value x) * Z.abs (value (F32.of_int z)) = p * 2 ^ 149).
  { rewrite Vz, Z.abs_mul, (Z.abs_eq (value x)), (Z.abs_eq (2 ^ 149)) by lia.
    unfold p, v. ring. }
  destruct (mul_bounds x (F32.of_int z) (-9) (p / 2 ^ 140 + 1))
    as (F & A & Sp & Sn); try assumption; try lia.
  - apply canonical_fin, Cz.
  - split; [assumption|].
    change (-9 + 149) with 140 in A.
    assert (B : Z.abs (value (F32.mul x (F32.of_int z))) <= p + 2 ^ 140) by lia.
    fold v in Sp, Sn. rewrite Vz in Sp, Sn.
    destruct (Z.le_gt_cases 0 z) as [Hpos | Hneg].
    + assert (0 <= v * (z * 2 ^ 149)) by (apply Z.mul_nonneg_nonneg; lia).
      specialize (Sp ltac:(assumption)).
      assert (p <= v * hi).
      { unfold p. rewrite Z.abs_eq by lia. apply Z.mul_le_mono_nonneg_l; lia. }
      assert (0 <= v * - lo) by (apply Z.mul_nonneg_nonneg; lia).
      lia.
    + assert (v * (z * 2 ^ 149) <= 0) by (apply Z.mul_nonneg_nonpos; lia).
      specialize (Sn ltac:(assumption)).
      assert (p <= v * - lo).
      { unfold p. rewrite Z.abs_neq by lia. apply Z.mul_le_mono_nonneg_l; lia. }
      assert (0 <= v * hi) by (apply Z.mul_nonneg_nonneg; lia).
      lia.
Qed.

(** The weighted sum stays in the range of [sf::Int16], for a weight that
    is zero or at least [2 ^ -21]. *)
Lemma weighted_sum_range (a : F32.float) (val next : Z) :
  fin a -> value a = 0 \/ 2 ^ 128 <= value a <= 2 ^ 149 ->
  -16384 <= val <= 16383 -> is_i16 next ->
  fin (Track.weighted_sum a val next)
  /\ -32768 * 2 ^ 149 <= value (Track.weighted_sum a val next)
     <= 32767 * 2 ^ 149.
Proof.
  intros Fa Ha Hval Hnext. unfold is_i16 in Hnext. unfold Track.weighted_sum.
  destruct (of_int_spec 1) as [C1 V1]; [lia|].
  destruct (of_int_spec val) as [Cv Vv]; [lia|].
  destruct (of_int_spec next) as [Cn Vn]; [lia|].
  pose proof (canonical_fin _ C1) as F1. fold F32.one in F1, V1.
  set (b := F32.sub F32.one a).
  destruct Ha as [A0 | HA].
  - (* the last pass: the sum is the next sample *)
    destruct (sub_bounds F32.one a (-23) 0 (2 ^ 23)) as [Fb Vb];
      try assumption; try lia.
    fold b in Fb, Vb.
    destruct (mul_bounds a (F32.of_int val) 0 0) as (F1' & A1 & _);
      try assumption; try lia; [apply canonical_fin, Cv | rewrite A0; cbn; lia ..|].
    destruct (mul_bounds b (F32.of_int next) 0 (Z.abs next))
      as (F2 & A2 & Sp & Sn); try assumption; try lia.
    + apply canonical_fin, Cn.
    + rewrite Vn, Z.abs_mul, (Z.abs_eq (value b)), (Z.abs_eq (2 ^ 149)) by lia.
      apply Z.le_lt_trans with (2 ^ 149 * (32768 * 2 ^ 149)); [|lia].
      apply Z.mul_le_mono_nonneg; lia.
    + rewrite Vn, Z.abs_mul, (Z.abs_eq (value b)), (Z.abs_eq (2 ^ 149)) by lia.
      change (0 + 298) with (149 + 149). rewrite (pow2_split 149 149) by lia.
      rewrite Z.mul_assoc, (Z.mul_comm (value b)), <- !Z.mul_assoc.
      apply Z.mul_le_mono_nonneg_l; [lia|].
      rewrite Z.mul_comm. apply Z.mul_le_mono_nonneg_l; lia.
    + rewrite Vn in Sp, Sn. change (0 + 149) with 149 in *.
      assert (P1 : value (F32.mul a (F32.of_int val)) = 0) by lia.
      assert (R2 : -32768 * 2 ^ 149 <= value (F32.mul b (F32.of_int next))
                   <= 32767 * 2 ^ 149).
      { destruct (Z.le_gt_cases 0 next) as [Hp | Hn].
        - assert (0 <= value b * (next * 2 ^ 149))
            by (apply Z.mul_nonneg_nonneg; lia).
          specialize (Sp ltac:(assumption)). lia.
        - assert (value b * (next * 2 ^ 149) <= 0)
            by (apply Z.mul_nonneg_nonpos; lia).
          specialize (Sn ltac:(assumption)). lia. }
      apply (add_bounds _ _ 0 (-32768) 32767); try assumption; lia.
  - (* before the last pass: the weight of the active clip gives the margin *)
    set (A := value a) in *.
    pose proof (Z.div_mod (2 ^ 149 - A) (2 ^ 125) ltac:(lia)) as DM.
    pose proof (Z.mod_pos_bound (2 ^ 149 - A) (2 ^ 125) ltac:(lia)) as MB.
    assert (Q0 : 0 <= (2 ^ 149 - A) / 2 ^ 125) by (apply Z.div_pos; lia).
    destruct (sub_bounds F32.one a (-24) 0 ((2 ^ 149 - A) / 2 ^ 125 + 1))
      as [Fb Vb]; try assumption; try (fold A; lia).
    fold b in Fb, Vb. change (-24 + 149) with 125 in Vb.
    destruct (mul_int_bounds a val (-16384) 16383) as [F1' B1];
      try assumption; try (fold A; lia).
    destruct (mul_int_bounds b next (-32768) 32767) as [F2 B2];
      try assumption; try lia.
    fold A in B1.
    apply (add_bounds _ _ 0 (-32768) 32767); try assumption; lia.
Qed.

(** The crossfade loop computes its value on every pass of a fade of at
    most [2 ^ 21] samples: the value is the ceiling of the weighted sum, and
    it fits [sf::Int16]. *)
Lemma fade_step_total (nFade next j s : Z) :
  1 <= j <= nFade -> nFade <= 2 ^ 21 -> is_i16 s -> is_i16 next ->
  exists v,
    Track.fade_step nFade next j s = Some v
    /\ is_i16 v
    /\ is_ceiling v (Track.weighted_sum (Track.fade_weight nFade j)
                                         (Z.quot s 2) next).
Proof.
  intros Hj HF Hs Hnext.
  unfold Track.fade_step. rewrite (fade_val_spec s Hs).
  pose proof (quot2_range s Hs) as Hval.
  set (a := Track.fade_weight nFade j).
  assert (Ha : fin a /\ (value a = 0 \/ 2 ^ 128 <= value a <= 2 ^ 149)).
  { destruct (Z.eq_dec j nFade) as [-> | Hne].
    - unfold a. rewrite fade_weight_last by lia. split; [exact I | left; reflexivity].
    - destruct (fade_weight_lower nFade j) as [Fa Va]; [lia | lia |].
      split; [assumption | right; assumption]. }
  destruct Ha as [Fa Va].
  destruct (weighted_sum_range a (Z.quot s 2) next Fa Va Hval Hnext) as [Fw Vw].
  set (w := Track.weighted_sum a (Z.quot s 2) next) in *.
  assert (Valid : valid w) by (apply add_valid; apply mul_valid).
  destruct (ceil_spec w Valid Fw) as (c & Tc & Hc).
  assert (Rc : is_i16 c).
  { unfold is_ceiling in Hc. unfold is_i16. lia. }
  exists c. split; [|split; assumption].
  unfold Track.fade_iVal, F32.to_i16. fold w. rewrite Tc.
  unfold is_i16b, is_i16 in *.
  destruct (Z.leb_spec (-32768) c); destruct (Z.leb_spec c 32767); try lia.
  reflexivity.
Qed.

(** A window that ends at the end of the active clip, with a fade of at
    most [2 ^ 21] samples: the call completes, whatever the pending clip. *)
Lemma GetAudio_crossing_total (tr : Track.t) (act : string) (clip : SoundBuffer)
    (mix : list Z) (n pos next : Z) :
  Track.m_pPendingTrack tr = Some act ->
  StdMap.find act (Track.m_mapClips tr) = Some clip ->
  0 < getSampleCount clip <= INT_MAX ->
  0 <= n <= INT_MAX -> 0 <= pos <= INT_MAX ->
  0 <= Track.m_nFadeSamples tr <= n -> Track.m_nFadeSamples tr <= 2 ^ 21 ->
  n <= Z.of_nat (length mix) ->
  Forall is_i16 mix -> Forall is_i16 (getSamples clip) ->
  pos mod getSampleCount clip + n = getSampleCount clip ->
  Track.nextSample tr = Done next -> is_i16 next ->
  (forall x, 0 <= x < n - Track.m_nFadeSamples tr ->
     is_i16 (Track.mixed (zth mix x)
               (zth (getSamples clip) (pos mod getSampleCount clip + x)))) ->
  exists mix',
    Track.GetAudio (Some mix) n pos tr
    = Done (true, Track.with_active (Track.m_pPendingClip tr) tr, Some mix')
    /\ length mix' = length mix
    /\ Forall is_i16 mix'
    /\ forall x, 0 <= x ->
         (x < n - Track.m_nFadeSamples tr ->
            zth mix' x
            = Track.mixed (zth mix x)
                (zth (getSamples clip) (pos mod getSampleCount clip + x)))
         /\ (n - Track.m_nFadeSamples tr <= x < n ->
               exists c,
                 is_i16 c
                 /\ is_ceiling c
                      (Track.weighted_sum
                         (Track.fade_weight (Track.m_nFadeSamples tr)
                            (x - (n - Track.m_nFadeSamples tr) + 1))
                         (Z.quot (zth (getSamples clip)
                                      (pos mod getSampleCount clip + x)) 2)
                         next)
                 /\ zth mix' x = to_i16 (zth mix x + c))
         /\ (n <= x -> zth mix' x = zth mix x).
Proof.
  intros Ha Hf Hc Hn Hp HF HF21 Hlen Hmix Hs Hin Hnext Hnx Hplain.
  assert (Bo : 0 <= pos mod getSampleCount clip < getSampleCount clip)
    by (apply Z.mod_pos_bound; lia).
  assert (Step : forall x, n - Track.m_nFadeSamples tr <= x < n ->
            exists v,
              Track.fade_step (Track.m_nFadeSamples tr) next
                (x - (n - Track.m_nFadeSamples tr) + 1)
                (zth (getSamples clip) (pos mod getSampleCount clip + x))
              = Some v
              /\ is_i16 v
              /\ is_ceiling v
                   (Track.weighted_sum
                      (Track.fade_weight (Track.m_nFadeSamples tr)
                         (x - (n - Track.m_nFadeSamples tr) + 1))
                      (Z.quot (zth (getSamples clip)
                                   (pos mod getSampleCount clip + x)) 2)
                      next)).
  { intros x Hx. apply fade_step_total; try assumption; try lia.
    apply Forall_zth; [assumption|].
    change (Z.of_nat (length (getSamples clip))) with (getSampleCount clip).
    lia. }
  destruct (GetAudio_crossing tr act clip mix n pos next)
    as (mix' & E & L & F & HZ); try assumption.
  - intros x Hx. destruct (Step x Hx) as (v & -> & _). discriminate.
  - exists mix'. split; [assumption|]. split; [assumption|].
    split; [assumption|].
    intros x Hx. destruct (HZ x Hx) as (H1 & H2 & H3).
    split; [assumption|]. split; [|assumption].
    intros Hx'. destruct (H2 Hx') as (iVal & Ei & Ez).
    destruct (Step x Hx') as (v & Ev & Rv & Cv).
    rewrite Ev in Ei. injection Ei as <-.
    exists v. split; [assumption|]. split; assumption.
Qed.

(** ** The fade length of [AddClip] *)

(** The quotient of two positive numbers, the first at most [2 ^ p] times
    the second, is at most [2 ^ p]. *)
Lemma div_le_pow2 (mx my : positive) (ex ey p : Z) :
  -149 <= ex -> -149 <= ey -> 0 <= p <= 104 ->
  value (S754_finite false mx ex) <= 2 ^ p * value (S754_finite false my ey) ->
  let q := F32.div (S754_finite false mx ex) (S754_finite false my ey) in
  fin q /\ 0 <= value q <= 2 ^ (p + 149).
Proof.
  intros Hex Hey Hp Hle. cbn [value] in Hle.
  destruct (digits2_pos_bounds mx) as [Lx Ux].
  destruct (digits2_pos_bounds my) as [Ly Uy].
  set (dx := Zpos (digits2_pos mx)) in *. set (dy := Zpos (digits2_pos my)) in *.
  assert (Px : 0 < 2 ^ (ex + 149)) by (apply Z.pow_pos_nonneg; lia).
  assert (Py : 0 < 2 ^ (ey + 149)) by (apply Z.pow_pos_nonneg; lia).
  assert (Pp : 0 < 2 ^ p) by (apply Z.pow_pos_nonneg; lia).
  assert (HD : dx + ex - (dy + ey) <= p).
  { assert (X : 2 ^ (dx - 1 + (ex + 149)) < 2 ^ (p + dy + (ey + 149))).
    { rewrite (pow2_split (dx - 1) (ex + 149)) by (unfold dx; lia).
      rewrite (pow2_split (p + dy) (ey + 149)) by (unfold dy; lia).
      rewrite (pow2_split p dy) by (unfold dy; lia).
      assert (2 ^ (dx - 1) * 2 ^ (ex + 149) <= Zpos mx * 2 ^ (ex + 149))
        by (apply Z.mul_le_mono_nonneg_r; lia).
      assert (2 ^ p * (Zpos my * 2 ^ (ey + 149))
              < 2 ^ p * (2 ^ dy * 2 ^ (ey + 149))).
      { apply Z.mul_lt_mono_pos_l; [assumption|].
        apply Z.mul_lt_mono_pos_r; lia. }
      lia. }
    apply Z.pow_lt_mono_r_iff in X; unfold dx, dy in *; lia. }
  cbv zeta. unfold F32.div. cbn [SFdiv]. unfold SFdiv_core_binary.
  change (fexp F32.prec F32.emax) with fexp32. cbn [Zdigits2].
  fold dx dy.
  set (e' := Z.min (fexp32 (dx + ex - (dy + ey))) (ex - ey)).
  assert (He' : -149 - 149 <= e' + ey /\ e' <= ex - ey /\ e' <= p).
  { unfold e', fexp32. lia. }
  set (s := ex - ey - e').
  assert (Hs : 0 <= s) by (unfold s; lia).
  assert (M : match s with
              | Z0 => Zpos mx
              | Zpos _ => Z.shiftl (Zpos mx) s
              | Zneg _ => 0
              end = Zpos mx * 2 ^ s).
  { destruct s as [|ps|ps] eqn:Es; [ring | | lia].
    rewrite Z.shiftl_mul_pow2 by lia. reflexivity. }
  rewrite M. rewrite div_eucl_div_mod.
  cbn [xorb]. change F32.prec with 24. change F32.emax with 128.
  set (a := Zpos mx * 2 ^ s).
  assert (PT : 0 < 2 ^ (p - e')) by (apply Z.pow_pos_nonneg; lia).
  assert (A : a <= Zpos my * 2 ^ (p - e')).
  { assert (Pc : 0 < 2 ^ (e' + ey + 298)) by (apply Z.pow_pos_nonneg; lia).
    apply (Z.mul_le_mono_pos_r _ _ (2 ^ (e' + ey + 298))); [assumption|].
    unfold a. rewrite <- !Z.mul_assoc.
    rewrite <- (pow2_split s (e' + ey + 298)) by lia.
    rewrite <- (pow2_split (p - e') (e' + ey + 298)) by lia.
    replace (s + (e' + ey + 298)) with ((ex + 149) + 149) by (unfold s; lia).
    replace (p - e' + (e' + ey + 298)) with (p + ((ey + 149) + 149)) by lia.
    rewrite (pow2_split (ex + 149) 149), (pow2_split p (ey + 149 + 149)),
      (pow2_split (ey + 149) 149) by lia.
    assert (P149 : 0 < 2 ^ 149) by lia.
    set (X := 2 ^ (ex + 149)) in *. set (Y := 2 ^ (ey + 149)) in *.
    set (P := 2 ^ p) in *. set (U := 2 ^ 149) in *.
    clearbody X Y P U.
    replace (Zpos mx * (X * U)) with (Zpos mx * X * U) by ring.
    replace (Zpos my * (P * (Y * U))) with (P * (Zpos my * Y) * U) by ring.
    apply Z.mul_le_mono_nonneg_r; lia. }
  pose proof (Z.div_mod a (Zpos my) ltac:(lia)) as DM.
  pose proof (Z.mod_pos_bound a (Zpos my) ltac:(lia)) as MB.
  assert (Q0 : 0 <= a / Zpos my).
  { apply Z.div_pos; [|lia]. unfold a. apply Z.mul_nonneg_nonneg; [lia|].
    apply Z.pow_nonneg. lia. }
  destruct (binary_round_aux_le_pow2 false (a / Zpos my) e' p
              (new_location (Zpos my) (a mod Zpos my))) as (F & B & Sg);
    try lia.
  - apply Z.div_le_upper_bound; lia.
  - destruct (Z.eq_dec (a mod Zpos my) 0) as [-> | Hr].
    + left. apply new_location_0.
    + right. apply Z.div_lt_upper_bound; [lia|].
      destruct (Z.eq_dec a (Zpos my * 2 ^ (p - e'))) as [Ea | Ea]; [|lia].
      exfalso. apply Hr. rewrite Ea, Z.mul_comm. apply Z.mod_mul. lia.
  - split; [assumption|]. lia.
Qed.

(** [AddClip] computes a fade length for every sample rate an
    [unsigned int] holds. *)
Lemma fadeSamples_total (sBuf : SoundBuffer) :
  0 <= getSampleRate sBuf < 2 ^ 32 ->
  exists f, Track.fadeSamples sBuf = Some f /\ 0 <= f <= 2 ^ 26.
Proof.
  intros Hr. unfold Track.fadeSamples. cbv zeta.
  set (rate := getSampleRate sBuf) in *.
  assert (Fx : fin (F32.of_int rate)
               /\ 0 <= value (F32.of_int rate) <= 2 ^ (32 + 149)).
  { unfold F32.of_int. change F32.prec with 24. change F32.emax with 128.
    destruct rate as [|r|r]; [split; [exact I | cbn; lia] | | lia].
    cbn [binary_normalize].
    destruct (binary_round_le_pow2 false r 0 32) as (F & A & Sg); try lia.
    cbv zeta in *. split; [assumption | lia]. }
  destruct Fx as [Fx Vx].
  destruct (of_int_spec 1000) as [Cy Vy]; [lia|].
  destruct (of_int_spec 5) as [C5 V5]; [lia|].
  assert (Fq : fin (F32.div (F32.of_int rate) (F32.of_int 1000))
               /\ 0 <= value (F32.div (F32.of_int rate) (F32.of_int 1000))
                  <= 2 ^ (23 + 149)).
  { destruct (F32.of_int rate) as [sx| | |sx mx ex]; try contradiction.
    - destruct sx; (split; [exact I | cbn; lia]).
    - cbn [fin] in Fx.
      assert (sx = false) as ->.
      { destruct sx; [|reflexivity]. exfalso. cbn [value] in Vx.
        assert (0 < 2 ^ (ex + 149)) by (apply Z.pow_pos_nonneg; lia). nia. }
      destruct (positive_float _ 1000 Cy Vy) as (my & ey & Ey & _ & Ry); [lia|].
      rewrite Ey in *.
      apply (div_le_pow2 mx my ex ey 23); try lia. }
  destruct Fq as [Fq Vq].
  set (spm := F32.div (F32.of_int rate) (F32.of_int 1000)) in *.
  destruct (mul_bounds (F32.of_int 5) spm 3 (2 ^ 23)) as (Fm & Am & Sp & _);
    try assumption; try lia.
  - apply canonical_fin, C5.
  - rewrite V5 in Sp.
    assert (0 <= 5 * 2 ^ 149 * value spm) by (apply Z.mul_nonneg_nonneg; lia).
    specialize (Sp ltac:(assumption)).
    set (w := F32.mul (F32.of_int 5) spm) in *.
    unfold F32.to_int. rewrite (trunc_value w Fm).
    assert (Q : 0 <= Z.quot (value w) (2 ^ 149) <= 2 ^ 26).
    { change (3 + 149) with 152 in Am. rewrite Z.quot_div_nonneg by lia.
      split; [apply Z.div_pos; lia|].
      apply Z.div_le_upper_bound; lia. }
    exists (Z.quot (value w) (2 ^ 149)). split; [|assumption].
    unfold INT_MAX.
    destruct (Z.leb_spec (- 2 ^ 31) (Z.quot (value w) (2 ^ 149)));
      destruct (Z.leb_spec (Z.quot (value w) (2 ^ 149)) 2147483647);
      try lia.
    reflexivity.
Qed.

Section DecodedFiles.

Variable loadFromFile : string -> option SoundBuffer.

(** The sample rate of a decoded file is an [unsigned int]. *)
Hypothesis rates : forall (file : string) (sBuf : SoundBuffer),
  loadFromFile file = Some sBuf -> 0 <= getSampleRate sBuf < 2 ^ 32.

Lemma AddClip_total (fileName : string) (tr : Track.t) :
  exists r tr', Track.AddClip loadFromFile fileName tr = Done (r, tr').
Proof.
  unfold Track.AddClip.
  destruct (loadFromFile fileName) as [sBuf|] eqn:E; [|eexists; eexists; reflexivity].
  destruct (Track.m_nFadeSamples tr =? 0).
  - destruct (fadeSamples_total sBuf (rates _ _ E)) as (f & -> & _).
    eexists. eexists. reflexivity.
  - eexists. eexists. reflexivity.
Qed.

Lemma AddClips_total (liFileNames : list string) :
  forall tr : Track.t,
    exists tr', Track.AddClips loadFromFile liFileNames tr = Done tr'.
Proof.
  induction liFileNames as [|file rest IH]; intros tr; cbn [Track.AddClips].
  - eexists. reflexivity.
  - destruct (AddClip_total file tr) as (r & tr1 & ->). cbn [bind]. apply IH.
Qed.

(** [Initialize] gets past the construction of the tracks. *)
Lemma emplace_tracks_total (mapTracks : StdMap.t (list string)) :
  forall tracks : StdMap.t Track.t,
    exists tracks',
      LoopLauncher.emplace_tracks loadFromFile mapTracks tracks = Done tracks'.
Proof.
  induction mapTracks as [|[name files] rest IH]; intros tracks;
    cbn [LoopLauncher.emplace_tracks].
  - eexists. reflexivity.
  - unfold Track.of_files.
    destruct (AddClips_total files Track.default) as (tr & ->). cbn [bind].
    apply IH.
Qed.

End DecodedFiles.

(** ** The sample counts of the tracks [Initialize] constructs *)

Lemma Forall_assign {V : Type} (P : V -> Prop) (k : string) (v : V)
    (m : StdMap.t V) :
  P v -> Forall (fun e => P (snd e)) m ->
  Forall (fun e => P (snd e)) (StdMap.assign k v m).
Proof.
  intros Hv. induction m as [|[k' v'] m IH]; intros Hm; cbn [StdMap.assign].
  - constructor; [exact Hv | constructor].
  - inversion Hm as [|e l He Hl]; subst.
    destruct (String.compare k k').
    + constructor; assumption.
    + constructor; [exact Hv | assumption].
    + constructor; [assumption | apply IH; assumption].
Qed.

Lemma Forall_emplace {V : Type} (P : V -> Prop) (k : string) (v : V)
    (m : StdMap.t V) :
  P v -> Forall (fun e => P (snd e)) m ->
  Forall (fun e => P (snd e)) (StdMap.emplace k v m).
Proof.
  intros Hv Hm. unfold StdMap.emplace.
  destruct (StdMap.find k m); [assumption | apply Forall_assign; assumption].
Qed.

(** A track whose clips have between 1 and [INT_MAX] samples reports at
    least one sample; so does a track without clips. *)
Lemma GetSampleCount_ge_1 (tr : Track.t) :
  Forall (fun e => 1 <= getSampleCount (snd e) <= INT_MAX) (Track.m_mapClips tr) ->
  1 <= Track.GetSampleCount tr <= INT_MAX.
Proof.
  unfold Track.GetSampleCount, StdMap.begin. intros H.
  destruct (Track.m_mapClips tr) as [|[k c] rest]; cbn [hd_error].
  - unfold INT_MAX. lia.
  - inversion H as [|e l He Hl]; subst. cbn [snd] in He.
    rewrite to_int_id by lia. assumption.
Qed.

Section DecodedSamples.

Variable loadFromFile : string -> option SoundBuffer.

(** The decoder refuses a file without samples, and the sample count of a
    decoded file fits an [int]. *)
Hypothesis counts : forall (file : string) (sBuf : SoundBuffer),
  loadFromFile file = Some sBuf -> 1 <= getSampleCount sBuf <= INT_MAX.

Lemma AddClip_counts (fileName : string) (tr tr' : Track.t) (r : bool) :
  Track.AddClip loadFromFile fileName tr = Done (r, tr') ->
  Forall (fun e => 1 <= getSampleCount (snd e) <= INT_MAX) (Track.m_mapClips tr) ->
  Forall (fun e => 1 <= getSampleCount (snd e) <= INT_MAX) (Track.m_mapClips tr').
Proof.
  unfold Track.AddClip.
  destruct (loadFromFile fileName) as [sBuf|] eqn:E.
  - destruct (if Track.m_nFadeSamples tr =? 0
              then lift FloatToIntOverflow (Track.fadeSamples sBuf)
              else Done (Track.m_nFadeSamples tr)) as [fade|];
      cbn [bind]; [|discriminate].
    intros [= _ <-] H. cbn [Track.m_mapClips].
    apply (Forall_assign (fun c => 1 <= getSampleCount c <= INT_MAX));
      [exact (counts _ _ E) | exact H].
  - intros [= _ <-] H. exact H.
Qed.

Lemma AddClips_counts (liFileNames : list string) :
  forall tr tr' : Track.t,
    Track.AddClips loadFromFile liFileNames tr = Done tr' ->
    Forall (fun e => 1 <= getSampleCount (snd e) <= INT_MAX)
           (Track.m_mapClips tr) ->
    Forall (fun e => 1 <= getSampleCount (snd e) <= INT_MAX)
           (Track.m_mapClips tr').
Proof.
  induction liFileNames as [|file rest IH]; intros tr tr'; cbn [Track.AddClips].
  - intros [= <-] H. exact H.
  - destruct (Track.AddClip loadFromFile file tr) as [[r tr1]|] eqn:E;
      cbn [bind]; [|discriminate].
    intros H1 H. apply (IH tr1 tr' H1). apply (AddClip_counts _ _ _ _ E H).
Qed.

(** Every track of the map [Initialize] ends up with reports at least one
    sample, when the tracks it started from do. *)
Lemma emplace_tracks_counts (mapTracks : StdMap.t (list string)) :
  forall tracks tracks' : StdMap.t Track.t,
    LoopLauncher.emplace_tracks loadFromFile mapTracks tracks = Done tracks' ->
    Forall (fun e => 1 <= Track.GetSampleCount (snd e) <= INT_MAX) tracks ->
    Forall (fun e => 1 <= Track.GetSampleCount (snd e) <= INT_MAX) tracks'.
Proof.
  induction mapTracks as [|[name files] rest IH]; intros tracks tracks';
    cbn [LoopLauncher.emplace_tracks].
  - intros [= <-] H. exact H.
  - destruct (Track.of_files loadFromFile files) as [tr|] eqn:E;
      cbn [bind]; [|discriminate].
    intros H1 H. apply (IH _ _ H1).
    apply (Forall_emplace (fun t => 1 <= Track.GetSampleCount t <= INT_MAX));
      [|exact H].
    apply GetSampleCount_ge_1.
    apply (AddClips_counts files Track.default tr E). constructor.
Qed.

End DecodedSamples.

(** ** Sizes met in practice, and the scenarios *)

Lemma mixed_close (m s : Z) : Z.abs (2 * Track.mixed m s - (2 * m + s)) <= 1.
Proof. unfold Track.mixed. Z.quot_rem_to_equations. lia. Qed.

Lemma to_int_le (z : Z) : to_int z <= INT_MAX.
Proof.
  unfold to_int, INT_MAX.
  pose proof (Z.mod_pos_bound (z + 2 ^ 31) (2 ^ 32) ltac:(lia)). lia.
Qed.

Lemma GetSampleCount_le (tr : Track.t) : Track.GetSampleCount tr <= INT_MAX.
Proof.
  unfold Track.GetSampleCount.
  destruct (StdMap.begin (Track.m_mapClips tr)) as [[k c]|];
    [apply to_int_le | unfold INT_MAX; lia].
Qed.

(** The minimum is the sample count of one of the tracks. *)
Lemma min_sample_count_attained (tracks : StdMap.t Track.t) :
  tracks <> [] ->
  exists e, In e tracks
            /\ LoopLauncher.min_sample_count tracks = Track.GetSampleCount (snd e).
Proof.
  unfold LoopLauncher.min_sample_count.
  induction tracks as [|e l IH]; intros Hne; [congruence|].
  cbn [map fold_right]. destruct l as [|e' l'].
  - exists e. split; [left; reflexivity|]. cbn.
    pose proof (GetSampleCount_le (snd e)). lia.
  - destruct (IH ltac:(discriminate)) as (e0 & Hin & E).
    destruct (Z.le_gt_cases (Track.GetSampleCount (snd e))
                (Track.GetSampleCount (snd e0))).
    + exists e. split; [left; reflexivity|]. rewrite E. lia.
    + exists e0. split; [right; assumption|]. rewrite E. lia.
Qed.

(** What [UpdatePendingClips] returns: the flag was already down, or one of
    the requested clips is in some track. *)
Lemma UpdatePendingClips_result (clips : list string) (ll : LoopLauncher.t) :
  fst (LoopLauncher.UpdatePendingClips clips ll)
  = negb (LoopLauncher.m_bNeedsAudio ll)
    || existsb (fun c =>
                  match LoopLauncher.first_track_with c (LoopLauncher.m_mapTracks ll) with
                  | Some _ => true
                  | None => false
                  end) clips.
Proof.
  unfold LoopLauncher.UpdatePendingClips.
  pose proof (stage_flag (LoopLauncher.m_mapTracks ll) clips
                (LoopLauncher.m_mapPendingTracks ll) (LoopLauncher.m_bNeedsAudio ll)) as F.
  destruct (LoopLauncher.stage _ _ _ _) as [pending needs]. cbn [fst snd] in *.
  rewrite F. destruct (LoopLauncher.m_bNeedsAudio ll), (existsb _ clips); reflexivity.
Qed.

(** The block at the wrap of a clip of 44100 samples, rendered in blocks of
    [44100 / 64 = 689] samples with the fade of 220 samples that 44100 Hz
    give: the block starts at sample 44096 and reads past the clip. *)
Lemma wrap_block_of_44100_samples (tr : Track.t) (act : string)
    (clip : SoundBuffer) (mix : list Z) :
  Track.m_pPendingTrack tr = Some act ->
  StdMap.find act (Track.m_mapClips tr) = Some clip ->
  getSampleCount clip = 44100 -> Track.m_nFadeSamples tr = 220 ->
  exists f, Track.GetAudio (Some mix) 689 44096 tr = Fault f.
Proof.
  intros Ha Hf Hc HF.
  apply (GetAudio_past_end tr act clip mix 689 44096); try assumption;
    rewrite ?Hc, ?HF; unfold INT_MAX; try lia.
  change (44096 mod 44100) with 44096. lia.
Qed.

(** The block at the wrap of a clip of 6400 samples at 44100 Hz, rendered in
    blocks of [6400 / 64 = 100] samples: the fade of 220 samples is longer
    than the block. *)
Lemma wrap_block_of_6400_samples (tr : Track.t) (act : string)
    (clip : SoundBuffer) (mix : list Z) :
  Track.m_pPendingTrack tr = Some act ->
  StdMap.find act (Track.m_mapClips tr) = Some clip ->
  getSampleCount clip = 6400 -> Track.m_nFadeSamples tr = 220 ->
  exists f, Track.GetAudio (Some mix) 100 6300 tr = Fault f.
Proof.
  intros Ha Hf Hc HF.
  apply (GetAudio_long_fade tr act clip mix 100 6300); try assumption;
    rewrite ?Hc, ?HF; unfold INT_MAX; try lia.
  change (6300 mod 6400) with 6300. lia.
Qed.

Lemma fadeSamples_44100 :
  Track.fadeSamples {| getChannelCount := 2; getSampleRate := 44100;
                       getSamples := [] |} = Some 220.
Proof. reflexivity. Qed.

(** The scenarios are what the code builds. *)
Lemma track_ab_built :
  Track.of_files Scenario.files ["a"; "b"]%string = Done Scenario.track_ab.
Proof. reflexivity. Qed.

(** The files of the scenarios are what a decoder returns. *)
Lemma files_decoded (file : string) (sBuf : SoundBuffer) :
  Scenario.files file = Some sBuf ->
  0 <= getSampleRate sBuf < 2 ^ 32 /\ 1 <= getSampleCount sBuf <= INT_MAX.
Proof.
  unfold Scenario.files.
  repeat match goal with
         | |- context [String.eqb ?a ?b] => destruct (String.eqb a b)
         end;
    intros [= <-]; vm_compute; repeat split; discriminate.
Qed.

Lemma files_rates (file : string) (sBuf : SoundBuffer) :
  Scenario.files file = Some sBuf -> 0 <= getSampleRate sBuf < 2 ^ 32.
Proof. intros H. apply (files_decoded file sBuf H). Qed.

(** One track, played from [Initialize] to the end of the first cycle of
    64 blocks.  When the track owns a clip called "silence" and nothing is
    requested for the next cycle, the last block fades toward that clip,
    which is the active clip afterwards; without such a clip the last
    block fades to zero and no clip is active. *)
Lemma first_cycle_with_and_without_silence :
  (ll <- Scenario.launch [("pads", ["pad"; "silence"])]%string ["pad"]%string ;;
   ll' <- Scenario.stream 64 ll ;;
   Done (map (fun e => (fst e, Track.m_pPendingTrack (snd e)))
             (LoopLauncher.m_mapTracks ll'),
         LoopLauncher.m_vMixBuffer ll'))
  = Done ([("pads", Some "silence")]%string, [241; -19; -280; -540; -800])
  /\ (ll <- Scenario.launch [("pads", ["pad"])]%string ["pad"]%string ;;
      ll' <- Scenario.stream 64 ll ;;
      Done (map (fun e => (fst e, Track.m_pPendingTrack (snd e)))
                (LoopLauncher.m_mapTracks ll'),
            LoopLauncher.m_vMixBuffer ll'))
     = Done ([("pads", None)]%string, [400; 300; 200; 100; 0]).
Proof. split; vm_compute; reflexivity. Qed.

(** The tracks [Initialize] builds from [Scenario.with_empty_track]. *)
Lemma built_with_empty_built :
  LoopLauncher.emplace_tracks Scenario.files Scenario.with_empty_track []
  = Done Scenario.built_with_empty
  /\ In ("ghost"%string, Track.default) Scenario.built_with_empty.
Proof. split; [reflexivity | right; left; reflexivity]. Qed.

Lemma track_a_built :
  Track.of_files Scenario.files ["a"]%string = Done Scenario.track_a.
Proof. reflexivity. Qed.

Lemma built_tracks_built :
  LoopLauncher.emplace_tracks Scenario.files Scenario.two_tracks []
  = Done Scenario.built_tracks.
Proof. reflexivity. Qed.

Lemma mixer_built :
  LoopLauncher.Initialize Scenario.files Scenario.two_tracks LoopLauncher.default
  = Done (true, Scenario.mixer).
Proof. reflexivity. Qed.


(** ** How far a binary32 operation is from the exact one

    The result of an operation whose exact value is below [2 ^ (g + 24)] in
    magnitude lies in the same cell [[c * 2 ^ g, (c + 1) * 2 ^ g]] as the
    exact value: the two differ by at most [2 ^ g]. *)

(** The second shift of [binary_round_aux] loses no bit. *)
Lemma second_shift_exact (m2 ek : Z) :
  0 <= m2 <= 2 ^ 24 -> -149 <= ek ->
  let k2 := Z.max 0 (fexp32 (Zdigits2 m2 + ek) - ek) in
  0 <= k2 <= 1 /\ m2 / 2 ^ k2 * 2 ^ k2 = m2.
Proof.
  intros Hm Hek. cbv zeta.
  destruct (Zdigits2_bounds m2 ltac:(lia)) as (D0 & Dhi & Dlo).
  destruct (Z.eq_dec m2 (2 ^ 24)) as [-> | Hne].
  - change (Zdigits2 (2 ^ 24)) with 25.
    replace (Z.max 0 (fexp32 (25 + ek) - ek)) with 1 by (unfold fexp32; lia).
    split; [lia | reflexivity].
  - assert (Hd : Zdigits2 m2 <= 24).
    { destruct (Z.eq_dec m2 0) as [-> | H0]; [cbn; lia|].
      specialize (Dlo ltac:(lia)).
      assert (L : 2 ^ (Zdigits2 m2 - 1) < 2 ^ 24) by lia.
      apply Z.pow_lt_mono_r_iff in L; lia. }
    replace (Z.max 0 (fexp32 (Zdigits2 m2 + ek) - ek)) with 0
      by (unfold fexp32; lia).
    split; [lia|]. change (2 ^ 0) with 1. rewrite Z.div_1_r. lia.
Qed.

(** Rounding never crosses a number of the grid from above either: a
    magnitude of at least [n * 2 ^ g], below [2 ^ (g + 24)], is rounded to a
    magnitude of at least [n * 2 ^ g]. *)
Lemma binary_round_aux_ge_grid (s : bool) (m e g n : Z) (l : location) :
  0 <= m -> e <= g -> -149 <= g -> g + 24 <= 104 -> 0 <= n ->
  n * 2 ^ (g - e) <= m < 2 ^ (g + 24 - e) ->
  let r := binary_round_aux 24 128 s m e l in
  fin r /\ n * 2 ^ (g + 149) <= Z.abs (value r).
Proof.
  intros Hm Heg Hg Hg' Hn [Hlo Hhi]. cbv zeta.
  destruct (binary_round_aux_le_pow2 s m e (g + 24) l) as (F & _);
    try lia; try (right; assumption).
  split; [exact F|].
  destruct (binary_round_aux_decompose s m e l Hm) as (m2 & B2 & _ & R).
  cbv zeta in *. rewrite R in *. clear R.
  set (k := Z.max 0 (fexp32 (Zdigits2 m + e) - e)) in *.
  destruct (Zdigits2_bounds m Hm) as (D0 & Dhi & Dlo).
  assert (Pk : 0 < 2 ^ k) by (apply Z.pow_pos_nonneg; lia).
  assert (Hk : e + k <= g).
  { destruct (Z.eq_dec m 0) as [-> | Hne].
    - unfold k. change (Zdigits2 0) with 0. unfold fexp32. lia.
    - assert (L : 2 ^ (Zdigits2 m - 1) < 2 ^ (g + 24 - e)) by lia.
      apply Z.pow_lt_mono_r_iff in L; [|lia|lia].
      unfold k, fexp32. lia. }
  assert (A149 : -149 <= e + k) by (unfold k, fexp32; lia).
  assert (M1 : m / 2 ^ k < 2 ^ 24).
  { apply Z.div_lt_upper_bound; [lia|].
    rewrite <- Z.pow_add_r by lia.
    eapply Z.lt_le_trans; [exact Dhi|].
    apply Z.pow_le_mono_r; [lia|]. unfold k, fexp32. lia. }
  assert (M0 : 0 <= m / 2 ^ k) by (apply Z.div_pos; lia).
  destruct (second_shift_exact m2 (e + k) ltac:(lia) A149) as [Hk2 Ex2].
  cbv zeta in Hk2, Ex2.
  set (k2 := Z.max 0 (fexp32 (Zdigits2 m2 + (e + k)) - (e + k))) in *.
  set (Q := 2 ^ (g - e - k)).
  assert (PQ : 0 < Q) by (apply Z.pow_pos_nonneg; lia).
  assert (Split : 2 ^ (g - e) = 2 ^ k * Q).
  { unfold Q. rewrite <- Z.pow_add_r by lia. f_equal. lia. }
  assert (M2 : n * Q <= m2).
  { assert (n * Q <= m / 2 ^ k); [|lia].
    apply Z.div_le_lower_bound; [assumption|].
    rewrite Split in Hlo. lia. }
  assert (Pk2 : 0 < 2 ^ k2) by (apply Z.pow_pos_nonneg; lia).
  assert (G : n * 2 ^ (g + 149) = n * Q * 2 ^ (e + k + 149)).
  { unfold Q. rewrite <- Z.mul_assoc, <- pow2_split by lia.
    do 2 f_equal. lia. }
  assert (Pe : 0 < 2 ^ (e + k + 149)) by (apply Z.pow_pos_nonneg; lia).
  destruct (m2 / 2 ^ k2) as [|m'|m'] eqn:E; try lia.
  destruct (Z.leb_spec (e + k + k2) 104); [|contradiction].
  rewrite value_abs, G.
  replace (e + k + k2 + 149) with (k2 + (e + k + 149)) by lia.
  rewrite (pow2_split k2 (e + k + 149)), Z.mul_assoc by lia.
  apply Z.mul_le_mono_nonneg_r; lia.
Qed.

(** The cell of the grid of step [2 ^ g] that holds a magnitude holds its
    rounding too. *)
Lemma binary_round_aux_cell (s : bool) (m e g : Z) (l : location) :
  0 <= m -> e <= g -> -149 <= g -> g + 24 <= 104 ->
  m < 2 ^ (g + 24 - e) ->
  let r := binary_round_aux 24 128 s m e l in
  let c := m / 2 ^ (g - e) in
  fin r
  /\ c * 2 ^ (g + 149) <= Z.abs (value r) <= (c + 1) * 2 ^ (g + 149)
  /\ (if s then value r <= 0 else 0 <= value r).
Proof.
  intros Hm Heg Hg Hg' Hhi. cbv zeta.
  set (G := 2 ^ (g - e)).
  assert (PG : 0 < G) by (apply Z.pow_pos_nonneg; lia).
  pose proof (Z.div_mod m G ltac:(lia)) as DM.
  pose proof (Z.mod_pos_bound m G PG) as MB.
  assert (C0 : 0 <= m / G) by (apply Z.div_pos; lia).
  assert (C1 : m / G < 2 ^ 24).
  { apply Z.div_lt_upper_bound; [assumption|].
    unfold G. rewrite <- pow2_split by lia.
    replace (g - e + 24) with (g + 24 - e) by lia. assumption. }
  destruct (binary_round_aux_ge_grid s m e g (m / G) l) as [F Lo];
    try lia; try (fold G; lia).
  destruct (binary_round_aux_le_grid s m e g (m / G + 1) l) as (_ & Up & Sg);
    try lia.
  - assert (2 ^ (g + 149) <= 2 ^ 229) by (apply Z.pow_le_mono_r; lia).
    assert (P : 0 < 2 ^ (g + 149)) by (apply Z.pow_pos_nonneg; lia).
    change (2 ^ 24) with 16777216 in C1.
    apply Z.le_lt_trans with (16777216 * 2 ^ 229); [|reflexivity].
    apply Z.mul_le_mono_nonneg; lia.
  - split; [assumption|]. split; [split; assumption | assumption].
Qed.

(** A magnitude and its rounding, both in the cell [c]. *)
Lemma same_cell (c a b w : Z) :
  0 < w -> c * w <= a <= (c + 1) * w -> c * w <= b <= (c + 1) * w ->
  Z.abs (a - b) <= w.
Proof. intros Hw Ha Hb. apply Z.abs_le. lia. Qed.

Lemma binary_round_near (s : bool) (m : positive) (e g : Z) :
  -149 <= e -> -149 <= g -> g + 24 <= 104 ->
  Zpos m * 2 ^ (e + 149) < 2 ^ (g + 24 + 149) ->
  let r := binary_round 24 128 s m e in
  fin r
  /\ Z.abs (Z.abs (value r) - Zpos m * 2 ^ (e + 149)) <= 2 ^ (g + 149)
  /\ (if s then value r <= 0 else 0 <= value r).
Proof.
  intros He Hg Hg' Hmag. unfold binary_round.
  change (fexp 24 128) with fexp32.
  pose proof (digits_of_magnitude m e g 149 ltac:(lia) Hmag) as Hd.
  pose proof (fexp32_le _ g Hg Hd) as Hf.
  destruct (shl_align_spec m e (fexp32 (Zpos (digits2_pos m) + e)))
    as (mz & -> & Emz).
  set (ez := Z.min e (fexp32 (Zpos (digits2_pos m) + e))) in *.
  assert (Hez : -149 <= ez <= e) by (unfold ez, fexp32; lia).
  assert (Pz : 0 < 2 ^ (ez + 149)) by (apply Z.pow_pos_nonneg; lia).
  assert (V : Zpos mz * 2 ^ (ez + 149) = Zpos m * 2 ^ (e + 149)).
  { rewrite Emz, <- Z.mul_assoc, <- pow2_split by lia. do 2 f_equal. lia. }
  rewrite <- V in *.
  assert (Hm : Zpos mz < 2 ^ (g + 24 - ez)).
  { apply (Z.mul_lt_mono_pos_r (2 ^ (ez + 149))); [assumption|].
    rewrite <- pow2_split by lia.
    replace (g + 24 - ez + (ez + 149)) with (g + 24 + 149) by lia. assumption. }
  destruct (binary_round_aux_cell s (Zpos mz) ez g loc_Exact)
    as (F & C & Sg); try lia.
  cbv zeta in *. split; [assumption|]. split; [|assumption].
  set (G := 2 ^ (g - ez)) in *.
  assert (PG : 0 < G) by (apply Z.pow_pos_nonneg; lia).
  pose proof (Z.div_mod (Zpos mz) G ltac:(lia)) as DM.
  pose proof (Z.mod_pos_bound (Zpos mz) G PG) as MB.
  assert (EG : G * 2 ^ (ez + 149) = 2 ^ (g + 149)).
  { unfold G. rewrite <- pow2_split by lia. f_equal. lia. }
  apply (same_cell (Zpos mz / G)); [apply Z.pow_pos_nonneg; lia | assumption|].
  rewrite <- EG. set (P := 2 ^ (ez + 149)) in *. clearbody P G. nia.
Qed.

Lemma binary_normalize_near (z e g : Z) :
  -149 <= e -> -149 <= g -> g + 24 <= 104 ->
  Z.abs (z * 2 ^ (e + 149)) < 2 ^ (g + 24 + 149) ->
  let r := binary_normalize 24 128 z e false in
  fin r /\ Z.abs (value r - z * 2 ^ (e + 149)) <= 2 ^ (g + 149).
Proof.
  intros He Hg Hg' Hmag.
  assert (Pe : 0 < 2 ^ (e + 149)) by (apply Z.pow_pos_nonneg; lia).
  assert (Pg : 0 < 2 ^ (g + 149)) by (apply Z.pow_pos_nonneg; lia).
  destruct z as [|m|m]; cbn [binary_normalize].
  - split; [exact I|]. cbn [value]. lia.
  - rewrite Z.abs_eq in Hmag by lia.
    destruct (binary_round_near false m e g) as (F & A & Sg); try lia.
    split; [assumption|]. cbv zeta in *.
    rewrite (Z.abs_eq (value _)) in A by assumption. assumption.
  - change (Zneg m) with (- Zpos m) in *.
    rewrite Z.mul_opp_l, Z.abs_opp, Z.abs_eq in Hmag by lia.
    destruct (binary_round_near true m e g) as (F & A & Sg); try lia.
    split; [assumption|]. cbv zeta in *.
    rewrite (Z.abs_neq (value _)) in A by assumption.
    rewrite Z.mul_opp_l.
    replace (value (binary_round 24 128 true m e) - - (Zpos m * 2 ^ (e + 149)))
      with (- (- value (binary_round 24 128 true m e) - Zpos m * 2 ^ (e + 149)))
      by ring.
    rewrite Z.abs_opp. assumption.
Qed.

(** The sum and the difference. *)
Lemma add_near (x y : F32.float) (g : Z) :
  fin x -> fin y -> -149 <= g -> g + 24 <= 104 ->
  Z.abs (value x + value y) < 2 ^ (g + 24 + 149) ->
  fin (F32.add x y)
  /\ Z.abs (value (F32.add x y) - (value x + value y)) <= 2 ^ (g + 149).
Proof.
  intros Fx Fy Hg Hg' Hmag. unfold F32.add.
  assert (Pg : 0 < 2 ^ (g + 149)) by (apply Z.pow_pos_nonneg; lia).
  destruct x as [sx| | |sx mx ex], y as [sy| | |sy my ey];
    try contradiction; cbn [SFadd].
  - destruct sx, sy; (split; [exact I | cbn [Bool.eqb value]; lia]).
  - split; [assumption|]. cbn [value] in *.
    lia.
  - split; [assumption|]. cbn [value] in *.
    lia.
  - cbn [fin] in Fx, Fy.
    set (ez := Z.min ex ey).
    set (S := cond_Zopp sx (Zpos (fst (shl_align mx ex ez)))
              + cond_Zopp sy (Zpos (fst (shl_align my ey ez)))).
    assert (E : S * 2 ^ (ez + 149)
                = value (S754_finite sx mx ex) + value (S754_finite sy my ey)).
    { unfold S. rewrite Z.mul_add_distr_r, !aligned_value by lia. reflexivity. }
    rewrite <- E in *.
    assert (-149 <= ez) by (unfold ez; lia).
    change F32.prec with 24. change F32.emax with 128.
    apply (binary_normalize_near S ez g); assumption.
Qed.

Lemma sub_near (x y : F32.float) (g : Z) :
  fin x -> fin y -> -149 <= g -> g + 24 <= 104 ->
  Z.abs (value x - value y) < 2 ^ (g + 24 + 149) ->
  fin (F32.sub x y)
  /\ Z.abs (value (F32.sub x y) - (value x - value y)) <= 2 ^ (g + 149).
Proof.
  intros Fx Fy Hg Hg' Hmag. unfold F32.sub.
  assert (Pg : 0 < 2 ^ (g + 149)) by (apply Z.pow_pos_nonneg; lia).
  destruct x as [sx| | |sx mx ex], y as [sy| | |sy my ey];
    try contradiction; cbn [SFsub].
  - destruct sx, sy;
      (split; [exact I | cbn [Bool.eqb negb value]; lia]).
  - split; [assumption|]. cbn [SFopp value] in *.
    destruct sy; cbn [negb]; lia.
  - split; [assumption|]. cbn [value] in *.
    lia.
  - cbn [fin] in Fx, Fy.
    set (ez := Z.min ex ey).
    set (S := cond_Zopp sx (Zpos (fst (shl_align mx ex ez)))
              - cond_Zopp sy (Zpos (fst (shl_align my ey ez)))).
    assert (E : S * 2 ^ (ez + 149)
                = value (S754_finite sx mx ex) - value (S754_finite sy my ey)).
    { unfold S. rewrite Z.mul_sub_distr_r, !aligned_value by lia. reflexivity. }
    rewrite <- E in *.
    assert (-149 <= ez) by (unfold ez; lia).
    change F32.prec with 24. change F32.emax with 128.
    apply (binary_normalize_near S ez g); assumption.
Qed.

(** The product; the exact product of the scaled values is scaled by
    [2 ^ 298]. *)
Lemma mul_near (x y : F32.float) (g : Z) :
  fin x -> fin y -> -149 <= g -> g + 24 <= 104 ->
  Z.abs (value x) * Z.abs (value y) < 2 ^ (g + 24 + 298) ->
  fin (F32.mul x y)
  /\ Z.abs (value (F32.mul x y) * 2 ^ 149 - value x * value y)
     <= 2 ^ (g + 298).
Proof.
  intros Fx Fy Hg Hg' Hmag. unfold F32.mul.
  assert (Pg : 0 < 2 ^ (g + 298)) by (apply Z.pow_pos_nonneg; lia).
  destruct x as [sx| | |sx mx ex], y as [sy| | |sy my ey];
    try contradiction; cbn [SFmul];
    try (split; [exact I
                | cbn [value]; lia]).
  cbn [fin] in Fx, Fy. rewrite !value_abs in Hmag.
  set (e := ex + ey) in *.
  assert (Px : 0 < 2 ^ (ex + 149)) by (apply Z.pow_pos_nonneg; lia).
  assert (Py : 0 < 2 ^ (ey + 149)) by (apply Z.pow_pos_nonneg; lia).
  assert (P : Zpos mx * 2 ^ (ex + 149) * (Zpos my * 2 ^ (ey + 149))
              = Zpos (mx * my) * 2 ^ (e + 298)).
  { rewrite Pos2Z.inj_mul. unfold e.
    replace (ex + ey + 298) with ((ex + 149) + (ey + 149)) by lia.
    rewrite (pow2_split (ex + 149) (ey + 149)) by lia. ring. }
  rewrite P in Hmag.
  assert (Pe : 0 < 2 ^ (e + 298)) by (apply Z.pow_pos_nonneg; unfold e; lia).
  set (sg := xorb sx sy).
  assert (XY : value (S754_finite sx mx ex) * value (S754_finite sy my ey)
               = (if sg then -1 else 1) * (Zpos (mx * my) * 2 ^ (e + 298))).
  { rewrite <- P. cbn [value]. unfold sg. destruct sx, sy; cbn [xorb]; ring. }
  rewrite XY.
  assert (Sgn : forall r : F32.float,
            (if sg then value r <= 0 else 0 <= value r) ->
            value r = (if sg then -1 else 1) * Z.abs (value r)).
  { intros r Hr. destruct sg; lia. }
  assert (Fact : forall a b : Z,
            Z.abs ((if sg then -1 else 1) * a * 2 ^ 149
                   - (if sg then -1 else 1) * b)
            = Z.abs (a * 2 ^ 149 - b)).
  { intros a b. destruct sg.
    - replace (-1 * a * 2 ^ 149 - -1 * b) with (- (a * 2 ^ 149 - b)) by ring.
      apply Z.abs_opp.
    - f_equal. ring. }
  change F32.prec with 24. change F32.emax with 128.
  destruct (Z.le_gt_cases e g) as [Heg | Heg].
  - assert (Hm : Zpos (mx * my) < 2 ^ (g + 24 - e)).
    { apply (Z.mul_lt_mono_pos_r (2 ^ (e + 298))); [assumption|].
      rewrite <- pow2_split by (unfold e; lia).
      replace (g + 24 - e + (e + 298)) with (g + 24 + 298) by lia. assumption. }
    destruct (binary_round_aux_cell sg (Zpos (mx * my)) e g loc_Exact)
      as (F & C & Sg); try lia.
    cbv zeta in *. split; [assumption|].
    rewrite (Sgn _ Sg), Fact.
    set (G := 2 ^ (g - e)) in *.
    assert (PG : 0 < G) by (apply Z.pow_pos_nonneg; lia).
    pose proof (Z.div_mod (Zpos (mx * my)) G ltac:(lia)) as DM.
    pose proof (Z.mod_pos_bound (Zpos (mx * my)) G PG) as MB.
    assert (EG : G * 2 ^ (e + 298) = 2 ^ (g + 298)).
    { unfold G. rewrite <- pow2_split by (unfold e; lia). f_equal. lia. }
    assert (E149 : 2 ^ (g + 149) * 2 ^ 149 = 2 ^ (g + 298)).
    { rewrite <- pow2_split by lia. f_equal. lia. }
    apply (same_cell (Zpos (mx * my) / G)); [assumption | |].
    + rewrite <- E149.
      set (A := Z.abs (value _)) in *. set (W := 2 ^ (g + 149)) in *.
      clearbody A W. nia.
    + rewrite <- EG. set (P2 := 2 ^ (e + 298)) in *. clearbody P2 G. nia.
  - pose proof (digits_of_magnitude (mx * my) e g 298 ltac:(unfold e; lia) Hmag)
      as Hd.
    pose proof (fexp32_le _ g Hg Hd) as Hf.
    assert (L : e <= 104).
    { destruct (digits2_pos_bounds (mx * my)). lia. }
    rewrite binary_round_aux_id by lia.
    split; [cbn [fin]; lia|].
    assert (V : value (S754_finite sg (mx * my) e) * 2 ^ 149
                = (if sg then -1 else 1) * (Zpos (mx * my) * 2 ^ (e + 298))).
    { cbn [value]. replace (e + 298) with (e + 149 + 149) by lia.
      rewrite (pow2_split (e + 149) 149) by lia. destruct sg; ring. }
    rewrite V, Z.sub_diag, Z.abs_0. lia.
Qed.

(** The quotient of two positive canonical numbers, the first not above the
    second. *)
Lemma div_near (mx my : positive) (ex ey g : Z) :
  Zpos (digits2_pos mx) = 24 -> Zpos (digits2_pos my) = 24 ->
  -149 <= ex -> -149 <= ey -> -125 <= ex - ey ->
  value (S754_finite false mx ex) <= value (S754_finite false my ey) ->
  -23 <= g <= 0 ->
  let q := F32.div (S754_finite false mx ex) (S754_finite false my ey) in
  fin q /\ 0 <= value q
  /\ Z.abs (value q * value (S754_finite false my ey)
            - value (S754_finite false mx ex) * 2 ^ 149)
     <= 2 ^ (g + 149) * value (S754_finite false my ey).
Proof.
  intros Dx Dy Hex Hey Hd Hle Hg. cbn [value] in Hle.
  destruct (digits2_pos_bounds mx) as [Lx Ux].
  destruct (digits2_pos_bounds my) as [Ly Uy].
  rewrite Dx in Lx, Ux. rewrite Dy in Ly, Uy.
  assert (Hxy : ex <= ey).
  { destruct (Z.le_gt_cases ex ey) as [|Hgt]; [assumption | exfalso].
    assert (Py : 0 < 2 ^ (ey + 149)) by (apply Z.pow_pos_nonneg; lia).
    replace (ex + 149) with (Z.succ (ex - ey - 1) + (ey + 149)) in Hle by lia.
    rewrite Z.pow_add_r, Z.pow_succ_r in Hle by lia.
    assert (PA : 0 < 2 ^ (ex - ey - 1)) by (apply Z.pow_pos_nonneg; lia).
    rewrite Z.mul_assoc in Hle. apply Z.mul_le_mono_pos_r in Hle; [|assumption].
    change (2 ^ (24 - 1)) with 8388608 in *. change (2 ^ 24) with 16777216 in *.
    set (A := 2 ^ (ex - ey - 1)) in *. clearbody A. nia. }
  cbv zeta. unfold F32.div. cbn [SFdiv]. unfold SFdiv_core_binary.
  change (fexp F32.prec F32.emax) with fexp32. cbn [Zdigits2]. rewrite Dx, Dy.
  replace (24 + ex - (24 + ey)) with (ex - ey) by lia.
  replace (Z.min (fexp32 (ex - ey)) (ex - ey)) with (ex - ey - 24)
    by (unfold fexp32; lia).
  replace (ex - ey - (ex - ey - 24)) with 24 by lia.
  rewrite Z.shiftl_mul_pow2, div_eucl_div_mod by lia.
  cbn [xorb]. change F32.prec with 24. change F32.emax with 128.
  set (e' := ex - ey - 24).
  assert (He' : -149 <= e' <= -24) by (unfold e'; lia).
  assert (Px : 0 < 2 ^ (ex + 149)) by (apply Z.pow_pos_nonneg; lia).
  assert (Py : 0 < 2 ^ (ey + 149)) by (apply Z.pow_pos_nonneg; lia).
  assert (PT1 : 0 < 2 ^ (- e')) by (apply Z.pow_pos_nonneg; lia).
  assert (E1 : 2 ^ (- e') * 2 ^ (ex + 149) = 2 ^ 24 * 2 ^ (ey + 149)).
  { rewrite <- (pow2_split (- e') (ex + 149)), <- (pow2_split 24 (ey + 149))
      by lia.
    f_equal. unfold e'. lia. }
  assert (G1 : 2 ^ (- e') < 2 ^ (g + 24 - e')).
  { apply Z.pow_lt_mono_r; lia. }
  change (2 ^ 24) with 16777216 in *.
  set (a := Zpos mx * 16777216) in *.
  assert (A1 : a <= Zpos my * 2 ^ (- e')).
  { unfold a.
    set (X := 2 ^ (ex + 149)) in *. set (Y := 2 ^ (ey + 149)) in *.
    set (T1 := 2 ^ (- e')) in *. clearbody X Y T1.
    apply (Z.mul_le_mono_pos_r _ _ X); [assumption|]. nia. }
  pose proof (Z.div_mod a (Zpos my) ltac:(lia)) as DM.
  pose proof (Z.mod_pos_bound a (Zpos my) ltac:(lia)) as MB.
  assert (Q0 : 0 <= a / Zpos my) by (apply Z.div_pos; unfold a; lia).
  assert (Q1 : a / Zpos my <= 2 ^ (- e')) by (apply Z.div_le_upper_bound; lia).
  destruct (binary_round_aux_cell false (a / Zpos my) e' g
              (new_location (Zpos my) (a mod Zpos my))) as (F & C & Sg);
    try lia.
  cbv zeta in C.
  split; [assumption|]. split; [assumption|].
  rewrite (Z.abs_eq (value _)) in C by assumption.
  set (v := value _) in *. cbn [value].
  set (G := 2 ^ (g - e')) in *.
  assert (PG : 0 < G) by (apply Z.pow_pos_nonneg; lia).
  set (q0 := a / Zpos my) in *.
  pose proof (Z.div_mod q0 G ltac:(lia)) as DG.
  pose proof (Z.mod_pos_bound q0 G PG) as MG.
  set (c := q0 / G) in *.
  assert (C0 : 0 <= c) by (apply Z.div_pos; lia).
  set (T := 2 ^ (e' + 149)).
  assert (PT : 0 < T) by (apply Z.pow_pos_nonneg; lia).
  assert (EW : G * T = 2 ^ (g + 149)).
  { unfold G, T. rewrite <- pow2_split by lia. f_equal. lia. }
  assert (EX : Zpos mx * 2 ^ (ex + 149) * 2 ^ 149 = a * T * 2 ^ (ey + 149)).
  { unfold a, T. change 16777216 with (2 ^ 24).
    rewrite <- !Z.mul_assoc. f_equal.
    rewrite <- !pow2_split by lia. f_equal. unfold e'. lia. }
  rewrite EX. rewrite <- EW in *.
  set (Y := 2 ^ (ey + 149)) in *.
  apply (same_cell c).
  - clearbody G T Y. nia.
  - clearbody v G T Y q0 c a. clear - C Py PT PG C0. 
    assert (0 < Zpos my * Y) by nia.
    replace (c * (G * T * (Zpos my * Y))) with (c * (G * T) * (Zpos my * Y)) by ring.
    replace ((c + 1) * (G * T * (Zpos my * Y)))
      with ((c + 1) * (G * T) * (Zpos my * Y)) by ring.
    split; apply Z.mul_le_mono_nonneg_r; lia.
  - assert (A : c * G * Zpos my <= a <= (c + 1) * G * Zpos my).
    { clearbody G q0 c a. nia. }
    clearbody G T Y q0 c a. clear - A Py PT PG C0.
    replace (c * (G * T * (Zpos my * Y))) with (c * G * Zpos my * (T * Y)) by ring.
    replace ((c + 1) * (G * T * (Zpos my * Y)))
      with ((c + 1) * G * Zpos my * (T * Y)) by ring.
    replace (a * T * Y) with (a * (T * Y)) by ring.
    assert (0 < T * Y) by nia.
    split; apply Z.mul_le_mono_nonneg_r; lia.
Qed.

Lemma abs_mul_cancel (x y u : Z) :
  0 < u -> Z.abs (x * u) <= y * u -> Z.abs x <= y.
Proof.
  intros Hu H. rewrite Z.abs_mul, (Z.abs_eq u) in H by lia.
  apply Z.mul_le_mono_pos_r in H; assumption.
Qed.

Lemma abs_mul_le (x y bx b : Z) :
  Z.abs x <= bx -> Z.abs y <= b -> Z.abs (x * y) <= bx * b.
Proof.
  intros Hx Hy. rewrite Z.abs_mul.
  apply Z.mul_le_mono_nonneg; lia.
Qed.

Lemma abs_sub_le (x y bx b : Z) :
  Z.abs x <= bx -> Z.abs y <= b -> Z.abs (x - y) <= bx + b.
Proof. lia. Qed.

Lemma abs_add_le (x y bx b : Z) :
  Z.abs x <= bx -> Z.abs y <= b -> Z.abs (x + y) <= bx + b.
Proof. lia. Qed.

(** ** The crossfade against exact arithmetic *)

(** The weight of pass [j] of a fade of [nFade] samples is within
    [2 ^ -22] of [1 - j / nFade]. *)
Lemma fade_weight_near (nFade j : Z) :
  1 <= j <= nFade -> nFade < 2 ^ 24 ->
  let a := Track.fade_weight nFade j in
  fin a /\ 0 <= value a <= 2 ^ 149
  /\ Z.abs (value a * nFade - (nFade - j) * 2 ^ 149) <= nFade * 2 ^ 127.
Proof.
  intros Hj HF. cbv zeta.
  destruct (fade_weight_range nFade j Hj HF) as [Fa Ra].
  split; [assumption|]. split; [assumption|].
  unfold Track.fade_weight in *.
  destruct (of_int_spec j) as [Cj Vj]; [lia|].
  destruct (of_int_spec nFade) as [CF VF]; [lia|].
  destruct (positive_float _ j Cj Vj) as (mj & ej & Ej & Dj & Rj); [lia|].
  destruct (positive_float _ nFade CF VF) as (mF & eF & EF & DF & RF); [lia|].
  assert (Hle : value (F32.of_int j) <= value (F32.of_int nFade)).
  { rewrite Vj, VF. apply Z.mul_le_mono_nonneg_r; lia. }
  rewrite Ej, EF in *.
  destruct (div_near mj mF ej eF (-23)) as (Fq & Q0 & Vq);
    try lia; try assumption.
  destruct (div_le_one mj mF ej eF) as [_ Q1]; try lia; try assumption.
  cbv zeta in Vq. rewrite Vj, VF in Vq.
  set (q := F32.div (S754_finite false mj ej) (S754_finite false mF eF)) in *.
  change (-23 + 149) with 126 in Vq.
  assert (Dq : Z.abs (value q * nFade - j * 2 ^ 149) <= nFade * 2 ^ 126).
  { apply (abs_mul_cancel _ _ (2 ^ 149)); [lia|].
    replace ((value q * nFade - j * 2 ^ 149) * 2 ^ 149)
      with (value q * (nFade * 2 ^ 149) - j * 2 ^ 149 * 2 ^ 149) by ring.
    replace (nFade * 2 ^ 126 * 2 ^ 149) with (2 ^ 126 * (nFade * 2 ^ 149))
      by ring.
    exact Vq. }
  destruct (of_int_spec 1) as [C1 V1]; [lia|].
  destruct (sub_near F32.one q (-23)) as [_ Va]; try lia; try assumption.
  - apply canonical_fin, C1.
  - unfold F32.one. rewrite V1. change (-23 + 24 + 149) with 150.
    change (2 ^ 150) with (2 * 2 ^ 149). lia.
  - fold F32.one in V1. rewrite V1 in Va. change (-23 + 149) with 126 in Va.
    set (va := value (F32.sub F32.one q)) in *.
    set (vq := value q) in *. clearbody va vq.
    replace (va * nFade - (nFade - j) * 2 ^ 149)
      with (nFade * (va - (1 * 2 ^ 149 - vq)) - (vq * nFade - j * 2 ^ 149))
      by ring.
    assert (P : Z.abs (nFade * (va - (1 * 2 ^ 149 - vq))) <= nFade * 2 ^ 126).
    { apply abs_mul_le; lia. }
    change (2 ^ 127) with (2 * 2 ^ 126).
    replace (nFade * (2 * 2 ^ 126)) with (nFade * 2 ^ 126 + nFade * 2 ^ 126)
      by ring.
    apply abs_sub_le; assumption.
Qed.

(** The weighted sum for a weight within [2 ^ -22] of [A / nFade]: the
    binary32 sum is within [2 ^ -5] of the exact
    [(A * val + (nFade - A) * next) / nFade]. *)
Lemma abs_near (v x d b : Z) :
  Z.abs (v - x) <= d -> Z.abs x <= b -> Z.abs v <= b + d.
Proof. lia. Qed.

Lemma weighted_sum_near (a : F32.float) (nFade A val next : Z) :
  fin a -> 0 <= value a <= 2 ^ 149 -> 1 <= nFade -> 
  Z.abs (value a * nFade - A * 2 ^ 149) <= nFade * 2 ^ 127 ->
  -16384 <= val <= 16384 -> -32768 <= next <= 32768 ->
  let w := Track.weighted_sum a val next in
  fin w
  /\ Z.abs (value w * nFade - (A * val + (nFade - A) * next) * 2 ^ 149)
     <= nFade * 2 ^ 144.
Proof.
  intros Fa Ra HF Da Hval Hnext. cbv zeta. unfold Track.weighted_sum.
  destruct (of_int_spec 1) as [C1 V1]; [lia|].
  destruct (of_int_spec val) as [Cv Vv]; [lia|].
  destruct (of_int_spec next) as [Cn Vn]; [lia|].
  pose proof (canonical_fin _ C1) as F1. fold F32.one in F1, V1.
  pose proof (canonical_fin _ Cv) as Fv.
  pose proof (canonical_fin _ Cn) as Fn.
  assert (Aa : Z.abs (value a) <= 2 ^ 149) by lia.
  assert (Av : Z.abs val <= 16384) by lia.
  assert (An : Z.abs next <= 32768) by lia.
  destruct (sub_near F32.one a (-23) F1 Fa) as [Fb Db]; [lia | lia | |].
  { rewrite V1. change (-23 + 24 + 149) with 150.
    change (2 ^ 150) with (2 * 2 ^ 149). lia. }
  rewrite V1 in Db. change (-23 + 149) with 126 in Db.
  set (b := F32.sub F32.one a) in *.
  set (U := 2 ^ 149) in *.
  assert (PU : 0 < U) by (unfold U; lia).
  assert (Rb : Z.abs (value b) <= U + 2 ^ 126).
  { apply (abs_near _ (1 * U - value a)); [assumption | lia]. }
  (* the first product *)
  destruct (mul_near a (F32.of_int val) (-9) Fa Fv) as [Fp1 D1];
    [lia | lia | |].
  { rewrite Vv. fold U. rewrite (Z.abs_mul val), (Z.abs_eq U) by lia.
    change (-9 + 24 + 298) with (15 + 149 + 149).
    rewrite !pow2_split by lia. fold U.
    assert (Z.abs (value a) * Z.abs val <= U * 16384)
      by (apply Z.mul_le_mono_nonneg; lia).
    change (2 ^ 15) with 32768.
    rewrite Z.mul_assoc.
    apply Z.mul_lt_mono_pos_r; [assumption|]. lia. }
  rewrite Vv in D1. fold U in D1.
  set (p1 := F32.mul a (F32.of_int val)) in *.
  assert (E1 : Z.abs (value p1 - value a * val) <= 2 ^ 140).
  { apply (abs_mul_cancel _ _ U); [assumption|].
    replace ((value p1 - value a * val) * U)
      with (value p1 * U - value a * (val * U)) by ring.
    change (-9 + 298) with (140 + 149) in D1.
    rewrite pow2_split in D1 by lia. exact D1. }
  (* the second product *)
  destruct (mul_near b (F32.of_int next) (-8) Fb Fn) as [Fp2 D2];
    [lia | lia | |].
  { rewrite Vn. fold U. rewrite (Z.abs_mul next), (Z.abs_eq U) by lia.
    change (-8 + 24 + 298) with (16 + 149 + 149).
    rewrite !pow2_split by lia. fold U.
    assert (Z.abs (value b) * Z.abs next <= (U + 2 ^ 126) * 32768)
      by (apply Z.mul_le_mono_nonneg; lia).
    change (2 ^ 16) with 65536.
    rewrite Z.mul_assoc.
    apply Z.mul_lt_mono_pos_r; [assumption|]. unfold U in *. lia. }
  rewrite Vn in D2. fold U in D2.
  set (p2 := F32.mul b (F32.of_int next)) in *.
  assert (E2 : Z.abs (value p2 - value b * next) <= 2 ^ 141).
  { apply (abs_mul_cancel _ _ U); [assumption|].
    replace ((value p2 - value b * next) * U)
      with (value p2 * U - value b * (next * U)) by ring.
    change (-8 + 298) with (141 + 149) in D2.
    rewrite pow2_split in D2 by lia. exact D2. }
  (* the sum *)
  assert (B1 : Z.abs (value a * val) <= U * 16384)
    by (apply abs_mul_le; assumption).
  assert (B2 : Z.abs (value b * next) <= (U + 2 ^ 126) * 32768)
    by (apply abs_mul_le; assumption).
  pose proof (abs_near _ _ _ _ E1 B1) as N1.
  pose proof (abs_near _ _ _ _ E2 B2) as N2.
  destruct (add_near p1 p2 (-8) Fp1 Fp2) as [Fw Dw]; [lia | lia | |].
  { change (-8 + 24 + 149) with (16 + 149). rewrite pow2_split by lia.
    fold U. change (2 ^ 16) with 65536.
    pose proof (abs_add_le _ _ _ _ N1 N2) as N.
    eapply Z.le_lt_trans; [exact N|]. unfold U. lia. }
  change (-8 + 149) with 141 in Dw.
  split; [assumption|].
  set (vw := value (F32.add p1 p2)) in *.
  set (v1 := value p1) in *. set (v2 := value p2) in *.
  set (va := value a) in *. set (vb := value b) in *.
  clearbody vw v1 v2 va vb.
  replace (vw * nFade - (A * val + (nFade - A) * next) * U)
    with (nFade * (vw - (v1 + v2)) + nFade * (v1 - va * val)
          + nFade * (v2 - vb * next)
          + (va * nFade - A * U) * val
          + (nFade * (vb - (1 * U - va)) - (va * nFade - A * U)) * next)
    by ring.
  assert (AF : Z.abs nFade <= nFade) by lia.
  pose proof (abs_mul_le _ _ _ _ AF Dw) as T1.
  pose proof (abs_mul_le _ _ _ _ AF E1) as T2.
  pose proof (abs_mul_le _ _ _ _ AF E2) as T3.
  pose proof (abs_mul_le _ _ _ _ Da Av) as T4.
  pose proof (abs_mul_le _ _ _ _ AF Db) as T5'.
  pose proof (abs_mul_le _ _ _ _ (abs_sub_le _ _ _ _ T5' Da) An) as T5.
  pose proof (abs_add_le _ _ _ _
                (abs_add_le _ _ _ _
                   (abs_add_le _ _ _ _ (abs_add_le _ _ _ _ T1 T2) T3) T4) T5)
    as T.
  eapply Z.le_trans; [exact T|].
  clear - HF. lia.
Qed.

(** The ceiling of a binary32 sum that is within [2 ^ -5] of [N / nFade]. *)
Lemma ceiling_near_Z (w : F32.float) (c nFade N : Z) :
  1 <= nFade -> is_ceiling c w ->
  Z.abs (value w * nFade - N * 2 ^ 149) <= nFade * 2 ^ 144 ->
  32 * nFade * (c - 1) - nFade < 32 * N <= 32 * nFade * c + nFade.
Proof.
  intros HF [C1 C2] D. apply Z.abs_le in D. destruct D as [D1 D2].
  assert (U1 : (c - 1) * 2 ^ 149 * nFade < value w * nFade)
    by (apply Z.mul_lt_mono_pos_r; lia).
  assert (U2 : value w * nFade <= c * 2 ^ 149 * nFade)
    by (apply Z.mul_le_mono_nonneg_r; lia).
  set (v := value w * nFade) in *. clearbody v.
  change (2 ^ 149) with (32 * 2 ^ 144) in *.
  set (P := 2 ^ 144) in *. assert (PP : 0 < P) by (unfold P; lia).
  clearbody P.
  split.
  - apply (Z.mul_lt_mono_pos_r P); [assumption|]. nia.
  - apply (Z.mul_le_mono_pos_r _ _ P); [assumption|]. nia.
Qed.

(** Every pass of the crossfade, against the exact weighted sum. *)
Lemma fade_pass_near (nFade j val next c : Z) :
  1 <= j <= nFade -> nFade <= 2 ^ 21 ->
  -16384 <= val <= 16384 -> is_i16 next ->
  is_ceiling c (Track.weighted_sum (Track.fade_weight nFade j) val next) ->
  32 * nFade * (c - 1) - nFade
  < 32 * ((nFade - j) * val + j * next)
  <= 32 * nFade * c + nFade.
Proof.
  intros Hj HF Hval Hnext Hc. unfold is_i16 in Hnext.
  destruct (fade_weight_near nFade j Hj ltac:(lia)) as (Fa & Ra & Da).
  cbv zeta in *.
  destruct (weighted_sum_near (Track.fade_weight nFade j) nFade (nFade - j)
              val next) as [_ Dw]; try assumption; try lia.
  cbv zeta in Dw. replace (nFade - (nFade - j)) with j in Dw by lia.
  apply (ceiling_near_Z _ c nFade _ ltac:(lia) Hc Dw).
Qed.

Section AgainstExactArithmetic.

Import QArith.QArith Qround.
Local Open Scope Z_scope.

Lemma weighted_sum_exact (nFade j val next : Z) :
  0 < nFade ->
  (Claimed.weighted_sum (Claimed.fade_weight nFade j) val next
   == inject_Z ((nFade - j) * val + j * next) / inject_Z nFade)%Q.
Proof.
  intros HF. unfold Claimed.weighted_sum, Claimed.fade_weight.
  rewrite inject_Z_plus, !inject_Z_mult.
  unfold Z.sub. rewrite inject_Z_plus, inject_Z_opp.
  field. intros H. unfold Qeq in H. cbn in H. lia.
Qed.

Lemma ceiling_near_Q (nFade N c : Z) :
  0 < nFade ->
  32 * nFade * (c - 1) - nFade < 32 * N <= 32 * nFade * c + nFade ->
  Claimed.ceiling_near c (inject_Z N / inject_Z nFade)%Q.
Proof.
  intros HF [H1 H2].
  destruct nFade as [|p|p]; try lia.
  unfold Claimed.ceiling_near, Claimed.tolerance.
  unfold Qlt, Qle, Qdiv, Qinv, Qmult, Qplus, Qminus, Qopp, inject_Z.
  split; cbn; lia.
Qed.

(** The ceiling of a number within [1 / 32] of [x] is the ceiling of [x]
    or next to it. *)
Lemma ceiling_near_ceiling (c : Z) (x : Q) :
  Claimed.ceiling_near c x -> c - 1 <= Qceiling x <= c + 1.
Proof.
  unfold Claimed.ceiling_near, Claimed.tolerance. intros [H1 H2]. split.
  - assert (L : (inject_Z (c - 2) < inject_Z (Qceiling x))%Q).
    { apply Qlt_le_trans with x; [|apply Qle_ceiling].
      eapply Qle_lt_trans; [|exact H1].
      unfold Qle, Qminus, Qplus, Qopp, inject_Z. cbn. lia. }
    rewrite <- Zlt_Qlt in L. lia.
  - assert (L : (x <= inject_Z (c + 1))%Q).
    { eapply Qle_trans; [exact H2|].
      unfold Qle, Qplus, inject_Z. cbn. lia. }
    apply Qceiling_resp_le in L. rewrite Qceiling_Z in L. exact L.
Qed.

Lemma crossfaded_near (nFade j val next c : Z) :
  1 <= j <= nFade -> nFade <= 2 ^ 21 ->
  -16384 <= val <= 16384 -> is_i16 next -> is_i16 c ->
  is_ceiling c (Track.weighted_sum (Track.fade_weight nFade j) val next) ->
  Claimed.ceiling_near c
    (Claimed.weighted_sum (Claimed.fade_weight nFade j) val next)
  /\ Z.abs (c - Claimed.crossfaded nFade j val next) <= 1.
Proof.
  intros Hj HF Hval Hnext Rc Hc.
  pose proof (fade_pass_near nFade j val next c Hj HF Hval Hnext Hc) as B.
  assert (N : Claimed.ceiling_near c
                (Claimed.weighted_sum (Claimed.fade_weight nFade j) val next)).
  { unfold Claimed.ceiling_near.
    rewrite (weighted_sum_exact nFade j val next) by lia.
    apply ceiling_near_Q; [lia | exact B]. }
  split; [exact N|].
  pose proof (ceiling_near_ceiling _ _ N) as C.
  unfold Claimed.crossfaded, clamp_i16. unfold is_i16 in Rc. lia.
Qed.

End AgainstExactArithmetic.

(** ** Sums that leave the range of [sf::Int16] *)

(** The first sample whose mix leaves the range of [sf::Int16] stops the
    loop: the conversion of the sum to [sf::Int16] is undefined. *)
Lemma copy_loop_overflow (samples : list Z) :
  forall (n : nat) (i p d : Z) (mix : list Z),
    Forall is_i16 mix -> Forall is_i16 samples ->
    0 <= i -> i + Z.of_nat n <= Z.of_nat (length mix) ->
    0 <= p -> p + Z.of_nat n <= Z.of_nat (length samples) ->
    0 <= d < Z.of_nat n ->
    ~ is_i16 (Track.mixed (zth mix (i + d)) (zth samples (p + d))) ->
    Track.copy_loop samples n i p mix = Fault FloatToIntOverflow.
Proof.
  induction n as [|n IH]; intros i p d mix Hmix Hs Hi Hin Hp Hpn Hd Hover.
  - cbn in Hd. lia.
  - rewrite Nat2Z.inj_succ in *.
    cbn [Track.copy_loop]. rewrite load_in by lia. cbn [bind].
    rewrite load_in by lia. cbn [bind].
    assert (Hm : is_i16 (zth mix i)) by (apply Forall_zth; [assumption | lia]).
    assert (Hz : is_i16 (zth samples p)) by (apply Forall_zth; [assumption | lia]).
    rewrite (mix_plain_spec _ _ Hm Hz).
    destruct (is_i16b (Track.mixed (zth mix i) (zth samples p))) eqn:R;
      [|reflexivity].
    assert (Hv : is_i16 (Track.mixed (zth mix i) (zth samples p))).
    { unfold is_i16b in R. apply andb_prop in R. destruct R as [R1 R2].
      apply Z.leb_le in R1, R2. split; assumption. }
    assert (Hd0 : d <> 0).
    { intros ->. rewrite !Z.add_0_r in Hover. contradiction. }
    cbn [lift bind]. rewrite store_in by lia. cbn [bind].
    apply (IH (i + 1) (p + 1) (d - 1)); try lia.
    + apply Forall_set_nth; assumption.
    + assumption.
    + rewrite set_nth_length. lia.
    + rewrite zth_set_nth by lia.
      replace (i + 1 + (d - 1)) with (i + d) by lia.
      replace (p + 1 + (d - 1)) with (p + d) by lia.
      destruct (Z.eqb_spec (i + d) i); [lia | assumption].
Qed.



(** A window inside the active clip with a sum that leaves the range of
    [sf::Int16]: the conversion of that sum to [sf::Int16] is undefined. *)
Lemma GetAudio_inside_overflow (tr : Track.t) (act : string)
    (clip : SoundBuffer) (mix : list Z) (n pos x : Z) :
  Track.m_pPendingTrack tr = Some act ->
  StdMap.find act (Track.m_mapClips tr) = Some clip ->
  getSampleCount clip <= INT_MAX ->
  0 <= n <= INT_MAX -> 0 <= pos <= INT_MAX ->
  n <= Z.of_nat (length mix) ->
  Forall is_i16 mix -> Forall is_i16 (getSamples clip) ->
  pos mod getSampleCount clip + n < getSampleCount clip ->
  0 <= x < n ->
  ~ is_i16 (Track.mixed (zth mix x)
              (zth (getSamples clip) (pos mod getSampleCount clip + x))) ->
  Track.GetAudio (Some mix) n pos tr = Fault FloatToIntOverflow.
Proof.
  intros Ha Hf Hc Hn Hp Hlen Hmix Hs Hin Hx Hover.
  set (count := getSampleCount clip) in *. set (off := pos mod count) in *.
  assert (Hc0 : 0 < count).
  { destruct (Z.le_gt_cases count 0) as [Hle|]; [|assumption].
    assert (E0 : count = 0) by (unfold count, getSampleCount in *; lia).
    assert (off = pos) by (unfold off; rewrite E0; apply Z.mod_0_r).
    lia. }
  assert (Bo : 0 <= off < count) by (apply Z.mod_pos_bound; assumption).
  rewrite (GetAudio_active tr act clip mix n pos)
    by (try assumption; fold count off; lia).
  cbv zeta. fold count off.
  destruct (Z.leb_spec count (off + n)) as [|_]; [lia|].
  rewrite (copy_loop_overflow (getSamples clip) (Z.to_nat n) 0 off x mix);
    try assumption; try lia.
  - reflexivity.
  - unfold count, getSampleCount in *. lia.
Qed.


(** * The specification, claim by claim *)

Local Open Scope string_scope.

(** ** C1: a window that straddles the end of the active clip *)

(** C1 (the code falls short of the claim).  The claim: every call of
    [Track::GetAudio] whose window straddles the end of the active clip,
    with a fade no longer than the window, produces the unfaded samples
    followed by the crossfaded ones and leaves the pending clip active.
    The code never stops [pSoundBuf] at the end of the clip: on the clip of
    eight samples the window of five samples at position 4 (fade of five
    samples) reads the sample of index 8, past the end of the array.
    The mixer makes such calls by itself: with one clip of 321 samples,
    played in blocks of [321 / 64 = 5] samples, the 64 first blocks are
    rendered and the 65th, at position 320, reads the sample of index 321.
    [GetAudio_past_end] shows the same for every window that reaches past
    the clip, [GetAudio_crossing_total] what the call does when the window
    ends at the last sample. *)
Theorem C1_straddling_window_reads_past_the_clip :
  (Track.m_pPendingTrack Scenario.playing_a_then_b = Some "a"
   /\ getSampleCount Scenario.tone = 8
   /\ Track.m_nFadeSamples Scenario.playing_a_then_b = 5
   /\ Track.GetAudio (Some [0; 0; 0; 0; 0]) 5 4 Scenario.playing_a_then_b
      = Fault (OutOfBounds ClipSamples 8))
  /\ (ll <- Scenario.launch [("lead", ["long"])] ["long"] ;;
      ll' <- Scenario.stream 64 ll ;;
      Done (LoopLauncher.m_nLastSamplePos ll', LoopLauncher.m_vMixBuffer ll'))
     = Done (320, [500; 500; 500; 500; 500])
  /\ (ll <- Scenario.launch [("lead", ["long"])] ["long"] ;;
      ll' <- Scenario.stream 64 ll ;;
      LoopLauncher.onGetData ll')
     = Fault (OutOfBounds ClipSamples 321).
Proof. repeat split; vm_compute; reflexivity. Qed.

(** ** C2: a fade longer than the window *)

(** C2 (the code falls short of the claim).  The claim: when the window
    crosses the end of the active clip and the fade is at least as long as
    the window, the unfaded segment is clamped to zero samples and only
    indices in [0, nSamplesDesired) are written.  The code does not clamp
    [lastSample]: with a fade of five samples and a window of four the
    crossfade loop starts at index -1 of the mix buffer.  The mixer makes
    such calls by itself: with clips of 128 samples at 1000 Hz the blocks
    have [128 / 64 = 2] samples and the fade has 5; the 63 first blocks are
    rendered and the 64th, the one that wraps, writes at index -3.
    [GetAudio_long_fade] shows that no such call completes. *)
Theorem C2_long_fade_writes_before_the_mix_buffer :
  (Track.m_pPendingTrack Scenario.playing_a = Some "a"
   /\ getSampleCount Scenario.tone = 8
   /\ Track.m_nFadeSamples Scenario.playing_a = 5
   /\ Track.GetAudio (Some [0; 0; 0; 0]) 4 4 Scenario.playing_a
      = Fault (OutOfBounds MixBuffer (-1)))
  /\ (ll <- Scenario.launch Scenario.two_tracks ["x"; "y"] ;;
      ll' <- Scenario.stream 63 ll ;;
      Done (LoopLauncher.m_nLastSamplePos ll', LoopLauncher.m_vMixBuffer ll'))
     = Done (126, [500; 500])
  /\ (ll <- Scenario.launch Scenario.two_tracks ["x"; "y"] ;;
      ll' <- Scenario.stream 63 ll ;;
      LoopLauncher.onGetData ll')
     = Fault (OutOfBounds MixBuffer (-3)).
Proof. repeat split; vm_compute; reflexivity. Qed.

(** ** C3: rendering the full length of a clip *)

(** C3 as stated fails: on the track of the one clip "a", rendering the
    eight samples of the clip from position 0, with nothing pending, fades
    the last five samples (the fade length) toward silence instead of
    reproducing the scaled source. *)
Lemma C3_counterexample_last_samples_fade :
  Track.m_mapClips Scenario.solo_a = [("a", Scenario.tone)]
  /\ Track.m_pPendingTrack Scenario.solo_a = Some "a"
  /\ Track.m_pPendingClip Scenario.solo_a = None
  /\ Track.GetAudio (Some (repeat 0 8)) (getSampleCount Scenario.tone) 0
                    Scenario.solo_a
     = Done (true, Track.with_active None Scenario.solo_a,
             Some [500; 500; 500; 400; 300; 200; 100; 0])
  /\ [500; 500; 500; 400; 300; 200; 100; 0]
     <> map (fun s => Z.quot s 2) (getSamples Scenario.tone).
Proof. repeat split. discriminate. Qed.

(** C3, amended.  For a track whose active clip has [L] samples, with no
    pending clip and a fade of [F <= L] samples ([F < 2 ^ 24]): rendering
    the [L] samples from position 0 into a zeroed mix buffer succeeds and
    reproduces the source samples scaled by 0.5 (truncated toward zero) at
    the indices below [L - F]; the last [F] samples take the crossfade
    path: each is the ceiling of the weighted sum that fades the scaled
    sample to silence, and no clip is active afterwards.  Rendering
    fewer than [L] samples from position 0 reproduces the scaled samples
    with no fade at all. *)
Theorem C3_full_length_render (tr : Track.t) (act : string)
    (clip : SoundBuffer) (k : nat) :
  Track.m_pPendingTrack tr = Some act ->
  Track.m_pPendingClip tr = None ->
  StdMap.find act (Track.m_mapClips tr) = Some clip ->
  0 < getSampleCount clip <= INT_MAX ->
  0 <= Track.m_nFadeSamples tr <= getSampleCount clip ->
  Track.m_nFadeSamples tr < 2 ^ 24 ->
  Forall is_i16 (getSamples clip) ->
  getSampleCount clip <= Z.of_nat k ->
  (exists mix',
     Track.GetAudio (Some (repeat 0 k)) (getSampleCount clip) 0 tr
     = Done (true, Track.with_active None tr, Some mix')
     /\ length mix' = k
     /\ (forall x, 0 <= x < getSampleCount clip - Track.m_nFadeSamples tr ->
           zth mix' x = Z.quot (zth (getSamples clip) x) 2)
     /\ (forall x,
           getSampleCount clip - Track.m_nFadeSamples tr <= x
                                                         < getSampleCount clip ->
           is_ceiling (zth mix' x)
             (Track.weighted_sum
                (Track.fade_weight (Track.m_nFadeSamples tr)
                   (x - (getSampleCount clip - Track.m_nFadeSamples tr) + 1))
                (Z.quot (zth (getSamples clip) x) 2) 0)))
  /\ (forall n, 0 <= n < getSampleCount clip ->
        exists mix',
          Track.GetAudio (Some (repeat 0 k)) n 0 tr = Done (true, tr, Some mix')
          /\ length mix' = k
          /\ forall x, 0 <= x < n ->
               zth mix' x = Z.quot (zth (getSamples clip) x) 2).
Proof.
  intros Ha Hpend Hf Hc HF HF24 Hs Hk.
  assert (M0 : 0 mod getSampleCount clip = 0) by (apply Z.mod_0_l; lia).
  split.
  - destruct (GetAudio_crossing_silence tr act clip k (getSampleCount clip) 0)
      as (mix' & E & L & HZ); try assumption; try lia.
    exists mix'. split; [assumption|]. split; [assumption|].
    rewrite M0 in HZ. split; intros x Hx; destruct (HZ x ltac:(lia)) as (H1 & H2 & _).
    + rewrite H1 by lia. reflexivity.
    + pose proof (H2 Hx) as Ev. change (0 + x) with x in Ev.
      assert (Hsx : is_i16 (zth (getSamples clip) x)).
      { apply Forall_zth; [assumption|].
        change (Z.of_nat (length (getSamples clip))) with (getSampleCount clip).
        lia. }
      unfold Track.fade_step in Ev. rewrite (fade_val_spec _ Hsx) in Ev.
      apply (fade_iVal_spec _ _ _ _ Ev).
  - intros n Hn.
    assert (Lc : Z.of_nat (length (getSamples clip)) = getSampleCount clip)
      by reflexivity.
    destruct (GetAudio_inside tr act clip (repeat 0 k) n 0)
      as (mix' & E & L & _ & HZ); try assumption; try lia;
      try (rewrite M0; lia); try (unfold INT_MAX in *; lia).
    + rewrite repeat_length. lia.
    + apply Forall_repeat_0.
    + intros x Hx. rewrite zth_repeat_0, mixed_0, M0.
      pose proof (quot2_range (zth (getSamples clip) (0 + x))
                    ltac:(apply Forall_zth; [assumption | lia])).
      unfold is_i16. lia.
    + exists mix'. split; [assumption|].
      split; [rewrite L; apply repeat_length|].
      intros x Hx. rewrite (HZ x) by lia. rewrite M0, zth_repeat_0, mixed_0.
      destruct (Z.ltb_spec x n); [reflexivity | lia].
Qed.

Lemma C3_full_length_render_witness :
  exists mix',
    Track.GetAudio (Some (repeat 0 8)) (getSampleCount Scenario.tone) 0
                   Scenario.solo_a
    = Done (true, Track.with_active None Scenario.solo_a, Some mix')
    /\ length mix' = 8%nat
    /\ (forall x, 0 <= x < 3 -> zth mix' x = Z.quot (zth (getSamples Scenario.tone) x) 2).
Proof.
  destruct (C3_full_length_render Scenario.solo_a "a" Scenario.tone 8)
    as [(mix' & E & L & H1 & _) _].
  - reflexivity.
  - reflexivity.
  - reflexivity.
  - vm_compute. split; [reflexivity | discriminate].
  - vm_compute. split; discriminate.
  - reflexivity.
  - repeat constructor; discriminate.
  - vm_compute. discriminate.
  - exists mix'. split; [exact E|]. split; [exact L|]. exact H1.
Defined.

(** ** C4: a window inside the active clip *)

(** C4 as stated fails: not every call on a window inside the active clip
    adds the scaled samples and returns.  While "a" plays (samples of
    1000), a call on a buffer whose second slot holds 32700 has to store
    [32700 + 500], which [sf::Int16] cannot hold: the conversion of the
    sum is undefined and nothing is clamped or saturated.  The mixer makes
    such calls by itself: with three tracks at full scale the first block
    receives 16383 from the first track and 32766 with the second, and the
    call for the third track overflows. *)
Lemma C4_counterexample_sum_out_of_range :
  (Track.m_pPendingTrack Scenario.playing_a = Some "a"
   /\ 2 mod getSampleCount Scenario.tone + 3 < getSampleCount Scenario.tone
   /\ Track.GetAudio (Some [100; 32700; -5]) 3 2 Scenario.playing_a
      = Fault FloatToIntOverflow)
  /\ ('(_, ll) <- LoopLauncher.Initialize Scenario.loud_files
                    [("t1", ["l1"]); ("t2", ["l2"])] LoopLauncher.default ;;
      '(more, ll') <- LoopLauncher.onGetData
                        (LoopLauncher.Play
                           (snd (LoopLauncher.UpdatePendingClips
                                   ["l1"; "l2"] ll))) ;;
      Done (more, LoopLauncher.m_vMixBuffer ll'))
     = Done (true, [32766; 32766])
  /\ ('(_, ll) <- LoopLauncher.Initialize Scenario.loud_files
                    Scenario.three_loud_tracks LoopLauncher.default ;;
      LoopLauncher.onGetData
        (LoopLauncher.Play
           (snd (LoopLauncher.UpdatePendingClips ["l1"; "l2"; "l3"] ll))))
     = Fault FloatToIntOverflow.
Proof. repeat split; vm_compute; reflexivity. Qed.

(** C4, amended.  Take a call of [GetAudio] with a mix buffer of at least
    [nSamplesDesired] slots and an active clip, on a window that ends
    before the end of the clip ([offset + nSamplesDesired < length]).
    - When every sum of a slot and half the sample fits [sf::Int16], the
      call returns success, leaves the track (its active and pending
      clips) as it was, and adds to each of the first [nSamplesDesired]
      slots the sample at [offset + x] scaled by 0.5: the slot holds
      [Track.mixed], the sum of its old value and half the sample,
      truncated toward zero.  The other slots keep their values.
    - When one of these sums does not fit, the conversion of the sum to
      [sf::Int16] is undefined, and with it the behaviour of the call: the
      embedding ends in the fault [FloatToIntOverflow]. *)
Theorem C4_GetAudio_inside_clip (tr : Track.t) (act : string)
    (clip : SoundBuffer) (mix : list Z) (n pos : Z) :
  Track.m_pPendingTrack tr = Some act ->
  StdMap.find act (Track.m_mapClips tr) = Some clip ->
  getSampleCount clip <= INT_MAX ->
  0 <= n <= INT_MAX -> 0 <= pos <= INT_MAX ->
  n <= Z.of_nat (length mix) ->
  Forall is_i16 mix -> Forall is_i16 (getSamples clip) ->
  pos mod getSampleCount clip + n < getSampleCount clip ->
  ((forall x, 0 <= x < n ->
      is_i16 (Track.mixed (zth mix x)
                (zth (getSamples clip) (pos mod getSampleCount clip + x)))) ->
   exists mix',
     Track.GetAudio (Some mix) n pos tr = Done (true, tr, Some mix')
     /\ length mix' = length mix
     /\ (forall x, 0 <= x < n ->
           zth mix' x
           = Track.mixed (zth mix x)
               (zth (getSamples clip) (pos mod getSampleCount clip + x))
           /\ Z.abs (2 * zth mix' x
                     - (2 * zth mix x
                        + zth (getSamples clip)
                              (pos mod getSampleCount clip + x))) <= 1)
     /\ (forall x, n <= x -> zth mix' x = zth mix x))
  /\ (forall x, 0 <= x < n ->
        ~ is_i16 (Track.mixed (zth mix x)
                    (zth (getSamples clip) (pos mod getSampleCount clip + x))) ->
        Track.GetAudio (Some mix) n pos tr = Fault FloatToIntOverflow).
Proof.
  intros Ha Hf Hc Hn Hp Hlen Hmix Hs Hin. split.
  - intros Hok.
    destruct (GetAudio_inside tr act clip mix n pos)
      as (mix' & E & L & _ & HZ); try assumption.
    exists mix'. split; [assumption|]. split; [assumption|]. split.
    + intros x Hx. rewrite (HZ x) by lia.
      destruct (Z.ltb_spec x n); [|lia]. split; [reflexivity | apply mixed_close].
    + intros x Hx. rewrite (HZ x) by lia.
      destruct (Z.ltb_spec x n); [lia | reflexivity].
  - intros x Hx Hover.
    apply (GetAudio_inside_overflow tr act clip mix n pos x); assumption.
Qed.

Lemma C4_GetAudio_inside_clip_witness :
  2 mod getSampleCount Scenario.tone + 3 < getSampleCount Scenario.tone
  /\ (exists mix',
        Track.GetAudio (Some [10; -7; 3; 9]) 3 2 Scenario.playing_a_then_b
        = Done (true, Scenario.playing_a_then_b, Some mix')
        /\ length mix' = 4%nat
        /\ (forall x, 0 <= x < 3 ->
              zth mix' x
              = Track.mixed (zth [10; -7; 3; 9] x)
                  (zth (getSamples Scenario.tone)
                       (2 mod getSampleCount Scenario.tone + x))
              /\ Z.abs (2 * zth mix' x
                        - (2 * zth [10; -7; 3; 9] x
                           + zth (getSamples Scenario.tone)
                                 (2 mod getSampleCount Scenario.tone + x))) <= 1)
        /\ (forall x, 3 <= x -> zth mix' x = zth [10; -7; 3; 9] x)).
Proof.
  split; [vm_compute; reflexivity|].
  refine (proj1 (C4_GetAudio_inside_clip Scenario.playing_a_then_b "a"
                   Scenario.tone [10; -7; 3; 9] 3 2
                   _ _ _ _ _ _ _ _ _) _).
  - reflexivity.
  - reflexivity.
  - vm_compute. discriminate.
  - vm_compute. split; discriminate.
  - vm_compute. split; discriminate.
  - vm_compute. discriminate.
  - repeat constructor; discriminate.
  - repeat constructor; discriminate.
  - vm_compute. reflexivity.
  - intros x Hx.
    assert (C : x = 0 \/ x = 1 \/ x = 2) by lia.
    destruct C as [-> | [-> | ->]]; vm_compute; split; discriminate.
Defined.

(** ** C5: [LoopLauncher::Initialize] *)

(** C5.  [Initialize] first constructs the requested tracks, which it
    always completes when the sample rates of the decoded files are those
    of an [unsigned int].  With [tracks] the track map at that point,
    [Initialize] returns failure exactly when [tracks] is empty.  When it
    returns success the shared mix buffer has [min / 64] samples (integer
    division), [min] the least sample count of the tracks, and it does
    return success when [tracks] is not empty and that quotient is not
    negative.  When every track holds 44100 samples the buffer has 689
    samples. *)
Theorem C5_Initialize_mix_buffer (loadFromFile : string -> option SoundBuffer)
    (mapTracks : StdMap.t (list string)) (ll : LoopLauncher.t) :
  (forall (file : string) (sBuf : SoundBuffer),
     loadFromFile file = Some sBuf -> 0 <= getSampleRate sBuf < 2 ^ 32) ->
  exists tracks : StdMap.t Track.t,
    LoopLauncher.emplace_tracks loadFromFile mapTracks (LoopLauncher.m_mapTracks ll)
    = Done tracks
    /\ (tracks = []
        <-> exists ll', LoopLauncher.Initialize loadFromFile mapTracks ll
                        = Done (false, ll'))
    /\ (forall ll',
          LoopLauncher.Initialize loadFromFile mapTracks ll = Done (true, ll') ->
          LoopLauncher.m_mapTracks ll' = tracks
          /\ Z.of_nat (length (LoopLauncher.m_vMixBuffer ll'))
             = Z.quot (LoopLauncher.min_sample_count tracks) 64)
    /\ (tracks <> [] -> 0 <= Z.quot (LoopLauncher.min_sample_count tracks) 64 ->
        exists ll', LoopLauncher.Initialize loadFromFile mapTracks ll
                    = Done (true, ll'))
    /\ (tracks <> [] ->
        Forall (fun e => Track.GetSampleCount (snd e) = 44100) tracks ->
        exists ll', LoopLauncher.Initialize loadFromFile mapTracks ll
                    = Done (true, ll')
                    /\ length (LoopLauncher.m_vMixBuffer ll') = 689%nat).
Proof.
  intros Hrates.
  destruct (emplace_tracks_total loadFromFile Hrates mapTracks
              (LoopLauncher.m_mapTracks ll)) as [tracks E].
  exists tracks. split; [exact E|].
  rewrite (Initialize_spec _ _ _ _ E).
  assert (Ok : forall first rest, tracks = first :: rest ->
               0 <= Z.quot (LoopLauncher.min_sample_count tracks) 64 ->
               exists buf, resize (Z.quot (LoopLauncher.min_sample_count tracks) 64)
                                  (LoopLauncher.m_vMixBuffer ll) = Done buf).
  { intros first rest _ Hq. unfold resize.
    destruct (Z.ltb_spec (Z.quot (LoopLauncher.min_sample_count tracks) 64) 0);
      [lia | eexists; reflexivity]. }
  split; [|split; [|split]].
  - split.
    + intros ->. eexists. reflexivity.
    + intros [ll' H]. destruct tracks as [|[name first] rest]; [reflexivity|].
      destruct (resize _ _); discriminate.
  - intros ll' H. destruct tracks as [|[name first] rest]; [discriminate|].
    destruct (resize _ _) as [buf|] eqn:R; [|discriminate].
    cbn [bind] in H. injection H as <-. cbn.
    split; [reflexivity | apply (resize_length _ _ _ R)].
  - intros Hne Hq. destruct tracks as [|[name first] rest]; [congruence|].
    destruct (Ok _ _ eq_refl Hq) as [buf ->]. eexists. reflexivity.
  - intros Hne Hall.
    assert (M : LoopLauncher.min_sample_count tracks = 44100).
    { apply min_sample_count_const; [assumption | unfold INT_MAX; lia | assumption]. }
    destruct tracks as [|[name first] rest]; [congruence|].
    destruct (Ok _ _ eq_refl) as [buf R]; [rewrite M; discriminate|].
    rewrite R. eexists. split; [reflexivity|]. cbn.
    apply resize_length in R. rewrite M in R. change (Z.quot 44100 64) with 689 in R.
    lia.
Qed.

Lemma C5_Initialize_mix_buffer_witness :
  exists ll',
    LoopLauncher.Initialize Scenario.files Scenario.two_tracks
      LoopLauncher.default = Done (true, ll')
    /\ LoopLauncher.m_mapTracks ll' = Scenario.built_tracks
    /\ Z.of_nat (length (LoopLauncher.m_vMixBuffer ll'))
       = Z.quot (LoopLauncher.min_sample_count Scenario.built_tracks) 64.
Proof.
  destruct (C5_Initialize_mix_buffer Scenario.files Scenario.two_tracks
              LoopLauncher.default files_rates)
    as (tracks & E & _ & Hsize & Hsucc & _).
  cbn [LoopLauncher.m_mapTracks LoopLauncher.default] in E.
  rewrite built_tracks_built in E. injection E as <-.
  destruct (Hsucc ltac:(discriminate) ltac:(vm_compute; discriminate))
    as [ll' El].
  exists ll'. split; [exact El | exact (Hsize ll' El)].
Defined.

(** ** C6: [Track::SetPendingTrack] *)

(** C6.  [SetPendingTrack (name)] returns whether the track has a clip
    called [name]; the pending clip becomes that clip when there is one and
    none otherwise; the active clip and the clips are left as they are; the
    call always returns.  A second call with the same name changes nothing
    more. *)
Theorem C6_SetPendingTrack (name : string) (tr : Track.t) :
  fst (Track.SetPendingTrack name tr) = Track.HasClip name tr
  /\ Track.m_pPendingClip (snd (Track.SetPendingTrack name tr))
     = (if Track.HasClip name tr then Some name else None)
  /\ match Track.m_pPendingClip (snd (Track.SetPendingTrack name tr)) with
     | Some p =>
         StdMap.find p (Track.m_mapClips (snd (Track.SetPendingTrack name tr)))
         = StdMap.find name (Track.m_mapClips tr)
         /\ StdMap.find name (Track.m_mapClips tr) <> None
     | None => StdMap.find name (Track.m_mapClips tr) = None
     end
  /\ Track.m_pPendingTrack (snd (Track.SetPendingTrack name tr))
     = Track.m_pPendingTrack tr
  /\ Track.m_mapClips (snd (Track.SetPendingTrack name tr)) = Track.m_mapClips tr
  /\ Track.SetPendingTrack name (snd (Track.SetPendingTrack name tr))
     = Track.SetPendingTrack name tr.
Proof.
  repeat split; try apply SetPendingTrack_idempotent;
    unfold Track.SetPendingTrack, Track.HasClip;
    destruct (StdMap.find name (Track.m_mapClips tr)) eqn:E; cbn;
    try reflexivity; try (split; [assumption | discriminate]).
Qed.

(** ** C7: [LoopLauncher::UpdatePendingClips] *)

(** C7 (the code falls short of the claim, and of its own comment
    "Returns true if we actually set a pending clip").  The value returned
    is [m_bNeedsAudio == false], and the flag stays down from an earlier
    call until the next wrap: after a call that staged "y", a call that
    names no clip of any track stages nothing and returns true. *)
Theorem C7_UpdatePendingClips_reports_an_earlier_staging :
  let first := LoopLauncher.UpdatePendingClips ["y"] Scenario.mixer in
  let second := LoopLauncher.UpdatePendingClips ["no such clip"] (snd first) in
  fst first = true
  /\ LoopLauncher.first_track_with "no such clip"
       (LoopLauncher.m_mapTracks (snd first)) = None
  /\ LoopLauncher.m_mapPendingTracks (snd second)
     = LoopLauncher.m_mapPendingTracks (snd first)
  /\ fst second = true.
Proof. repeat split. Qed.

(** ** C8: the rounding of a crossfaded sample *)

(** C8 as stated fails: the value added is not the ceiling of the weighted
    sum [a * val + (1 - a) * nextSample].  While "a" (samples of 1000,
    scaled to 500) fades into "b" (first sample -800) over five samples,
    the first pass has [a = 4 / 5] and the weighted sum is exactly 240, the
    second has [a = 3 / 5] and the sum is exactly -20; the code adds 241
    and -19, because the weight, the two products and the sum are each
    rounded to binary32 before [ceilf] is applied. *)
Lemma C8_counterexample_rounded_operations :
  Track.m_pPendingTrack Scenario.playing_a_then_b = Some "a"
  /\ Track.m_nFadeSamples Scenario.playing_a_then_b = 5
  /\ Track.nextSample Scenario.playing_a_then_b = Done (-800)
  /\ Track.GetAudio (Some [0; 0; 0; 0; 0]) 5 3 Scenario.playing_a_then_b
     = Done (true, Track.with_active (Some "b") Scenario.playing_a_then_b,
             Some [241; -19; -280; -540; -800])
  /\ map (fun j => Claimed.crossfaded 5 j (Z.quot 1000 2) (-800))
         [1; 2; 3; 4; 5]
     = [240; -20; -280; -540; -800].
Proof. repeat split; vm_compute; reflexivity. Qed.

(** C8, amended.  In a call of [GetAudio] on a window that ends at the end
    of the active clip, with a fade of [F <= 2 ^ 21] samples, every slot
    [x] of the crossfade segment receives [c], added to what the slot holds
    (the sum wraps to [sf::Int16]), where, with [j] the number of the pass,
    [val] the sample scaled by 0.5 and truncated, and [nextSample] the
    first sample of the pending clip (0 without one):
    - [c] is the ceiling of the sum as binary32 arithmetic computes it,
      every operation rounded on its own: the weight
      [a = 1.f - float (j) / float (F)], the products [a * val] and
      [(1.f - a) * nextSample], and their sum;
    - that sum is within [1 / 32] of the exact weighted sum
      [a * val + (1 - a) * nextSample] for [a = 1 - j / F], so that [c] is
      the ceiling the claim names or differs from it by one;
    - [c] always fits [sf::Int16]: the conversion is defined and there is
      nothing to clamp (the code has no clamp).
    Only the sums of the plain segment are assumed to fit [sf::Int16]. *)
Theorem C8_crossfade_adds_the_ceiling (tr : Track.t) (act : string)
    (clip : SoundBuffer) (mix : list Z) (n pos next : Z) :
  Track.m_pPendingTrack tr = Some act ->
  StdMap.find act (Track.m_mapClips tr) = Some clip ->
  0 < getSampleCount clip <= INT_MAX ->
  0 <= n <= INT_MAX -> 0 <= pos <= INT_MAX ->
  0 <= Track.m_nFadeSamples tr <= n -> Track.m_nFadeSamples tr <= 2 ^ 21 ->
  n <= Z.of_nat (length mix) ->
  Forall is_i16 mix -> Forall is_i16 (getSamples clip) ->
  pos mod getSampleCount clip + n = getSampleCount clip ->
  Track.nextSample tr = Done next -> is_i16 next ->
  (forall x, 0 <= x < n - Track.m_nFadeSamples tr ->
     is_i16 (Track.mixed (zth mix x)
               (zth (getSamples clip) (pos mod getSampleCount clip + x)))) ->
  exists mix',
    Track.GetAudio (Some mix) n pos tr
    = Done (true, Track.with_active (Track.m_pPendingClip tr) tr, Some mix')
    /\ forall x, n - Track.m_nFadeSamples tr <= x < n ->
         let nFade := Track.m_nFadeSamples tr in
         let j := x - (n - nFade) + 1 in
         let val := Z.quot (zth (getSamples clip)
                                (pos mod getSampleCount clip + x)) 2 in
         let a := F32.sub F32.one (F32.div (F32.of_int j) (F32.of_int nFade)) in
         exists c,
           zth mix' x = to_i16 (zth mix x + c)
           /\ is_ceiling c
                (F32.add (F32.mul a (F32.of_int val))
                         (F32.mul (F32.sub F32.one a) (F32.of_int next)))
           /\ Claimed.ceiling_near c
                (Claimed.weighted_sum (Claimed.fade_weight nFade j) val next)
           /\ Z.abs (c - Claimed.crossfaded nFade j val next) <= 1
           /\ clamp_i16 c = c.
Proof.
  intros Ha Hf Hc Hn Hp HF HF21 Hlen Hmix Hs Hin Hnext Hnx Hplain.
  destruct (GetAudio_crossing_total tr act clip mix n pos next)
    as (mix' & E & _ & _ & HZ); try assumption.
  exists mix'. split; [assumption|].
  intros x Hx. cbv zeta. destruct (HZ x ltac:(lia)) as (_ & H2 & _).
  destruct (H2 Hx) as (c & Rc & Cc & Ez).
  assert (Bo : 0 <= pos mod getSampleCount clip < getSampleCount clip)
    by (apply Z.mod_pos_bound; lia).
  assert (Hsx : is_i16 (zth (getSamples clip) (pos mod getSampleCount clip + x))).
  { apply Forall_zth; [assumption|].
    change (Z.of_nat (length (getSamples clip))) with (getSampleCount clip).
    lia. }
  pose proof (quot2_range _ Hsx) as Hval.
  destruct (crossfaded_near (Track.m_nFadeSamples tr)
              (x - (n - Track.m_nFadeSamples tr) + 1)
              (Z.quot (zth (getSamples clip)
                           (pos mod getSampleCount clip + x)) 2)
              next c) as [N1 N2]; try assumption; try lia.
  exists c. split; [assumption|]. split; [exact Cc|].
  split; [exact N1|]. split; [exact N2|]. apply clamp_i16_id, Rc.
Qed.

Lemma C8_crossfade_adds_the_ceiling_witness :
  3 mod getSampleCount Scenario.tone + 5 = getSampleCount Scenario.tone
  /\ exists mix',
       Track.GetAudio (Some [3; 3; 3; 3; 3]) 5 3 Scenario.playing_a_then_b
       = Done (true,
               Track.with_active (Track.m_pPendingClip Scenario.playing_a_then_b)
                 Scenario.playing_a_then_b,
               Some mix')
       /\ forall x, 5 - 5 <= x < 5 ->
            exists c,
              zth mix' x = to_i16 (zth [3; 3; 3; 3; 3] x + c)
              /\ is_ceiling c
                   (F32.add
                      (F32.mul
                         (F32.sub F32.one
                            (F32.div (F32.of_int (x - (5 - 5) + 1))
                                     (F32.of_int 5)))
                         (F32.of_int
                            (Z.quot (zth (getSamples Scenario.tone)
                                         (3 mod getSampleCount Scenario.tone + x))
                                    2)))
                      (F32.mul
                         (F32.sub F32.one
                            (F32.sub F32.one
                               (F32.div (F32.of_int (x - (5 - 5) + 1))
                                        (F32.of_int 5))))
                         (F32.of_int (-800))))
              /\ Claimed.ceiling_near c
                   (Claimed.weighted_sum
                      (Claimed.fade_weight 5 (x - (5 - 5) + 1))
                      (Z.quot (zth (getSamples Scenario.tone)
                                   (3 mod getSampleCount Scenario.tone + x)) 2)
                      (-800))
              /\ Z.abs (c - Claimed.crossfaded 5 (x - (5 - 5) + 1)
                              (Z.quot (zth (getSamples Scenario.tone)
                                           (3 mod getSampleCount Scenario.tone
                                            + x)) 2)
                              (-800)) <= 1
              /\ clamp_i16 c = c.
Proof.
  split; [reflexivity|].
  apply (C8_crossfade_adds_the_ceiling Scenario.playing_a_then_b "a"
           Scenario.tone [3; 3; 3; 3; 3] 5 3 (-800)).
  - reflexivity.
  - reflexivity.
  - vm_compute. split; [reflexivity | discriminate].
  - vm_compute. split; discriminate.
  - vm_compute. split; discriminate.
  - vm_compute. split; discriminate.
  - vm_compute. discriminate.
  - vm_compute. discriminate.
  - repeat constructor; discriminate.
  - repeat constructor; discriminate.
  - reflexivity.
  - reflexivity.
  - vm_compute. split; discriminate.
  - intros x Hx. exfalso.
    change (Track.m_nFadeSamples Scenario.playing_a_then_b) with 5 in Hx. lia.
Defined.

(** ** C9: a track without clips *)

(** C9.  A track that holds no clip reports a sample count, a sample rate
    and a channel count of 1.  The decoder being what it is (the sample
    rate of a decoded file is an [unsigned int]; a file without samples is
    refused and the sample count fits an [int]), [Initialize] completes
    the construction of the tracks, and when one of them holds no clip the
    least sample count is 1, the mix buffer is resized to [1 / 64 = 0]
    samples, [Initialize] returns success all the same, and [onGetData]
    returns failure and leaves the mixer as it is, also after any number of
    requests staged by [UpdatePendingClips]. *)
Theorem C9_track_without_clips (loadFromFile : string -> option SoundBuffer)
    (mapTracks : StdMap.t (list string)) (ll : LoopLauncher.t) :
  (forall (file : string) (sBuf : SoundBuffer),
     loadFromFile file = Some sBuf ->
     0 <= getSampleRate sBuf < 2 ^ 32
     /\ 1 <= getSampleCount sBuf <= INT_MAX) ->
  Forall (fun e => 1 <= Track.GetSampleCount (snd e) <= INT_MAX)
         (LoopLauncher.m_mapTracks ll) ->
  (forall ghost : Track.t,
     Track.m_mapClips ghost = [] ->
     Track.GetSampleCount ghost = 1
     /\ Track.GetSampleRate ghost = 1
     /\ Track.GetChannelCount ghost = 1)
  /\ exists tracks : StdMap.t Track.t,
       LoopLauncher.emplace_tracks loadFromFile mapTracks
         (LoopLauncher.m_mapTracks ll) = Done tracks
       /\ ((exists name ghost,
              In (name, ghost) tracks /\ Track.m_mapClips ghost = []) ->
           LoopLauncher.min_sample_count tracks = 1
           /\ exists ll',
                LoopLauncher.Initialize loadFromFile mapTracks ll = Done (true, ll')
                /\ LoopLauncher.m_vMixBuffer ll' = []
                /\ LoopLauncher.onGetData ll' = Done (false, ll')
                /\ forall requests : list (list string),
                     let ll'' :=
                       fold_left
                         (fun l clips =>
                            snd (LoopLauncher.UpdatePendingClips clips l))
                         requests ll' in
                     LoopLauncher.onGetData ll'' = Done (false, ll'')).
Proof.
  intros Hdec Hll.
  assert (Getters : forall ghost : Track.t,
            Track.m_mapClips ghost = [] ->
            Track.GetSampleCount ghost = 1
            /\ Track.GetSampleRate ghost = 1
            /\ Track.GetChannelCount ghost = 1).
  { intros ghost Hg.
    unfold Track.GetSampleCount, Track.GetSampleRate, Track.GetChannelCount.
    rewrite Hg. repeat split. }
  split; [exact Getters|].
  destruct (emplace_tracks_total loadFromFile
              (fun file sBuf H => proj1 (Hdec file sBuf H)) mapTracks
              (LoopLauncher.m_mapTracks ll)) as [tracks E].
  exists tracks. split; [exact E|].
  intros (name & ghost & Hin & Hg).
  pose proof (emplace_tracks_counts loadFromFile
                (fun file sBuf H => proj2 (Hdec file sBuf H)) mapTracks
                _ _ E Hll) as Hall.
  destruct (Getters ghost Hg) as (G & _).
  assert (M : LoopLauncher.min_sample_count tracks = 1).
  { apply Z.le_antisymm.
    - rewrite <- G. apply (min_sample_count_le tracks (name, ghost) Hin).
    - apply min_sample_count_ge; [unfold INT_MAX; lia|].
      apply (Forall_impl _ (P := fun e => 1 <= Track.GetSampleCount (snd e) <= INT_MAX));
        [intros e He; lia | exact Hall]. }
  split; [assumption|].
  rewrite (Initialize_spec _ _ _ _ E).
  destruct tracks as [|[k first] rest]; [destruct Hin|].
  rewrite M. change (Z.quot 1 64) with 0.
  change (resize 0 (LoopLauncher.m_vMixBuffer ll)) with (Done (@nil Z)).
  cbn [bind]. eexists. split; [reflexivity|].
  split; [reflexivity|]. split; [reflexivity|].
  intros requests.
  match goal with |- context [fold_left ?f requests ?l0] =>
    assert (B : forall l, LoopLauncher.m_vMixBuffer l = [] ->
                  LoopLauncher.m_vMixBuffer (fold_left f requests l) = [])
  end.
  { induction requests as [|clips more IH]; intros l Hl; [assumption|].
    cbn [fold_left]. apply IH.
    unfold LoopLauncher.UpdatePendingClips.
    destruct (LoopLauncher.stage _ _ _ _). assumption. }
  cbv zeta. unfold LoopLauncher.onGetData at 1. rewrite B; reflexivity.
Qed.

Lemma C9_track_without_clips_witness :
  LoopLauncher.min_sample_count Scenario.built_with_empty = 1
  /\ exists ll',
       LoopLauncher.Initialize Scenario.files Scenario.with_empty_track
         LoopLauncher.default = Done (true, ll')
       /\ LoopLauncher.m_vMixBuffer ll' = []
       /\ LoopLauncher.onGetData ll' = Done (false, ll').
Proof.
  destruct (C9_track_without_clips Scenario.files Scenario.with_empty_track
              LoopLauncher.default files_decoded (Forall_nil _))
    as (_ & tracks & E & H).
  destruct built_with_empty_built as [B I].
  cbn [LoopLauncher.m_mapTracks LoopLauncher.default] in E.
  rewrite B in E. injection E as <-.
  destruct (H (ex_intro _ "ghost" (ex_intro _ Track.default (conj I eq_refl))))
    as (M & ll' & E1 & E2 & E3 & _).
  split; [exact M|]. exists ll'. repeat split; assumption.
Defined.

(** ** C10: the clip called "silence" *)


(** * Further properties of the code *)

(** ** [std::map]: a lookup after an insertion *)

Lemma compare_refl (k : string) : String.compare k k = Eq.
Proof.
  pose proof (String.compare_antisym k k) as A.
  destruct (String.compare k k); cbn in A; congruence.
Qed.

Lemma find_assign_same {V : Type} (k : string) (v : V) (m : StdMap.t V) :
  StdMap.find k (StdMap.assign k v m) = Some v.
Proof.
  induction m as [|[k' v'] m IH]; cbn [StdMap.assign StdMap.find].
  - rewrite String.eqb_refl. reflexivity.
  - destruct (String.compare k k') eqn:C; cbn [StdMap.find];
      rewrite ?String.eqb_refl; try reflexivity.
    destruct (String.eqb_spec k k') as [E | _]; [|exact IH].
    subst k'. rewrite compare_refl in C. discriminate.
Qed.

Lemma find_assign_other {V : Type} (k k0 : string) (v : V) (m : StdMap.t V) :
  k0 <> k -> StdMap.find k0 (StdMap.assign k v m) = StdMap.find k0 m.
Proof.
  intros Hne. apply String.eqb_neq in Hne.
  induction m as [|[k' v'] m IH]; cbn [StdMap.assign StdMap.find].
  - rewrite Hne. reflexivity.
  - destruct (String.compare k k') eqn:C; cbn [StdMap.find].
    + apply String.compare_eq_iff in C. subst k'. rewrite Hne. reflexivity.
    + rewrite Hne. reflexivity.
    + destruct (String.eqb k0 k'); [reflexivity | exact IH].
Qed.

Lemma find_assign {V : Type} (k k0 : string) (v : V) (m : StdMap.t V) :
  StdMap.find k0 (StdMap.assign k v m)
  = if String.eqb k0 k then Some v else StdMap.find k0 m.
Proof.
  destruct (String.eqb_spec k0 k) as [-> | Hne].
  - apply find_assign_same.
  - apply find_assign_other. assumption.
Qed.

Lemma find_emplace {V : Type} (k k0 : string) (v : V) (m : StdMap.t V) :
  StdMap.find k0 (StdMap.emplace k v m)
  = match StdMap.find k0 m with
    | Some old => Some old
    | None => if String.eqb k0 k then Some v else None
    end.
Proof.
  unfold StdMap.emplace. destruct (StdMap.find k m) as [old|] eqn:E.
  - destruct (StdMap.find k0 m) eqn:E0; [reflexivity|].
    destruct (String.eqb_spec k0 k) as [-> | _]; [congruence | reflexivity].
  - rewrite find_assign. destruct (String.eqb_spec k0 k) as [-> | _].
    + rewrite E. reflexivity.
    + destruct (StdMap.find k0 m); reflexivity.
Qed.

(** ** [Track::Track (std::list<std::string>)] and [Track::AddClip] *)

Lemma AddClip_find (loadFromFile : string -> option SoundBuffer)
    (file name : string) (tr tr' : Track.t) (r : bool) :
  Track.AddClip loadFromFile file tr = Done (r, tr') ->
  StdMap.find name (Track.m_mapClips tr')
  = (if String.eqb name file
     then match loadFromFile file with
          | Some sBuf => Some sBuf
          | None => StdMap.find name (Track.m_mapClips tr)
          end
     else StdMap.find name (Track.m_mapClips tr))
  /\ Track.m_pPendingTrack tr' = Track.m_pPendingTrack tr
  /\ Track.m_pPendingClip tr' = Track.m_pPendingClip tr.
Proof.
  unfold Track.AddClip. destruct (loadFromFile file) as [sBuf|].
  - destruct (if (Track.m_nFadeSamples tr =? 0)%Z
              then lift FloatToIntOverflow (Track.fadeSamples sBuf)
              else Done (Track.m_nFadeSamples tr)) as [fade|];
      cbn [bind]; [|discriminate].
    intros [= _ <-]. cbn [Track.m_mapClips Track.m_pPendingTrack Track.m_pPendingClip].
    rewrite find_assign. repeat split.
  - intros [= _ <-]. destruct (String.eqb name file); repeat split.
Qed.

Lemma AddClips_find (loadFromFile : string -> option SoundBuffer)
    (name : string) (liFileNames : list string) :
  forall tr tr' : Track.t,
    Track.AddClips loadFromFile liFileNames tr = Done tr' ->
    StdMap.find name (Track.m_mapClips tr')
    = (if existsb (String.eqb name) liFileNames
       then match loadFromFile name with
            | Some sBuf => Some sBuf
            | None => StdMap.find name (Track.m_mapClips tr)
            end
       else StdMap.find name (Track.m_mapClips tr))
    /\ Track.m_pPendingTrack tr' = Track.m_pPendingTrack tr
    /\ Track.m_pPendingClip tr' = Track.m_pPendingClip tr.
Proof.
  induction liFileNames as [|file rest IH]; intros tr tr';
    cbn [Track.AddClips existsb].
  - intros [= <-]. repeat split.
  - destruct (Track.AddClip loadFromFile file tr) as [[r tr1]|] eqn:E;
      cbn [bind]; [|discriminate].
    intros H. destruct (IH _ _ H) as (F & A & P).
    destruct (AddClip_find _ _ name _ _ _ E) as (F1 & A1 & P1).
    split; [|split; congruence].
    rewrite F, F1.
    destruct (String.eqb_spec name file) as [-> | _]; cbn [orb].
    + destruct (loadFromFile file); destruct (existsb _ rest); reflexivity.
    + reflexivity.
Qed.

(** X1.  A track constructed from a list of file names holds exactly the
    files of the list that decode, each under its file name; the files
    that fail to decode are skipped without an error, and the new track has
    neither an active nor a pending clip.  (The sample rate of a decoded
    file is an [unsigned int].) *)
Theorem X1_track_holds_the_files_that_decode
    (loadFromFile : string -> option SoundBuffer) (liFileNames : list string) :
  (forall file sBuf, loadFromFile file = Some sBuf ->
     0 <= getSampleRate sBuf < 2 ^ 32) ->
  exists tr,
    Track.of_files loadFromFile liFileNames = Done tr
    /\ Track.m_pPendingTrack tr = None
    /\ Track.m_pPendingClip tr = None
    /\ forall name,
         StdMap.find name (Track.m_mapClips tr)
         = (if existsb (String.eqb name) liFileNames
            then loadFromFile name else None)
         /\ Track.HasClip name tr
            = existsb (String.eqb name) liFileNames
              && match loadFromFile name with Some _ => true | None => false end.
Proof.
  intros rates. unfold Track.of_files.
  destruct (AddClips_total loadFromFile rates liFileNames Track.default)
    as (tr & E).
  exists tr. split; [exact E|].
  pose proof (fun name => AddClips_find loadFromFile name liFileNames _ _ E) as H.
  split; [exact (proj1 (proj2 (H EmptyString))) |].
  split; [exact (proj2 (proj2 (H EmptyString))) |].
  intros name. destruct (H name) as (F & _ & _). cbn in F.
  assert (F' : StdMap.find name (Track.m_mapClips tr)
               = if existsb (String.eqb name) liFileNames
                 then loadFromFile name else None).
  { rewrite F. destruct (existsb _ _); [|reflexivity].
    destruct (loadFromFile name); reflexivity. }
  split; [exact F'|].
  unfold Track.HasClip. rewrite F'.
  destruct (existsb _ _); [|reflexivity]. destruct (loadFromFile name); reflexivity.
Qed.

Lemma X1_track_holds_the_files_that_decode_witness :
  exists tr,
    Track.of_files Scenario.files ["b"; "no such file"; "a"] = Done tr
    /\ Track.m_pPendingTrack tr = None
    /\ Track.m_pPendingClip tr = None
    /\ forall name,
         StdMap.find name (Track.m_mapClips tr)
         = (if existsb (String.eqb name) ["b"; "no such file"; "a"]
            then Scenario.files name else None)
         /\ Track.HasClip name tr
            = existsb (String.eqb name) ["b"; "no such file"; "a"]
              && match Scenario.files name with Some _ => true | None => false end.
Proof.
  apply (X1_track_holds_the_files_that_decode Scenario.files).
  exact files_rates.
Defined.

(** ** [Track::GetAudio] *)

Lemma copy_loop_outside (samples : list Z) :
  forall (n : nat) (i p p' : Z) (mix mix' : list Z),
    Track.copy_loop samples n i p mix = Done (p', mix') ->
    forall x, 0 <= x -> x < i \/ i + Z.of_nat n <= x -> zth mix' x = zth mix x.
Proof.
  induction n as [|n IH]; intros i p p' mix mix' H x Hx Hout.
  - cbn in H. injection H as _ <-. reflexivity.
  - cbn [Track.copy_loop] in H.
    destruct (load ClipSamples samples p) as [s|]; [|discriminate].
    destruct (load MixBuffer mix i) as [m|]; [|discriminate].
    cbn [bind] in H.
    destruct (Track.mix_plain m s) as [v|]; [|discriminate]. cbn [lift bind] in H.
    destruct (store MixBuffer mix i v) as [mix1|] eqn:St; [|discriminate].
    cbn [bind] in H. rewrite Nat2Z.inj_succ in Hout.
    rewrite (IH _ _ _ _ _ H x Hx) by lia.
    pose proof (store_done _ _ _ _ _ St) as [Hi _].
    unfold store in St. rewrite (proj2 (in_bounds_true mix i) Hi) in St.
    injection St as <-. rewrite zth_set_nth by lia.
    destruct (Z.eqb_spec x i); [lia | reflexivity].
Qed.

Lemma fade_loop_outside (samples : list Z) (nFade next : Z) :
  forall (n : nat) (i p j : Z) (mix mix' : list Z),
    Track.fade_loop samples nFade next n i p j mix = Done mix' ->
    forall x, 0 <= x -> x < i \/ i + Z.of_nat n <= x -> zth mix' x = zth mix x.
Proof.
  induction n as [|n IH]; intros i p j mix mix' H x Hx Hout.
  - cbn in H. injection H as <-. reflexivity.
  - cbn [Track.fade_loop] in H. cbv zeta in H.
    destruct (load ClipSamples samples p) as [s|]; [|discriminate].
    cbn [bind] in H.
    destruct (Track.fade_val s) as [val|]; [|discriminate]. cbn [lift bind] in H.
    destruct (Track.fade_iVal _ val next) as [iVal|]; [|discriminate].
    cbn [lift bind] in H.
    destruct (load MixBuffer mix i) as [m|]; [|discriminate].
    cbn [bind] in H.
    destruct (store MixBuffer mix i _) as [mix1|] eqn:St; [|discriminate].
    cbn [bind] in H. rewrite Nat2Z.inj_succ in Hout.
    rewrite (IH _ _ _ _ _ H x Hx) by lia.
    pose proof (store_done _ _ _ _ _ St) as [Hi _].
    unfold store in St. rewrite (proj2 (in_bounds_true mix i) Hi) in St.
    injection St as <-. rewrite zth_set_nth by lia.
    destruct (Z.eqb_spec x i); [lia | reflexivity].
Qed.

Lemma bootstrap_fields (tr : Track.t) :
  Track.m_mapClips (Track.bootstrap tr) = Track.m_mapClips tr
  /\ Track.m_nFadeSamples (Track.bootstrap tr) = Track.m_nFadeSamples tr
  /\ Track.m_nSampleCount (Track.bootstrap tr) = Track.m_nSampleCount tr
  /\ Track.m_pPendingClip (Track.bootstrap tr) = Track.m_pPendingClip tr.
Proof.
  destruct tr as [f c m [a|] [p|]]; repeat split; reflexivity.
Qed.

Lemma bootstrap_none (tr : Track.t) :
  Track.m_pPendingTrack (Track.bootstrap tr) = None ->
  Track.m_pPendingTrack tr = None /\ Track.m_pPendingClip tr = None
  /\ Track.bootstrap tr = tr.
Proof.
  destruct tr as [f c m [a|] [p|]]; cbn; intros H; try discriminate;
    repeat split; reflexivity.
Qed.

(** What [GetAudio] returns once the pointer check and the bootstrap are
    behind: the two loops, on the active clip. *)
Lemma GetAudio_done (mix : list Z) (n pos : Z) (tr tr' : Track.t) (r : bool)
    (pMix : option (list Z)) :
  Track.GetAudio (Some mix) n pos tr = Done (r, tr', pMix) ->
  (Track.m_pPendingTrack (Track.bootstrap tr) = None
   /\ r = false /\ tr' = Track.bootstrap tr /\ pMix = Some mix)
  \/ exists act clip last p mix1,
       Track.m_pPendingTrack (Track.bootstrap tr) = Some act
       /\ StdMap.find act (Track.m_mapClips tr) = Some clip
       /\ getSampleCount clip <> 0
       /\ r = true
       /\ Track.copy_loop (getSamples clip) (Z.to_nat last) 0
            (to_int (to_u64 pos mod getSampleCount clip)) mix = Done (p, mix1)
       /\ ((last = n /\ tr' = Track.bootstrap tr /\ pMix = Some mix1)
           \/ exists next mix2,
                last = to_int (n - Track.m_nFadeSamples tr)
                /\ Track.fade_loop (getSamples clip) (Track.m_nFadeSamples tr)
                     next (Z.to_nat (n - last)) last p 0 mix1 = Done mix2
                /\ tr' = Track.with_active (Track.m_pPendingClip tr)
                           (Track.bootstrap tr)
                /\ pMix = Some mix2).
Proof.
  unfold Track.GetAudio.
  destruct (bootstrap_fields tr) as (Ec & Ef & _ & Ep).
  destruct (Track.m_pPendingTrack (Track.bootstrap tr)) as [act|] eqn:Ea.
  - unfold Track.deref. rewrite Ec.
    destruct (StdMap.find act (Track.m_mapClips tr)) as [clip|] eqn:Efind;
      cbn [lift bind]; [|discriminate].
    destruct (Z.eqb_spec (getSampleCount clip) 0) as [|Hc]; [discriminate|].
    rewrite Ef, Ep.
    destruct (Z.leb _ _) eqn:Eb.
    + destruct (Track.copy_loop _ _ _ _ _) as [[p mix1]|] eqn:E1;
        cbn [bind]; [|discriminate].
      destruct (Track.nextSample _) as [next|]; cbn [bind]; [|discriminate].
      destruct (Track.fade_loop _ _ _ _ _ _ _ _) as [mix2|] eqn:E2;
        cbn [bind]; [|discriminate].
      intros [= <- <- <-]. right.
      exists act, clip, (to_int (n - Track.m_nFadeSamples tr)), p, mix1.
      repeat split; try assumption.
      right. exists next, mix2. repeat split. assumption.
    + destruct (Track.copy_loop _ _ _ _ _) as [[p mix1]|] eqn:E1;
        cbn [bind]; [|discriminate].
      intros [= <- <- <-]. right.
      exists act, clip, n, p, mix1. repeat split; try assumption.
      left. repeat split.
  - intros [= <- <- <-]. left. repeat split.
Qed.

(** X2.  [GetAudio] returns false in two cases only: the buffer pointer is
    null, or the track has neither an active nor a pending clip.  In both
    the track and the mix buffer are left as they were. *)
Theorem X2_GetAudio_returns_false_on_an_idle_track
    (pMixBuffer pMix' : option (list Z)) (n pos : Z) (tr tr' : Track.t)
    (r : bool) :
  Track.GetAudio pMixBuffer n pos tr = Done (r, tr', pMix') ->
  (r = false <->
   pMixBuffer = None
   \/ (Track.m_pPendingTrack tr = None /\ Track.m_pPendingClip tr = None))
  /\ (r = false -> tr' = tr /\ pMix' = pMixBuffer).
Proof.
  destruct pMixBuffer as [mix|].
  - intros H. destruct (GetAudio_done _ _ _ _ _ _ _ H)
      as [(Ea & Er & Et & Em) | (act & clip & last & p & mix1 & Ea & _ & _ & Er & _)].
    + destruct (bootstrap_none _ Ea) as (A & P & B). rewrite B in Et.
      split; [|intros _; split; assumption].
      split; [intros _; right; split; assumption | intros _; assumption].
    + subst r. split; [|discriminate]. split; [discriminate|].
      intros [N | [A P]]; [discriminate|].
      unfold Track.bootstrap in Ea. rewrite A, P in Ea. rewrite A in Ea. discriminate.
  - cbn. intros [= <- <- <-]. split; [|intros _; split; reflexivity].
    split; [intros _; left; reflexivity | reflexivity].
Qed.

Lemma X2_GetAudio_returns_false_on_an_idle_track_witness :
  (false = false <->
   Some [7; 7] = None
   \/ (Track.m_pPendingTrack Scenario.track_ab = None
       /\ Track.m_pPendingClip Scenario.track_ab = None))
  /\ (false = false ->
      Scenario.track_ab = Scenario.track_ab /\ Some [7; 7] = Some [7; 7]).
Proof.
  apply (X2_GetAudio_returns_false_on_an_idle_track (Some [7; 7]) (Some [7; 7])
           2 0 Scenario.track_ab Scenario.track_ab false).
  reflexivity.
Defined.

(** X3.  A call of [GetAudio] that returns keeps the length of the mix
    buffer and every sample from index [nSamplesDesired] on; it changes
    neither the clips of the track, nor its fade length and sample count,
    nor its pending clip. *)
Theorem X3_GetAudio_writes_the_window_only
    (mix : list Z) (n pos : Z) (tr tr' : Track.t) (r : bool)
    (pMix : option (list Z)) :
  0 <= n <= INT_MAX -> 0 <= Track.m_nFadeSamples tr <= INT_MAX ->
  Track.GetAudio (Some mix) n pos tr = Done (r, tr', pMix) ->
  exists mix',
    pMix = Some mix'
    /\ length mix' = length mix
    /\ (forall x, n <= x -> zth mix' x = zth mix x)
    /\ Track.m_mapClips tr' = Track.m_mapClips tr
    /\ Track.m_nFadeSamples tr' = Track.m_nFadeSamples tr
    /\ Track.m_nSampleCount tr' = Track.m_nSampleCount tr
    /\ Track.m_pPendingClip tr' = Track.m_pPendingClip tr.
Proof.
  intros Hn HF H. destruct (bootstrap_fields tr) as (Ec & Ef & Es & Ep).
  destruct (GetAudio_done _ _ _ _ _ _ _ H)
    as [(_ & _ & -> & ->) | (act & clip & last & p & mix1 & _ & _ & _ & _ & E1 & Hrest)].
  - exists mix. repeat split; assumption.
  - pose proof (copy_loop_done _ _ _ _ _ _ _ E1) as (_ & L1 & _).
    pose proof (copy_loop_outside _ _ _ _ _ _ _ E1) as O1.
    destruct Hrest as [(-> & -> & ->) | (next & mix2 & El & E2 & -> & ->)].
    + exists mix1. repeat split; try assumption.
      intros x Hx. apply O1; lia.
    + assert (El' : last = n - Track.m_nFadeSamples tr).
      { rewrite El. apply to_int_id. unfold INT_MAX in *. lia. }
      pose proof (fade_loop_done _ _ _ _ _ _ _ _ _ E2) as (L2 & _).
      pose proof (fade_loop_outside _ _ _ _ _ _ _ _ _ E2) as O2.
      exists mix2. repeat split; try assumption; try congruence.
      intros x Hx. rewrite O2 by lia. apply O1; lia.
Qed.

Lemma X3_GetAudio_writes_the_window_only_witness :
  exists mix',
    Some [500; 500; 7] = Some mix'
    /\ length mix' = length [0; 0; 7]
    /\ (forall x, 2 <= x -> zth mix' x = zth [0; 0; 7] x)
    /\ Track.m_mapClips Scenario.playing_a = Track.m_mapClips Scenario.playing_a
    /\ Track.m_nFadeSamples Scenario.playing_a
       = Track.m_nFadeSamples Scenario.playing_a
    /\ Track.m_nSampleCount Scenario.playing_a
       = Track.m_nSampleCount Scenario.playing_a
    /\ Track.m_pPendingClip Scenario.playing_a
       = Track.m_pPendingClip Scenario.playing_a.
Proof.
  apply (X3_GetAudio_writes_the_window_only [0; 0; 7] 2 0 Scenario.playing_a
           Scenario.playing_a true (Some [500; 500; 7])).
  - unfold INT_MAX. lia.
  - vm_compute. split; discriminate.
  - vm_compute. reflexivity.
Defined.

(** X4.  The first call of [GetAudio] on a track that has a pending clip
    and no active one makes the pending clip the active one: when the call
    returns, it returns true and the clip is both active and pending. *)
Theorem X4_GetAudio_starts_the_pending_clip
    (mix : list Z) (n pos : Z) (tr tr' : Track.t) (clipName : string)
    (r : bool) (pMix : option (list Z)) :
  Track.m_pPendingTrack tr = None ->
  Track.m_pPendingClip tr = Some clipName ->
  Track.GetAudio (Some mix) n pos tr = Done (r, tr', pMix) ->
  r = true
  /\ Track.m_pPendingTrack tr' = Some clipName
  /\ Track.m_pPendingClip tr' = Some clipName.
Proof.
  intros Ha Hp H.
  assert (Eb : Track.bootstrap tr = Track.with_active (Some clipName) tr).
  { unfold Track.bootstrap. rewrite Ha, Hp. reflexivity. }
  destruct (GetAudio_done _ _ _ _ _ _ _ H)
    as [(Ea & _) | (act & clip & last & p & mix1 & _ & _ & _ & -> & _ & Hrest)].
  - rewrite Eb in Ea. discriminate.
  - split; [reflexivity|].
    destruct Hrest as [(_ & -> & _) | (next & mix2 & _ & _ & -> & _)];
      rewrite Eb; cbn; auto.
Qed.

Lemma X4_GetAudio_starts_the_pending_clip_witness :
  true = true
  /\ Track.m_pPendingTrack
       (Track.bootstrap (snd (Track.SetPendingTrack "a" Scenario.track_ab)))
     = Some "a"
  /\ Track.m_pPendingClip
       (Track.bootstrap (snd (Track.SetPendingTrack "a" Scenario.track_ab)))
     = Some "a".
Proof.
  apply (X4_GetAudio_starts_the_pending_clip [0; 0] 2 0
           (snd (Track.SetPendingTrack "a" Scenario.track_ab))
           (Track.bootstrap (snd (Track.SetPendingTrack "a" Scenario.track_ab)))
           "a" true (Some [500; 500])).
  - reflexivity.
  - reflexivity.
  - vm_compute. reflexivity.
Defined.

(** X5.  A call of [GetAudio] on an active clip returns only when the
    window lies within the clip and the mix buffer: the window ends at or
    before the last sample of the clip, the buffer holds at least
    [nSamplesDesired] samples and, when the window ends on the last sample,
    the fade is no longer than the window.  No other call completes. *)
Theorem X5_GetAudio_returns_only_within_the_clip
    (tr : Track.t) (act : string) (clip : SoundBuffer) (mix : list Z)
    (n pos : Z) (res : bool * Track.t * option (list Z)) :
  Track.m_pPendingTrack tr = Some act ->
  StdMap.find act (Track.m_mapClips tr) = Some clip ->
  0 < getSampleCount clip <= INT_MAX ->
  0 <= n <= INT_MAX -> 0 <= pos <= INT_MAX ->
  0 <= Track.m_nFadeSamples tr <= INT_MAX ->
  Track.GetAudio (Some mix) n pos tr = Done res ->
  pos mod getSampleCount clip + n <= getSampleCount clip
  /\ n <= Z.of_nat (length mix)
  /\ (pos mod getSampleCount clip + n = getSampleCount clip ->
      Track.m_nFadeSamples tr <= n).
Proof.
  intros Ha Hf Hc Hn Hp HF H.
  set (count := getSampleCount clip) in *. set (off := pos mod count) in *.
  set (nFade := Track.m_nFadeSamples tr) in *.
  assert (Bo : 0 <= off < count) by (apply Z.mod_pos_bound; lia).
  destruct (Z.le_gt_cases count (off + n)) as [Hcross | Hin].
  - (* the window reaches the end of the clip *)
    destruct (Z.le_gt_cases nFade n) as [Hshort | Hlong].
    + destruct (Z.le_gt_cases (off + n) count) as [Hend | Hpast].
      * split; [assumption|]. split; [|intros _; assumption].
        rewrite (GetAudio_active tr act clip mix n pos) in H
          by (try assumption; lia).
        cbv zeta in H. fold count off nFade in H.
        destruct (Z.leb_spec count (off + n)) as [_|]; [|lia].
        destruct (Track.copy_loop _ _ _ _ _) as [[p mix1]|] eqn:E1;
          [|discriminate].
        cbn [bind] in H.
        destruct (Track.nextSample tr) as [next|]; [|discriminate].
        cbn [bind] in H.
        destruct (Track.fade_loop _ _ _ _ _ _ _ _) as [mix2|] eqn:E2;
          [|discriminate].
        apply copy_loop_done in E1. destruct E1 as (_ & L1 & B1).
        apply fade_loop_done in E2. destruct E2 as (_ & B2).
        replace (n - (n - nFade)) with nFade in B2 by lia.
        destruct (Z.eq_dec nFade 0) as [E0 | N0].
        -- destruct (Z.eq_dec n 0) as [-> | N]; [lia|].
           assert (Z.to_nat (n - nFade) <> 0%nat) by lia.
           specialize (B1 ltac:(assumption)). lia.
        -- assert (Z.to_nat nFade <> 0%nat) by lia.
           specialize (B2 ltac:(assumption)). lia.
      * exfalso. subst nFade off count.
        destruct (GetAudio_past_end tr act clip mix n pos) as [f E];
          try assumption; try lia.
        congruence.
    + exfalso. subst nFade off count.
      destruct (GetAudio_long_fade tr act clip mix n pos) as [f E];
        try assumption; try lia.
      congruence.
  - (* the window ends before the end of the clip *)
    split; [lia|]. split; [|lia].
    rewrite (GetAudio_active tr act clip mix n pos) in H
      by (try assumption; fold count off; lia).
    cbv zeta in H. fold count off nFade in H.
    destruct (Z.leb_spec count (off + n)) as [|_]; [lia|].
    destruct (Track.copy_loop _ _ _ _ _) as [[p mix1]|] eqn:E1; [|discriminate].
    apply copy_loop_done in E1. destruct E1 as (_ & L1 & B1).
    destruct (Z.eq_dec n 0) as [-> | N]; [lia|].
    assert (Z.to_nat n <> 0%nat) by lia.
    specialize (B1 ltac:(assumption)). lia.
Qed.

Lemma X5_GetAudio_returns_only_within_the_clip_witness :
  0 mod getSampleCount Scenario.tone + 2 <= getSampleCount Scenario.tone
  /\ 2 <= Z.of_nat (length [0; 0; 7])
  /\ (0 mod getSampleCount Scenario.tone + 2 = getSampleCount Scenario.tone ->
      Track.m_nFadeSamples Scenario.playing_a <= 2).
Proof.
  apply (X5_GetAudio_returns_only_within_the_clip Scenario.playing_a "a"
           Scenario.tone [0; 0; 7] 2 0
           (true, Scenario.playing_a, Some [500; 500; 7])).
  - reflexivity.
  - reflexivity.
  - vm_compute. split; [reflexivity | discriminate].
  - unfold INT_MAX. lia.
  - unfold INT_MAX. lia.
  - vm_compute. split; discriminate.
  - vm_compute. reflexivity.
Defined.

(** X6.  The clip loops: [GetAudio] depends on the sample position only
    through its remainder modulo the sample count of the active clip. *)
Theorem X6_GetAudio_depends_on_the_position_modulo_the_clip
    (tr : Track.t) (act : string) (clip : SoundBuffer)
    (pMixBuffer : option (list Z)) (n pos1 pos2 : Z) :
  Track.m_pPendingTrack tr = Some act ->
  StdMap.find act (Track.m_mapClips tr) = Some clip ->
  0 <= pos1 <= INT_MAX -> 0 <= pos2 <= INT_MAX ->
  pos1 mod getSampleCount clip = pos2 mod getSampleCount clip ->
  Track.GetAudio pMixBuffer n pos1 tr = Track.GetAudio pMixBuffer n pos2 tr.
Proof.
  intros Ha Hf H1 H2 E. unfold Track.GetAudio.
  destruct pMixBuffer as [mix|]; [|reflexivity].
  assert (Eb : Track.bootstrap tr = tr).
  { unfold Track.bootstrap. rewrite Ha. reflexivity. }
  rewrite Eb, Ha. unfold Track.deref. rewrite Hf. cbn [lift bind].
  unfold INT_MAX in *.
  rewrite (to_u64_id pos1), (to_u64_id pos2) by lia. rewrite E. reflexivity.
Qed.

Lemma X6_GetAudio_depends_on_the_position_modulo_the_clip_witness :
  Track.GetAudio (Some [0; 0]) 2 19 Scenario.playing_a
  = Track.GetAudio (Some [0; 0]) 2 3 Scenario.playing_a.
Proof.
  apply (X6_GetAudio_depends_on_the_position_modulo_the_clip
           Scenario.playing_a "a" Scenario.tone).
  - reflexivity.
  - reflexivity.
  - unfold INT_MAX. lia.
  - unfold INT_MAX. lia.
  - reflexivity.
Defined.

(** X7.  A track with nothing pending when its window reaches the end of
    the active clip goes silent: once that call has returned, every further
    call of [GetAudio] returns false and leaves the mix buffer and the
    track untouched, until a clip is made pending again. *)
Theorem X7_track_with_nothing_pending_goes_silent
    (tr tr' : Track.t) (act : string) (clip : SoundBuffer) (mix : list Z)
    (n pos : Z) (r : bool) (pMix : option (list Z)) :
  Track.m_pPendingTrack tr = Some act ->
  Track.m_pPendingClip tr = None ->
  StdMap.find act (Track.m_mapClips tr) = Some clip ->
  0 < getSampleCount clip <= INT_MAX ->
  0 <= n <= INT_MAX -> 0 <= pos <= INT_MAX ->
  0 <= Track.m_nFadeSamples tr <= INT_MAX ->
  getSampleCount clip <= pos mod getSampleCount clip + n ->
  Track.GetAudio (Some mix) n pos tr = Done (r, tr', pMix) ->
  Track.m_pPendingTrack tr' = None
  /\ forall (mix2 : list Z) (n2 pos2 : Z),
       Track.GetAudio (Some mix2) n2 pos2 tr' = Done (false, tr', Some mix2).
Proof.
  intros Ha Hpend Hf Hc Hn Hp HF Hcross H.
  destruct (GetAudio_promotes tr tr' act clip mix n pos r pMix) as [_ ->];
    try assumption.
  rewrite Hpend. split; [reflexivity|].
  intros mix2 n2 pos2. unfold Track.GetAudio, Track.bootstrap. cbn.
  rewrite Hpend. reflexivity.
Qed.

Lemma X7_track_with_nothing_pending_goes_silent_witness :
  Track.m_pPendingTrack (Track.with_active None Scenario.solo_a) = None
  /\ forall (mix2 : list Z) (n2 pos2 : Z),
       Track.GetAudio (Some mix2) n2 pos2 (Track.with_active None Scenario.solo_a)
       = Done (false, Track.with_active None Scenario.solo_a, Some mix2).
Proof.
  apply (X7_track_with_nothing_pending_goes_silent Scenario.solo_a
           (Track.with_active None Scenario.solo_a) "a" Scenario.tone
           (repeat 0 8) 8 0 true
           (Some [500; 500; 500; 400; 300; 200; 100; 0])).
  - reflexivity.
  - reflexivity.
  - reflexivity.
  - vm_compute. split; [reflexivity | discriminate].
  - unfold INT_MAX. lia.
  - unfold INT_MAX. lia.
  - vm_compute. split; discriminate.
  - vm_compute. discriminate.
  - vm_compute. reflexivity.
Defined.

(** *** The last pass of the crossfade *)

Lemma one_eq : F32.one = S754_finite false 8388608 (-23).
Proof. reflexivity. Qed.

Lemma mul_one_l (x : F32.float) : canonical x -> F32.mul F32.one x = x.
Proof.
  rewrite one_eq. unfold F32.mul.
  destruct x as [sx| | |sx mx ex]; cbn [canonical]; try contradiction.
  - intros _. reflexivity.
  - intros [Hd He]. cbn [SFmul].
    change F32.prec with 24. change F32.emax with 128.
    pose proof (binary_round_aux_exact (xorb false sx) (8388608 * mx) mx
                  (-23 + ex) 23) as R.
    replace (-23 + ex + 23) with ex in R by lia.
    rewrite R; try lia.
    + reflexivity.
    + rewrite (digits2_pos_shift mx (8388608 * mx) 23);
        [|lia|rewrite Pos2Z.inj_mul; lia].
      rewrite Hd. unfold fexp32. lia.
Qed.

(** On its last pass the crossfade has weight zero for the active clip:
    the value it adds is the first sample of the pending clip. *)
Lemma fade_step_last (nFade next s : Z) :
  1 <= nFade < 2 ^ 24 -> is_i16 s -> is_i16 next ->
  Track.fade_step nFade next nFade s = Some next.
Proof.
  intros HF Hs Hnext. unfold Track.fade_step.
  rewrite (fade_val_spec s Hs), (fade_weight_last nFade HF).
  unfold Track.fade_iVal, Track.weighted_sum.
  pose proof (quot2_range s Hs) as Hval.
  destruct (of_int_spec (Z.quot s 2)) as [Cv _]; [lia|].
  destruct (of_int_spec next) as [Cn Vn]; [unfold is_i16 in Hnext; lia|].
  replace (F32.sub F32.one (S754_zero false)) with F32.one by reflexivity.
  rewrite (mul_one_l _ Cn).
  assert (Z1 : exists sg, F32.mul (S754_zero false) (F32.of_int (Z.quot s 2))
                          = S754_zero sg).
  { unfold F32.mul. destruct (F32.of_int (Z.quot s 2)) as [sv| | |sv mv ev];
      cbn [canonical] in Cv; try contradiction; eexists; reflexivity. }
  destruct Z1 as [sg ->].
  set (y := F32.of_int next) in *.
  assert (W : exists w, F32.add (S754_zero sg) y = w
                        /\ valid w /\ fin w /\ value w = next * 2 ^ 149).
  { exists (F32.add (S754_zero sg) y). split; [reflexivity|].
    unfold F32.add. destruct y as [sy| | |sy my ey] eqn:Ey;
      cbn [canonical] in Cn; try contradiction; cbn [SFadd].
    - cbn in Vn. destruct sg, sy; cbn; repeat split; try exact I; exact Vn.
    - destruct Cn as [Hd He]. cbn [valid fin]. repeat split; try lia.
      pose proof (digits2_pos_bounds my) as B. rewrite Hd in B. lia. }
  destruct W as (w & -> & Vw & Fw & Ew).
  unfold F32.to_i16.
  destruct (ceil_spec w Vw Fw) as (c & -> & Hc).
  unfold is_ceiling in Hc. rewrite Ew in Hc.
  assert (c = next) by nia. subst c.
  unfold is_i16 in Hnext. unfold is_i16b.
  destruct (Z.leb_spec (-32768) next), (Z.leb_spec next 32767); try lia.
  reflexivity.
Qed.

(** X8.  When the window ends on the last sample of the active clip and the
    fade is at least one sample long, the last sample of the window
    receives the first sample of the pending clip at full scale (the
    samples of the active clip are halved, this one is not), or nothing
    when no clip is pending. *)
Theorem X8_crossfade_ends_on_the_next_sample
    (tr : Track.t) (act : string) (clip : SoundBuffer) (mix : list Z)
    (n pos next : Z) :
  Track.m_pPendingTrack tr = Some act ->
  StdMap.find act (Track.m_mapClips tr) = Some clip ->
  0 < getSampleCount clip <= INT_MAX ->
  0 <= n <= INT_MAX -> 0 <= pos <= INT_MAX ->
  1 <= Track.m_nFadeSamples tr <= n -> Track.m_nFadeSamples tr <= 2 ^ 21 ->
  n <= Z.of_nat (length mix) ->
  Forall is_i16 mix -> Forall is_i16 (getSamples clip) ->
  pos mod getSampleCount clip + n = getSampleCount clip ->
  Track.nextSample tr = Done next -> is_i16 next ->
  (forall x, 0 <= x < n - Track.m_nFadeSamples tr ->
     is_i16 (Track.mixed (zth mix x)
               (zth (getSamples clip) (pos mod getSampleCount clip + x)))) ->
  exists mix',
    Track.GetAudio (Some mix) n pos tr
    = Done (true, Track.with_active (Track.m_pPendingClip tr) tr, Some mix')
    /\ zth mix' (n - 1) = to_i16 (zth mix (n - 1) + next).
Proof.
  intros Ha Hf Hc Hn Hp HF HF21 Hlen Hmix Hs Hin Hnext Hnx Hplain.
  assert (Bo : 0 <= pos mod getSampleCount clip < getSampleCount clip)
    by (apply Z.mod_pos_bound; lia).
  destruct (GetAudio_crossing tr act clip mix n pos next)
    as (mix' & E & _ & _ & HZ); try assumption; try lia.
  - intros x Hx.
    destruct (fade_step_total (Track.m_nFadeSamples tr) next
                (x - (n - Track.m_nFadeSamples tr) + 1)
                (zth (getSamples clip) (pos mod getSampleCount clip + x)))
      as (v & -> & _); try assumption; try lia; [|discriminate].
    apply Forall_zth; [assumption|].
    change (Z.of_nat (length (getSamples clip))) with (getSampleCount clip).
    lia.
  - exists mix'. split; [exact E|].
    destruct (HZ (n - 1) ltac:(lia)) as (_ & H2 & _).
    destruct (H2 ltac:(lia)) as (iVal & Ei & Ez).
    replace (n - 1 - (n - Track.m_nFadeSamples tr) + 1)
      with (Track.m_nFadeSamples tr) in Ei by lia.
    rewrite fade_step_last in Ei; try assumption.
    + injection Ei as <-. exact Ez.
    + lia.
    + apply Forall_zth; [assumption|].
      change (Z.of_nat (length (getSamples clip))) with (getSampleCount clip).
      lia.
Qed.

Lemma X8_crossfade_ends_on_the_next_sample_witness :
  exists mix',
    Track.GetAudio (Some (repeat 0 8)) 8 0 Scenario.playing_a_then_b
    = Done (true,
            Track.with_active (Track.m_pPendingClip Scenario.playing_a_then_b)
              Scenario.playing_a_then_b,
            Some mix')
    /\ zth mix' (8 - 1) = to_i16 (zth (repeat 0 8) (8 - 1) + -800).
Proof.
  apply (X8_crossfade_ends_on_the_next_sample Scenario.playing_a_then_b "a"
           Scenario.tone (repeat 0 8) 8 0 (-800)).
  - reflexivity.
  - reflexivity.
  - vm_compute. split; [reflexivity | discriminate].
  - unfold INT_MAX. lia.
  - unfold INT_MAX. lia.
  - vm_compute. split; discriminate.
  - vm_compute. discriminate.
  - vm_compute. discriminate.
  - repeat constructor; unfold is_i16; lia.
  - repeat constructor; unfold is_i16; lia.
  - reflexivity.
  - reflexivity.
  - unfold is_i16. lia.
  - intros x Hx.
    change (Track.m_nFadeSamples Scenario.playing_a_then_b) with 5 in Hx.
    assert (C : x = 0 \/ x = 1 \/ x = 2) by lia.
    destruct C as [-> | [-> | ->]]; vm_compute; split; discriminate.
Defined.

(** ** [std::map]: the order of the keys *)

Lemma compare_lt_trans (a b c : string) :
  String.compare a b = Lt -> String.compare b c = Lt -> String.compare a c = Lt.
Proof.
  revert b c. induction a as [|x a IH]; intros [|y b] [|z c]; cbn;
    try discriminate; try reflexivity.
  destruct (Ascii.compare x y) eqn:Exy; try discriminate.
  - apply Ascii.compare_eq_iff in Exy. subst y.
    destruct (Ascii.compare x z); auto. apply IH.
  - intros _. destruct (Ascii.compare y z) eqn:Eyz; try discriminate.
    + apply Ascii.compare_eq_iff in Eyz. subst z. rewrite Exy. reflexivity.
    + intros _.
      assert (T : Ascii.compare x z = Lt).
      { unfold Ascii.compare in *. rewrite N.compare_lt_iff in *. lia. }
      rewrite T. reflexivity.
Qed.

Lemma compare_gt_lt (a b : string) :
  String.compare a b = Gt -> String.compare b a = Lt.
Proof. intros H. rewrite String.compare_antisym, H. reflexivity. Qed.

Lemma ordered_tail {V : Type} (e : string * V) (m : StdMap.t V) :
  StdMap.ordered (e :: m) -> StdMap.ordered m.
Proof. destruct e. cbn. intros [_ H]. exact H. Qed.

Lemma ordered_above {V : Type} (m : StdMap.t V) :
  forall (k : string) (v : V),
    StdMap.ordered ((k, v) :: m) ->
    forall e, In e m -> String.compare k (fst e) = Lt.
Proof.
  induction m as [|[k1 v1] m IH]; intros k v H e Hin; [destruct Hin|].
  cbn [StdMap.ordered] in H. destruct H as (H1 & H2).
  destruct Hin as [<- | Hin]; [exact H1|].
  apply (compare_lt_trans k k1); [exact H1|].
  apply (IH k1 v1); assumption.
Qed.

Lemma find_In {V : Type} (k : string) (v : V) (m : StdMap.t V) :
  StdMap.find k m = Some v -> In (k, v) m.
Proof.
  induction m as [|[k' v'] m IH]; cbn; [discriminate|].
  destruct (String.eqb_spec k k') as [-> | _].
  - intros [= ->]. left. reflexivity.
  - intros H. right. apply IH, H.
Qed.

(** Below the least key nothing is found, and no key occurs twice. *)
Lemma ordered_find_tail {V : Type} (k : string) (v : V) (m : StdMap.t V) :
  StdMap.ordered ((k, v) :: m) -> StdMap.find k m = None.
Proof.
  intros H. destruct (StdMap.find k m) as [v'|] eqn:E; [|reflexivity].
  apply find_In in E. pose proof (ordered_above m k v H _ E) as C.
  cbn in C. rewrite compare_refl in C. discriminate.
Qed.

Lemma ordered_In_find {V : Type} (m : StdMap.t V) :
  StdMap.ordered m ->
  forall k v, In (k, v) m -> StdMap.find k m = Some v.
Proof.
  induction m as [|[k' v'] m IH]; intros H k v Hin; [destruct Hin|].
  cbn [StdMap.find]. destruct Hin as [[= -> ->] | Hin].
  - rewrite String.eqb_refl. reflexivity.
  - destruct (String.eqb_spec k k') as [-> | _].
    + pose proof (ordered_above m k' v' H _ Hin) as C. cbn in C.
      rewrite compare_refl in C. discriminate.
    + apply IH; [exact (ordered_tail _ _ H) | assumption].
Qed.

Lemma assign_ordered {V : Type} (k : string) (v : V) (m : StdMap.t V) :
  StdMap.ordered m -> StdMap.ordered (StdMap.assign k v m).
Proof.
  induction m as [|[k1 v1] m IH]; intros H; cbn [StdMap.assign].
  - cbn. auto.
  - destruct (String.compare k k1) eqn:C.
    + apply String.compare_eq_iff in C. subst k1. exact H.
    + cbn [StdMap.ordered]. split; [exact C | exact H].
    + specialize (IH (ordered_tail _ _ H)).
      apply compare_gt_lt in C.
      destruct m as [|[k2 v2] m]; cbn [StdMap.assign] in *.
      * cbn. auto.
      * cbn [StdMap.ordered] in H. destruct H as (H12 & H2).
        destruct (String.compare k k2) eqn:C2.
        -- cbn [StdMap.ordered] in *. split; [exact C | exact IH].
        -- cbn [StdMap.ordered] in *. split; [exact C | exact IH].
        -- cbn [StdMap.ordered] in *. split; [exact H12 | exact IH].
Qed.

Lemma emplace_ordered {V : Type} (k : string) (v : V) (m : StdMap.t V) :
  StdMap.ordered m -> StdMap.ordered (StdMap.emplace k v m).
Proof.
  intros H. unfold StdMap.emplace.
  destruct (StdMap.find k m); [exact H | apply assign_ordered, H].
Qed.

(** ** [LoopLauncher::UpdatePendingClips] *)

Lemma first_track_with_some (clip name : string) (tracks : StdMap.t Track.t) :
  LoopLauncher.first_track_with clip tracks = Some name ->
  exists tr, In (name, tr) tracks /\ Track.HasClip clip tr = true.
Proof.
  induction tracks as [|[k tr] tracks IH]; cbn; [discriminate|].
  destruct (Track.HasClip clip tr) eqn:E.
  - intros [= <-]. exists tr. split; [left; reflexivity | exact E].
  - intros H. destruct (IH H) as (tr' & Hin & Hc).
    exists tr'. split; [right; exact Hin | exact Hc].
Qed.

Lemma first_track_with_none (clip : string) (tracks : StdMap.t Track.t) :
  LoopLauncher.first_track_with clip tracks = None ->
  forall e, In e tracks -> Track.HasClip clip (snd e) = false.
Proof.
  induction tracks as [|[k tr] tracks IH]; cbn; [intros _ e []|].
  destruct (Track.HasClip clip tr) eqn:E; [discriminate|].
  intros H e [<- | Hin]; [exact E | apply IH; assumption].
Qed.

(** X9.  [UpdatePendingClips] returns true exactly when the needs-audio
    flag was already down before the call or one of the requested clips
    belongs to some track; [NeedsAudio] then answers the opposite of what
    the call returned.  The call changes neither the tracks, nor the mix
    buffer, nor the sample position. *)
Theorem X9_UpdatePendingClips_returns_whether_audio_is_staged
    (liNewActiveClips : list string) (ll : LoopLauncher.t) :
  let r := fst (LoopLauncher.UpdatePendingClips liNewActiveClips ll) in
  let ll' := snd (LoopLauncher.UpdatePendingClips liNewActiveClips ll) in
  (r = true <->
   LoopLauncher.m_bNeedsAudio ll = false
   \/ exists clip name tr,
        In clip liNewActiveClips
        /\ In (name, tr) (LoopLauncher.m_mapTracks ll)
        /\ Track.HasClip clip tr = true)
  /\ LoopLauncher.NeedsAudio ll' = negb r
  /\ LoopLauncher.m_mapTracks ll' = LoopLauncher.m_mapTracks ll
  /\ LoopLauncher.m_vMixBuffer ll' = LoopLauncher.m_vMixBuffer ll
  /\ LoopLauncher.m_nLastSamplePos ll' = LoopLauncher.m_nLastSamplePos ll
  /\ LoopLauncher.m_nMaxSampleCount ll' = LoopLauncher.m_nMaxSampleCount ll.
Proof.
  cbv zeta. unfold LoopLauncher.UpdatePendingClips, LoopLauncher.NeedsAudio.
  pose proof (stage_flag (LoopLauncher.m_mapTracks ll) liNewActiveClips
                (LoopLauncher.m_mapPendingTracks ll)
                (LoopLauncher.m_bNeedsAudio ll)) as F.
  destruct (LoopLauncher.stage _ _ _ _) as [pending needs].
  cbn [fst snd LoopLauncher.m_bNeedsAudio LoopLauncher.m_mapTracks
       LoopLauncher.m_vMixBuffer LoopLauncher.m_nLastSamplePos
       LoopLauncher.m_nMaxSampleCount] in *.
  split; [|repeat split; destruct needs; reflexivity].
  rewrite F.
  split.
  - intros H.
    destruct (LoopLauncher.m_bNeedsAudio ll); [|left; reflexivity].
    right. cbn in H.
    destruct (existsb _ liNewActiveClips) eqn:E; [|discriminate].
    apply existsb_exists in E. destruct E as (clip & Hin & Hc).
    destruct (LoopLauncher.first_track_with clip _) as [name|] eqn:Ft;
      [|discriminate].
    destruct (first_track_with_some _ _ _ Ft) as (tr & Ht & Hh).
    exists clip, name, tr. repeat split; assumption.
  - intros [-> | (clip & name & tr & Hin & Ht & Hh)]; [reflexivity|].
    assert (E : existsb (fun c =>
                  match LoopLauncher.first_track_with c (LoopLauncher.m_mapTracks ll) with
                  | Some _ => true
                  | None => false
                  end) liNewActiveClips = true).
    { apply existsb_exists. exists clip. split; [exact Hin|].
      destruct (LoopLauncher.first_track_with clip _) eqn:Ft; [reflexivity|].
      pose proof (first_track_with_none _ _ Ft _ Ht) as N. cbn in N. congruence. }
    rewrite E. destruct (LoopLauncher.m_bNeedsAudio ll); reflexivity.
Qed.

Lemma find_app_last {A : Type} (f : A -> bool) (l : list A) (x : A) :
  List.find f (l ++ [x])
  = match List.find f l with
    | Some y => Some y
    | None => if f x then Some x else None
    end.
Proof.
  induction l as [|y l IH]; cbn; [reflexivity|].
  destruct (f y); [reflexivity | exact IH].
Qed.

Lemma stage_find (tracks : StdMap.t Track.t) (name : string)
    (clips : list string) :
  forall (pending : StdMap.t string) (needs : bool),
    StdMap.find name (fst (LoopLauncher.stage tracks clips pending needs))
    = match List.find
              (fun c => match LoopLauncher.first_track_with c tracks with
                        | Some k => String.eqb k name
                        | None => false
                        end) (rev clips) with
      | Some c => Some c
      | None => StdMap.find name pending
      end.
Proof.
  induction clips as [|c clips IH]; intros pending needs;
    cbn [LoopLauncher.stage rev].
  - reflexivity.
  - rewrite find_app_last.
    destruct (LoopLauncher.first_track_with c tracks) as [k|] eqn:Ft.
    + rewrite IH. destruct (List.find _ (rev clips)); [reflexivity|].
      rewrite find_assign, (String.eqb_sym name k).
      destruct (String.eqb k name); reflexivity.
    + rewrite IH. destruct (List.find _ (rev clips)); reflexivity.
Qed.

Lemma stage_ordered (tracks : StdMap.t Track.t) (clips : list string) :
  forall (pending : StdMap.t string) (needs : bool),
    StdMap.ordered pending ->
    StdMap.ordered (fst (LoopLauncher.stage tracks clips pending needs)).
Proof.
  induction clips as [|c clips IH]; intros pending needs H;
    cbn [LoopLauncher.stage].
  - exact H.
  - destruct (LoopLauncher.first_track_with c tracks);
      apply IH; [apply assign_ordered|]; exact H.
Qed.

(** X10.  After [UpdatePendingClips] the clip staged for a track is the
    last clip of the list whose first owner, in the order of the track
    names, is that track; a track none of the requested clips selects keeps
    the clip that was staged for it before, if any. *)
Theorem X10_UpdatePendingClips_stages_the_last_request
    (liNewActiveClips : list string) (ll : LoopLauncher.t) (name : string) :
  StdMap.find name
    (LoopLauncher.m_mapPendingTracks
       (snd (LoopLauncher.UpdatePendingClips liNewActiveClips ll)))
  = match List.find
            (fun c =>
               match LoopLauncher.first_track_with c (LoopLauncher.m_mapTracks ll) with
               | Some k => String.eqb k name
               | None => false
               end) (rev liNewActiveClips) with
    | Some c => Some c
    | None => StdMap.find name (LoopLauncher.m_mapPendingTracks ll)
    end.
Proof.
  unfold LoopLauncher.UpdatePendingClips.
  pose proof (stage_find (LoopLauncher.m_mapTracks ll) name liNewActiveClips
                (LoopLauncher.m_mapPendingTracks ll)
                (LoopLauncher.m_bNeedsAudio ll)) as F.
  destruct (LoopLauncher.stage _ _ _ _) as [pending needs].
  exact F.
Qed.

(** ** [LoopLauncher::postPendingTracks] *)

Lemma find_set_pending_on_same (name clip : string)
    (tracks : StdMap.t Track.t) :
  StdMap.find name (LoopLauncher.set_pending_on name clip tracks)
  = option_map (fun tr => snd (Track.SetPendingTrack clip tr))
               (StdMap.find name tracks).
Proof.
  induction tracks as [|[k tr] tracks IH]; cbn; [reflexivity|].
  destruct (String.eqb name k) eqn:E; cbn; rewrite E; [reflexivity | exact IH].
Qed.

Lemma find_apply_pending (name : string) (pending : StdMap.t string) :
  StdMap.ordered pending ->
  forall tracks,
    StdMap.find name (LoopLauncher.apply_pending pending tracks)
    = match StdMap.find name pending with
      | Some clip => option_map (fun tr => snd (Track.SetPendingTrack clip tr))
                                (StdMap.find name tracks)
      | None => StdMap.find name tracks
      end.
Proof.
  induction pending as [|[k clip] pending IH]; intros H tracks;
    cbn [LoopLauncher.apply_pending StdMap.find]; [reflexivity|].
  destruct (String.eqb_spec name k) as [-> | Hne].
  - rewrite (find_apply_pending_other k pending (ordered_find_tail _ _ _ H)).
    apply find_set_pending_on_same.
  - rewrite (IH (ordered_tail _ _ H)).
    rewrite find_set_pending_on_other by (apply String.eqb_neq; assumption).
    reflexivity.
Qed.

Lemma postPendingTracks_find (ll : LoopLauncher.t) (name : string) :
  StdMap.ordered (LoopLauncher.m_mapPendingTracks ll) ->
  StdMap.find name (LoopLauncher.m_mapTracks (LoopLauncher.postPendingTracks ll))
  = option_map
      (fun tr =>
         Track.with_pending
           (match StdMap.find name (LoopLauncher.m_mapPendingTracks ll) with
            | Some clip => if Track.HasClip clip tr then Some clip else None
            | None => if Track.HasClip "silence" tr then Some "silence" else None
            end) tr)
      (StdMap.find name (LoopLauncher.m_mapTracks ll)).
Proof.
  intros H. unfold LoopLauncher.postPendingTracks. cbn [LoopLauncher.m_mapTracks].
  rewrite (find_apply_pending name _ H), find_silence_all.
  destruct (StdMap.find name (LoopLauncher.m_mapTracks ll)) as [tr|];
    [|destruct (StdMap.find name _); reflexivity].
  unfold Track.SetPendingTrack, Track.HasClip.
  destruct (StdMap.find name (LoopLauncher.m_mapPendingTracks ll)) as [clip|];
    cbn [option_map].
  - destruct (StdMap.find "silence" (Track.m_mapClips tr)); cbn;
      destruct (StdMap.find clip (Track.m_mapClips tr)); reflexivity.
  - destruct (StdMap.find "silence" (Track.m_mapClips tr)); reflexivity.
Qed.

(** X11.  [postPendingTracks] hands every staged request to its track: a
    track for which a clip is staged comes out with that clip pending when
    it owns it and with no pending clip otherwise, whether or not it owns a
    clip called "silence"; the active clip of the track, its clips and its
    fade length are left alone.  The staged requests are then forgotten and
    the needs-audio flag is raised.  (The staged map is a [std::map]: its
    keys are ordered.) *)
Theorem X11_postPendingTracks_hands_over_the_staged_clips
    (ll : LoopLauncher.t) (name clip : string) (tr : Track.t) :
  StdMap.ordered (LoopLauncher.m_mapPendingTracks ll) ->
  StdMap.find name (LoopLauncher.m_mapPendingTracks ll) = Some clip ->
  StdMap.find name (LoopLauncher.m_mapTracks ll) = Some tr ->
  StdMap.find name (LoopLauncher.m_mapTracks (LoopLauncher.postPendingTracks ll))
  = Some (Track.with_pending
            (if Track.HasClip clip tr then Some clip else None) tr)
  /\ LoopLauncher.m_mapPendingTracks (LoopLauncher.postPendingTracks ll) = []
  /\ LoopLauncher.NeedsAudio (LoopLauncher.postPendingTracks ll) = true.
Proof.
  intros H Hp Ht. rewrite (postPendingTracks_find ll name H), Hp, Ht.
  repeat split.
Qed.

Lemma X11_postPendingTracks_hands_over_the_staged_clips_witness :
  StdMap.find "drums"
    (LoopLauncher.m_mapTracks
       (LoopLauncher.postPendingTracks
          (snd (LoopLauncher.UpdatePendingClips ["y"] Scenario.mixer))))
  = Some (Track.with_pending (Some "y")
            {| Track.m_nFadeSamples := 5; Track.m_nSampleCount := 128;
               Track.m_mapClips := [("y", Scenario.loop128 (-2000))];
               Track.m_pPendingTrack := None; Track.m_pPendingClip := None |})
  /\ LoopLauncher.m_mapPendingTracks
       (LoopLauncher.postPendingTracks
          (snd (LoopLauncher.UpdatePendingClips ["y"] Scenario.mixer))) = []
  /\ LoopLauncher.NeedsAudio
       (LoopLauncher.postPendingTracks
          (snd (LoopLauncher.UpdatePendingClips ["y"] Scenario.mixer))) = true.
Proof.
  apply (X11_postPendingTracks_hands_over_the_staged_clips
           (snd (LoopLauncher.UpdatePendingClips ["y"] Scenario.mixer))
           "drums" "y").
  - cbn. auto.
  - reflexivity.
  - reflexivity.
Defined.

(** A track the lookup by name finds owns the clip that selected it. *)
Lemma first_track_with_find (clip name : string) (tracks : StdMap.t Track.t) :
  StdMap.ordered tracks ->
  LoopLauncher.first_track_with clip tracks = Some name ->
  exists tr, StdMap.find name tracks = Some tr /\ Track.HasClip clip tr = true.
Proof.
  intros H Ft. destruct (first_track_with_some _ _ _ Ft) as (tr & Hin & Hc).
  exists tr. split; [apply ordered_In_find; assumption | exact Hc].
Qed.

(** X12.  A request is honoured at the next flush: when a list of clips is
    passed to [UpdatePendingClips] and the staged requests are then posted
    ([postPendingTracks], from [Play] or from the block that wraps), the
    track that a clip of the list selects (the first track, by name, that
    owns it) has that clip pending, provided no later clip of the list
    selects the same track.  (The two maps are [std::map]s: their keys are
    ordered.) *)
Theorem X12_requested_clip_is_pending_after_the_flush
    (ll : LoopLauncher.t) (before after : list string) (clip name : string) :
  StdMap.ordered (LoopLauncher.m_mapTracks ll) ->
  StdMap.ordered (LoopLauncher.m_mapPendingTracks ll) ->
  LoopLauncher.first_track_with clip (LoopLauncher.m_mapTracks ll) = Some name ->
  (forall c, In c after ->
     LoopLauncher.first_track_with c (LoopLauncher.m_mapTracks ll) <> Some name) ->
  exists tr,
    StdMap.find name (LoopLauncher.m_mapTracks ll) = Some tr
    /\ StdMap.find name
         (LoopLauncher.m_mapTracks
            (LoopLauncher.postPendingTracks
               (snd (LoopLauncher.UpdatePendingClips (before ++ clip :: after)%list ll))))
       = Some (Track.with_pending (Some clip) tr).
Proof.
  intros Ht Hp Ft Hafter.
  destruct (first_track_with_find _ _ _ Ht Ft) as (tr & Hf & Hc).
  exists tr. split; [exact Hf|].
  set (clips := (before ++ clip :: after)%list).
  assert (Hs : StdMap.find name
                 (LoopLauncher.m_mapPendingTracks
                    (snd (LoopLauncher.UpdatePendingClips clips ll)))
               = Some clip).
  { unfold LoopLauncher.UpdatePendingClips.
    pose proof (stage_find (LoopLauncher.m_mapTracks ll) name clips
                  (LoopLauncher.m_mapPendingTracks ll)
                  (LoopLauncher.m_bNeedsAudio ll)) as F.
    destruct (LoopLauncher.stage _ _ _ _) as [pending needs].
    cbn [fst snd LoopLauncher.m_mapPendingTracks] in *. rewrite F.
    unfold clips. rewrite rev_app_distr. cbn [rev]. rewrite <- app_assoc.
    cbn [app].
    assert (N : List.find
                  (fun c =>
                     match LoopLauncher.first_track_with c (LoopLauncher.m_mapTracks ll) with
                     | Some k => String.eqb k name
                     | None => false
                     end) (rev after) = None).
    { destruct (List.find _ (rev after)) as [c|] eqn:E; [|reflexivity].
      apply find_some in E. destruct E as (Hin & Hk).
      apply in_rev in Hin. specialize (Hafter c Hin).
      destruct (LoopLauncher.first_track_with c _) as [k|]; [|discriminate].
      apply String.eqb_eq in Hk. subst k. congruence. }
    clear F. induction (rev after) as [|c l IH]; cbn [app List.find] in *.
    - rewrite Ft, String.eqb_refl. reflexivity.
    - destruct (match LoopLauncher.first_track_with c _ with
                | Some k => String.eqb k name | None => false end);
        [discriminate | apply IH, N]. }
  assert (Ho : StdMap.ordered
                 (LoopLauncher.m_mapPendingTracks
                    (snd (LoopLauncher.UpdatePendingClips clips ll)))).
  { unfold LoopLauncher.UpdatePendingClips.
    pose proof (stage_ordered (LoopLauncher.m_mapTracks ll) clips
                  (LoopLauncher.m_mapPendingTracks ll)
                  (LoopLauncher.m_bNeedsAudio ll) Hp) as O.
    destruct (LoopLauncher.stage _ _ _ _) as [pending needs]. exact O. }
  rewrite (postPendingTracks_find _ name Ho), Hs.
  assert (Et : LoopLauncher.m_mapTracks
                 (snd (LoopLauncher.UpdatePendingClips clips ll))
               = LoopLauncher.m_mapTracks ll).
  { unfold LoopLauncher.UpdatePendingClips.
    destruct (LoopLauncher.stage _ _ _ _). reflexivity. }
  rewrite Et, Hf. cbn [option_map]. rewrite Hc. reflexivity.
Qed.

Lemma X12_requested_clip_is_pending_after_the_flush_witness :
  exists tr,
    StdMap.find "bass" (LoopLauncher.m_mapTracks Scenario.mixer) = Some tr
    /\ StdMap.find "bass"
         (LoopLauncher.m_mapTracks
            (LoopLauncher.postPendingTracks
               (snd (LoopLauncher.UpdatePendingClips
                       (["no such clip"] ++ "x" :: ["y"])%list Scenario.mixer))))
       = Some (Track.with_pending (Some "x") tr).
Proof.
  apply (X12_requested_clip_is_pending_after_the_flush Scenario.mixer
           ["no such clip"] ["y"] "x" "bass").
  - cbn. auto.
  - cbn. auto.
  - reflexivity.
  - intros c [<- | []]. vm_compute. discriminate.
Defined.

(** ** [LoopLauncher::onGetData] *)

Lemma GetAudio_length (mix : list Z) (n pos : Z) (tr tr' : Track.t) (r : bool)
    (pMix : option (list Z)) :
  Track.GetAudio (Some mix) n pos tr = Done (r, tr', pMix) ->
  exists mix', pMix = Some mix' /\ length mix' = length mix.
Proof.
  intros H.
  destruct (GetAudio_done _ _ _ _ _ _ _ H)
    as [(_ & _ & _ & ->) | (act & clip & last & p & mix1 & _ & _ & _ & _ & E1 & Hrest)].
  - exists mix. split; reflexivity.
  - pose proof (copy_loop_done _ _ _ _ _ _ _ E1) as (_ & L1 & _).
    destruct Hrest as [(_ & _ & ->) | (next & mix2 & _ & E2 & _ & ->)].
    + exists mix1. split; [reflexivity | exact L1].
    + pose proof (fade_loop_done _ _ _ _ _ _ _ _ _ E2) as (L2 & _).
      exists mix2. split; [reflexivity | congruence].
Qed.

Lemma render_tracks_frame (n pos : Z) (tracks : StdMap.t Track.t) :
  forall (mix : list Z) (tracks' : StdMap.t Track.t) (mix' : list Z),
    LoopLauncher.render_tracks tracks mix n pos = Done (tracks', mix') ->
    length mix' = length mix /\ map fst tracks' = map fst tracks.
Proof.
  induction tracks as [|[name tr] tracks IH]; intros mix tracks' mix';
    cbn [LoopLauncher.render_tracks].
  - intros [= <- <-]. split; reflexivity.
  - destruct (Track.GetAudio (Some mix) n pos tr) as [[[r tr1] pMix]|] eqn:G;
      cbn [bind]; [|discriminate].
    destruct (GetAudio_length _ _ _ _ _ _ _ G) as (mix1 & -> & L1).
    cbn [lift bind].
    destruct (LoopLauncher.render_tracks tracks mix1 n pos)
      as [[rest' mix2]|] eqn:R; cbn [bind]; [|discriminate].
    intros [= <- <-]. destruct (IH _ _ _ R) as (L2 & K).
    split; [congruence | cbn; f_equal; exact K].
Qed.

Lemma set_pending_on_keys (name clip : string) (tracks : StdMap.t Track.t) :
  map fst (LoopLauncher.set_pending_on name clip tracks) = map fst tracks.
Proof.
  induction tracks as [|[k tr] tracks IH]; cbn; [reflexivity|].
  destruct (String.eqb name k); cbn; [reflexivity | f_equal; exact IH].
Qed.

Lemma postPendingTracks_keys (ll : LoopLauncher.t) :
  map fst (LoopLauncher.m_mapTracks (LoopLauncher.postPendingTracks ll))
  = map fst (LoopLauncher.m_mapTracks ll).
Proof.
  unfold LoopLauncher.postPendingTracks. cbn [LoopLauncher.m_mapTracks].
  assert (A : forall pending tracks,
            map fst (LoopLauncher.apply_pending pending tracks) = map fst tracks).
  { induction pending as [|[k clip] pending IH]; intros tracks; cbn;
      [reflexivity|]. rewrite IH. apply set_pending_on_keys. }
  rewrite A. unfold LoopLauncher.silence_all. rewrite map_map. reflexivity.
Qed.

(** X13.  A call of [onGetData] that renders (the mix buffer is not empty
    and every track returns) returns true, keeps the size of the mix
    buffer, the length of the cycle and the names of the tracks, and moves
    the sample position by one buffer.  When the block reaches the end of
    the cycle ([m_nMaxSampleCount]) the position is back at 0, the staged
    requests have been handed to the tracks and forgotten and the
    needs-audio flag is up; otherwise the staged requests and the flag are
    left alone. *)
Theorem X13_onGetData_advances_by_one_buffer
    (ll ll' : LoopLauncher.t) (r : bool) :
  LoopLauncher.m_vMixBuffer ll <> [] ->
  0 <= LoopLauncher.m_nLastSamplePos ll ->
  0 <= LoopLauncher.m_nMaxSampleCount ll <= INT_MAX ->
  LoopLauncher.m_nLastSamplePos ll
  + Z.of_nat (length (LoopLauncher.m_vMixBuffer ll)) <= INT_MAX ->
  LoopLauncher.onGetData ll = Done (r, ll') ->
  let next := LoopLauncher.m_nLastSamplePos ll
              + Z.of_nat (length (LoopLauncher.m_vMixBuffer ll)) in
  r = true
  /\ length (LoopLauncher.m_vMixBuffer ll') = length (LoopLauncher.m_vMixBuffer ll)
  /\ LoopLauncher.m_nMaxSampleCount ll' = LoopLauncher.m_nMaxSampleCount ll
  /\ map fst (LoopLauncher.m_mapTracks ll') = map fst (LoopLauncher.m_mapTracks ll)
  /\ (next < LoopLauncher.m_nMaxSampleCount ll ->
      LoopLauncher.m_nLastSamplePos ll' = next
      /\ LoopLauncher.m_mapPendingTracks ll' = LoopLauncher.m_mapPendingTracks ll
      /\ LoopLauncher.m_bNeedsAudio ll' = LoopLauncher.m_bNeedsAudio ll)
  /\ (LoopLauncher.m_nMaxSampleCount ll <= next ->
      LoopLauncher.m_nLastSamplePos ll' = 0
      /\ LoopLauncher.m_mapPendingTracks ll' = []
      /\ LoopLauncher.m_bNeedsAudio ll' = true).
Proof.
  intros Hbuf Hpos Hmax Hsum. unfold LoopLauncher.onGetData.
  destruct (LoopLauncher.m_vMixBuffer ll) as [|x buf] eqn:Eb; [congruence|].
  set (size := Z.of_nat (length (x :: buf))) in *.
  assert (Hsize : 0 < size) by (unfold size; cbn [length]; lia).
  unfold INT_MAX in Hsum, Hmax.
  rewrite (to_u64_id (LoopLauncher.m_nMaxSampleCount ll)) by lia.
  rewrite (to_u64_id (LoopLauncher.m_nLastSamplePos ll)) by lia.
  rewrite (to_u64_id (size + LoopLauncher.m_nLastSamplePos ll)) by lia.
  assert (Ep : forall l, LoopLauncher.m_nLastSamplePos l = LoopLauncher.m_nLastSamplePos ll ->
               to_int (to_u64 (to_u64 (LoopLauncher.m_nLastSamplePos l) + size))
               = LoopLauncher.m_nLastSamplePos ll + size).
  { intros l ->. rewrite (to_u64_id (LoopLauncher.m_nLastSamplePos ll)) by lia.
    rewrite to_u64_id by lia. apply to_int_id. unfold INT_MAX. lia. }
  destruct (Z.leb_spec (LoopLauncher.m_nMaxSampleCount ll)
              (size + LoopLauncher.m_nLastSamplePos ll)) as [Hwrap | Hin].
  - destruct (LoopLauncher.render_tracks _ _ _ _) as [[tracks mix]|] eqn:R;
      cbn [bind]; [|discriminate].
    intros [= <- <-]. destruct (render_tracks_frame _ _ _ _ _ _ R) as (L & K).
    rewrite repeat_length in L. rewrite postPendingTracks_keys in K.
    cbv zeta.
    cbn [LoopLauncher.m_vMixBuffer LoopLauncher.m_nMaxSampleCount
         LoopLauncher.m_mapTracks LoopLauncher.m_nLastSamplePos
         LoopLauncher.m_mapPendingTracks LoopLauncher.m_bNeedsAudio
         LoopLauncher.postPendingTracks].
    rewrite (Ep ll eq_refl).
    destruct (Z.leb_spec (LoopLauncher.m_nMaxSampleCount ll)
                (LoopLauncher.m_nLastSamplePos ll + size)); [|lia].
    repeat split; try assumption; try reflexivity; lia.
  - destruct (LoopLauncher.render_tracks _ _ _ _) as [[tracks mix]|] eqn:R;
      cbn [bind]; [|discriminate].
    intros [= <- <-]. destruct (render_tracks_frame _ _ _ _ _ _ R) as (L & K).
    rewrite repeat_length in L.
    cbv zeta.
    cbn [LoopLauncher.m_vMixBuffer LoopLauncher.m_nMaxSampleCount
         LoopLauncher.m_mapTracks LoopLauncher.m_nLastSamplePos
         LoopLauncher.m_mapPendingTracks LoopLauncher.m_bNeedsAudio].
    rewrite (Ep ll eq_refl).
    destruct (Z.leb_spec (LoopLauncher.m_nMaxSampleCount ll)
                (LoopLauncher.m_nLastSamplePos ll + size)); [lia|].
    repeat split; try assumption; try reflexivity; lia.
Qed.

Lemma X13_onGetData_advances_by_one_buffer_witness :
  let ll := Scenario.mixer in
  let ll' :=
    {| LoopLauncher.m_nLastSamplePos := 2;
       LoopLauncher.m_nMaxSampleCount := 128;
       LoopLauncher.m_mapTracks := Scenario.built_tracks;
       LoopLauncher.m_vMixBuffer := [0; 0];
       LoopLauncher.m_bNeedsAudio := true;
       LoopLauncher.m_mapPendingTracks := [];
       LoopLauncher.m_stream := Some (2, 1000) |} in
  let next := LoopLauncher.m_nLastSamplePos ll
              + Z.of_nat (length (LoopLauncher.m_vMixBuffer ll)) in
  true = true
  /\ length (LoopLauncher.m_vMixBuffer ll') = length (LoopLauncher.m_vMixBuffer ll)
  /\ LoopLauncher.m_nMaxSampleCount ll' = LoopLauncher.m_nMaxSampleCount ll
  /\ map fst (LoopLauncher.m_mapTracks ll') = map fst (LoopLauncher.m_mapTracks ll)
  /\ (next < LoopLauncher.m_nMaxSampleCount ll ->
      LoopLauncher.m_nLastSamplePos ll' = next
      /\ LoopLauncher.m_mapPendingTracks ll' = LoopLauncher.m_mapPendingTracks ll
      /\ LoopLauncher.m_bNeedsAudio ll' = LoopLauncher.m_bNeedsAudio ll)
  /\ (LoopLauncher.m_nMaxSampleCount ll <= next ->
      LoopLauncher.m_nLastSamplePos ll' = 0
      /\ LoopLauncher.m_mapPendingTracks ll' = []
      /\ LoopLauncher.m_bNeedsAudio ll' = true).
Proof.
  intros ll ll'.
  apply (X13_onGetData_advances_by_one_buffer ll ll' true).
  - discriminate.
  - vm_compute. discriminate.
  - vm_compute. split; discriminate.
  - vm_compute. discriminate.
  - vm_compute. reflexivity.
Defined.

Lemma idle_track (tr : Track.t) :
  Track.m_pPendingTrack tr = None -> Track.m_pPendingClip tr = None ->
  Track.HasClip "silence" tr = false ->
  snd (Track.SetPendingTrack "silence" tr) = tr
  /\ forall mix n pos,
       Track.GetAudio (Some mix) n pos tr = Done (false, tr, Some mix).
Proof.
  destruct tr as [f c m a p]. cbn. intros -> -> H. split.
  - unfold Track.SetPendingTrack, Track.HasClip in *. cbn in *.
    destruct (StdMap.find "silence" m); [discriminate | reflexivity].
  - intros mix n pos. reflexivity.
Qed.

Lemma render_idle (n pos : Z) (tracks : StdMap.t Track.t) (mix : list Z) :
  Forall (fun e => Track.m_pPendingTrack (snd e) = None
                   /\ Track.m_pPendingClip (snd e) = None
                   /\ Track.HasClip "silence" (snd e) = false) tracks ->
  LoopLauncher.silence_all tracks = tracks
  /\ LoopLauncher.render_tracks tracks mix n pos = Done (tracks, mix).
Proof.
  induction 1 as [|[name tr] tracks (A & P & S) _ (IH1 & IH2)];
    cbn [LoopLauncher.silence_all map LoopLauncher.render_tracks fst snd] in *.
  - split; reflexivity.
  - destruct (idle_track tr A P S) as (E & G). split.
    + rewrite E. f_equal. exact IH1.
    + rewrite G. cbn [bind lift]. rewrite IH2. reflexivity.
Qed.

(** X14.  While no track has an active or a pending clip, no request is
    staged and no track owns a clip called "silence", [onGetData] hands
    out a buffer of zeros and leaves the tracks as they are: a mixer plays
    silence until a request is staged and posted. *)
Theorem X14_idle_mixer_plays_silence (ll : LoopLauncher.t) :
  LoopLauncher.m_vMixBuffer ll <> [] ->
  LoopLauncher.m_mapPendingTracks ll = [] ->
  Forall (fun e => Track.m_pPendingTrack (snd e) = None
                   /\ Track.m_pPendingClip (snd e) = None
                   /\ Track.HasClip "silence" (snd e) = false)
         (LoopLauncher.m_mapTracks ll) ->
  exists ll',
    LoopLauncher.onGetData ll = Done (true, ll')
    /\ LoopLauncher.m_vMixBuffer ll'
       = repeat 0 (length (LoopLauncher.m_vMixBuffer ll))
    /\ LoopLauncher.m_mapTracks ll' = LoopLauncher.m_mapTracks ll
    /\ LoopLauncher.m_mapPendingTracks ll' = [].
Proof.
  intros Hbuf Hstaged Hidle. unfold LoopLauncher.onGetData.
  destruct (LoopLauncher.m_vMixBuffer ll) as [|x buf] eqn:Eb; [congruence|].
  cbv zeta.
  assert (Et : forall b : bool,
            LoopLauncher.m_mapTracks
              (if b then LoopLauncher.postPendingTracks ll else ll)
            = LoopLauncher.m_mapTracks ll).
  { intros [|]; [|reflexivity].
    unfold LoopLauncher.postPendingTracks. cbn [LoopLauncher.m_mapTracks].
    rewrite Hstaged. cbn [LoopLauncher.apply_pending].
    apply (render_idle 0 0 _ [] Hidle). }
  assert (Es : forall b : bool,
            LoopLauncher.m_mapPendingTracks
              (if b then LoopLauncher.postPendingTracks ll else ll) = []).
  { intros [|]; [reflexivity | exact Hstaged]. }
  rewrite Et.
  rewrite (proj2 (render_idle _ _ _ _ Hidle)). cbn [bind].
  eexists. split; [reflexivity|].
  cbn [LoopLauncher.m_vMixBuffer LoopLauncher.m_mapTracks
       LoopLauncher.m_mapPendingTracks].
  split; [reflexivity|]. split; [reflexivity | apply Es].
Qed.

Lemma X14_idle_mixer_plays_silence_witness :
  exists ll',
    LoopLauncher.onGetData Scenario.mixer = Done (true, ll')
    /\ LoopLauncher.m_vMixBuffer ll'
       = repeat 0 (length (LoopLauncher.m_vMixBuffer Scenario.mixer))
    /\ LoopLauncher.m_mapTracks ll' = LoopLauncher.m_mapTracks Scenario.mixer
    /\ LoopLauncher.m_mapPendingTracks ll' = [].
Proof.
  apply (X14_idle_mixer_plays_silence Scenario.mixer).
  - discriminate.
  - reflexivity.
  - repeat constructor.
Defined.

(** ** [LoopLauncher::Initialize], [AddTrack] and [GetTrack] *)

Lemma sample_count_range_fst (tracks : StdMap.t Track.t) :
  forall nMax nMin,
    let m := fst (LoopLauncher.sample_count_range tracks nMax nMin) in
    nMax <= m
    /\ (forall e, In e tracks -> Track.GetSampleCount (snd e) <= m)
    /\ (m = nMax \/ exists e, In e tracks /\ m = Track.GetSampleCount (snd e)).
Proof.
  induction tracks as [|[name tr] tracks IH]; intros nMax nMin;
    cbn [LoopLauncher.sample_count_range].
  - cbn. repeat split; [lia | intros e [] | left; reflexivity].
  - specialize (IH (Z.max nMax (Track.GetSampleCount tr))
                   (Z.min nMin (Track.GetSampleCount tr))).
    cbv zeta in *.
    set (m := fst (LoopLauncher.sample_count_range tracks
                     (Z.max nMax (Track.GetSampleCount tr))
                     (Z.min nMin (Track.GetSampleCount tr)))) in *.
    destruct IH as (Hge & Hall & Hatt).
    split; [lia|]. split.
    + intros e [<- | Hin]; [cbn; lia | apply Hall, Hin].
    + destruct Hatt as [E | (e & Hin & E)].
      * destruct (Z.max_spec nMax (Track.GetSampleCount tr)) as [[_ M] | [_ M]].
        -- right. exists (name, tr). split; [left; reflexivity | cbn; lia].
        -- left. lia.
      * right. exists e. split; [right; exact Hin | exact E].
Qed.

(** X15.  When [Initialize] succeeds, the length of the cycle
    ([m_nMaxSampleCount]) is the largest of its previous value and the
    sample counts the tracks report: it is never lowered.  The stream is
    initialised with the channel count and the sample rate of the track
    whose name comes first, and the sample position, the needs-audio flag
    and the staged requests are left as they were. *)
Theorem X15_Initialize_sets_the_cycle_to_the_longest_track
    (loadFromFile : string -> option SoundBuffer)
    (mapTracks : StdMap.t (list string)) (ll ll' : LoopLauncher.t) :
  LoopLauncher.Initialize loadFromFile mapTracks ll = Done (true, ll') ->
  LoopLauncher.m_nMaxSampleCount ll <= LoopLauncher.m_nMaxSampleCount ll'
  /\ (forall name tr, In (name, tr) (LoopLauncher.m_mapTracks ll') ->
        Track.GetSampleCount tr <= LoopLauncher.m_nMaxSampleCount ll')
  /\ (LoopLauncher.m_nMaxSampleCount ll' = LoopLauncher.m_nMaxSampleCount ll
      \/ exists name tr,
           In (name, tr) (LoopLauncher.m_mapTracks ll')
           /\ LoopLauncher.m_nMaxSampleCount ll' = Track.GetSampleCount tr)
  /\ (exists name first rest,
        LoopLauncher.m_mapTracks ll' = (name, first) :: rest
        /\ LoopLauncher.m_stream ll'
           = Some (to_uint (Track.GetChannelCount first),
                   to_uint (Track.GetSampleRate first)))
  /\ LoopLauncher.m_nLastSamplePos ll' = LoopLauncher.m_nLastSamplePos ll
  /\ LoopLauncher.m_bNeedsAudio ll' = LoopLauncher.m_bNeedsAudio ll
  /\ LoopLauncher.m_mapPendingTracks ll' = LoopLauncher.m_mapPendingTracks ll.
Proof.
  destruct (LoopLauncher.emplace_tracks loadFromFile mapTracks
              (LoopLauncher.m_mapTracks ll)) as [tracks|f] eqn:E.
  - rewrite (Initialize_spec _ _ _ _ E).
    destruct tracks as [|[name first] rest]; [discriminate|].
    destruct (resize _ _) as [buf|]; cbn [bind]; [|discriminate].
    intros [= <-].
    cbn [LoopLauncher.m_nMaxSampleCount LoopLauncher.m_mapTracks
         LoopLauncher.m_stream LoopLauncher.m_nLastSamplePos
         LoopLauncher.m_bNeedsAudio LoopLauncher.m_mapPendingTracks].
    pose proof (sample_count_range_fst ((name, first) :: rest)
                  (LoopLauncher.m_nMaxSampleCount ll) INT_MAX) as (Hge & Hall & Hatt).
    split; [exact Hge|]. split; [|split; [|split]].
    + intros k tr Hin. exact (Hall (k, tr) Hin).
    + destruct Hatt as [Eq | ([k tr] & Hin & Eq)]; [left; exact Eq|].
      right. exists k, tr. split; assumption.
    + exists name, first, rest. split; reflexivity.
    + repeat split.
  - unfold LoopLauncher.Initialize. rewrite E. discriminate.
Qed.

Lemma X15_Initialize_sets_the_cycle_to_the_longest_track_witness :
  LoopLauncher.m_nMaxSampleCount LoopLauncher.default
  <= LoopLauncher.m_nMaxSampleCount Scenario.mixer
  /\ (forall name tr, In (name, tr) (LoopLauncher.m_mapTracks Scenario.mixer) ->
        Track.GetSampleCount tr <= LoopLauncher.m_nMaxSampleCount Scenario.mixer)
  /\ (LoopLauncher.m_nMaxSampleCount Scenario.mixer
      = LoopLauncher.m_nMaxSampleCount LoopLauncher.default
      \/ exists name tr,
           In (name, tr) (LoopLauncher.m_mapTracks Scenario.mixer)
           /\ LoopLauncher.m_nMaxSampleCount Scenario.mixer
              = Track.GetSampleCount tr)
  /\ (exists name first rest,
        LoopLauncher.m_mapTracks Scenario.mixer = (name, first) :: rest
        /\ LoopLauncher.m_stream Scenario.mixer
           = Some (to_uint (Track.GetChannelCount first),
                   to_uint (Track.GetSampleRate first)))
  /\ LoopLauncher.m_nLastSamplePos Scenario.mixer
     = LoopLauncher.m_nLastSamplePos LoopLauncher.default
  /\ LoopLauncher.m_bNeedsAudio Scenario.mixer
     = LoopLauncher.m_bNeedsAudio LoopLauncher.default
  /\ LoopLauncher.m_mapPendingTracks Scenario.mixer
     = LoopLauncher.m_mapPendingTracks LoopLauncher.default.
Proof.
  apply (X15_Initialize_sets_the_cycle_to_the_longest_track Scenario.files
           Scenario.two_tracks LoopLauncher.default Scenario.mixer).
  vm_compute. reflexivity.
Defined.

Lemma emplace_tracks_find (loadFromFile : string -> option SoundBuffer)
    (name : string) (mapTracks : StdMap.t (list string)) :
  forall tracks tracks' : StdMap.t Track.t,
    LoopLauncher.emplace_tracks loadFromFile mapTracks tracks = Done tracks' ->
    StdMap.find name tracks'
    = match StdMap.find name tracks with
      | Some tr => Some tr
      | None =>
          match StdMap.find name mapTracks with
          | Some files =>
              match Track.of_files loadFromFile files with
              | Done tr => Some tr
              | Fault _ => None
              end
          | None => None
          end
      end.
Proof.
  induction mapTracks as [|[k files] rest IH]; intros tracks tracks';
    cbn [LoopLauncher.emplace_tracks StdMap.find].
  - intros [= <-]. destruct (StdMap.find name tracks); reflexivity.
  - destruct (Track.of_files loadFromFile files) as [tr|] eqn:E;
      cbn [bind]; [|discriminate].
    intros H. rewrite (IH _ _ H), find_emplace.
    destruct (StdMap.find name tracks); [reflexivity|].
    destruct (String.eqb name k); [rewrite E|]; reflexivity.
Qed.

(** X16.  [Initialize] adds a track for every name of its argument that the
    mixer does not know yet, built from the files listed under that name,
    and keeps every track the mixer already has: a name that is already
    taken keeps its track, the list of files given for it is not used. *)
Theorem X16_Initialize_keeps_the_tracks_it_has
    (loadFromFile : string -> option SoundBuffer)
    (mapTracks : StdMap.t (list string)) (ll ll' : LoopLauncher.t) (r : bool)
    (name : string) :
  LoopLauncher.Initialize loadFromFile mapTracks ll = Done (r, ll') ->
  LoopLauncher.GetTrack name ll'
  = match LoopLauncher.GetTrack name ll with
    | Some tr => Some tr
    | None =>
        match StdMap.find name mapTracks with
        | Some files =>
            match Track.of_files loadFromFile files with
            | Done tr => Some tr
            | Fault _ => None
            end
        | None => None
        end
    end.
Proof.
  unfold LoopLauncher.GetTrack.
  destruct (LoopLauncher.emplace_tracks loadFromFile mapTracks
              (LoopLauncher.m_mapTracks ll)) as [tracks|f] eqn:E.
  - rewrite <- (emplace_tracks_find _ name _ _ _ E).
    rewrite (Initialize_spec _ _ _ _ E).
    destruct tracks as [|[k first] rest].
    + intros [= _ <-]. reflexivity.
    + destruct (resize _ _) as [buf|]; cbn [bind]; [|discriminate].
      intros [= _ <-]. reflexivity.
  - unfold LoopLauncher.Initialize. rewrite E. discriminate.
Qed.

Lemma X16_Initialize_keeps_the_tracks_it_has_witness :
  LoopLauncher.GetTrack "bass" Scenario.mixer
  = match LoopLauncher.GetTrack "bass" Scenario.mixer with
    | Some tr => Some tr
    | None =>
        match StdMap.find "bass" [("bass", ["y"]); ("keys", ["a"])] with
        | Some files =>
            match Track.of_files Scenario.files files with
            | Done tr => Some tr
            | Fault _ => None
            end
        | None => None
        end
    end.
Proof.
  apply (X16_Initialize_keeps_the_tracks_it_has Scenario.files
           [("bass", ["y"]); ("keys", ["a"])] Scenario.mixer
           {| LoopLauncher.m_nLastSamplePos := 0;
              LoopLauncher.m_nMaxSampleCount := 128;
              LoopLauncher.m_mapTracks :=
                (Scenario.built_tracks ++ [("keys", Scenario.track_a)])%list;
              LoopLauncher.m_vMixBuffer := [];
              LoopLauncher.m_bNeedsAudio := true;
              LoopLauncher.m_mapPendingTracks := [];
              LoopLauncher.m_stream := Some (2, 1000) |} true "bass").
  vm_compute. reflexivity.
Defined.

(** X17.  [AddTrack] returns true whenever it returns, also when the name
    is already taken; an existing track of that name is kept and the new
    list of files is not used.  The call changes neither the mix buffer nor
    the length of the cycle: a track added after [Initialize] is not
    counted in either. *)
Theorem X17_AddTrack_keeps_an_existing_track
    (loadFromFile : string -> option SoundBuffer) (trackName : string)
    (liFileNames : list string) (ll ll' : LoopLauncher.t) (r : bool) :
  LoopLauncher.AddTrack loadFromFile trackName liFileNames ll = Done (r, ll') ->
  r = true
  /\ (forall name,
        LoopLauncher.GetTrack name ll'
        = match LoopLauncher.GetTrack name ll with
          | Some tr => Some tr
          | None =>
              if String.eqb name trackName
              then match Track.of_files loadFromFile liFileNames with
                   | Done tr => Some tr
                   | Fault _ => None
                   end
              else None
          end)
  /\ LoopLauncher.m_vMixBuffer ll' = LoopLauncher.m_vMixBuffer ll
  /\ LoopLauncher.m_nMaxSampleCount ll' = LoopLauncher.m_nMaxSampleCount ll
  /\ LoopLauncher.m_stream ll' = LoopLauncher.m_stream ll.
Proof.
  unfold LoopLauncher.AddTrack, LoopLauncher.GetTrack.
  destruct (Track.of_files loadFromFile liFileNames) as [tr|];
    cbn [bind]; [|discriminate].
  intros [= <- <-]. split; [reflexivity|]. split; [|repeat split].
  intros name. cbn [LoopLauncher.with_tracks LoopLauncher.m_mapTracks].
  apply find_emplace.
Qed.

Lemma X17_AddTrack_keeps_an_existing_track_witness :
  true = true
  /\ (forall name,
        LoopLauncher.GetTrack name Scenario.mixer
        = match LoopLauncher.GetTrack name Scenario.mixer with
          | Some tr => Some tr
          | None =>
              if String.eqb name "bass"
              then match Track.of_files Scenario.files ["long"] with
                   | Done tr => Some tr
                   | Fault _ => None
                   end
              else None
          end)
  /\ LoopLauncher.m_vMixBuffer Scenario.mixer
     = LoopLauncher.m_vMixBuffer Scenario.mixer
  /\ LoopLauncher.m_nMaxSampleCount Scenario.mixer
     = LoopLauncher.m_nMaxSampleCount Scenario.mixer
  /\ LoopLauncher.m_stream Scenario.mixer = LoopLauncher.m_stream Scenario.mixer.
Proof.
  apply (X17_AddTrack_keeps_an_existing_track Scenario.files "bass" ["long"]
           Scenario.mixer Scenario.mixer true).
  vm_compute. reflexivity.
Defined.

(** ** Streaming a track whose clips fill a whole number of buffers *)

Lemma HasClip_find (c : string) (tr : Track.t) :
  Track.HasClip c tr = true ->
  exists clip, StdMap.find c (Track.m_mapClips tr) = Some clip.
Proof.
  unfold Track.HasClip. destruct (StdMap.find c (Track.m_mapClips tr)) as [clip|];
    [exists clip; reflexivity | discriminate].
Qed.

Lemma track_ok_clip (b q : Z) (tr : Track.t) (c : string) (clip : SoundBuffer) :
  Steady.track_ok b q tr ->
  StdMap.find c (Track.m_mapClips tr) = Some clip ->
  getSampleCount clip = q * b /\ Forall is_i16 (getSamples clip).
Proof.
  intros (_ & _ & Hall & _) Hf. apply find_In in Hf.
  rewrite Forall_forall in Hall. exact (Hall _ Hf).
Qed.

Lemma GetAudio_bootstrap (mix : list Z) (n pos : Z) (tr : Track.t) :
  Track.GetAudio (Some mix) n pos tr
  = Track.GetAudio (Some mix) n pos (Track.bootstrap tr).
Proof.
  unfold Track.GetAudio.
  assert (E : Track.bootstrap (Track.bootstrap tr) = Track.bootstrap tr).
  { destruct tr as [f c m [a|] [p|]]; reflexivity. }
  rewrite E. reflexivity.
Qed.

Lemma bootstrap_ok (b q : Z) (tr : Track.t) :
  Steady.track_ok b q tr -> Steady.track_ok b q (Track.bootstrap tr).
Proof.
  intros (HF & HF21 & Hall & Ha & Hp). unfold Steady.track_ok.
  destruct tr as [f c m [a|] [p|]]; cbn in *; repeat split; try assumption;
    try lia.
Qed.

Lemma with_active_ok (b q : Z) (tr : Track.t) :
  Steady.track_ok b q tr ->
  Steady.track_ok b q (Track.with_active (Track.m_pPendingClip tr) tr).
Proof.
  intros (HF & HF21 & Hall & Ha & Hp). unfold Steady.track_ok.
  cbn. repeat split; try assumption; lia.
Qed.

Lemma SetPendingTrack_ok (b q : Z) (c : string) (tr : Track.t) :
  Steady.track_ok b q tr ->
  Steady.track_ok b q (snd (Track.SetPendingTrack c tr)).
Proof.
  intros (HF & HF21 & Hall & Ha & Hp). unfold Steady.track_ok, Track.SetPendingTrack.
  destruct (StdMap.find c (Track.m_mapClips tr)) as [clip|] eqn:E; cbn;
    repeat split; try assumption; try lia; try discriminate.
  intros p [= <-]. unfold Track.HasClip. cbn. rewrite E. reflexivity.
Qed.

Lemma apply_pending_one (name : string) (pending : StdMap.t string) (b q : Z) :
  forall tr : Track.t,
    Steady.track_ok b q tr ->
    exists tr',
      LoopLauncher.apply_pending pending [(name, tr)] = [(name, tr')]
      /\ Steady.track_ok b q tr'.
Proof.
  induction pending as [|[k clip] pending IH]; intros tr H;
    cbn [LoopLauncher.apply_pending LoopLauncher.set_pending_on].
  - exists tr. split; [reflexivity | exact H].
  - destruct (String.eqb k name); [|apply IH, H].
    apply IH, SetPendingTrack_ok, H.
Qed.

Lemma mul_lt_buffers (b q i : Z) : 1 <= b -> i < q -> i * b + b <= q * b.
Proof.
  intros Hb Hi. replace (i * b + b) with ((i + 1) * b) by ring.
  apply Z.mul_le_mono_nonneg_r; lia.
Qed.

(** One buffer of a track that plays: inside the clip, or up to its last
    sample. *)
Lemma steady_active (b q i : Z) (tr : Track.t) (act : string) (k : nat) :
  1 <= b -> q * b <= INT_MAX -> 0 <= i < q -> Z.of_nat k = b ->
  Steady.track_ok b q tr ->
  Track.m_pPendingTrack tr = Some act ->
  exists tr' mix',
    Track.GetAudio (Some (repeat 0 k)) b (i * b) tr = Done (true, tr', Some mix')
    /\ length mix' = k
    /\ Steady.track_ok b q tr'.
Proof.
  intros Hb Hqb Hi Hk Hok Ha.
  pose proof Hok as (HF & HF21 & Hall & Hact & Hpend).
  destruct (HasClip_find _ _ (Hact _ Ha)) as (clip & Hf).
  destruct (track_ok_clip _ _ _ _ _ Hok Hf) as (Hc & Hs).
  pose proof (mul_lt_buffers b q i Hb (proj2 Hi)) as Hle.
  assert (Hpos : 0 <= i * b) by (apply Z.mul_nonneg_nonneg; lia).
  assert (Hmod : (i * b) mod getSampleCount clip = i * b).
  { rewrite Hc. apply Z.mod_small. lia. }
  unfold INT_MAX in *.
  assert (Hplain : forall x, 0 <= x < b ->
            is_i16 (Track.mixed (zth (repeat 0 k) x)
                      (zth (getSamples clip) ((i * b) mod getSampleCount clip + x)))).
  { intros x Hx. rewrite zth_repeat_0, mixed_0, Hmod.
    pose proof (quot2_range (zth (getSamples clip) (i * b + x))
                  ltac:(apply Forall_zth;
                        [assumption
                        | change (Z.of_nat (length (getSamples clip)))
                            with (getSampleCount clip); lia])).
    unfold is_i16. lia. }
  destruct (Z.eq_dec (i * b + b) (q * b)) as [Hend | Hin].
  - (* the buffer ends on the last sample of the clip *)
    assert (Hnext : exists next, Track.nextSample tr = Done next /\ is_i16 next).
    { unfold Track.nextSample.
      destruct (Track.m_pPendingClip tr) as [p|] eqn:Ep.
      - destruct (HasClip_find _ _ (Hpend _ eq_refl)) as (pc & Hpf).
        destruct (track_ok_clip _ _ _ _ _ Hok Hpf) as (Hpc & Hps).
        unfold Track.deref. rewrite Hpf. cbn [lift bind].
        assert (B : 0 <= 0 < Z.of_nat (length (getSamples pc))).
        { change (Z.of_nat (length (getSamples pc))) with (getSampleCount pc). lia. }
        rewrite load_in by exact B.
        eexists. split; [reflexivity | apply Forall_zth; assumption].
      - exists 0. split; [reflexivity | unfold is_i16; lia]. }
    destruct Hnext as (next & Hnext & Hnx).
    destruct (GetAudio_crossing_total tr act clip (repeat 0 k) b (i * b) next)
      as (mix' & E & L & _); try assumption; unfold INT_MAX; try lia.
    + rewrite repeat_length. lia.
    + apply Forall_repeat_0.
    + intros x Hx. apply Hplain. lia.
    + exists (Track.with_active (Track.m_pPendingClip tr) tr), mix'.
      split; [exact E|]. split; [rewrite L; apply repeat_length|].
      apply with_active_ok, Hok.
  - (* the buffer ends before the end of the clip *)
    destruct (GetAudio_inside tr act clip (repeat 0 k) b (i * b))
      as (mix' & E & L & _); try assumption; unfold INT_MAX; try lia.
    + rewrite repeat_length. lia.
    + apply Forall_repeat_0.
    + exists tr, mix'. split; [exact E|]. split; [|exact Hok].
      rewrite L. apply repeat_length.
Qed.

(** One buffer of the track, playing or not. *)
Lemma steady_track (b q i : Z) (tr : Track.t) (k : nat) :
  1 <= b -> q * b <= INT_MAX -> 0 <= i < q -> Z.of_nat k = b ->
  Steady.track_ok b q tr ->
  exists r tr' mix',
    Track.GetAudio (Some (repeat 0 k)) b (i * b) tr = Done (r, tr', Some mix')
    /\ length mix' = k
    /\ Steady.track_ok b q tr'.
Proof.
  intros Hb Hqb Hi Hk Hok. rewrite GetAudio_bootstrap.
  pose proof (bootstrap_ok _ _ _ Hok) as Hok1.
  destruct (Track.m_pPendingTrack (Track.bootstrap tr)) as [act|] eqn:Ea.
  - destruct (steady_active b q i _ act k Hb Hqb Hi Hk Hok1 Ea)
      as (tr' & mix' & E & L & O).
    exists true, tr', mix'. split; [exact E | split; [exact L | exact O]].
  - destruct (bootstrap_none _ Ea) as (A & P & B). rewrite B.
    exists false, tr, (repeat 0 k).
    split; [|split; [apply repeat_length | exact Hok]].
    unfold Track.GetAudio, Track.bootstrap. rewrite A, P, A. reflexivity.
Qed.

(** One call of [onGetData]. *)
Lemma steady_step (b q i : Z) (ll : LoopLauncher.t) :
  Steady.mixer_ok b q i ll ->
  exists ll',
    LoopLauncher.onGetData ll = Done (true, ll')
    /\ Steady.mixer_ok b q ((i + 1) mod q) ll'.
Proof.
  intros (Hb & Hq & Hqb & Hi & Hlen & Hmax & Hpos & name & tr & Ht & Hok).
  unfold LoopLauncher.onGetData.
  destruct (LoopLauncher.m_vMixBuffer ll) as [|x buf] eqn:Eb;
    [cbn in Hlen; lia|].
  set (k := length (x :: buf)) in *. cbv zeta.
  pose proof (mul_lt_buffers b q i Hb (proj2 Hi)) as Hle.
  assert (Hib : 0 <= i * b) by (apply Z.mul_nonneg_nonneg; lia).
  assert (Hint : to_int b = b) by (apply to_int_id; unfold INT_MAX in *; lia).
  rewrite Hmax, Hpos, Hlen, Hint.
  unfold INT_MAX in Hqb.
  rewrite (to_u64_id (q * b)), (to_u64_id (i * b)), (to_u64_id (b + i * b)) by lia.
  assert (Ep : to_int (to_u64 (i * b + b)) = i * b + b).
  { rewrite to_u64_id by lia. apply to_int_id. unfold INT_MAX. lia. }
  destruct (Z.leb_spec (q * b) (b + i * b)) as [Hwrap | Hin].
  - (* the buffer that ends the cycle *)
    assert (Ei : i + 1 = q).
    { assert ((i + 1) * b <= q * b) by (rewrite Z.mul_add_distr_r; lia).
      assert (q * b <= (i + 1) * b) by (rewrite Z.mul_add_distr_r; lia).
      assert (q <= i + 1) by (apply (Z.mul_le_mono_pos_r _ _ b); lia). lia. }
    cbn [LoopLauncher.postPendingTracks LoopLauncher.m_mapTracks
         LoopLauncher.m_nLastSamplePos LoopLauncher.m_nMaxSampleCount
         LoopLauncher.m_bNeedsAudio LoopLauncher.m_mapPendingTracks
         LoopLauncher.m_stream].
    rewrite Ht, Hpos, Hmax.
    cbn [LoopLauncher.silence_all map fst snd].
    destruct (apply_pending_one name (LoopLauncher.m_mapPendingTracks ll) b q _
                (SetPendingTrack_ok b q "silence" tr Hok)) as (tr1 & -> & Hok1).
    cbn [LoopLauncher.render_tracks].
    destruct (steady_track b q i tr1 k Hb ltac:(unfold INT_MAX; lia) Hi Hlen Hok1)
      as (r & tr' & mix' & -> & L & Hok').
    cbn [bind lift]. rewrite (to_u64_id (i * b)) by lia. rewrite Ep.
    eexists. split; [reflexivity|].
    destruct (Z.leb_spec (q * b) (i * b + b)); [|lia].
    rewrite Ei, Z.mod_same by lia.
    unfold Steady.mixer_ok.
    cbn [LoopLauncher.m_vMixBuffer LoopLauncher.m_nMaxSampleCount
         LoopLauncher.m_nLastSamplePos LoopLauncher.m_mapTracks].
    rewrite L. unfold INT_MAX.
    repeat split; try lia.
    exists name, tr'. split; [reflexivity | exact Hok'].
  - (* a buffer inside the cycle *)
    assert (Ei : i + 1 < q).
    { assert (b + i * b = (i + 1) * b) by ring.
      apply (Z.mul_lt_mono_pos_r b); lia. }
    cbn [LoopLauncher.m_mapTracks LoopLauncher.m_nLastSamplePos
         LoopLauncher.m_nMaxSampleCount LoopLauncher.m_bNeedsAudio
         LoopLauncher.m_mapPendingTracks LoopLauncher.m_stream].
    rewrite Ht, Hpos, Hmax. cbn [LoopLauncher.render_tracks].
    destruct (steady_track b q i tr k Hb ltac:(unfold INT_MAX; lia) Hi Hlen Hok)
      as (r & tr' & mix' & -> & L & Hok').
    cbn [bind lift]. rewrite (to_u64_id (i * b)) by lia. rewrite Ep.
    eexists. split; [reflexivity|].
    destruct (Z.leb_spec (q * b) (i * b + b)); [lia|].
    rewrite Z.mod_small by lia.
    unfold Steady.mixer_ok.
    cbn [LoopLauncher.m_vMixBuffer LoopLauncher.m_nMaxSampleCount
         LoopLauncher.m_nLastSamplePos LoopLauncher.m_mapTracks].
    rewrite L. unfold INT_MAX.
    repeat split; try lia.
    exists name, tr'. split; [reflexivity | exact Hok'].
Qed.

(** Staging requests does not disturb the streaming. *)
Lemma UpdatePendingClips_ok (b q i : Z) (clips : list string)
    (ll : LoopLauncher.t) :
  Steady.mixer_ok b q i ll ->
  Steady.mixer_ok b q i (snd (LoopLauncher.UpdatePendingClips clips ll)).
Proof.
  unfold Steady.mixer_ok, LoopLauncher.UpdatePendingClips.
  destruct (LoopLauncher.stage _ _ _ _) as [pending needs]. cbn. auto.
Qed.

(** Any number of calls of [onGetData], with requests staged in between. *)
Lemma steady_stream
    (b q i : Z) (ll : LoopLauncher.t) (k : nat) :
  Steady.mixer_ok b q i ll ->
  exists ll',
    Scenario.stream k ll = Done ll'
    /\ LoopLauncher.m_nLastSamplePos ll' = ((i + Z.of_nat k) mod q) * b
    /\ Steady.mixer_ok b q ((i + Z.of_nat k) mod q) ll'
    /\ forall liNewActiveClips,
         Steady.mixer_ok b q ((i + Z.of_nat k) mod q)
           (snd (LoopLauncher.UpdatePendingClips liNewActiveClips ll')).
Proof.
  revert i ll. induction k as [|k IH]; intros i ll H.
  - exists ll. cbn [Scenario.stream].
    pose proof H as (_ & _ & _ & Hi & _ & _ & Hpos & _).
    rewrite Z.add_0_r, Z.mod_small by lia.
    split; [reflexivity|]. split; [assumption|]. split; [assumption|].
    intros clips. apply UpdatePendingClips_ok, H.
  - destruct (steady_step b q i ll H) as (ll1 & E1 & H1).
    pose proof H as (_ & Hq & _).
    destruct (IH _ _ H1) as (ll' & E & Hpos & H' & Hreq).
    assert (Em : ((i + 1) mod q + Z.of_nat k) mod q = (i + Z.of_nat (S k)) mod q).
    { rewrite Z.add_mod_idemp_l by lia. f_equal. lia. }
    rewrite Em in *.
    exists ll'. cbn [Scenario.stream]. rewrite E1. cbn [bind].
    split; [exact E|]. split; [assumption|]. split; assumption.
Qed.

(** X18.  A mixer of one track whose clips all have [q] times the size [b]
    of the mix buffer, with a fade no longer than the buffer (and at most
    [2 ^ 21] samples), streams for ever: every call of [onGetData] returns
    true, whatever has been staged and whichever clips are active or
    pending.  After any number [k] of calls the mixer is in such a state
    again, at buffer [(i + k) mod q] of the cycle, and the next call
    returns true; so does the next call after any request staged in
    between. *)
Theorem X18_a_well_sized_track_streams_for_ever
    (b q i : Z) (ll : LoopLauncher.t) (k : nat) :
  Steady.mixer_ok b q i ll ->
  exists ll',
    Scenario.stream k ll = Done ll'
    /\ LoopLauncher.m_nLastSamplePos ll' = ((i + Z.of_nat k) mod q) * b
    /\ Steady.mixer_ok b q ((i + Z.of_nat k) mod q) ll'
    /\ (exists ll'', LoopLauncher.onGetData ll' = Done (true, ll''))
    /\ forall liNewActiveClips,
         Steady.mixer_ok b q ((i + Z.of_nat k) mod q)
           (snd (LoopLauncher.UpdatePendingClips liNewActiveClips ll'))
         /\ exists ll'',
              LoopLauncher.onGetData
                (snd (LoopLauncher.UpdatePendingClips liNewActiveClips ll'))
              = Done (true, ll'').
Proof.
  intros H.
  destruct (steady_stream b q i ll k H) as (ll' & E & Hpos & H' & Hreq).
  exists ll'. split; [exact E|]. split; [exact Hpos|]. split; [exact H'|].
  split.
  - destruct (steady_step _ _ _ _ H') as (ll'' & E' & _).
    exists ll''. exact E'.
  - intros clips. split; [apply Hreq|].
    destruct (steady_step _ _ _ _ (Hreq clips)) as (ll'' & E' & _).
    exists ll''. exact E'.
Qed.

Lemma X18_a_well_sized_track_streams_for_ever_witness :
  let ll :=
    {| LoopLauncher.m_nLastSamplePos := 62 * 5;
       LoopLauncher.m_nMaxSampleCount := 320;
       LoopLauncher.m_mapTracks :=
         [("pads",
           {| Track.m_nFadeSamples := 5;
              Track.m_nSampleCount := 320;
              Track.m_mapClips := [("pad", Scenario.loop320)];
              Track.m_pPendingTrack := Some "pad";
              Track.m_pPendingClip := Some "pad" |})];
       LoopLauncher.m_vMixBuffer := [0; 0; 0; 0; 0];
       LoopLauncher.m_bNeedsAudio := true;
       LoopLauncher.m_mapPendingTracks := [];
       LoopLauncher.m_stream := Some (1, 1000) |} in
  exists ll',
    Scenario.stream 4 ll = Done ll'
    /\ LoopLauncher.m_nLastSamplePos ll' = ((62 + Z.of_nat 4) mod 64) * 5
    /\ Steady.mixer_ok 5 64 ((62 + Z.of_nat 4) mod 64) ll'
    /\ (exists ll'', LoopLauncher.onGetData ll' = Done (true, ll''))
    /\ forall liNewActiveClips,
         Steady.mixer_ok 5 64 ((62 + Z.of_nat 4) mod 64)
           (snd (LoopLauncher.UpdatePendingClips liNewActiveClips ll'))
         /\ exists ll'',
              LoopLauncher.onGetData
                (snd (LoopLauncher.UpdatePendingClips liNewActiveClips ll'))
              = Done (true, ll'').
Proof.
  cbv zeta.
  apply (X18_a_well_sized_track_streams_for_ever 5 64 62 _ 4).
  unfold Steady.mixer_ok, INT_MAX.
  split; [lia|]. split; [lia|]. split; [lia|]. split; [lia|].
  split; [reflexivity|]. split; [reflexivity|]. split; [reflexivity|].
  eexists. eexists. split; [reflexivity|].
  unfold Steady.track_ok.
  cbn [Track.m_nFadeSamples Track.m_mapClips Track.m_pPendingTrack
       Track.m_pPendingClip].
  split; [lia|]. split; [lia|]. split.
  - constructor; [|constructor]. cbn [snd]. split; [reflexivity|].
    apply Forall_forall. intros x Hx. apply repeat_spec in Hx. subst x.
    unfold is_i16. lia.
  - split.
    + intros a [= <-]. reflexivity.
    + intros p [= <-]. reflexivity.
Defined.

(** ** [pyl]: the tables of methods and members *)

Lemma insert_before_last {D : Type} (data z : D) (front : list D) :
  Pyl._insert data (front ++ [z])%list = Pyl.Ok (front ++ [data; z])%list.
Proof.
  unfold Pyl._insert. destruct front as [|d front]; cbn [app].
  - reflexivity.
  - change (d :: (front ++ [z]))%list with ((d :: front) ++ [z])%list.
    rewrite removelast_last, last_last. reflexivity.
Qed.

Lemma existsb_eqb_In (x : string) (l : list string) :
  existsb (String.eqb x) l = true <-> In x l.
Proof.
  rewrite existsb_exists. split.
  - intros (y & Hin & E). apply String.eqb_eq in E. subst. exact Hin.
  - intros H. exists x. split; [exact H | apply String.eqb_refl].
Qed.

Lemma NoDup_snoc (x : string) (l : list string) :
  NoDup (l ++ [x])%list <-> NoDup l /\ ~ In x l.
Proof.
  split.
  - intros H. apply NoDup_remove in H. rewrite app_nil_r in H. exact H.
  - intros [H N]. apply NoDup_rev in H.
    rewrite <- (rev_involutive (l ++ [x])%list).
    apply NoDup_rev. rewrite rev_app_distr. cbn. constructor; [|exact H].
    rewrite <- in_rev. exact N.
Qed.

(** Registrations on a table that ends with the terminator: they all go
    through when the names are new and pairwise distinct, and the entries
    are inserted before the terminator, in the order of the calls. *)
Lemma AddMethods_distinct (calls : list (string * Z * Z * string)) :
  forall (md : Pyl.MethodDefinitions) (front : list Pyl.PyMethodDef),
    Pyl.v_Data md = (front ++ [Pyl.null_method])%list ->
    NoDup (Pyl.MethodNames md ++ map (fun '(name, _, _, _) => name) calls)%list ->
    Pyl.AddMethods calls md
    = Pyl.Ok
        {| Pyl.v_Data :=
             (front
              ++ map (fun '(name, fnPtr, flags, docs) =>
                        Pyl.method_def name fnPtr flags docs) calls
              ++ [Pyl.null_method])%list;
           Pyl.MethodNames :=
             (Pyl.MethodNames md ++ map (fun '(name, _, _, _) => name) calls)%list;
           Pyl.MethodDocs :=
             (Pyl.MethodDocs md
              ++ filter (fun docs => negb (Pyl.empty docs))
                   (map (fun '(_, _, _, docs) => docs) calls))%list |}.
Proof.
  induction calls as [|[[[name fnPtr] flags] docs] calls IH]; intros md front Hv Hn;
    cbn [Pyl.AddMethods map filter].
  - rewrite !app_nil_r. cbn [app]. destruct md. cbn in *. subst. reflexivity.
  - unfold Pyl.AddMethod.
    assert (Hnew : existsb (String.eqb name) (Pyl.MethodNames md) = false).
    { destruct (existsb _ _) eqn:E; [|reflexivity].
      apply existsb_eqb_In in E. apply NoDup_remove_2 in Hn.
      exfalso. apply Hn. apply in_or_app. left. exact E. }
    rewrite Hnew, Hv, insert_before_last.
    rewrite (IH _ (front ++ [Pyl.method_def name fnPtr flags docs])%list).
    + cbn [Pyl.v_Data Pyl.MethodNames Pyl.MethodDocs].
      rewrite <- !app_assoc. cbn [app]. f_equal. f_equal.
      destruct (Pyl.empty docs); cbn [negb]; [reflexivity|].
      rewrite <- app_assoc. reflexivity.
    + cbn [Pyl.v_Data]. rewrite <- app_assoc. reflexivity.
    + cbn [Pyl.MethodNames]. rewrite <- app_assoc. exact Hn.
Qed.

(** A name that is registered twice stops the series with the exception. *)
Lemma AddMethods_repeated (calls : list (string * Z * Z * string)) :
  forall (md : Pyl.MethodDefinitions) (front : list Pyl.PyMethodDef),
    Pyl.v_Data md = (front ++ [Pyl.null_method])%list ->
    NoDup (Pyl.MethodNames md) ->
    ~ NoDup (Pyl.MethodNames md ++ map (fun '(name, _, _, _) => name) calls)%list ->
    Pyl.AddMethods calls md
    = Pyl.Throw "Error: Attempting to overwrite exisiting exposed python function".
Proof.
  induction calls as [|[[[name fnPtr] flags] docs] calls IH]; intros md front Hv Hn Hd;
    cbn [Pyl.AddMethods map] in *.
  - rewrite app_nil_r in Hd. contradiction.
  - unfold Pyl.AddMethod.
    destruct (existsb (String.eqb name) (Pyl.MethodNames md)) eqn:E;
      [reflexivity|].
    rewrite Hv, insert_before_last.
    apply (IH _ (front ++ [Pyl.method_def name fnPtr flags docs])%list).
    + cbn [Pyl.v_Data]. rewrite <- app_assoc. reflexivity.
    + cbn [Pyl.MethodNames]. apply NoDup_snoc. split; [exact Hn|].
      intros Hin. apply existsb_eqb_In in Hin. congruence.
    + cbn [Pyl.MethodNames]. rewrite <- app_assoc. exact Hd.
Qed.

(** X19.  The table of methods stays null-terminated.  A series of
    [AddMethod] calls on a new [MethodDefinitions] goes through exactly
    when the names are pairwise distinct; the table then holds one entry
    for each call, in the order of the calls, followed by the one null
    entry, and an entry has null docs exactly when the docs given are
    empty.  When a name comes a second time the call throws the
    [std::runtime_error] of [AddMethod]. *)
Theorem X19_AddMethod_keeps_the_table_null_terminated
    (calls : list (string * Z * Z * string)) :
  (NoDup (map (fun '(name, _, _, _) => name) calls) ->
   Pyl.AddMethods calls Pyl.MethodDefinitions_new
   = Pyl.Ok
       {| Pyl.v_Data :=
            (map (fun '(name, fnPtr, flags, docs) =>
                    Pyl.method_def name fnPtr flags docs) calls
             ++ [Pyl.null_method])%list;
          Pyl.MethodNames := map (fun '(name, _, _, _) => name) calls;
          Pyl.MethodDocs :=
            filter (fun docs => negb (Pyl.empty docs))
              (map (fun '(_, _, _, docs) => docs) calls) |})
  /\ (~ NoDup (map (fun '(name, _, _, _) => name) calls) ->
      Pyl.AddMethods calls Pyl.MethodDefinitions_new
      = Pyl.Throw
          "Error: Attempting to overwrite exisiting exposed python function").
Proof.
  split; intros H.
  - apply (AddMethods_distinct calls Pyl.MethodDefinitions_new []);
      [reflexivity | exact H].
  - apply (AddMethods_repeated calls Pyl.MethodDefinitions_new []);
      [reflexivity | constructor | exact H].
Qed.

Lemma X19_AddMethod_keeps_the_table_null_terminated_witness :
  Pyl.AddMethods [("Play", 4096, 1, EmptyString); ("GetTrack", 8192, 1, "a track")]
    Pyl.MethodDefinitions_new
  = Pyl.Ok
      {| Pyl.v_Data :=
           [Pyl.method_def "Play" 4096 1 EmptyString;
            Pyl.method_def "GetTrack" 8192 1 "a track";
            Pyl.null_method];
         Pyl.MethodNames := ["Play"; "GetTrack"];
         Pyl.MethodDocs := ["a track"] |}
  /\ Pyl.AddMethods [("Play", 4096, 1, EmptyString); ("Play", 8192, 1, EmptyString)]
       Pyl.MethodDefinitions_new
     = Pyl.Throw
         "Error: Attempting to overwrite exisiting exposed python function".
Proof.
  split.
  - apply (proj1 (X19_AddMethod_keeps_the_table_null_terminated
                    [("Play", 4096, 1, EmptyString); ("GetTrack", 8192, 1, "a track")])).
    repeat constructor; cbn; intuition discriminate.
  - apply (proj2 (X19_AddMethod_keeps_the_table_null_terminated
                    [("Play", 4096, 1, EmptyString); ("Play", 8192, 1, EmptyString)])).
    intros H. inversion H as [|x l Hin _]; subst. apply Hin. left. reflexivity.
Defined.

Lemma AddMembers_distinct (calls : list (string * Z * Z * Z * string)) :
  forall (md : Pyl.MemberDefinitions) (front : list Pyl.PyMemberDef),
    Pyl.m_Data md = (front ++ [Pyl.null_member])%list ->
    NoDup (Pyl.MemberNames md
           ++ map (fun '(memberName, _, _, _, _) => memberName) calls)%list ->
    Pyl.AddMembers calls md
    = Pyl.Ok
        {| Pyl.m_Data :=
             (front
              ++ map (fun '(memberName, memberType, memberOffset, memberFlags, docs) =>
                        Pyl.member_def memberName memberType memberOffset
                          memberFlags docs) calls
              ++ [Pyl.null_member])%list;
           Pyl.MemberNames :=
             (Pyl.MemberNames md
              ++ map (fun '(memberName, _, _, _, _) => memberName) calls)%list;
           Pyl.MemberDocs :=
             (Pyl.MemberDocs md
              ++ filter (fun docs => negb (Pyl.empty docs))
                   (map (fun '(_, _, _, _, docs) => docs) calls))%list |}.
Proof.
  induction calls as [|[[[[memberName memberType] memberOffset] memberFlags] docs] calls IH];
    intros md front Hv Hn; cbn [Pyl.AddMembers map filter].
  - rewrite !app_nil_r. cbn [app]. destruct md. cbn in *. subst. reflexivity.
  - unfold Pyl.AddMember.
    assert (Hnew : existsb (String.eqb memberName) (Pyl.MemberNames md) = false).
    { destruct (existsb _ _) eqn:E; [|reflexivity].
      apply existsb_eqb_In in E. apply NoDup_remove_2 in Hn.
      exfalso. apply Hn. apply in_or_app. left. exact E. }
    rewrite Hnew, Hv, insert_before_last.
    rewrite (IH _ (front ++ [Pyl.member_def memberName memberType memberOffset
                               memberFlags docs])%list).
    + cbn [Pyl.m_Data Pyl.MemberNames Pyl.MemberDocs].
      rewrite <- !app_assoc. cbn [app]. f_equal. f_equal.
      destruct (Pyl.empty docs); cbn [negb]; [reflexivity|].
      rewrite <- app_assoc. reflexivity.
    + cbn [Pyl.m_Data]. rewrite <- app_assoc. reflexivity.
    + cbn [Pyl.MemberNames]. rewrite <- app_assoc. exact Hn.
Qed.

Lemma AddMembers_repeated (calls : list (string * Z * Z * Z * string)) :
  forall (md : Pyl.MemberDefinitions) (front : list Pyl.PyMemberDef),
    Pyl.m_Data md = (front ++ [Pyl.null_member])%list ->
    NoDup (Pyl.MemberNames md) ->
    ~ NoDup (Pyl.MemberNames md
             ++ map (fun '(memberName, _, _, _, _) => memberName) calls)%list ->
    Pyl.AddMembers calls md
    = Pyl.Throw
        "Error: Attempting to overwrite exisiting exposed python class member".
Proof.
  induction calls as [|[[[[memberName memberType] memberOffset] memberFlags] docs] calls IH];
    intros md front Hv Hn Hd; cbn [Pyl.AddMembers map] in *.
  - rewrite app_nil_r in Hd. contradiction.
  - unfold Pyl.AddMember.
    destruct (existsb (String.eqb memberName) (Pyl.MemberNames md)) eqn:E;
      [reflexivity|].
    rewrite Hv, insert_before_last.
    apply (IH _ (front ++ [Pyl.member_def memberName memberType memberOffset
                             memberFlags docs])%list).
    + cbn [Pyl.m_Data]. rewrite <- app_assoc. reflexivity.
    + cbn [Pyl.MemberNames]. apply NoDup_snoc. split; [exact Hn|].
      intros Hin. apply existsb_eqb_In in Hin. congruence.
    + cbn [Pyl.MemberNames]. rewrite <- app_assoc. exact Hd.
Qed.

(** X20.  The table of members of an exposed class starts with the member
    [c_ptr] and stays null-terminated: a series of [AddMember] calls on a
    new [MemberDefinitions] goes through exactly when the names are
    pairwise distinct and none of them is "c_ptr"; the table is then the
    entry of [c_ptr], one entry for each call in the order of the calls,
    and the one null entry.  Otherwise the call that repeats a name throws
    the [std::runtime_error] of [AddMember]. *)
Theorem X20_AddMember_keeps_c_ptr_and_the_terminator
    (capsule_offset : Z) (calls : list (string * Z * Z * Z * string)) :
  exists md0,
    Pyl.MemberDefinitions_new capsule_offset = Pyl.Ok md0
    /\ (NoDup ("c_ptr" :: map (fun '(memberName, _, _, _, _) => memberName) calls) ->
        Pyl.AddMembers calls md0
        = Pyl.Ok
            {| Pyl.m_Data :=
                 ({| Pyl.name := Some "c_ptr"; Pyl.type := Pyl.T_OBJECT_EX;
                     Pyl.offset := capsule_offset; Pyl.flags := 0;
                     Pyl.doc := Some "pointer to a c object" |}
                  :: map (fun '(memberName, memberType, memberOffset, memberFlags, docs) =>
                            Pyl.member_def memberName memberType memberOffset
                              memberFlags docs) calls
                  ++ [Pyl.null_member])%list;
               Pyl.MemberNames :=
                 "c_ptr" :: map (fun '(memberName, _, _, _, _) => memberName) calls;
               Pyl.MemberDocs :=
                 "pointer to a c object"
                 :: filter (fun docs => negb (Pyl.empty docs))
                      (map (fun '(_, _, _, _, docs) => docs) calls) |})
    /\ (~ NoDup ("c_ptr" :: map (fun '(memberName, _, _, _, _) => memberName) calls) ->
        Pyl.AddMembers calls md0
        = Pyl.Throw
            "Error: Attempting to overwrite exisiting exposed python class member").
Proof.
  eexists. split; [reflexivity|]. split; intros H.
  - rewrite (AddMembers_distinct calls _
               [{| Pyl.name := Some "c_ptr"; Pyl.type := Pyl.T_OBJECT_EX;
                   Pyl.offset := capsule_offset; Pyl.flags := 0;
                   Pyl.doc := Some "pointer to a c object" |}]);
      [reflexivity | reflexivity | exact H].
  - apply (AddMembers_repeated calls _
             [{| Pyl.name := Some "c_ptr"; Pyl.type := Pyl.T_OBJECT_EX;
                 Pyl.offset := capsule_offset; Pyl.flags := 0;
                 Pyl.doc := Some "pointer to a c object" |}]);
      [reflexivity | repeat constructor; intros [] | exact H].
Qed.

Lemma X20_AddMember_keeps_c_ptr_and_the_terminator_witness :
  exists md0,
    Pyl.MemberDefinitions_new 16 = Pyl.Ok md0
    /\ Pyl.AddMembers [("volume", 2, 24, 0, "gain")] md0
       = Pyl.Ok
           {| Pyl.m_Data :=
                [{| Pyl.name := Some "c_ptr"; Pyl.type := Pyl.T_OBJECT_EX;
                    Pyl.offset := 16; Pyl.flags := 0;
                    Pyl.doc := Some "pointer to a c object" |};
                 Pyl.member_def "volume" 2 24 0 "gain";
                 Pyl.null_member];
              Pyl.MemberNames := ["c_ptr"; "volume"];
              Pyl.MemberDocs := ["pointer to a c object"; "gain"] |}
    /\ Pyl.AddMembers [("c_ptr", 2, 24, 0, "gain")] md0
       = Pyl.Throw
           "Error: Attempting to overwrite exisiting exposed python class member".
Proof.
  destruct (X20_AddMember_keeps_c_ptr_and_the_terminator 16
              [("volume", 2, 24, 0, "gain")]) as (md0 & E0 & Hok & _).
  destruct (X20_AddMember_keeps_c_ptr_and_the_terminator 16
              [("c_ptr", 2, 24, 0, "gain")]) as (md1 & E1 & _ & Hthrow).
  exists md0. split; [exact E0|]. split.
  - apply Hok. repeat constructor; cbn; intuition discriminate.
  - assert (E : md1 = md0) by congruence. subst md1. apply Hthrow.
    intros H. inversion H as [|x l Hin _]; subst. apply Hin. left. reflexivity.
Defined.

(** ** [pyl::Object::from_script] *)

Lemma string_length_app (a b : string) :
  String.length (a ++ b) = (String.length a + String.length b)%nat.
Proof. induction a as [|c a IH]; cbn; [reflexivity | rewrite IH; reflexivity]. Qed.

Lemma string_app_assoc (a b c : string) : ((a ++ b) ++ c = a ++ (b ++ c))%string.
Proof. induction a as [|x a IH]; cbn; [reflexivity | rewrite IH; reflexivity]. Qed.

Lemma substring_all (s : string) :
  forall m : nat, (String.length s <= m)%nat -> substring 0 m s = s.
Proof.
  induction s as [|c s IH]; intros [|m] H; cbn in *; try reflexivity; try lia.
  f_equal. apply IH. lia.
Qed.

Lemma substring_take (a b : string) :
  substring 0 (String.length a) (a ++ b) = a.
Proof.
  induction a as [|c a IH]; cbn.
  - destruct b; reflexivity.
  - f_equal. exact IH.
Qed.

Lemma substring_skip (a b : string) (m : nat) :
  substring (String.length a) m (a ++ b) = substring 0 m b.
Proof. induction a as [|c a IH]; cbn; [reflexivity | exact IH]. Qed.

Lemma prefix_app (p s : string) :
  String.prefix p s = true -> exists b, s = (p ++ b)%string.
Proof.
  revert s. induction p as [|c p IH]; intros s H.
  - exists s. reflexivity.
  - destruct s as [|d s]; cbn in H; [discriminate|].
    destruct (Ascii.ascii_dec c d) as [-> | _]; [|discriminate].
    destruct (IH s H) as [b ->]. exists b. reflexivity.
Qed.

Lemma prefix_app_true (p b : string) : String.prefix p (p ++ b) = true.
Proof.
  induction p as [|c p IH]; cbn.
  - destruct b; reflexivity.
  - destruct (Ascii.ascii_dec c c); [exact IH | congruence].
Qed.

(** Where [rfind] finds the pattern, the pattern occurs. *)
Lemma rfind_nat_occurs (pat s : string) :
  forall i, Pyl.rfind_nat pat s = Some i ->
            exists a b, s = (a ++ pat ++ b)%string /\ String.length a = i.
Proof.
  induction s as [|c s IH]; intros i; cbn [Pyl.rfind_nat].
  - destruct (String.prefix pat EmptyString) eqn:P; [|discriminate].
    intros [= <-]. destruct (prefix_app _ _ P) as [b E].
    exists EmptyString, b. split; [exact E | reflexivity].
  - destruct (Pyl.rfind_nat pat s) as [j|] eqn:R.
    + intros [= <-]. destruct (IH j eq_refl) as (a & b & -> & L).
      exists (String c a), b. split; [reflexivity | cbn; rewrite L; reflexivity].
    + destruct (String.prefix pat (String c s)) eqn:P; [|discriminate].
      intros [= <-]. destruct (prefix_app _ _ P) as [b E].
      exists EmptyString, b. split; [exact E | reflexivity].
Qed.

(** Where the pattern occurs, [rfind] finds it. *)
Lemma rfind_nat_found (pat a b : string) :
  Pyl.rfind_nat pat (a ++ pat ++ b) <> None.
Proof.
  induction a as [|c a IH].
  - cbn [append]. pose proof (prefix_app_true pat b) as P.
    destruct (pat ++ b)%string as [|d s]; cbn [Pyl.rfind_nat].
    + rewrite P. discriminate.
    + destruct (Pyl.rfind_nat pat s); [discriminate|]. rewrite P. discriminate.
  - cbn [append Pyl.rfind_nat].
    destruct (Pyl.rfind_nat pat (a ++ pat ++ b)); [discriminate | congruence].
Qed.

Lemma no_slash_tail (c : Ascii.ascii) (s : string) :
  (forall a b, String c s <> (a ++ "/" ++ b)%string) ->
  forall a b, s <> (a ++ "/" ++ b)%string.
Proof.
  intros H a b E. apply (H (String c a) b). rewrite E. reflexivity.
Qed.

Lemma rfind_nat_no_slash (s : string) :
  (forall a b, s <> (a ++ "/" ++ b)%string) -> Pyl.rfind_nat "/" s = None.
Proof.
  induction s as [|c s IH]; intros H; cbn [Pyl.rfind_nat].
  - reflexivity.
  - rewrite (IH (no_slash_tail _ _ H)).
    destruct (String.prefix "/" (String c s)) eqn:P; [|reflexivity].
    destruct (prefix_app _ _ P) as [b E].
    exfalso. apply (H EmptyString b). exact E.
Qed.

Lemma rfind_nat_last_slash (dir file : string) :
  (forall a b, file <> (a ++ "/" ++ b)%string) ->
  Pyl.rfind_nat "/" (dir ++ "/" ++ file) = Some (String.length dir).
Proof.
  intros H. induction dir as [|c dir IH].
  - cbn [append String.length Pyl.rfind_nat]. rewrite (rfind_nat_no_slash _ H).
    pose proof (prefix_app_true "/" file) as P. cbn [append] in P.
    rewrite P. reflexivity.
  - cbn [append String.length Pyl.rfind_nat] in *. rewrite IH. reflexivity.
Qed.

Lemma rfind_nat_suffix (stem : string) :
  Pyl.rfind_nat ".py" (stem ++ ".py") = Some (String.length stem).
Proof.
  induction stem as [|c stem IH].
  - reflexivity.
  - cbn [append String.length Pyl.rfind_nat]. rewrite IH. reflexivity.
Qed.

(** The last lines before the import: a final ".py" is cut off the name of
    the file. *)
Lemma module_name_of_py (stem : string) :
  Pyl.size (stem ++ ".py") < 2 ^ 64 ->
  (if (Pyl.rfind (stem ++ ".py") ".py" =? to_u64 (Pyl.size (stem ++ ".py") - 3))%Z
   then Pyl.substr (stem ++ ".py") 0 (to_u64 (Pyl.size (stem ++ ".py") - 3))
   else (stem ++ ".py")%string)
  = stem.
Proof.
  assert (Es : Pyl.size (stem ++ ".py") = Z.of_nat (String.length stem) + 3).
  { unfold Pyl.size. rewrite string_length_app. cbn [String.length]. lia. }
  unfold Pyl.rfind, Pyl.substr. rewrite rfind_nat_suffix, Es. intros H.
  rewrite to_u64_id by lia.
  replace (Z.of_nat (String.length stem) + 3 - 3)
    with (Z.of_nat (String.length stem)) by lia.
  rewrite Z.eqb_refl, Z.min_l by lia.
  change (Z.to_nat 0) with 0%nat. rewrite Nat2Z.id. apply substring_take.
Qed.

Lemma module_name_of_other (file : string) :
  Pyl.size file < 2 ^ 64 ->
  (forall stem, file <> (stem ++ ".py")%string) ->
  (if (Pyl.rfind file ".py" =? to_u64 (Pyl.size file - 3))%Z
   then Pyl.substr file 0 (to_u64 (Pyl.size file - 3))
   else file)
  = file.
Proof.
  unfold Pyl.rfind, Pyl.substr, Pyl.size, Pyl.npos. intros Hs Hn.
  destruct (Z.eqb_spec
              (match Pyl.rfind_nat ".py" file with
               | Some i => Z.of_nat i
               | None => 2 ^ 64 - 1
               end)
              (to_u64 (Z.of_nat (String.length file) - 3))) as [E | _];
    [|reflexivity].
  destruct (Pyl.rfind_nat ".py" file) as [i|] eqn:R.
  - exfalso. destruct (rfind_nat_occurs _ _ _ R) as (a & b & Ef & La).
    assert (L : String.length file = (i + 3 + String.length b)%nat).
    { rewrite Ef, !string_length_app, La. cbn. lia. }
    rewrite to_u64_id in E by lia.
    assert (Lb : String.length b = 0%nat) by lia.
    destruct b; [|discriminate]. apply (Hn a). rewrite Ef. reflexivity.
  - apply substring_all. unfold to_u64 in *.
    destruct (Z.le_gt_cases 3 (Z.of_nat (String.length file))) as [H3 | H3].
    + rewrite Z.mod_small in E by lia. lia.
    + replace (Z.of_nat (String.length file) - 3)
        with ((Z.of_nat (String.length file) - 3 + 2 ^ 64) + (-1) * 2 ^ 64) in *
        by lia.
      rewrite Z.mod_add, Z.mod_small in * by lia. lia.
Qed.

(** X21.  [from_script] looks for the module named after the file, without
    a final ".py", in the directory of the script: everything before the
    last "/" of the path, the empty string for a script in the root
    directory, and "." for a path without "/".  The name of a file in a
    directory has two characters at least.  (The path is shorter than
    [2 ^ 64] characters.) *)
Theorem X21_from_script_cuts_the_path
    (Object : Type) (import_module : string -> string -> Pyl.result Object)
    (dir file : string) :
  (forall a b, file <> (a ++ "/" ++ b)%string) ->
  Pyl.size (dir ++ "/" ++ file) < 2 ^ 64 ->
  (forall stem,
     file = (stem ++ ".py")%string ->
     Pyl.from_script Object import_module (dir ++ "/" ++ file)
     = import_module dir stem
     /\ Pyl.from_script Object import_module file = import_module "." stem)
  /\ ((forall stem, file <> (stem ++ ".py")%string) ->
      (2 <= Pyl.size file ->
       Pyl.from_script Object import_module (dir ++ "/" ++ file)
       = import_module dir file)
      /\ Pyl.from_script Object import_module file = import_module "." file).
Proof.
  intros Hfile Hsize.
  assert (Lp : Pyl.size (dir ++ "/" ++ file)
               = Pyl.size dir + 1 + Pyl.size file).
  { unfold Pyl.size. rewrite !string_length_app. cbn [String.length]. lia. }
  assert (Hd : 0 <= Pyl.size dir) by (unfold Pyl.size; lia).
  assert (Hf : 0 <= Pyl.size file) by (unfold Pyl.size; lia).
  assert (Esl : Pyl.rfind (dir ++ "/" ++ file) "/" = Pyl.size dir).
  { unfold Pyl.rfind. rewrite (rfind_nat_last_slash _ _ Hfile). reflexivity. }
  assert (Ens : Pyl.rfind file "/" = Pyl.npos).
  { unfold Pyl.rfind. rewrite (rfind_nat_no_slash _ Hfile). reflexivity. }
  assert (Ebase : Pyl.substr (dir ++ "/" ++ file) 0 (Pyl.size dir) = dir).
  { unfold Pyl.substr. rewrite Z.min_l by lia.
    unfold Pyl.size. rewrite Nat2Z.id. apply substring_take. }
  assert (Efile : Pyl.substr (dir ++ "/" ++ file) (Pyl.size dir + 1) Pyl.npos
                  = file).
  { unfold Pyl.substr. rewrite Z.min_r by (unfold Pyl.npos; lia).
    unfold Pyl.size.
    replace (Z.to_nat (Z.of_nat (String.length dir) + 1))
      with (String.length (dir ++ "/")) by (rewrite string_length_app; cbn; lia).
    rewrite <- string_app_assoc, substring_skip.
    apply substring_all. rewrite !string_length_app. cbn [String.length]. lia. }
  assert (With : 2 <= Pyl.size file ->
            forall m,
              (if (Pyl.rfind file ".py" =? to_u64 (Pyl.size file - 3))%Z
               then Pyl.substr file 0 (to_u64 (Pyl.size file - 3))
               else file) = m ->
              Pyl.from_script Object import_module (dir ++ "/" ++ file)
              = import_module dir m).
  { intros H2 m Em. unfold Pyl.from_script. cbv zeta. rewrite Esl.
    destruct (Z.eqb_spec (Pyl.size dir) Pyl.npos) as [E | _];
      [unfold Pyl.npos in E; lia|].
    rewrite Lp, to_u64_id by lia.
    destruct (Z.leb_spec (Pyl.size dir + 1 + Pyl.size file - 2) (Pyl.size dir));
      [lia|].
    rewrite Ebase, Efile, Em. reflexivity. }
  assert (Without : forall m,
            (if (Pyl.rfind file ".py" =? to_u64 (Pyl.size file - 3))%Z
             then Pyl.substr file 0 (to_u64 (Pyl.size file - 3))
             else file) = m ->
            Pyl.from_script Object import_module file = import_module "." m).
  { intros m Em. unfold Pyl.from_script. cbv zeta. rewrite Ens, Z.eqb_refl, Em.
    reflexivity. }
  split.
  - intros stem ->.
    assert (Es : Pyl.size (stem ++ ".py") = Pyl.size stem + 3).
    { unfold Pyl.size. rewrite string_length_app. cbn [String.length]. lia. }
    assert (0 <= Pyl.size stem) by (unfold Pyl.size; lia).
    pose proof (module_name_of_py stem ltac:(lia)) as M.
    split; [apply With; [lia | exact M] | apply Without, M].
  - intros Hn.
    pose proof (module_name_of_other file ltac:(lia) Hn) as M.
    split; [intros H2; apply With; assumption | apply Without, M].
Qed.

Lemma X21_from_script_cuts_the_path_witness :
  Pyl.from_script string
    (fun base_path file_path => Pyl.Ok (base_path ++ ":" ++ file_path)%string)
    "../scripts/driver.py"
  = Pyl.Ok "../scripts:driver"%string.
Proof.
  assert (H1 : forall a b, "driver.py"%string <> (a ++ "/" ++ b)%string).
  { intros a b E. apply (rfind_nat_found "/" a b). rewrite <- E. reflexivity. }
  assert (H2 : Pyl.size ("../scripts" ++ "/" ++ "driver.py") < 2 ^ 64)
    by (vm_compute; reflexivity).
  exact (proj1 (proj1 (X21_from_script_cuts_the_path string
                         (fun base_path file_path =>
                            Pyl.Ok (base_path ++ ":" ++ file_path)%string)
                         "../scripts" "driver.py" H1 H2) "driver" eq_refl)).
Defined.

(** X22.  [from_script] refuses a path whose last "/" is followed by one
    character at most: it throws "Invalid script path" before anything is
    imported, for a path that ends with "/" as for a script with a name of
    one character in a directory.  The path "/" alone is not refused: the
    module with the empty name is looked for in the directory with the
    empty name. *)
Theorem X22_from_script_refuses_a_short_file_name
    (Object : Type) (import_module : string -> string -> Pyl.result Object)
    (dir file : string) :
  (forall a b, file <> (a ++ "/" ++ b)%string) ->
  Pyl.size (dir ++ "/" ++ file) < 2 ^ 64 ->
  Pyl.size file <= 1 ->
  (2 <= Pyl.size (dir ++ "/" ++ file) ->
   Pyl.from_script Object import_module (dir ++ "/" ++ file)
   = Pyl.Throw "Invalid script path")
  /\ Pyl.from_script Object import_module "/" = import_module EmptyString EmptyString.
Proof.
  intros Hfile Hsize Hshort. split; [|reflexivity].
  intros H2.
  assert (Lp : Pyl.size (dir ++ "/" ++ file)
               = Pyl.size dir + 1 + Pyl.size file).
  { unfold Pyl.size. rewrite !string_length_app. cbn [String.length]. lia. }
  assert (Hd : 0 <= Pyl.size dir) by (unfold Pyl.size; lia).
  assert (Hf : 0 <= Pyl.size file) by (unfold Pyl.size; lia).
  unfold Pyl.from_script. cbv zeta.
  assert (Esl : Pyl.rfind (dir ++ "/" ++ file) "/" = Pyl.size dir).
  { unfold Pyl.rfind. rewrite (rfind_nat_last_slash _ _ Hfile). reflexivity. }
  rewrite Esl.
  destruct (Z.eqb_spec (Pyl.size dir) Pyl.npos) as [E | _];
    [unfold Pyl.npos in E; lia|].
  rewrite Lp in *. rewrite to_u64_id by lia.
  destruct (Z.leb_spec (Pyl.size dir + 1 + Pyl.size file - 2) (Pyl.size dir));
    [reflexivity | lia].
Qed.

Lemma X22_from_script_refuses_a_short_file_name_witness :
  Pyl.from_script string
    (fun base_path file_path => Pyl.Ok (base_path ++ ":" ++ file_path)%string)
    "scripts/d"
  = Pyl.Throw "Invalid script path".
Proof.
  assert (H1 : forall a b, "d"%string <> (a ++ "/" ++ b)%string).
  { intros a b E. apply (rfind_nat_found "/" a b). rewrite <- E. reflexivity. }
  assert (H2 : Pyl.size ("scripts" ++ "/" ++ "d") < 2 ^ 64)
    by (vm_compute; reflexivity).
  assert (H3 : Pyl.size "d" <= 1) by (vm_compute; discriminate).
  assert (H4 : 2 <= Pyl.size ("scripts" ++ "/" ++ "d"))
    by (vm_compute; discriminate).
  exact (proj1 (X22_from_script_refuses_a_short_file_name string
                  (fun base_path file_path =>
                     Pyl.Ok (base_path ++ ":" ++ file_path)%string)
                  "scripts" "d" H1 H2 H3) H4).
Defined.

(** ** The mix is not saturated *)

(** X23.  The mix is not saturated.  On a window inside the active clip,
    [GetAudio] adds half of every sample to what the mix buffer holds; when
    one of these sums leaves the range of [sf::Int16] the conversion of the
    sum to [sf::Int16] is undefined and the call does not complete. *)
Theorem X23_GetAudio_mix_overflow_is_undefined
    (tr : Track.t) (act : string) (clip : SoundBuffer) (mix : list Z)
    (n pos x : Z) :
  Track.m_pPendingTrack tr = Some act ->
  StdMap.find act (Track.m_mapClips tr) = Some clip ->
  getSampleCount clip <= INT_MAX ->
  0 <= n <= INT_MAX -> 0 <= pos <= INT_MAX ->
  n <= Z.of_nat (length mix) ->
  Forall is_i16 mix -> Forall is_i16 (getSamples clip) ->
  pos mod getSampleCount clip + n < getSampleCount clip ->
  0 <= x < n ->
  ~ is_i16 (Track.mixed (zth mix x)
              (zth (getSamples clip) (pos mod getSampleCount clip + x))) ->
  Track.GetAudio (Some mix) n pos tr = Fault FloatToIntOverflow.
Proof. apply GetAudio_inside_overflow. Qed.

Lemma X23_GetAudio_mix_overflow_is_undefined_witness :
  Track.GetAudio (Some [0; 32767]) 2 0 Scenario.playing_a
  = Fault FloatToIntOverflow.
Proof.
  apply (X23_GetAudio_mix_overflow_is_undefined Scenario.playing_a "a"
           Scenario.tone [0; 32767] 2 0 1).
  - reflexivity.
  - reflexivity.
  - vm_compute. discriminate.
  - unfold INT_MAX. lia.
  - unfold INT_MAX. lia.
  - vm_compute. discriminate.
  - repeat constructor; unfold is_i16; lia.
  - repeat constructor; unfold is_i16; lia.
  - reflexivity.
  - lia.
  - vm_compute. intros [_ H]. apply H. reflexivity.
Defined.

(** ** The clip the getters of a track report *)

Lemma AddClips_ordered (loadFromFile : string -> option SoundBuffer)
    (liFileNames : list string) :
  forall tr tr' : Track.t,
    Track.AddClips loadFromFile liFileNames tr = Done tr' ->
    StdMap.ordered (Track.m_mapClips tr) ->
    StdMap.ordered (Track.m_mapClips tr').
Proof.
  induction liFileNames as [|file rest IH]; intros tr tr'; cbn [Track.AddClips].
  - intros [= <-] H. exact H.
  - unfold Track.AddClip.
    destruct (loadFromFile file) as [sBuf|]; cbn [bind].
    + destruct (if (Track.m_nFadeSamples tr =? 0)%Z
                then lift FloatToIntOverflow (Track.fadeSamples sBuf)
                else Done (Track.m_nFadeSamples tr)) as [fade|];
        cbn [bind]; [|discriminate].
      intros H O. apply (IH _ _ H). cbn [Track.m_mapClips].
      apply assign_ordered, O.
    + intros H O. apply (IH _ _ H O).
Qed.

(** X24.  The sample count, the sample rate and the channel count a track
    reports are those of the clip whose file name comes first in the order
    of [std::string], whichever file was added first: for a track
    constructed from a list of files, the getters report the clip under the
    least name of the clips the track holds. *)
Theorem X24_getters_report_the_clip_with_the_least_name
    (loadFromFile : string -> option SoundBuffer) (liFileNames : list string)
    (tr : Track.t) (name : string) (sBuf : SoundBuffer) :
  Track.of_files loadFromFile liFileNames = Done tr ->
  StdMap.find name (Track.m_mapClips tr) = Some sBuf ->
  (forall other, Track.HasClip other tr = true ->
     String.compare name other <> Gt) ->
  Track.GetSampleCount tr = to_int (getSampleCount sBuf)
  /\ Track.GetSampleRate tr = to_int (getSampleRate sBuf)
  /\ Track.GetChannelCount tr = to_int (getChannelCount sBuf).
Proof.
  intros E Hf Hleast.
  pose proof (AddClips_ordered _ _ _ _ E I) as O.
  unfold Track.GetSampleCount, Track.GetSampleRate, Track.GetChannelCount,
    StdMap.begin.
  destruct (Track.m_mapClips tr) as [|[k0 c0] rest] eqn:Em; [discriminate|].
  cbn [hd_error].
  assert (Ek : k0 = name).
  { destruct (String.eqb_spec name k0) as [-> | Hne]; [reflexivity|].
    exfalso.
    assert (H0 : Track.HasClip k0 tr = true).
    { unfold Track.HasClip. rewrite Em. cbn. rewrite String.eqb_refl. reflexivity. }
    specialize (Hleast k0 H0).
    cbn [StdMap.find] in Hf.
    destruct (String.eqb_spec name k0) as [|_]; [contradiction|].
    apply find_In in Hf.
    pose proof (ordered_above rest k0 c0 O _ Hf) as C. cbn [fst] in C.
    apply Hleast. rewrite String.compare_antisym, C. reflexivity. }
  subst k0. cbn [StdMap.find] in Hf. rewrite String.eqb_refl in Hf.
  injection Hf as ->. repeat split.
Qed.

Lemma X24_getters_report_the_clip_with_the_least_name_witness :
  Track.GetSampleCount Scenario.track_ab = to_int (getSampleCount Scenario.tone)
  /\ Track.GetSampleRate Scenario.track_ab = to_int (getSampleRate Scenario.tone)
  /\ Track.GetChannelCount Scenario.track_ab
     = to_int (getChannelCount Scenario.tone).
Proof.
  apply (X24_getters_report_the_clip_with_the_least_name Scenario.files
           ["b"; "a"] Scenario.track_ab "a" Scenario.tone).
  - reflexivity.
  - reflexivity.
  - intros other H. unfold Track.HasClip in H.
    change (Track.m_mapClips Scenario.track_ab)
      with [("a", Scenario.tone); ("b", Scenario.ramp)] in H.
    cbn [StdMap.find] in H.
    destruct (String.eqb_spec other "a") as [E | _].
    + subst other. vm_compute. discriminate.
    + destruct (String.eqb_spec other "b") as [E | _].
      * subst other. vm_compute. discriminate.
      * discriminate H.
Defined.

(** ** Moving a mixer *)

(** X25.  The move constructor and the move assignment of [LoopLauncher]
    carry the tracks, the position and the needs-audio flag over, but not
    the staged requests.  A mixer constructed by a move has none: whatever
    was requested of the old mixer, the next [postPendingTracks] gives
    every track the clip called "silence", or no pending clip.  A mixer
    assigned to keeps its own: the requests staged for the tracks it had
    before are posted to the tracks it received.  (The staged map is a
    [std::map]: its keys are ordered.) *)
Theorem X25_a_move_does_not_carry_the_staged_requests
    (this other : LoopLauncher.t) (name : string) :
  StdMap.ordered (LoopLauncher.m_mapPendingTracks this) ->
  LoopLauncher.NeedsAudio (LoopLauncher.move other)
  = LoopLauncher.NeedsAudio other
  /\ StdMap.find name
       (LoopLauncher.m_mapTracks
          (LoopLauncher.postPendingTracks (LoopLauncher.move other)))
     = option_map
         (fun tr =>
            Track.with_pending
              (if Track.HasClip "silence" tr then Some "silence" else None) tr)
         (StdMap.find name (LoopLauncher.m_mapTracks other))
  /\ StdMap.find name
       (LoopLauncher.m_mapTracks
          (LoopLauncher.postPendingTracks
             (LoopLauncher.move_assign this other)))
     = option_map
         (fun tr =>
            Track.with_pending
              (match StdMap.find name (LoopLauncher.m_mapPendingTracks this) with
               | Some clip => if Track.HasClip clip tr then Some clip else None
               | None =>
                   if Track.HasClip "silence" tr then Some "silence" else None
               end) tr)
         (StdMap.find name (LoopLauncher.m_mapTracks other)).
Proof.
  intros Ho. split; [reflexivity|]. split.
  - rewrite (postPendingTracks_find (LoopLauncher.move other) name I).
    reflexivity.
  - rewrite (postPendingTracks_find (LoopLauncher.move_assign this other) name Ho).
    reflexivity.
Qed.

Lemma X25_a_move_does_not_carry_the_staged_requests_witness :
  StdMap.find "drums"
    (LoopLauncher.m_mapTracks
       (LoopLauncher.postPendingTracks
          (LoopLauncher.move
             (snd (LoopLauncher.UpdatePendingClips ["y"] Scenario.mixer)))))
  = option_map
      (fun tr =>
         Track.with_pending
           (if Track.HasClip "silence" tr then Some "silence" else None) tr)
      (StdMap.find "drums"
         (LoopLauncher.m_mapTracks
            (snd (LoopLauncher.UpdatePendingClips ["y"] Scenario.mixer)))).
Proof.
  apply (X25_a_move_does_not_carry_the_staged_requests Scenario.mixer
           (snd (LoopLauncher.UpdatePendingClips ["y"] Scenario.mixer))
           "drums" I).
Defined.

(** ** From [Initialize] to the stream *)

Lemma assign_not_nil {V : Type} (k : string) (v : V) (m : StdMap.t V) :
  StdMap.assign k v m <> [].
Proof.
  destruct m as [|[k' v'] m]; cbn [StdMap.assign]; [discriminate|].
  destruct (String.compare k k'); discriminate.
Qed.

Section WellSizedFiles.

Variable loadFromFile : string -> option SoundBuffer.
Variable b : Z.

(** Every file that decodes has 64 buffers of samples, and the fade
    [AddClip] computes for it is no longer than a buffer. *)
Hypothesis sized : forall (file : string) (sBuf : SoundBuffer),
  loadFromFile file = Some sBuf ->
  getSampleCount sBuf = 64 * b
  /\ Forall is_i16 (getSamples sBuf)
  /\ exists fade, Track.fadeSamples sBuf = Some fade
                  /\ 0 <= fade <= b /\ fade <= 2 ^ 21.

Lemma AddClips_sized (liFileNames : list string) :
  forall tr : Track.t,
    0 <= b ->
    Steady.track_ok b 64 tr ->
    Track.m_pPendingTrack tr = None -> Track.m_pPendingClip tr = None ->
    exists tr',
      Track.AddClips loadFromFile liFileNames tr = Done tr'
      /\ Steady.track_ok b 64 tr'
      /\ Track.m_pPendingTrack tr' = None /\ Track.m_pPendingClip tr' = None
      /\ (Track.m_mapClips tr <> []
          \/ (exists file, In file liFileNames /\ loadFromFile file <> None) ->
          Track.m_mapClips tr' <> []).
Proof.
  induction liFileNames as [|file rest IH]; intros tr Hb Hok Ha Hp;
    cbn [Track.AddClips].
  - exists tr. split; [reflexivity|]. split; [assumption|].
    split; [assumption|]. split; [assumption|].
    intros [H | (file & Hin & _)]; [exact H | destruct Hin].
  - unfold Track.AddClip.
    destruct (loadFromFile file) as [sBuf|] eqn:El.
    + destruct (sized _ _ El) as (Hc & Hs & fade & Ef & Hf & Hf21).
      pose proof Hok as (HF & HF21 & Hall & _ & _).
      set (fade' := if (Track.m_nFadeSamples tr =? 0)%Z then fade
                    else Track.m_nFadeSamples tr).
      assert (E : (if (Track.m_nFadeSamples tr =? 0)%Z
                   then lift FloatToIntOverflow (Track.fadeSamples sBuf)
                   else Done (Track.m_nFadeSamples tr)) = Done fade').
      { unfold fade'. destruct (Track.m_nFadeSamples tr =? 0)%Z;
          [rewrite Ef|]; reflexivity. }
      rewrite E. cbn [bind].
      match goal with |- context [Track.AddClips _ rest ?t] => set (tr1 := t) end.
      destruct (IH tr1 Hb) as (tr' & E' & Hok' & Ha' & Hp' & Hne').
      * unfold Steady.track_ok, tr1. cbn. rewrite Ha, Hp.
        repeat split; try discriminate.
        -- unfold fade'. destruct (Track.m_nFadeSamples tr =? 0)%Z; lia.
        -- unfold fade'. destruct (Track.m_nFadeSamples tr =? 0)%Z; lia.
        -- unfold fade'. destruct (Track.m_nFadeSamples tr =? 0)%Z; lia.
        -- apply (Forall_assign
                    (fun c => getSampleCount c = 64 * b
                              /\ Forall is_i16 (getSamples c)));
             [split; assumption | exact Hall].
      * exact Ha.
      * exact Hp.
      * exists tr'. split; [exact E'|]. split; [assumption|].
        split; [assumption|]. split; [assumption|].
        intros _. apply Hne'. left. unfold tr1. cbn. apply assign_not_nil.
    + cbn [bind]. destruct (IH tr Hb Hok Ha Hp) as (tr' & E' & Hok' & Ha' & Hp' & Hne').
      exists tr'. split; [exact E'|]. split; [assumption|].
      split; [assumption|]. split; [assumption|].
      intros [H | (f & [<- | Hin] & Hl)].
      * apply Hne'. left. exact H.
      * congruence.
      * apply Hne'. right. exists f. split; assumption.
Qed.

Lemma postPendingTracks_ok (q i : Z) (ll : LoopLauncher.t) :
  Steady.mixer_ok b q i ll ->
  Steady.mixer_ok b q i (LoopLauncher.postPendingTracks ll).
Proof.
  intros (Hb & Hq & Hqb & Hi & Hlen & Hmax & Hpos & name & tr & Ht & Hok).
  unfold Steady.mixer_ok, LoopLauncher.postPendingTracks.
  cbn [LoopLauncher.m_vMixBuffer LoopLauncher.m_nMaxSampleCount
       LoopLauncher.m_nLastSamplePos LoopLauncher.m_mapTracks].
  rewrite Ht. cbn [LoopLauncher.silence_all map fst snd].
  destruct (apply_pending_one name (LoopLauncher.m_mapPendingTracks ll) b q _
              (SetPendingTrack_ok b q "silence" tr Hok)) as (tr1 & E & Hok1).
  repeat split; try assumption; try lia.
  exists name, tr1. split; assumption.
Qed.

End WellSizedFiles.

(** X26.  From [Initialize] on.  A mixer initialised with one track, of
    which at least one file decodes, every decoded file having 64 times
    [b] samples and a fade of at most [b] samples (and at most [2 ^ 21]),
    gets a mix buffer of [b] samples and a cycle of 64 buffers; whatever
    is then requested with [UpdatePendingClips], after [Play] every call of
    [onGetData] returns true, and after [k] calls the sample position is
    that of buffer [k mod 64]. *)
Theorem X26_one_well_sized_track_from_Initialize_on
    (loadFromFile : string -> option SoundBuffer) (b : Z)
    (trackName : string) (liFileNames : list string) :
  1 <= b -> 64 * b <= INT_MAX ->
  (forall (file : string) (sBuf : SoundBuffer),
     loadFromFile file = Some sBuf ->
     getSampleCount sBuf = 64 * b
     /\ Forall is_i16 (getSamples sBuf)
     /\ exists fade, Track.fadeSamples sBuf = Some fade
                     /\ 0 <= fade <= b /\ fade <= 2 ^ 21) ->
  (exists file, In file liFileNames /\ loadFromFile file <> None) ->
  exists ll,
    LoopLauncher.Initialize loadFromFile [(trackName, liFileNames)]
      LoopLauncher.default = Done (true, ll)
    /\ Z.of_nat (length (LoopLauncher.m_vMixBuffer ll)) = b
    /\ LoopLauncher.m_nMaxSampleCount ll = 64 * b
    /\ forall (liNewActiveClips : list string) (k : nat),
       exists ll',
         Scenario.stream k
           (LoopLauncher.Play
              (snd (LoopLauncher.UpdatePendingClips liNewActiveClips ll)))
         = Done ll'
         /\ LoopLauncher.m_nLastSamplePos ll' = (Z.of_nat k mod 64) * b.
Proof.
  intros Hb Hqb Hsized Hsome.
  destruct (AddClips_sized loadFromFile b Hsized liFileNames Track.default)
    as (tr & E & Hok & Ha & Hp & Hne).
  - lia.
  - unfold Steady.track_ok. cbn. repeat split; try lia; try discriminate.
    constructor.
  - reflexivity.
  - reflexivity.
  - specialize (Hne (or_intror Hsome)).
    assert (Et : LoopLauncher.emplace_tracks loadFromFile
                   [(trackName, liFileNames)]
                   (LoopLauncher.m_mapTracks LoopLauncher.default)
                 = Done [(trackName, tr)]).
    { cbn [LoopLauncher.emplace_tracks LoopLauncher.m_mapTracks
           LoopLauncher.default].
      unfold Track.of_files. rewrite E. reflexivity. }
    assert (Ec : Track.GetSampleCount tr = 64 * b).
    { unfold Track.GetSampleCount, StdMap.begin.
      destruct (Track.m_mapClips tr) as [|[k0 c0] rest] eqn:Em; [congruence|].
      cbn [hd_error]. destruct Hok as (_ & _ & Hall & _).
      rewrite Em in Hall. inversion Hall as [|e l [Hc _] _]; subst.
      cbn [snd] in Hc. rewrite Hc. apply to_int_id. unfold INT_MAX in *. lia. }
    assert (Em : LoopLauncher.min_sample_count [(trackName, tr)] = 64 * b).
    { unfold LoopLauncher.min_sample_count. cbn [map fold_right snd].
      rewrite Ec. lia. }
    rewrite (Initialize_spec _ _ _ _ Et), Em.
    rewrite Z.mul_comm, Z.quot_mul by lia.
    assert (Er : resize b (LoopLauncher.m_vMixBuffer LoopLauncher.default)
                 = Done (repeat 0 (Z.to_nat b))).
    { unfold resize. destruct (Z.ltb_spec b 0); [lia|].
      cbn [LoopLauncher.m_vMixBuffer LoopLauncher.default firstn length app].
      rewrite firstn_nil, Nat.sub_0_r. reflexivity. }
    rewrite Er. cbn [bind]. eexists. split; [reflexivity|].
    cbn [LoopLauncher.m_vMixBuffer LoopLauncher.m_nMaxSampleCount
         LoopLauncher.sample_count_range fst LoopLauncher.default].
    rewrite Ec, repeat_length.
    split; [lia|]. split; [lia|].
    intros clips k.
    match goal with |- context [LoopLauncher.UpdatePendingClips clips ?l] =>
      set (ll := l) end.
    assert (Hm : Steady.mixer_ok b 64 0 ll).
    { unfold Steady.mixer_ok, ll.
      cbn [LoopLauncher.m_vMixBuffer LoopLauncher.m_nMaxSampleCount
           LoopLauncher.m_nLastSamplePos LoopLauncher.m_mapTracks
           LoopLauncher.default].
      rewrite repeat_length. repeat split; try lia.
      exists trackName, tr. split; [reflexivity | exact Hok]. }
    destruct (steady_stream b 64 0 _ k
                (postPendingTracks_ok b 64 0 _
                   (UpdatePendingClips_ok b 64 0 clips ll Hm)))
      as (ll' & Es & Hpos & _).
    exists ll'. split; [exact Es|]. rewrite Hpos. reflexivity.
Qed.

Lemma X26_one_well_sized_track_from_Initialize_on_witness :
  exists ll,
    LoopLauncher.Initialize
      (fun file => if String.eqb file "pad" then Some Scenario.loop320 else None)
      [("pads", ["pad"; "no such file"])] LoopLauncher.default
    = Done (true, ll)
    /\ Z.of_nat (length (LoopLauncher.m_vMixBuffer ll)) = 5
    /\ LoopLauncher.m_nMaxSampleCount ll = 64 * 5
    /\ forall (liNewActiveClips : list string) (k : nat),
       exists ll',
         Scenario.stream k
           (LoopLauncher.Play
              (snd (LoopLauncher.UpdatePendingClips liNewActiveClips ll)))
         = Done ll'
         /\ LoopLauncher.m_nLastSamplePos ll' = (Z.of_nat k mod 64) * 5.
Proof.
  apply (X26_one_well_sized_track_from_Initialize_on
           (fun file => if String.eqb file "pad" then Some Scenario.loop320 else None)
           5 "pads" ["pad"; "no such file"]).
  - lia.
  - unfold INT_MAX. lia.
  - intros file sBuf H.
    destruct (String.eqb file "pad"); [|discriminate]. injection H as <-.
    split; [reflexivity|]. split.
    + apply Forall_forall. intros x Hx. apply repeat_spec in Hx. subst x.
      unfold is_i16. lia.
    + exists 5. split; [vm_compute; reflexivity | lia].
  - exists "pad". split; [left; reflexivity | discriminate].
Defined.

(** ** What the stream plays inside the cycle *)

(** X27.  In a mixer of one track whose clips all have the length of the
    cycle, a whole number of buffers, and which has an active clip, a
    block that does not end the cycle is the clip at half volume:
    [onGetData] hands out, at index [x] of the mix buffer, half of the
    sample [i * b + x] of the active clip, rounded toward zero, and leaves
    the track as it is. *)
Theorem X27_a_block_inside_the_cycle_is_the_halved_clip
    (b q i : Z) (ll : LoopLauncher.t) (name act : string) (tr : Track.t)
    (clip : SoundBuffer) :
  Steady.mixer_ok b q i ll -> i + 1 < q ->
  LoopLauncher.m_mapTracks ll = [(name, tr)] ->
  Track.m_pPendingTrack tr = Some act ->
  StdMap.find act (Track.m_mapClips tr) = Some clip ->
  exists ll',
    LoopLauncher.onGetData ll = Done (true, ll')
    /\ LoopLauncher.m_mapTracks ll' = [(name, tr)]
    /\ LoopLauncher.m_nLastSamplePos ll' = (i + 1) * b
    /\ forall x, 0 <= x < b ->
         zth (LoopLauncher.m_vMixBuffer ll') x
         = Z.quot (zth (getSamples clip) (i * b + x)) 2.
Proof.
  intros (Hb & Hq & Hqb & Hi & Hlen & Hmax & Hpos & name' & tr' & Ht' & Hok)
         Hin Ht Ha Hf.
  rewrite Ht in Ht'. injection Ht' as <- <-.
  destruct (track_ok_clip _ _ _ _ _ Hok Hf) as (Hc & Hs).
  unfold LoopLauncher.onGetData.
  destruct (LoopLauncher.m_vMixBuffer ll) as [|x0 buf] eqn:Eb;
    [cbn in Hlen; lia|].
  set (k := length (x0 :: buf)) in *. cbv zeta.
  assert (Hle : (i + 1) * b <= (q - 1) * b)
    by (apply Z.mul_le_mono_nonneg_r; lia).
  assert (Hib : 0 <= i * b) by (apply Z.mul_nonneg_nonneg; lia).
  assert (Hint : to_int b = b) by (apply to_int_id; unfold INT_MAX in *; lia).
  rewrite Hmax, Hpos, Hlen, Hint.
  unfold INT_MAX in Hqb.
  rewrite (to_u64_id (q * b)), (to_u64_id (i * b)), (to_u64_id (b + i * b)) by lia.
  assert (Ep : to_int (to_u64 (i * b + b)) = i * b + b).
  { rewrite to_u64_id by lia. apply to_int_id. unfold INT_MAX. lia. }
  destruct (Z.leb_spec (q * b) (b + i * b)) as [Hwrap | _]; [lia|].
  cbn [LoopLauncher.m_mapTracks LoopLauncher.m_nLastSamplePos
       LoopLauncher.m_nMaxSampleCount LoopLauncher.m_bNeedsAudio
       LoopLauncher.m_mapPendingTracks LoopLauncher.m_stream].
  rewrite Ht, Hpos, Hmax. cbn [LoopLauncher.render_tracks].
  assert (Hmod : (i * b) mod getSampleCount clip = i * b).
  { rewrite Hc. apply Z.mod_small. lia. }
  destruct (GetAudio_inside tr act clip (repeat 0 k) b (i * b))
    as (mix' & E & L & _ & HZ); try assumption; unfold INT_MAX; try lia.
  - rewrite repeat_length. lia.
  - apply Forall_repeat_0.
  - intros x Hx. rewrite zth_repeat_0, mixed_0, Hmod.
    pose proof (quot2_range (zth (getSamples clip) (i * b + x))
                  ltac:(apply Forall_zth;
                        [assumption
                        | change (Z.of_nat (length (getSamples clip)))
                            with (getSampleCount clip); lia])).
    unfold is_i16. lia.
  - rewrite E. cbn [bind lift]. rewrite (to_u64_id (i * b)) by lia. rewrite Ep.
    eexists. split; [reflexivity|].
    cbn [LoopLauncher.m_mapTracks LoopLauncher.m_nLastSamplePos
         LoopLauncher.m_vMixBuffer].
    destruct (Z.leb_spec (q * b) (i * b + b)); [lia|].
    split; [reflexivity|]. split; [lia|].
    intros x Hx. rewrite (HZ x (proj1 Hx)).
    destruct (Z.ltb_spec x b); [|lia].
    rewrite zth_repeat_0, mixed_0, Hmod. reflexivity.
Qed.

Lemma X27_a_block_inside_the_cycle_is_the_halved_clip_witness :
  let tr :=
    {| Track.m_nFadeSamples := 5;
       Track.m_nSampleCount := 320;
       Track.m_mapClips := [("pad", Scenario.loop320)];
       Track.m_pPendingTrack := Some "pad";
       Track.m_pPendingClip := None |} in
  exists ll',
    LoopLauncher.onGetData
      {| LoopLauncher.m_nLastSamplePos := 2 * 5;
         LoopLauncher.m_nMaxSampleCount := 320;
         LoopLauncher.m_mapTracks := [("pads", tr)];
         LoopLauncher.m_vMixBuffer := [7; 7; 7; 7; 7];
         LoopLauncher.m_bNeedsAudio := false;
         LoopLauncher.m_mapPendingTracks := [];
         LoopLauncher.m_stream := Some (1, 1000) |}
    = Done (true, ll')
    /\ LoopLauncher.m_mapTracks ll' = [("pads", tr)]
    /\ LoopLauncher.m_nLastSamplePos ll' = (2 + 1) * 5
    /\ forall x, 0 <= x < 5 ->
         zth (LoopLauncher.m_vMixBuffer ll') x
         = Z.quot (zth (getSamples Scenario.loop320) (2 * 5 + x)) 2.
Proof.
  cbv zeta.
  apply (X27_a_block_inside_the_cycle_is_the_halved_clip 5 64 2 _ "pads" "pad" _
           Scenario.loop320).
  - unfold Steady.mixer_ok, INT_MAX.
    split; [lia|]. split; [lia|]. split; [lia|]. split; [lia|].
    split; [reflexivity|]. split; [reflexivity|]. split; [reflexivity|].
    eexists. eexists. split; [reflexivity|].
    unfold Steady.track_ok.
    cbn [Track.m_nFadeSamples Track.m_mapClips Track.m_pPendingTrack
         Track.m_pPendingClip].
    split; [lia|]. split; [lia|]. split.
    + constructor; [|constructor]. cbn [snd]. split; [reflexivity|].
      apply Forall_forall. intros x Hx. apply repeat_spec in Hx. subst x.
      unfold is_i16. lia.
    + split.
      * intros a [= <-]. reflexivity.
      * intros p H. discriminate H.
  - lia.
  - reflexivity.
  - reflexivity.
  - reflexivity.
Defined.
